(** * Label clustering pipeline: a shallow embedding

    The development follows [utils/UtilsDQAnalysis.py] and
    [utils/UtilsMatching.py]: text clean-up of labels, exhaustive pairwise
    scoring, the matched frame, graph clustering and the common-word label of
    a cluster.  Python values are embedded as follows.

    - [str] holding ASCII text is [string]; a [str] that may still hold
      accents is a list of code points ([list N]).
    - A pandas cell that may be NaN/None is an [option].
    - A DataFrame is the list of its rows, a row being a record of the
      columns the code reads or writes.
    - A [dict] is a [gmap], a Python [set] is a [gset].
    - Exceptions are the [Raise] branch of [result]; the calls made to the
      similarity library and the draws of [random.choice] are recorded in a
      [world] that is threaded through the code.

    Three libraries the repository imports are not part of it.  The string
    metrics of [textdistance] and the table of [unicodedata] are section
    variables; [networkx.connected_components] is modelled from its
    contract. *)

From Stdlib Require Import String Ascii List QArith Qminmax Lia.
From stdpp Require Import base list gmap strings pretty relations.

Open Scope string_scope.
Open Scope list_scope.

(** ** Exceptions *)

Inductive exn : Type :=
| ValueError (msg : string)
| TypeError (msg : string)
| IndexError (msg : string)
| AttributeError (msg : string).

Inductive result (A : Type) : Type :=
| Ok (a : A)
| Raise (e : exn).
Arguments Ok {A} a.
Arguments Raise {A} e.

Definition is_ok {A} (r : result A) : bool :=
  match r with Ok _ => true | Raise _ => false end.

Global Instance result_ret : MRet result := λ A a, Ok a.
Global Instance result_bind : MBind result := λ A B f m,
  match m with Ok a => f a | Raise e => Raise e end.

(** ** Python string primitives on ASCII text *)

Module Str.

Definition code (c : ascii) : nat := nat_of_ascii c.

Definition in_range (lo hi : nat) (c : ascii) : bool :=
  (lo <=? code c)%nat && (code c <=? hi)%nat.

(** [str.isspace] on the ASCII range: TAB, LF, VT, FF, CR, the four
    separators 0x1c-0x1f and the space.  [str.split()], [str.strip()] and
    the regex class [\s] all use it. *)
Definition is_space (c : ascii) : bool := in_range 9 13 c || in_range 28 32 c.

Definition is_digit (c : ascii) : bool := in_range 48 57 c.
Definition is_upper (c : ascii) : bool := in_range 65 90 c.
Definition is_lower (c : ascii) : bool := in_range 97 122 c.
Definition is_alnum (c : ascii) : bool := is_digit c || is_upper c || is_lower c.

(** The regex class [\w] on ASCII text. *)
Definition is_word (c : ascii) : bool := is_alnum c || Ascii.eqb c "_"%char.

Definition lower_char (c : ascii) : ascii :=
  if is_upper c then ascii_of_nat (code c + 32) else c.

(** [s.lower()] *)
Fixpoint lower (s : string) : string :=
  match s with
  | EmptyString => EmptyString
  | String c r => String (lower_char c) (lower r)
  end.

Definition flush (w : string) : list string :=
  match w with EmptyString => [] | _ => [w] end.

(** [s.split()]: the maximal runs of non-whitespace characters.  [w] is
    the word being read. *)
Fixpoint split_go (w : string) (s : string) : list string :=
  match s with
  | EmptyString => flush w
  | String c r =>
      if is_space c then flush w ++ split_go EmptyString r
      else split_go (w +:+ String c EmptyString) r
  end.

Definition split (s : string) : list string := split_go EmptyString s.

(** [sep.join(l)] *)
Definition join (sep : string) (l : list string) : string := String.concat sep l.

(** [s.lstrip()] and [s.rstrip()] on the characters of [s]. *)
Fixpoint lstrip (s : list ascii) : list ascii :=
  match s with
  | c :: r => if is_space c then lstrip r else s
  | [] => []
  end.

Fixpoint rstrip (s : list ascii) : list ascii :=
  match s with
  | [] => []
  | c :: r =>
      match rstrip r with
      | [] => if is_space c then [] else [c]
      | r' => c :: r'
      end
  end.

(** [s.strip()] *)
Definition strip (s : list ascii) : list ascii := rstrip (lstrip s).

End Str.

(** ** The regular expressions of the label clean-up

    [re.sub(pattern, repl, s)] scans [s] from the left; at each position it
    tries the pattern, and on success emits the replacement and resumes
    after the match, otherwise it copies one character.  A pattern is
    embedded as the function that tries it at one position: it sees the
    character before the position (for look-behinds and [\b]) and the rest
    of the subject, and answers the replacement text with the length of the
    match.  All patterns of the module match at least one character. *)

Module Re.

Definition matcher : Type := option ascii → list ascii → option (list ascii * nat).

(** [skip] characters of a match already replaced are still to be passed. *)
Fixpoint sub_go (m : matcher) (prev : option ascii) (skip : nat) (s : list ascii)
  : list ascii :=
  match s with
  | [] => []
  | c :: r =>
      match skip with
      | S k => sub_go m (Some c) k r
      | O =>
          match m prev s with
          | Some (repl, n) => repl ++ sub_go m (Some c) (pred n) r
          | None => c :: sub_go m (Some c) 0 r
          end
      end
  end.

Definition sub (m : matcher) (s : list ascii) : list ascii := sub_go m None 0 s.

(** The longest prefix whose characters satisfy [p], and what follows. *)
Fixpoint span (p : ascii → bool) (s : list ascii) : list ascii * list ascii :=
  match s with
  | c :: r => if p c then let '(a, b) := span p r in (c :: a, b) else ([], s)
  | [] => ([], [])
  end.

Definition holds (p : ascii → bool) (c : option ascii) : bool :=
  match c with Some x => p x | None => false end.

(** [\b]: exactly one of the two neighbours is a word character. *)
Definition word_boundary (before after : option ascii) : bool :=
  xorb (holds Str.is_word before) (holds Str.is_word after).

Definition nonempty {A} (l : list A) : bool :=
  match l with [] => false | _ => true end.

Definition is_sep (c : ascii) : bool := Ascii.eqb c ","%char || Ascii.eqb c "."%char.

(** [(?<=\d)[,.](?=\d)], replaced by the empty string. *)
Definition decimal_separator : matcher := λ prev s,
  match s with
  | c :: r =>
      if is_sep c && holds Str.is_digit prev && holds Str.is_digit (head r)
      then Some ([], 1) else None
  | [] => None
  end.

(** [\b(\d+)\s+(\d+)\b], replaced by [\1\2].  Each of the three runs has to
    be maximal: a shorter first run is followed by a digit and not by a
    space, a shorter run of spaces is followed by a space and not by a
    digit, and a shorter last run ends between two digits, where there is no
    word boundary. *)
Definition digit_groups : matcher := λ prev s,
  let '(d1, s1) := span Str.is_digit s in
  let '(ws, s2) := span Str.is_space s1 in
  let '(d2, s3) := span Str.is_digit s2 in
  if nonempty d1 && nonempty ws && nonempty d2
     && word_boundary prev (head d1) && word_boundary (last d2) (head s3)
  then Some (d1 ++ d2, length d1 + length ws + length d2) else None.

(** [(?<!K)\d+], replaced by [X]. *)
Definition digits_not_after_K : matcher := λ prev s,
  let '(d, _) := span Str.is_digit s in
  if nonempty d && negb (holds (Ascii.eqb "K"%char) prev)
  then Some (["X"%char], length d) else None.

(** [[^a-zA-Z0-9\s%]], replaced by a space. *)
Definition keeps (c : ascii) : bool :=
  Str.is_alnum c || Str.is_space c || Ascii.eqb c "%"%char.

Definition foreign_char : matcher := λ _ s,
  match s with
  | c :: _ => if keeps c then None else Some ([" "%char], 1)
  | [] => None
  end.

(** [\s+], replaced by a space. *)
Definition spaces : matcher := λ _ s,
  let '(ws, _) := span Str.is_space s in
  if nonempty ws then Some ([" "%char], length ws) else None.

(** [\bX\s+<tail>\b] for a literal [tail] of word characters, replaced by
    [repl]: the patterns [\bX\s+mX\b] and [\bX\s+l\b]. *)
Definition unit_after_X (tail repl : list ascii) : matcher := λ prev s,
  match s with
  | c :: s1 =>
      let '(ws, s2) := span Str.is_space s1 in
      if Ascii.eqb c "X"%char && word_boundary prev (Some c) && nonempty ws
         && bool_decide (take (length tail) s2 = tail)
         && word_boundary (last tail) (head (drop (length tail) s2))
      then Some (repl, 1 + length ws + length tail) else None
  | [] => None
  end.

Definition X_mX : matcher :=
  unit_after_X (list_ascii_of_string "mX") (list_ascii_of_string "xmx").
Definition X_l : matcher :=
  unit_after_X (list_ascii_of_string "l") (list_ascii_of_string "xL").

End Re.

(** ** Generic list helpers for pandas and itertools *)

(** The first row of each key, in order of appearance: [Series.unique()] and
    [DataFrame.drop_duplicates(subset=...)] both keep first occurrences. *)
Fixpoint first_occurrences {A K} `{EqDecision K} (key : A → K) (seen : list K)
    (l : list A) : list A :=
  match l with
  | [] => []
  | x :: l' =>
      if decide (key x ∈ seen) then first_occurrences key seen l'
      else x :: first_occurrences key (key x :: seen) l'
  end.

(** [itertools.combinations(l, 2)] *)
Fixpoint combinations2 {A} (l : list A) : list (A * A) :=
  match l with
  | [] => []
  | x :: l' => (pair x <$> l') ++ combinations2 l'
  end.

(** [dict(pairs)] and dict comprehensions: a later pair overrides an earlier
    one with the same key. *)
Definition py_dict {K V} `{Countable K} (pairs : list (K * V)) : gmap K V :=
  foldl (λ d kv, <[kv.1 := kv.2]> d) ∅ pairs.

(** [enumerate(l)] *)
Definition enumerate {A} (l : list A) : list (nat * A) := imap pair l.

Global Instance Qle_decision (x y : Q) : Decision (x <= y)%Q.
Proof.
  destruct (Qle_bool x y) eqn:E; [left|right].
  - by apply Qle_bool_iff.
  - intros H%Qle_bool_iff. congruence.
Defined.

(** [max(xs)]: the first greatest element; [ValueError] on an empty list. *)
Definition py_max (xs : list Q) : result Q :=
  match xs with
  | [] => Raise (ValueError "max() arg is an empty sequence")
  | x :: xs' => Ok (foldl (λ m y, if decide (y <= m)%Q then m else y) x xs')
  end.

(** ** The enumerations and the frames *)

Inductive MatchingAlgorithm : Type :=
| LEVENSHTEIN | DAMERAU_LEVENSHTEIN | JACCARD | JAROWINKLER | COSINE.

Global Instance MatchingAlgorithm_eq_dec : EqDecision MatchingAlgorithm.
Proof. solve_decision. Defined.

(** An element of the list [matching_algorithms]: a member of the
    enumeration, or any other Python object (shown by its [repr]). *)
Inductive algorithm_id : Type :=
| Member (a : MatchingAlgorithm)
| Foreign (repr : string).

(** A row of the frame the driver holds: [_unicity_key] and [label]. *)
Record main_row : Type := MainRow {
  unicity_key : nat;
  label : option string
}.

(** A row of [working_df]: the label is present. *)
Record working_row : Type := WorkingRow {
  w_key : nat;
  w_label : string
}.

(** A row of the frame [compute_similarity_matrix] returns. *)
Record similarity_row : Type := SimilarityRow {
  Final_score : Q;
  Combinations : list string
}.

(** A row of [matched_df] and [result_df], with its [_cluster_id]. *)
Record clustered_row : Type := ClusteredRow {
  c_key : nat;
  c_label : string;
  c_cluster_id : string
}.

(** A row of the frame [process_clusters] returns. *)
Record output_row : Type := OutputRow {
  o_key : nat;
  o_label : option string;
  o_cluster_id : option string;
  o_cluster_size : option nat
}.

Global Instance working_row_eq_dec : EqDecision working_row.
Proof. solve_decision. Defined.
Global Instance clustered_row_eq_dec : EqDecision clustered_row.
Proof. solve_decision. Defined.

(** ** The world: random draws and library calls *)

Record world : Type := World {
  draws : nat;
  scored : list (MatchingAlgorithm * string * string)
}.

Definition M (A : Type) : Type := world → result A * world.

Global Instance M_ret : MRet M := λ A a w, (Ok a, w).
Global Instance M_bind : MBind M := λ A B f m w,
  match m w with
  | (Ok a, w') => f a w'
  | (Raise e, w') => (Raise e, w')
  end.

Definition raise {A} (e : exn) : M A := λ w, (Raise e, w).

Definition lift {A} (r : result A) : M A := λ w, (r, w).

(** ** An undirected graph as [networkx.Graph] builds it *)

Record graph : Type := Graph {
  nodes : list nat;
  edges : list (nat * nat)
}.

Definition empty_graph : graph := Graph [] [].

Definition add_node (g : graph) (k : nat) : graph :=
  if decide (k ∈ nodes g) then g else Graph (nodes g ++ [k]) (edges g).

Definition add_nodes_from (g : graph) (ks : list nat) : graph := foldl add_node g ks.

Definition add_edge (g : graph) (e : nat * nat) : graph :=
  let g' := add_node (add_node g e.1) e.2 in
  Graph (nodes g') (edges g' ++ [e]).

Definition add_edges_from (g : graph) (es : list (nat * nat)) : graph :=
  foldl add_edge g es.

(** Modelled from the spec: [networkx.connected_components] is library code;
    section 4.3 and the design notes ask for the connected components by
    union-find or an equivalent traversal.  Each node has a leader, merging
    the two classes of every edge in turn; a component is the class of the
    first node not yet listed, and components come in the order of their
    first node. *)
Definition union_classes (leader : nat → nat) (e : nat * nat) : nat → nat :=
  λ x, if decide (leader x = leader e.2) then leader e.1 else leader x.

Definition leader_of (g : graph) : nat → nat := foldl union_classes id (edges g).

Fixpoint components_from (leader : nat → nat) (all todo seen : list nat)
  : list (list nat) :=
  match todo with
  | [] => []
  | v :: todo' =>
      if decide (v ∈ seen) then components_from leader all todo' seen
      else
        let c := filter (λ u, leader u = leader v) all in
        c :: components_from leader all todo' (seen ++ c)
  end.

Definition connected_components (g : graph) : list (list nat) :=
  components_from (leader_of g) (nodes g) (nodes g) [].

(** ** [UtilsDQAnalysis.py] *)

Section UtilsDQAnalysis.

(** [unicodedata.normalize("NFD", text)] on code points. *)
Variable unicode_nfd : list N → list N.

(** The [k]-th number the random generator yields. *)
Variable random_draw : nat → nat.

(** [text.encode("ascii", "ignore").decode("utf-8")] *)
Definition encode_ascii_ignore (text : list N) : list ascii :=
  ascii_of_N <$> filter (λ cp, (cp < 128)%N) text.

Definition is_na_or_empty (text : option (list N)) : bool :=
  match text with None | Some [] => true | Some _ => false end.

Definition normalize_text (text : option (list N)) : list ascii :=
  match text with
  | None | Some [] => []
  | Some text => encode_ascii_ignore (unicode_nfd text)
  end.

Definition process_label_ccap (label : option (list N)) : string :=
  if is_na_or_empty label then ""
  else
    let label := normalize_text label in
    let label := Re.sub Re.decimal_separator label in
    let label := Re.sub Re.digit_groups label in
    let label := Re.sub Re.digits_not_after_K label in
    let label := Re.sub Re.foreign_char label in
    let label := Re.sub Re.spaces label in
    let label := Str.strip label in
    string_of_list_ascii label.

Definition process_label_clear (label : option (list N)) : string :=
  if is_na_or_empty label then ""
  else
    let label := normalize_text label in
    let label := Re.sub Re.decimal_separator label in
    let label := Re.sub Re.digit_groups label in
    let label := Re.sub Re.digits_not_after_K label in
    let label := Re.sub Re.foreign_char label in
    let label := Re.sub Re.spaces label in
    let label := Str.strip label in
    let label := Re.sub Re.X_mX label in
    let label := Re.sub Re.X_l label in
    string_of_list_ascii label.

Definition ascii_lowercase : string := "abcdefghijklmnopqrstuvwxyz".
Definition ascii_uppercase : string := "ABCDEFGHIJKLMNOPQRSTUVWXYZ".
Definition digits : string := "0123456789".

(** [random.choice(seq)]: one draw, reduced to an index of [seq]. *)
Definition random_choice (seq : string) : M ascii := λ w,
  match list_ascii_of_string seq !! (random_draw (draws w) mod String.length seq) with
  | Some c => (Ok c, World (S (draws w)) (scored w))
  | None => (Raise (IndexError "Cannot choose from an empty sequence"), w)
  end.

Definition id_generator (size : nat) : M string :=
  let characters := ascii_lowercase +:+ ascii_uppercase +:+ digits in
  cs ← mapM (λ _, random_choice characters) (seq 0 size);
  mret (string_of_list_ascii cs).

Definition find_common_words_with_order (string_list : list string) : result string :=
  let lower_string_list := Str.lower <$> string_list in
  let word_sets : list (gset string) :=
    (λ s, list_to_set (Str.split s)) <$> lower_string_list in
  match word_sets with
  | [] => Raise (TypeError "descriptor 'intersection' of 'set' object needs an argument")
  | s0 :: others =>
      let common_words := foldl (∩) s0 others in
      match string_list with
      | [] => Raise (IndexError "list index out of range")
      | first :: _ =>
          let final_list :=
            filter (λ word, Str.lower word ∈ common_words) (Str.split first) in
          Ok (Str.join " " final_list)
      end
  end.

End UtilsDQAnalysis.

(** ** [UtilsMatching.py] *)

Section UtilsMatching.

(** [f.normalized_similarity(label1, label2)] of [textdistance], [f] being
    the metric object [algorithm_mapping] gives for a member. *)
Variable normalized_similarity : MatchingAlgorithm → string → string → Q.

Variable random_draw : nat → nat.

(** [algorithm_mapping.get(algo)] *)
Definition algorithm_mapping_get (algo : algorithm_id) : option MatchingAlgorithm :=
  match algo with
  | Member a => Some a
  | Foreign _ => None
  end.

Definition call_similarity (f : option MatchingAlgorithm) (label1 label2 : string)
  : M Q :=
  match f with
  | Some a => λ w,
      (Ok (normalized_similarity a label1 label2),
       World (draws w) (scored w ++ [(a, label1, label2)]))
  | None => raise (AttributeError "'NoneType' object has no attribute 'normalized_similarity'")
  end.

(** The frame [df] is read through its column [label] only (the driver
    passes [label_column="label"]). *)
Definition compute_similarity_matrix (df : list working_row)
    (matching_threshold : Q) (matching_algorithms : list algorithm_id)
  : M (list similarity_row) :=
  let matching_functions := algorithm_mapping_get <$> matching_algorithms in
  if decide (None ∈ matching_functions) then
    raise (ValueError "One or more of the specified algorithms are not known or not implemented yet!")
  else
    let unique_labels := first_occurrences id [] (w_label <$> df) in
    let label_pairs := combinations2 unique_labels in
    match label_pairs with
    | [] => raise (ValueError "not enough values to unpack (expected 2, got 0)")
    | _ :: _ =>
        similarities ←
          mapM (λ '(label1, label2),
                  sims ← mapM (λ f, call_similarity f label1 label2) matching_functions;
                  lift (py_max sims))
               label_pairs;
        let filtered_label_pairs :=
          filter (λ ps, (matching_threshold <= ps.2)%Q) (zip label_pairs similarities) in
        mret ((λ '((label1, label2), s), SimilarityRow s [label1; label2])
                <$> filtered_label_pairs)
    end.

(** [df.dropna(subset=["label"])] *)
Definition dropna (df : list main_row) : list working_row :=
  omap (λ r, WorkingRow (unicity_key r) <$> label r) df.

(** [.drop_duplicates(subset=["label"])] *)
Definition drop_duplicates (df : list working_row) : list working_row :=
  first_occurrences w_label [] df.

Definition with_cluster_id (cid : string) (r : working_row) : clustered_row :=
  ClusteredRow (w_key r) (w_label r) cid.

(** The rows [working_df.loc[working_df["label"].isin(labels)]]. *)
Definition rows_isin (working_df : list working_row) (labels : list string)
  : list working_row :=
  filter (λ r, w_label r ∈ labels) working_df.

(** The loop over the matched pairs concatenates one block per pair; every
    block draws one identifier. *)
Definition create_matched_dataframe (df : list main_row)
    (matching_threshold : Q) (matching_algorithms : list algorithm_id)
  : M (list clustered_row) :=
  let working_df := drop_duplicates (dropna df) in
  similarity_df ← compute_similarity_matrix working_df matching_threshold
                    matching_algorithms;
  match similarity_df with
  | _ :: _ =>
      let matched_labels := Combinations <$> similarity_df in
      blocks ← mapM (λ labels,
                       cid ← id_generator random_draw 6;
                       mret (with_cluster_id cid <$> rows_isin working_df labels))
                    matched_labels;
      let matched_df := concat blocks in
      let flattened_matched_labels := concat matched_labels in
      let result_df := filter (λ r, w_label r ∉ flattened_matched_labels) working_df in
      let result_df := (with_cluster_id "" <$> result_df) ++ matched_df in
      mapM (λ r,
              if decide (c_cluster_id r = "") then
                cid ← id_generator random_draw 6;
                mret (ClusteredRow (c_key r) (c_label r) cid)
              else mret r)
           result_df
  | [] => raise (ValueError "No match was found")
  end.

(** [clustered_df.groupby("_cluster_id")["_unicity_key"].apply(set)] *)
Definition groupby_keys (clustered_df : list clustered_row) : gmap string (gset nat) :=
  foldr (λ r g, <[c_cluster_id r := {[c_key r]} ∪ default ∅ (g !! c_cluster_id r)]> g)
        ∅ clustered_df.

Definition add_cluster (g : result graph) (cluster_keys : option (gset nat))
  : result graph :=
  g ← g;
  match cluster_keys with
  | None => Raise (TypeError "'float' object is not iterable")
  | Some ks =>
      let ks := elements ks in
      Ok (add_edges_from (add_nodes_from g ks) (combinations2 ks))
  end.

Definition cluster_name (i : nat) : string := "cluster_" +:+ pretty i.

Definition cluster_size (ids : list (option string)) (cid : option string)
  : option nat :=
  match cid with
  | Some c => Some (length (filter (λ x, x = Some c) ids))
  | None => None
  end.

(** The column [_unicity_key_list] after the left merge on [_cluster_id]:
    the key set of the row's cluster, NaN where the merge finds none. *)
Definition unicity_key_lists (clustered_df : list clustered_row)
  : list (option (gset nat)) :=
  let grouped_clusters_df := groupby_keys clustered_df in
  (λ r, grouped_clusters_df !! c_cluster_id r) <$> clustered_df.

Definition build_graph (key_lists : list (option (gset nat))) : result graph :=
  foldl add_cluster (Ok empty_graph) key_lists.

Definition key_to_cluster_id (connected_clusters : list (list nat))
  : gmap nat string :=
  py_dict ('(i, cluster) ← enumerate connected_clusters;
           key ← cluster;
           [(key, cluster_name i)]).

(** [dict(zip(clustered_df.label, clustered_df._cluster_id))], the column
    [_cluster_id] being [clustered_df["_unicity_key"].map(key_to_cluster_id)]. *)
Definition label_to_cluster_id (clustered_df : list clustered_row)
    (key_to_cluster_id : gmap nat string) : gmap string (option string) :=
  py_dict (zip (c_label <$> clustered_df)
               ((λ r, key_to_cluster_id !! c_key r) <$> clustered_df)).

(** [main_df["label"].map(label_to_cluster_id)] *)
Definition map_labels (label_to_cluster_id : gmap string (option string))
    (main_df : list main_row) : list (option string) :=
  (λ r, l ← label r; mjoin (label_to_cluster_id !! l)) <$> main_df.

Definition process_clusters (clustered_df : list clustered_row)
    (main_df : list main_row) : result (list output_row) :=
  graph ← build_graph (unicity_key_lists clustered_df);
  let connected_clusters := connected_components graph in
  let key_to_cluster_id := key_to_cluster_id connected_clusters in
  let label_to_cluster_id := label_to_cluster_id clustered_df key_to_cluster_id in
  let ids := map_labels label_to_cluster_id main_df in
  Ok (zip_with (λ r cid, OutputRow (unicity_key r) (label r) cid (cluster_size ids cid))
               main_df ids).

(** [DataProcessor.cluster_data] of the driver script. *)
Definition cluster_data (df : list main_row) (matching_threshold : Q)
    (matching_algorithms : list algorithm_id) : M (list output_row) :=
  clustered_data_df ← create_matched_dataframe df matching_threshold
                        matching_algorithms;
  lift (process_clusters clustered_data_df df).

End UtilsMatching.

(** * Specification-side definitions *)

(** ** The label of a cluster, as the specification words it *)

(** The lowercase word-set of a member label. *)
Definition lowercase_words (l : string) : list string := Str.lower <$> Str.split l.

(** The lowercase form of [w] is in the word-set of every member. *)
Definition in_all_members (members : list string) (w : string) : Prop :=
  Forall (λ l, Str.lower w ∈ lowercase_words l) members.

Global Instance in_all_members_dec members w : Decision (in_all_members members w).
Proof. unfold in_all_members. apply _. Defined.

(** The words of the first member, in their order, restricted to the common
    ones and joined by single spaces. *)
Definition common_words_label (l1 : string) (others : list string) : string :=
  Str.join " " (filter (in_all_members (l1 :: others)) (Str.split l1)).

(** ** A cleaned label *)

Definition allowed_char (c : ascii) : Prop :=
  Str.is_alnum c = true ∨ c = "%"%char ∨ c = " "%char.

(** Only ASCII letters, digits, [%] and spaces; no whitespace at either end;
    no two spaces in a row. *)
Definition clean_label (s : string) : Prop :=
  let cs := list_ascii_of_string s in
  Forall allowed_char cs
  ∧ (∀ c, head cs = Some c → Str.is_space c = false)
  ∧ (∀ c, last cs = Some c → Str.is_space c = false)
  ∧ (∀ i, cs !! i = Some " "%char → cs !! S i ≠ Some " "%char).

(** The same property as an automaton over the characters read so far. *)
Inductive scan_state : Type := AtStart | InWord | AfterSpace.

Definition scan_step (q : scan_state) (c : ascii) : option scan_state :=
  if Ascii.eqb c " "%char then
    match q with InWord => Some AfterSpace | _ => None end
  else if Str.is_alnum c || Ascii.eqb c "%"%char then Some InWord
  else None.

Fixpoint scan (q : scan_state) (s : list ascii) : option scan_state :=
  match s with
  | [] => Some q
  | c :: r => match scan_step q c with Some q' => scan q' r | None => None end
  end.

Definition tidy (s : list ascii) : Prop :=
  scan AtStart s = Some AtStart ∨ scan AtStart s = Some InWord.

(** A pattern whose matches end in a visible character and whose
    replacement is a run of visible characters. *)
Definition solid (m : Re.matcher) : Prop :=
  ∀ prev s repl n, m prev s = Some (repl, n) →
    (1 ≤ n)%nat ∧ ∀ q q1, scan q (take n s) = Some q1 →
              q1 = InWord ∧ scan q repl = Some InWord.


(** ** Scores, candidate pairs and qualifying pairs *)

Section matching_spec.

Variable normalized_similarity : MatchingAlgorithm → string → string → Q.
Variable random_draw : nat → nat.

(** The score of a pair: the greatest similarity over the algorithms. *)
Definition score (algs : list MatchingAlgorithm) (a b : string) : Q :=
  match py_max ((λ f, normalized_similarity f a b) <$> algs) with
  | Ok s => s
  | Raise _ => 0
  end.

(** The distinct labels of a frame, in order of first appearance. *)
Definition unique_labels (df : list working_row) : list string :=
  first_occurrences id [] (w_label <$> df).

(** Every unordered pair of distinct labels, the earlier label first. *)
Definition label_pairs (df : list working_row) : list (string * string) :=
  combinations2 (unique_labels df).

Definition qualifies (algs : list MatchingAlgorithm) (t : Q) (p : string * string)
  : Prop :=
  (t <= score algs p.1 p.2)%Q.

Definition qualifying_pairs (df : list working_row) (algs : list MatchingAlgorithm)
    (t : Q) : list (string * string) :=
  filter (qualifies algs t) (label_pairs df).

Definition pair_row (algs : list MatchingAlgorithm) (p : string * string)
  : similarity_row :=
  SimilarityRow (score algs p.1 p.2) [p.1; p.2].

(** The library calls of an exhaustive scoring: pair by pair, every
    algorithm in turn. *)
Definition all_calls (algs : list MatchingAlgorithm) (pairs : list (string * string))
  : list (MatchingAlgorithm * string * string) :=
  p ← pairs; (λ f, (f, p.1, p.2)) <$> algs.

(** [a] stands before [b] in [l]. *)
Definition before {A} (l : list A) (a b : A) : Prop :=
  ∃ i j, (i < j)%nat ∧ l !! i = Some a ∧ l !! j = Some b.

(** The frame that clustering works on. *)
Definition working_frame (df : list main_row) : list working_row :=
  drop_duplicates (dropna df).

(** ** Identifiers *)

(** The character [random.choice(seq)] returns on the draw [k]. *)
Definition chosen (seq : string) (k : nat) : ascii :=
  nth (k mod String.length seq) (list_ascii_of_string seq) " "%char.

(** The identifier [id_generator] returns after [d] earlier draws. *)
Definition id_at (d : nat) : string :=
  match id_generator random_draw 6 (World d []) with
  | (Ok s, _) => s
  | (Raise _, _) => ""
  end.

(** The identifiers drawn between two worlds. *)
Definition ids_drawn (w w' : world) : list string :=
  (λ i, id_at (draws w + 6 * i)) <$> seq 0 ((draws w' - draws w) / 6).

(** The blocks of [matched_df], the first identifier being drawn after [d]
    draws. *)
Fixpoint blocks_from (working_df : list working_row) (d : nat)
    (matched_labels : list (list string)) : list (list clustered_row) :=
  match matched_labels with
  | [] => []
  | labels :: rest =>
      (with_cluster_id (id_at d) <$> rows_isin working_df labels)
        :: blocks_from working_df (d + 6) rest
  end.

(** The unmatched rows with their own identifiers. *)
Fixpoint fresh_rows (d : nat) (rows : list working_row) : list clustered_row :=
  match rows with
  | [] => []
  | r :: rest => with_cluster_id (id_at d) r :: fresh_rows (d + 6) rest
  end.

(** The frame [create_matched_dataframe] returns when the pairs [pairs]
    qualify and [d] draws were made before: the unmatched rows first, each
    with an identifier of its own, then one block per pair. *)
Definition matched_labels_of (pairs : list (string * string)) : list (list string) :=
  (λ p, [p.1; p.2]) <$> pairs.

Definition unmatched_rows (working_df : list working_row)
    (pairs : list (string * string)) : list working_row :=
  filter (λ r, w_label r ∉ concat (matched_labels_of pairs)) working_df.

Definition result_frame (working_df : list working_row)
    (pairs : list (string * string)) (d : nat) : list clustered_row :=
  fresh_rows (d + 6 * length pairs) (unmatched_rows working_df pairs)
  ++ concat (blocks_from working_df d (matched_labels_of pairs)).

(** ** The graph of [process_clusters]

    What the code computes step by step is named here: the key set of a
    cluster identifier, the graph of all key sets, the identifier given to
    a label, and the annotated frame. *)

Definition cluster_keys (clustered_df : list clustered_row) (c : string) : gset nat :=
  list_to_set (c_key <$> filter (λ r, c_cluster_id r = c) clustered_df).

Definition key_sets (clustered_df : list clustered_row) : list (gset nat) :=
  (λ r, cluster_keys clustered_df (c_cluster_id r)) <$> clustered_df.

Definition add_set (g : graph) (ks : gset nat) : graph :=
  add_edges_from (add_nodes_from g (elements ks)) (combinations2 (elements ks)).

Definition graph_of (sets : list (gset nat)) : graph :=
  foldl add_set empty_graph sets.

Definition cluster_graph (clustered_df : list clustered_row) : graph :=
  graph_of (key_sets clustered_df).

(** The cluster identifier of a label. *)
Definition assigned (clustered_df : list clustered_row) (l : string) : option string :=
  mjoin (label_to_cluster_id clustered_df
           (key_to_cluster_id (connected_components (cluster_graph clustered_df)))
         !! l).

Definition row_cluster (clustered_df : list clustered_row) (r : main_row)
  : option string :=
  l ← label r; assigned clustered_df l.

Definition annotate (clustered_df : list clustered_row) (main_df : list main_row)
  : list output_row :=
  let ids := row_cluster clustered_df <$> main_df in
  (λ r, OutputRow (unicity_key r) (label r) (row_cluster clustered_df r)
                  (cluster_size ids (row_cluster clustered_df r))) <$> main_df.

(** The nodes listed so far contain every node of the classes they meet. *)
Definition closed (leader : nat → nat) (all seen : list nat) : Prop :=
  ∀ u v, u ∈ seen → v ∈ all → leader u = leader v → v ∈ seen.

(** Equal labels carry equal keys. *)
Definition label_functional (clustered_df : list clustered_row) : Prop :=
  ∀ r1 r2, r1 ∈ clustered_df → r2 ∈ clustered_df →
    c_label r1 = c_label r2 → c_key r1 = c_key r2.

(** ** Clusters *)

(** Two labels are linked when a chain of pairs joins them. *)
Definition linked (pairs : list (string * string)) : relation string :=
  rtsc (λ a b, (a, b) ∈ pairs).

(** Two nodes are connected when a chain of edges joins them. *)
Definition connected (g : graph) : relation nat :=
  rtsc (λ x y, (x, y) ∈ edges g).

(** The rows of a frame that carry a cluster identifier. *)
Definition clustered_ids (out : list output_row) : list string :=
  omap o_cluster_id out.

(** [df["_cluster_id"].nunique()] *)
Definition cluster_count (out : list output_row) : nat :=
  length (remove_dups (clustered_ids out)).

(** The members of a cluster. *)
Definition members (out : list output_row) (c : string) : list output_row :=
  filter (λ r, o_cluster_id r = Some c) out.

End matching_spec.

(** ** Further notions for the matched frame and the clusters *)

(** The qualifying pairs a label belongs to. *)
Definition pairs_of_label (pairs : list (string * string)) (l : string)
  : list (string * string) :=
  filter (λ p, l = p.1 ∨ l = p.2) pairs.

(** The rows of a clustered frame that carry a label. *)
Definition rows_of_label (R : list clustered_row) (l : string) : list clustered_row :=
  filter (λ r, c_label r = l) R.

(** The record at [i] carries the key [k] and the label [l], and no earlier
    record carries [l]. *)
Definition first_record (df : list main_row) (i k : nat) (l : string) : Prop :=
  df !! i = Some (MainRow k (Some l))
  ∧ ∀ j r, (j < i)%nat → df !! j = Some r → label r ≠ Some l.

(** Two rows of a clustered frame are tied when a chain of rows joins them,
    two neighbours sharing their identifier or their key. *)
Definition tied (R : list clustered_row) : relation clustered_row :=
  rtsc (λ r1 r2, r1 ∈ R ∧ r2 ∈ R
                 ∧ (c_cluster_id r1 = c_cluster_id r2 ∨ c_key r1 = c_key r2)).

(** The records of a frame that carry a label. *)
Definition labelled (df : list main_row) : list main_row :=
  filter (λ r, is_Some (label r)) df.

(** ** More of [UtilsDQAnalysis.py]: patterns and final labels *)

Module Rx.

(** A character class replaced by one character: [[a-z]], [[A-Z]] and
    [[0-9]]. *)
Definition char_class (p : ascii → bool) (repl : ascii) : Re.matcher := λ _ s,
  match s with
  | c :: _ => if p c then Some ([repl], 1%nat) else None
  | [] => None
  end.

(** Two ASCII characters that [re.I] takes for the same one. *)
Definition same_letter (a b : ascii) : bool :=
  Ascii.eqb (Str.lower_char a) (Str.lower_char b).

(** The literal [lit] stands at the head of [s], under [re.I]. *)
Fixpoint starts_with (lit s : list ascii) : bool :=
  match lit, s with
  | [], _ => true
  | a :: lit', c :: s' => same_letter a c && starts_with lit' s'
  | _ :: _, [] => false
  end.

(** [\bX\s*<tail>\b] under [re.I] for a literal [tail] of letters, replaced
    by [repl]: the patterns [\bX\s*mX\b] and [\bX\s*l\b].  The run of spaces
    is the longest one, since a letter has to follow it. *)
Definition unit_ci (tail repl : list ascii) : Re.matcher := λ prev s,
  match s with
  | c :: s1 =>
      let '(ws, s2) := Re.span Str.is_space s1 in
      if same_letter "X" c && Re.word_boundary prev (Some c)
         && starts_with tail s2
         && Re.word_boundary (last (take (length tail) s2))
                             (head (drop (length tail) s2))
      then Some (repl, (1 + length ws + length tail)%nat) else None
  | [] => None
  end.

Definition X_mX_ci : Re.matcher :=
  unit_ci (list_ascii_of_string "mX") (list_ascii_of_string "Xm3").
Definition X_l_ci : Re.matcher :=
  unit_ci (list_ascii_of_string "l") (list_ascii_of_string "XL").

(** [\s?litre[s]?] under [re.I], replaced by [ L]: one space is taken when
    the word follows it, and the plural [s] whenever it is there. *)
Definition litre : Re.matcher := λ _ s,
  let word := list_ascii_of_string "litre" in
  let k := match s with
           | c :: r => if Str.is_space c && starts_with word r then 1%nat else 0%nat
           | [] => 0%nat
           end in
  if starts_with word (drop k s) then
    let plural := match drop (k + 5) s with
                  | c :: _ => if same_letter "s" c then 1%nat else 0%nat
                  | [] => 0%nat
                  end in
    Some (list_ascii_of_string " L", (k + 5 + plural)%nat)
  else None.

(** [\bZX\b], replaced by the empty string. *)
Definition ZX : Re.matcher := λ prev s,
  match s with
  | c1 :: c2 :: r =>
      if Ascii.eqb c1 "Z" && Ascii.eqb c2 "X"
         && Re.word_boundary prev (Some c1) && Re.word_boundary (Some c2) (head r)
      then Some ([], 2%nat) else None
  | _ => None
  end.

End Rx.

Section UtilsDQAnalysis_more.

Variable unicode_nfd : list N → list N.

(** The dictionary [pattern_tokens], in the order of its keys. *)
Definition pattern_tokens : list ((ascii → bool) * ascii) :=
  [(Str.is_lower, "x"%char); (Str.is_upper, "X"%char); (Str.is_digit, "9"%char)].

Definition generate_pattern (text : option (list N)) : string :=
  let text := normalize_text unicode_nfd text in
  match text with
  | [] => ""
  | _ :: _ =>
      let generated_pattern := Str.lower_char <$> text in
      string_of_list_ascii
        (foldl (λ generated_pattern '(pattern, replacement),
                  Re.sub (Rx.char_class pattern replacement) generated_pattern)
               generated_pattern pattern_tokens)
  end.

Definition postprocess_final_label (label : option string) : string :=
  match label with
  | None | Some EmptyString => ""
  | Some label =>
      let label := list_ascii_of_string label in
      let label := Re.sub Rx.X_mX_ci label in
      let label := Re.sub Rx.litre label in
      let label := Re.sub Rx.X_l_ci label in
      let label := Re.sub Rx.ZX label in
      string_of_list_ascii (Str.strip label)
  end.

End UtilsDQAnalysis_more.

(** ** Words and masked digits *)

(** A word as [str.split()] yields them: at least one character, none of
    them whitespace. *)
Definition token (w : string) : Prop :=
  w ≠ "" ∧ Forall (λ c, Str.is_space c = false) (list_ascii_of_string w).

(** Every digit of [s] stands right after the letter [K], [prev] being the
    character before [s]. *)
Fixpoint after_K (prev : option ascii) (s : list ascii) : Prop :=
  match s with
  | [] => True
  | c :: r => (Str.is_digit c = true → prev = Some "K"%char) ∧ after_K (Some c) r
  end.

(** A 7-bit character. *)
Definition seven_bit (cp : N) : Prop := (cp < 128)%N.

(** A pattern whose matches hold neither a digit nor the letter [K], and
    whose replacement holds no digit. *)
Definition gentle (m : Re.matcher) : Prop :=
  ∀ prev s repl n, m prev s = Some (repl, n) →
    (1 ≤ n)%nat
    ∧ Forall (λ c, Str.is_digit c = false ∧ c ≠ "K"%char) (take n s)
    ∧ Forall (λ c, Str.is_digit c = false) repl.

(** The character before what follows [a], [prev] being the one before [a]. *)
Definition last_or (prev : option ascii) (a : list ascii) : option ascii :=
  match last a with Some c => Some c | None => prev end.

(** The pattern [m] matches at no position of [s], [prev] being the
    character before [s]. *)
Fixpoint free (m : Re.matcher) (prev : option ascii) (s : list ascii) : Prop :=
  match s with
  | [] => True
  | c :: r => m prev (c :: r) = None ∧ free m (Some c) r
  end.

(** Wherever [m1] does not match, [m2] does not either. *)
Fixpoint yields (m1 m2 : Re.matcher) (prev : option ascii) (s : list ascii) : Prop :=
  match s with
  | [] => True
  | c :: r => (m1 prev (c :: r) = None → m2 prev (c :: r) = None)
              ∧ yields m1 m2 (Some c) r
  end.

(** Two characters that [\b] does not tell apart. *)
Definition same_class (p q : option ascii) : Prop :=
  Re.holds Str.is_word p = Re.holds Str.is_word q.

(** A character is not in a list written out. *)
Ltac not_in_list :=
  let H := fresh in
  intros H; repeat (apply elem_of_cons in H as [H|H]; [discriminate H|]);
  by apply elem_of_nil in H.

(** What [generate_pattern] makes of one character: a letter becomes [x],
    a digit [9], anything else stays. *)
Definition pattern_char (c : ascii) : ascii :=
  if Str.is_upper c || Str.is_lower c then "x"%char
  else if Str.is_digit c then "9"%char
  else c.

(** A pattern whose replacement is not longer than what it replaces. *)
Definition shrinking (m : Re.matcher) : Prop :=
  ∀ prev s repl n, m prev s = Some (repl, n) →
    (1 ≤ n)%nat ∧ (length repl ≤ n)%nat ∧ (n ≤ length s)%nat.

(** ** Data-quality columns: frames by column

    [calculate_completeness] and [calculate_uniqueness] read and write whole
    columns by name.  For them a DataFrame is the number of its rows with
    the list of its columns, in order; a column holds, row by row, a value
    or NaN.  The values are of any type [V] with a decidable equality; [str]
    is how a Python string is stored as a value.  Both functions change the
    frame they are given, also when they raise: they answer the frame as it
    is left, with the exception raised, if any. *)

Inductive key_error : Type := KeyError (key : string).

Section frames.

Context {V : Type} `{EqDecision V}.
Variable str : string → V.

Definition cell : Type := option V.

Record frame : Type := Frame {
  n_rows : nat;
  columns : list (string * list cell)
}.

Definition column_names (df : frame) : list string := (columns df).*1.

Fixpoint lookup_column (cols : list (string * list cell)) (name : string)
  : option (list cell) :=
  match cols with
  | [] => None
  | (n, col) :: rest => if decide (n = name) then Some col else lookup_column rest name
  end.

(** Assigning a column keeps its place if it is there, and adds it at the
    end otherwise. *)
Fixpoint assign_column (cols : list (string * list cell)) (name : string)
    (col : list cell) : list (string * list cell) :=
  match cols with
  | [] => [(name, col)]
  | (n, c) :: rest =>
      if decide (n = name) then (n, col) :: rest
      else (n, c) :: assign_column rest name col
  end.

(** [df[name]] *)
Definition get_column (df : frame) (name : string) : option (list cell) :=
  lookup_column (columns df) name.

(** [df[name] = col] *)
Definition set_column (df : frame) (name : string) (col : list cell) : frame :=
  Frame (n_rows df) (assign_column (columns df) name col).

(** [df[name] = value], a scalar *)
Definition set_scalar (df : frame) (name : string) (value : V) : frame :=
  set_column df name (replicate (n_rows df) (Some value)).

(** [df.loc[mask, name] = value]: a column that is not there yet is made of
    NaN first. *)
Definition loc_assign (df : frame) (mask : list bool) (name : string) (value : V)
  : frame :=
  let old := default (replicate (n_rows df) None) (get_column df name) in
  set_column df name (zip_with (λ (m : bool) o, if m then Some value else o) mask old).

(** [pd.isna(x) | (x == "")] *)
Definition is_missing (x : cell) : bool :=
  match x with
  | None => true
  | Some v => bool_decide (v = str "")
  end.

(** [[x for x in df.columns if not x.startswith("_")]] *)
Definition default_columns (df : frame) : list string :=
  filter (λ x, String.prefix "_" x = false) (column_names df).

(** The loop [for column in columns], left at the first exception. *)
Fixpoint for_columns (body : frame → string → frame * option key_error)
    (df : frame) (columns : list string) : frame * option key_error :=
  match columns with
  | [] => (df, None)
  | column :: rest =>
      match body df column with
      | (df, None) => for_columns body df rest
      | (df, Some e) => (df, Some e)
      end
  end.

Definition completeness_name (column : string) : string :=
  "_" +:+ column +:+ "_completeness".

(** The body of the loop of [calculate_completeness]: the column of flags
    is written, filled with [Completed], before the column is read. *)
Definition completeness_step (df : frame) (column : string)
  : frame * option key_error :=
  let df := set_scalar df (completeness_name column) (str "Completed") in
  match get_column df column with
  | None => (df, Some (KeyError column))
  | Some col =>
      (loc_assign df (is_missing <$> col) (completeness_name column)
         (str "Missing"), None)
  end.

Definition calculate_completeness (df : frame) (columns : option (list string))
  : frame * option key_error :=
  let columns := default (default_columns df) columns in
  for_columns completeness_step df columns.

(** The column of flags that goes with a column. *)
Definition completeness_flags (col : list cell) : list cell :=
  (λ x, Some (str (if is_missing x then "Missing" else "Completed"))) <$> col.

(** [series.value_counts()[v]] *)
Definition value_count (col : list cell) (v : V) : nat :=
  length (filter (λ x, x = Some v) col).

Definition uniqueness_name (column : string) : string :=
  "_" +:+ column +:+ "_uniqueness".

(** The count NaN cells map to is NaN, which is not 1.  The column of the
    counts, written first and replaced at once, is not kept apart. *)
Definition uniqueness_flag (col : list cell) (x : cell) : cell :=
  match x with
  | Some v => if decide (value_count col v = 1%nat) then Some (str "Unique")
              else Some (str "Duplicates")
  | None => Some (str "Duplicates")
  end.

(** The body of the loop of [calculate_uniqueness]: the column is read
    first. *)
Definition uniqueness_step (df : frame) (column : string)
  : frame * option key_error :=
  match get_column df column with
  | None => (df, Some (KeyError column))
  | Some col =>
      (set_column df (uniqueness_name column) (uniqueness_flag col <$> col), None)
  end.

Definition calculate_uniqueness (df : frame) (columns : option (list string))
  : frame * option key_error :=
  let columns := default (default_columns df) columns in
  for_columns uniqueness_step df columns.

(** The columns bear different names and are as long as the index. *)
Definition well_formed (df : frame) : Prop :=
  NoDup (column_names df) ∧ Forall (λ kv, length kv.2 = n_rows df) (columns df).

End frames.

Arguments frame V : clear implicits.
Arguments cell V : clear implicits.
(** ** The driver script [Scripts/SuezMain.py]

    [DataProcessor] holds the frame [df_processed] and takes it through its
    methods one after the other.  A row is modelled by the columns these
    methods read or write for the clustering: the key, the labels, the
    reason of a rejection, the cluster and the final label.  The other
    columns of the source files, and the columns [run_dq_analysis] adds
    (no later method reads them), are carried along unchanged and are left
    out.  Every method takes the rows as the method before it leaves
    them. *)

From stdpp Require Import sorting.

Inductive DataSource : Type := CLEAR | CCAP.

(** [str(e)] *)
Definition exn_message (e : exn) : string :=
  match e with
  | ValueError msg | TypeError msg | IndexError msg | AttributeError msg => msg
  end.

(** [read_data], [read_function] standing for the outcome of the call
    [read_function(file_path, **read_kwargs)]. *)
Definition read_data {A} (file_path : string) (read_function : result (list A))
  : result (list A) :=
  match read_function with
  | Raise e =>
      Raise (ValueError ("Error while reading the file '" +:+ file_path +:+ "': "
                         +:+ exn_message e))
  | Ok df_input =>
      match df_input with
      | [] => Raise (ValueError ("The file '" +:+ file_path +:+ "' is empty"))
      | _ :: _ => Ok df_input
      end
  end.

(** A row of a source file: the internal and the commercial label, under
    the names [load_data] gives them for both sources. *)
Record source_row : Type := SourceRow {
  LIBELLE_INTERNE : option (list N);
  LIBELLE_COMMERCIAL : option (list N)
}.

(** A row after [load_data]: [_unicity_key] and [LIBELLE COMMERCIAL]. *)
Record loaded_row : Type := LoadedRow {
  ld_key : nat;
  ld_commercial : option (list N)
}.

(** A row after [cleanse_data]: [_unicity_key], [label], [Raison Rejet]. *)
Record cleansed_row : Type := CleansedRow {
  cs_key : nat;
  cs_label : string;
  Raison_Rejet : option string
}.

(** A row of the frame [rename_clusters] leaves. *)
Record final_row : Type := FinalRow {
  final_label : option string;
  f_cluster_id : option string;
  f_key : nat;
  f_label : option string;
  f_cluster_size : option nat;
  labelpro : option string;
  f_reject : option string
}.

(** The path holds an accent, written here as its two bytes. *)
Definition source_file_path (data_source : DataSource) : string :=
  match data_source with
  | CLEAR => "./data/suez/CLEAR - référentiel services -20230811.xlsx"
  | CCAP => "./data/suez/CCAP Entreprises - Kit catalogue national - 07072023.xlsx"
  end.

(** [series.fillna(other)] *)
Definition fillna {A} (x other : option A) : option A :=
  match x with Some v => Some v | None => other end.

(** [series.str.contains(pat, case=False)] for a pattern of letters and
    spaces, on ASCII text. *)
Fixpoint contains (pat s : list ascii) : bool :=
  Rx.starts_with pat s
  || match s with
     | [] => false
     | _ :: s' => contains pat s'
     end.

Definition str_contains (pat s : string) : bool :=
  contains (list_ascii_of_string pat) (list_ascii_of_string s).

(** A group of [groupby("_cluster_id")]. *)
Definition group_rows {A} (cluster_id : A → option string) (df : list A) (c : string)
  : list A :=
  filter (λ r, cluster_id r = Some c) df.

(** The order of Python on ASCII strings. *)
Definition str_le (a b : string) : Prop := String.leb a b = true.

Global Instance str_le_dec a b : Decision (str_le a b).
Proof. unfold str_le. apply _. Defined.

(** The keys of [groupby("_cluster_id")]: NaN is no key, and the keys come
    sorted. *)
Definition group_keys {A} (cluster_id : A → option string) (df : list A) : list string :=
  merge_sort str_le (remove_dups (omap cluster_id df)).

Section SuezMain.

Variable unicode_nfd : list N → list N.
Variable normalized_similarity : MatchingAlgorithm → string → string → Q.
Variable random_draw : nat → nat.

(** The index of the frame read numbers its rows from 0. *)
Definition load_data (data_source : DataSource)
    (read_function : result (list source_row)) : result (list loaded_row) :=
  df_processed ← read_data (source_file_path data_source) read_function;
  Ok (imap (λ i r, LoadedRow i (fillna (LIBELLE_COMMERCIAL r) (LIBELLE_INTERNE r)))
           df_processed).

(** What [cleanse_data] leaves in the processor: [rejected_data_df] is set
    for the source CLEAR only. *)
Record cleansed : Type := Cleansed {
  df_processed : list cleansed_row;
  rejected_data_df : option (list cleansed_row);
  dict_label : gmap string string
}.

(** [df.loc[df["label"].str.contains(pat, case=False), "Raison Rejet"] = reason] *)
Definition reject (pat reason : string) (df : list cleansed_row)
  : list cleansed_row :=
  (λ r, if str_contains pat (cs_label r)
        then CleansedRow (cs_key r) (cs_label r) (Some reason) else r) <$> df.

(** [df[~df["label"].str.contains(pat, case=False)]] *)
Definition without (pat : string) (df : list cleansed_row) : list cleansed_row :=
  filter (λ r, str_contains pat (cs_label r) = false) df.

(** The frame is the one [load_data] leaves: it has a row at least. *)
Definition cleanse_data (data_source : DataSource) (df : list loaded_row)
  : cleansed :=
  let '(df, rejected) :=
    match data_source with
    | CCAP =>
        ((λ r, CleansedRow (ld_key r)
                 (process_label_ccap unicode_nfd (ld_commercial r)) None) <$> df,
         None)
    | CLEAR =>
        let df := (λ r, CleansedRow (ld_key r)
                          (process_label_clear unicode_nfd (ld_commercial r)) None)
                    <$> df in
        let df := reject "ne plus utiliser" "NE PLUS UTILISER" df in
        let df := reject "dryrun" "DRYRUN" df in
        let rejected_data_df :=
          filter (λ r, Raison_Rejet r = Some "NE PLUS UTILISER") df
          ++ filter (λ r, Raison_Rejet r = Some "DRYRUN") df in
        let df := without "ne plus utiliser" df in
        let df := without "dryrun" df in
        (df, Some rejected_data_df)
    end in
  let dict_label := py_dict ((λ r, (Str.lower (cs_label r), cs_label r)) <$> df) in
  Cleansed ((λ r, CleansedRow (cs_key r) (Str.lower (cs_label r)) (Raison_Rejet r))
              <$> df)
           rejected dict_label.

(** The clean-up [cleanse_data] applies for a source. *)
Definition process_label (data_source : DataSource) : option (list N) → string :=
  match data_source with
  | CCAP => process_label_ccap unicode_nfd
  | CLEAR => process_label_clear unicode_nfd
  end.

(** The columns of [df_processed] that [cluster_data] reads. *)
Definition main_frame (df : list cleansed_row) : list main_row :=
  (λ r, MainRow (cs_key r) (Some (cs_label r))) <$> df.

(** [find_common_words_with_order] on a list that may hold NaN: the first
    line of the function calls [lower] on every member. *)
Definition common_words (list_label : list (option string)) : result string :=
  string_list ←
    mapM (λ x, match x with
               | Some s => Ok s
               | None => Raise (AttributeError "'float' object has no attribute 'lower'")
               end)
         list_label;
  find_common_words_with_order string_list.

(** [df["label"].map(dict_label)] for one row. *)
Definition labelpro_of (dict_label : gmap string string) (r : output_row)
  : option string :=
  l ← o_label r; dict_label !! l.

(** The members of a cluster as [rename_clusters] lists them. *)
Definition cluster_labels (dict_label : gmap string string) (df : list output_row)
    (c : string) : list string :=
  omap (labelpro_of dict_label) (group_rows o_cluster_id df c).

(** The columns of a row that [rename_clusters] leaves as they are. *)
Definition clustered_part (f : final_row) : output_row :=
  OutputRow (f_key f) (f_label f) (f_cluster_id f) (f_cluster_size f).

(** A rejected row as [pd.concat] appends it: the columns it lacks are NaN. *)
Definition reinjected (r : cleansed_row) : final_row :=
  FinalRow None None (cs_key r) (Some (cs_label r)) None None (Raison_Rejet r).

(** The frame is the one [cluster_data] leaves: [groupby] finds a cluster
    at least in it.  The left merge keeps the order of the groups, and
    within a group the order of the frame. *)
Definition rename_clusters (data_source : DataSource) (dict_label : gmap string string)
    (rejected_data_df : option (list cleansed_row)) (df_processed : list output_row)
  : result (list final_row) :=
  (* the rows with the column [labelpro] *)
  let df_processed :=
    (λ r, (r, l ← o_label r; dict_label !! l)) <$> df_processed in
  let cluster_id := λ rl : output_row * option string, o_cluster_id rl.1 in
  let cluster_label_data :=
    (λ c, (c, snd <$> group_rows cluster_id df_processed c))
      <$> group_keys cluster_id df_processed in
  final_label ← mapM (λ cl, common_words cl.2) cluster_label_data;
  let final_label := (λ l, postprocess_final_label (Some l)) <$> final_label in
  let merged :=
    '(c, final_label) ← zip (fst <$> cluster_label_data) final_label;
    (λ rl : output_row * option string,
       FinalRow (Some final_label) (Some c) (o_key rl.1) (o_label rl.1)
                (o_cluster_size rl.1) (Some (postprocess_final_label rl.2)) None)
      <$> group_rows cluster_id df_processed c in
  match data_source with
  | CCAP => Ok merged
  | CLEAR =>
      match rejected_data_df with
      | Some rejected => Ok (merged ++ (reinjected <$> rejected))
      | None =>
          Raise (AttributeError
                   "'DataProcessor' object has no attribute 'rejected_data_df'")
      end
  end.

(** [process], from the outcome of reading the source file. *)
Definition process (data_source : DataSource)
    (read_function : result (list source_row)) (matching_threshold : Q)
    (matching_algorithms : list algorithm_id) : M (list final_row) :=
  df ← lift (load_data data_source read_function);
  let cleansed := cleanse_data data_source df in
  df ← cluster_data normalized_similarity random_draw
         (main_frame (df_processed cleansed)) matching_threshold matching_algorithms;
  lift (rename_clusters data_source (dict_label cleansed) (rejected_data_df cleansed) df).

End SuezMain.

(** ** Sample data for the examples

    A stand-in for the metrics of [textdistance]: the normalized edit
    similarity [1 - d / max(len a, len b)], whatever the algorithm.  The
    distance is taken in both directions so that the symmetry of the metric
    is plain. *)

(** The row of edit distances from [x :: a] to the prefixes of [b], given
    the row for [a]. *)
Fixpoint next_row (x : ascii) (b : list ascii) (diag left : nat) (row : list nat)
  : list nat :=
  match b, row with
  | y :: b', up :: row' =>
      let d := Nat.min (Nat.min (S up) (S left))
                       (if Ascii.eqb x y then diag else S diag) in
      d :: next_row x b' up d row'
  | _, _ => []
  end.

Definition edit_distance (a b : list ascii) : nat :=
  let row :=
    foldl (λ row x,
             match row with
             | d0 :: row' => S d0 :: next_row x b d0 (S d0) row'
             | [] => []
             end)
          (seq 0 (S (length b))) a in
  List.last row 0%nat.

Definition sample_similarity (_ : MatchingAlgorithm) (a b : string) : Q :=
  let la := list_ascii_of_string a in
  let lb := list_ascii_of_string b in
  let m := Nat.max (length la) (length lb) in
  let d := Nat.min (edit_distance la lb) (edit_distance lb la) in
  if Nat.eqb m 0 then 1%Q else (1 - (Z.of_nat d # Pos.of_nat m))%Q.

(** A random source whose first identifiers are pairwise distinct. *)
Definition sample_draws (k : nat) : nat := (k + 5 * (k / 6))%nat.

Definition start : world := World 0 [].

(** Three labels in a chain: [aaa] is close to [aab], [aab] to [abb], and
    [aaa] is far from [abb]; a fourth label stands apart. *)
Definition chain_frame : list main_row :=
  [MainRow 0 (Some "aaa"); MainRow 1 (Some "aab"); MainRow 2 (Some "abb");
   MainRow 3 (Some "zzzz"); MainRow 4 (Some "aaa")].

(** A frame with a missing label and two empty labels. *)
Definition gaps_frame : list main_row :=
  [MainRow 0 (Some "aaa"); MainRow 1 (Some "aab"); MainRow 2 None;
   MainRow 3 (Some ""); MainRow 4 (Some "")].

Definition two_labels : list main_row :=
  [MainRow 0 (Some "ab"); MainRow 1 (Some "cd")].

(** Two tiers of similarity: [aaaa] and [aaab] score 3/4, [bbb] and [bbc]
    score 2/3, everything else scores less. *)
Definition tiers_frame : list main_row :=
  [MainRow 0 (Some "aaaa"); MainRow 1 (Some "aaab"); MainRow 2 (Some "bbb");
   MainRow 3 (Some "bbc"); MainRow 4 (Some "zz")].

(** Membership in a list written out. *)
Ltac in_list := solve [repeat constructor].

(** The code points of an ASCII label, as [unicodedata] sees them. *)
Definition codes (s : string) : list N := N_of_ascii <$> list_ascii_of_string s.

(** Two records with the empty label, and no record without label. *)
Definition empties_frame : list main_row :=
  [MainRow 0 (Some "aaa"); MainRow 1 (Some "aab");
   MainRow 3 (Some ""); MainRow 4 (Some "")].

(** ** Further sample data *)

(** A similarity that takes any two labels for the same one. *)
Definition constant_similarity (_ : MatchingAlgorithm) (_ _ : string) : Q := 1%Q.

(** A clustered frame with two provisional clusters that share the key 1. *)
Definition bridge_frame : list clustered_row :=
  [ClusteredRow 0 "a" "p"; ClusteredRow 1 "b" "p";
   ClusteredRow 1 "b" "q"; ClusteredRow 2 "c" "q"; ClusteredRow 3 "d" "r"].

Definition bridge_main : list main_row :=
  [MainRow 0 (Some "a"); MainRow 1 (Some "b"); MainRow 2 (Some "c");
   MainRow 3 (Some "d"); MainRow 4 (Some "e"); MainRow 5 None].

(** A proposition settled by evaluating its decision procedure. *)
Ltac by_decide :=
  lazymatch goal with
  | |- ?P => apply (@bool_decide_unpack P _); vm_compute; exact I
  end.

(** A frame of four records as the driver analyses it, its values being
    strings: the second record has an empty commercial label, the third
    one has none, the first and the last are the same. *)
Definition dq_frame : frame string :=
  Frame 4 [("LIBELLE COMMERCIAL", [Some "Eau 5 L"; Some ""; None; Some "Eau 5 L"]);
           ("label", [Some "eau X L"; Some "sel"; None; Some "eau X L"])].

Definition columns_to_analyze : list string := ["LIBELLE COMMERCIAL"; "label"].

(** A source file of six rows, as [pd.read_excel] gives it: the internal
    and the commercial label of each row. *)
Definition sample_file : list source_row :=
  [SourceRow (Some (codes "Benne")) (Some (codes "BENNE 10 M3"));
   SourceRow (Some (codes "benne 10 m3 bis")) None;
   SourceRow None (Some (codes "Sac 5 L DryRun"));
   SourceRow (Some (codes "caisse")) (Some (codes "Ne plus utiliser caisse"));
   SourceRow None None;
   SourceRow (Some (codes "Benne 12 m3")) (Some (codes "benne 10 m3"))].

(** The frame [load_data] makes of it. *)
Definition sample_loaded : list loaded_row :=
  [LoadedRow 0 (Some (codes "BENNE 10 M3"));
   LoadedRow 1 (Some (codes "benne 10 m3 bis"));
   LoadedRow 2 (Some (codes "Sac 5 L DryRun"));
   LoadedRow 3 (Some (codes "Ne plus utiliser caisse"));
   LoadedRow 4 None;
   LoadedRow 5 (Some (codes "benne 10 m3"))].

(** A clustered frame and the dictionary of its labels. *)
Definition sample_clustered : list output_row :=
  [OutputRow 0 (Some "eau x l") (Some "cluster_10") (Some 2);
   OutputRow 1 (Some "sel") (Some "cluster_2") (Some 1);
   OutputRow 2 None None None;
   OutputRow 3 (Some "eau x l bis") (Some "cluster_10") (Some 2)].

Definition sample_dict : gmap string string :=
  py_dict [("eau x l", "Eau X L"); ("sel", "SEL"); ("eau x l bis", "eau X L bis")].
(** * Facts about the text functions *)

Lemma is_space_lower_char c : Str.is_space (Str.lower_char c) = Str.is_space c.
Proof. destruct c as [[] [] [] [] [] [] [] []]; reflexivity. Qed.

Lemma lower_app s1 s2 : Str.lower (s1 +:+ s2) = Str.lower s1 +:+ Str.lower s2.
Proof. induction s1 as [|c s1 IH]; simpl; [done|]. by rewrite IH. Qed.

Lemma flush_lower w : Str.flush (Str.lower w) = Str.lower <$> Str.flush w.
Proof. by destruct w. Qed.

Lemma split_go_lower s : ∀ w,
  Str.split_go (Str.lower w) (Str.lower s) = Str.lower <$> Str.split_go w s.
Proof.
  induction s as [|c s IH]; intros w; simpl.
  - apply flush_lower.
  - rewrite is_space_lower_char. destruct (Str.is_space c).
    + rewrite fmap_app, flush_lower. f_equal. apply (IH EmptyString).
    + rewrite <- IH, lower_app. reflexivity.
Qed.

(** Lowering then splitting gives the lowercase forms of the words. *)
Lemma split_lower s : Str.split (Str.lower s) = lowercase_words s.
Proof. apply (split_go_lower s EmptyString). Qed.

Lemma elem_of_foldl_intersection (s0 : gset string) (ss : list (gset string)) x :
  x ∈ foldl (∩) s0 ss ↔ x ∈ s0 ∧ Forall (λ s, x ∈ s) ss.
Proof.
  revert s0. induction ss as [|s ss IH]; intros s0; simpl.
  - split; [intros; split; [done|constructor] | by intros [? _]].
  - rewrite IH, elem_of_intersection, Forall_cons. tauto.
Qed.

Lemma filter_none {A} (P : A → Prop) `{∀ x, Decision (P x)} (l : list A) :
  (∀ x, ¬ P x) → filter P l = [].
Proof.
  intros HP. induction l as [|x l IH]; [done|].
  rewrite filter_cons. destruct (decide (P x)); [by destruct (HP x)|done].
Qed.

(** C6: for a cluster whose raw member labels are [l1 :: others], in the
    order the caller collected them, [find_common_words_with_order] returns
    the words of [l1], in their original order, whose lowercase form belongs
    to the lowercase word-set of every member, joined by single spaces; when
    no word is common to all members the result is the empty string. *)
Theorem find_common_words_with_order_spec (l1 : string) (others : list string) :
  find_common_words_with_order (l1 :: others) = Ok (common_words_label l1 others)
  ∧ ((∀ w, ¬ in_all_members (l1 :: others) w) →
     find_common_words_with_order (l1 :: others) = Ok "").
Proof.
  assert (Heq : find_common_words_with_order (l1 :: others)
                = Ok (common_words_label l1 others)).
  { unfold find_common_words_with_order, common_words_label. simpl.
    do 2 f_equal. apply list_filter_iff. intros w.
    rewrite elem_of_foldl_intersection, elem_of_list_to_set, split_lower.
    unfold in_all_members. rewrite Forall_cons, Forall_fmap, Forall_fmap.
    apply and_iff_compat_l, Forall_iff. intros l. simpl.
    by rewrite elem_of_list_to_set, split_lower. }
  split; [exact Heq|].
  intros Hnone. rewrite Heq. unfold common_words_label.
  by rewrite (filter_none _ _ Hnone).
Qed.

(** * Facts about the clean-up of labels *)

Lemma scan_step_cases q c q' :
  scan_step q c = Some q' →
  (c = " "%char ∧ q = InWord ∧ q' = AfterSpace)
  ∨ (Str.is_space c = false ∧ q' = InWord
     ∧ (Str.is_alnum c = true ∨ c = "%"%char)).
Proof.
  destruct c as [[] [] [] [] [] [] [] []]; destruct q; vm_compute;
    intros [= <-] || discriminate; auto.
Qed.

Lemma scan_step_visible q c :
  Re.keeps c = true → Str.is_space c = false → scan_step q c = Some InWord.
Proof.
  destruct c as [[] [] [] [] [] [] [] []]; destruct q; vm_compute;
    congruence.
Qed.

Lemma scan_app q s1 s2 :
  scan q (s1 ++ s2) = match scan q s1 with Some q' => scan q' s2 | None => None end.
Proof.
  revert q. induction s1 as [|c s1 IH]; intros q; simpl; [done|].
  destruct (scan_step q c); [apply IH|done].
Qed.

Lemma scan_allowed q s qf : scan q s = Some qf → Forall allowed_char s.
Proof.
  revert q. induction s as [|c s IH]; intros q; simpl; [constructor|].
  destruct (scan_step q c) as [q'|] eqn:E; [|done].
  intros Hs. constructor; [|by eapply IH].
  apply scan_step_cases in E as [(-> & _)|(_ & _ & [?| ->])];
    unfold allowed_char; auto.
Qed.

Lemma scan_last q s qf c :
  scan q s = Some qf → qf ≠ AfterSpace → last s = Some c → Str.is_space c = false.
Proof.
  revert q. induction s as [|x s IH]; intros q; simpl; [done|].
  destruct (scan_step q x) as [q'|] eqn:E; [|done].
  intros Hs Hqf. destruct s as [|y s].
  - simpl in *. intros [= ->]. injection Hs as ->.
    apply scan_step_cases in E as [(_ & _ & ->)|(? & _)]; done.
  - intros Hl. by eapply (IH q').
Qed.

Lemma scan_no_double_space q s qf i :
  scan q s = Some qf → s !! i = Some " "%char → s !! S i ≠ Some " "%char.
Proof.
  revert q i. induction s as [|x s IH]; intros q i; simpl; [done|].
  destruct (scan_step q x) as [q'|] eqn:E; [|done].
  intros Hs. destruct i as [|i]; simpl.
  - intros [= ->]. destruct s as [|y s]; [done|]. simpl. intros [= ->].
    apply scan_step_cases in E as [(_ & _ & ->)|(? & _)]; [|done].
    simpl in Hs. done.
  - by apply (IH q').
Qed.

(** The automaton accepts exactly the cleaned labels. *)
Lemma tidy_clean_label (cs : list ascii) :
  tidy cs → clean_label (string_of_list_ascii cs).
Proof.
  intros Ht. unfold clean_label. rewrite list_ascii_of_string_of_list_ascii.
  assert (∃ qf, scan AtStart cs = Some qf ∧ qf ≠ AfterSpace) as (qf & Hs & Hqf).
  { destruct Ht as [->| ->]; eauto. }
  repeat split.
  - by eapply scan_allowed.
  - destruct cs as [|c cs]; simpl; [done|]. intros ? [= <-]. simpl in Hs.
    destruct (scan_step AtStart c) as [q'|] eqn:E; [|done].
    apply scan_step_cases in E as [(_ & ? & _)|(? & _)]; done.
  - intros c. by eapply scan_last.
  - intros i. by eapply scan_no_double_space.
Qed.

(** *** The driver of [re.sub] *)

Lemma sub_go_skip m s : ∀ prev k,
  ∃ prev', Re.sub_go m prev k s = Re.sub_go m prev' 0 (drop k s).
Proof.
  induction s as [|c s IH]; intros prev k.
  - exists prev. by rewrite drop_nil.
  - destruct k as [|k]; [by exists prev|]. simpl. apply IH.
Qed.

Lemma sub_go_match m prev c r repl n :
  m prev (c :: r) = Some (repl, n) → (1 ≤ n)%nat →
  ∃ prev', Re.sub_go m prev 0 (c :: r)
           = repl ++ Re.sub_go m prev' 0 (drop n (c :: r)).
Proof.
  intros Hm Hn. simpl. rewrite Hm.
  destruct (sub_go_skip m r (Some c) (pred n)) as [prev' ->].
  exists prev'. destruct n as [|n]; [lia|done].
Qed.

(** A solid pattern keeps the automaton on its track. *)
Lemma sub_go_solid m : solid m → ∀ len s, (length s ≤ len)%nat →
  ∀ prev q qf, scan q s = Some qf → scan q (Re.sub_go m prev 0 s) = Some qf.
Proof.
  intros Hm len. induction len as [|len IH]; intros s Hlen prev q qf Hs.
  { destruct s; [done|simpl in Hlen; lia]. }
  destruct s as [|c r]; [done|].
  destruct (m prev (c :: r)) as [[repl n]|] eqn:E.
  - destruct (Hm _ _ _ _ E) as [Hn Hq].
    destruct (sub_go_match _ _ _ _ _ _ E Hn) as [prev' ->].
    rewrite <- (take_drop n (c :: r)), scan_app in Hs.
    destruct (scan q (take n (c :: r))) as [q1|] eqn:E1; [|done].
    destruct (Hq _ _ E1) as [-> Hrepl].
    rewrite scan_app, Hrepl. apply IH; [|done].
    rewrite length_drop. simpl in *. lia.
  - simpl. rewrite E. simpl in *.
    destruct (scan_step q c) as [q'|]; [|done].
    apply IH; [lia|done].
Qed.

Lemma sub_tidy m s : solid m → tidy s → tidy (Re.sub m s).
Proof.
  intros Hm [Hs|Hs]; [left|right]; by apply (sub_go_solid m Hm (length s)).
Qed.

Lemma span_app p s a b : Re.span p s = (a, b) → s = a ++ b.
Proof.
  revert a b. induction s as [|c s IH]; intros a b; simpl.
  - by intros [= <- <-].
  - destruct (p c).
    + destruct (Re.span p s) as [a' b']. intros [= <- <-].
      by rewrite (IH a' b').
    + by intros [= <- <-].
Qed.

Lemma span_rest p s a b c :
  Re.span p s = (a, b) → head b = Some c → p c = false.
Proof.
  revert a b. induction s as [|x s IH]; intros a b; simpl.
  - by intros [= <- <-].
  - destruct (p x) eqn:E.
    + destruct (Re.span p s) as [a' b']. intros [= <- <-]. by eapply IH.
    + intros [= <- <-] [= <-]. done.
Qed.

Lemma span_Forall p s a b : Re.span p s = (a, b) → Forall (λ c, p c = true) a.
Proof.
  revert a b. induction s as [|x s IH]; intros a b; simpl.
  - intros [= <- <-]. constructor.
  - destruct (p x) eqn:E.
    + destruct (Re.span p s) as [a' b'] eqn:E'. intros [= <- <-].
      constructor; [done|]. by eapply IH.
    + intros [= <- <-]. constructor.
Qed.

Lemma scan_snoc_visible q l c q1 :
  scan q (l ++ [c]) = Some q1 → c ≠ " "%char → q1 = InWord.
Proof.
  rewrite scan_app. destruct (scan q l) as [q'|]; [|done]. simpl.
  destruct (scan_step q' c) as [q2|] eqn:E; [|done]. intros [= <-] Hc.
  apply scan_step_cases in E as [(? & _)|(_ & ? & _)]; done.
Qed.

Lemma unit_after_X_solid tail_init tail_last repl :
  tail_last ≠ " "%char → (∀ q, scan q repl = Some InWord) →
  solid (Re.unit_after_X (tail_init ++ [tail_last]) repl).
Proof.
  intros Hlast Hrepl prev s repl' n. unfold Re.unit_after_X.
  destruct s as [|c s1]; [done|].
  destruct (Re.span Str.is_space s1) as [ws s2] eqn:Esp.
  set (tl := tail_init ++ [tail_last]).
  destruct (_ && _) eqn:Hc; [|done]. intros [= <- <-].
  repeat (apply andb_prop in Hc as [Hc ?]).
  split; [lia|]. intros q q1 Hs. split; [|apply Hrepl].
  apply bool_decide_eq_true in H0.
  apply span_app in Esp as ->.
  assert (take (1 + length ws + length tl) (c :: ws ++ s2)
          = (c :: ws ++ tail_init) ++ [tail_last]) as Ht.
  { simpl. f_equal. rewrite take_app_add'; [|done].
    rewrite H0. unfold tl. by rewrite app_assoc. }
  change (S (length ws + length tl)) with (1 + length ws + length tl) in Hs.
  rewrite Ht in Hs. by eapply scan_snoc_visible.
Qed.

Lemma X_mX_solid : solid Re.X_mX.
Proof.
  apply (unit_after_X_solid ["m"%char] "X"%char); [done|].
  by intros [].
Qed.

Lemma X_l_solid : solid Re.X_l.
Proof.
  apply (unit_after_X_solid [] "l"%char); [done|].
  by intros [].
Qed.

(** *** From any text to a tidy one *)

Lemma sub_foreign_char_keeps s : ∀ prev,
  Forall (λ c, Re.keeps c = true) (Re.sub_go Re.foreign_char prev 0 s).
Proof.
  induction s as [|c s IH]; intros prev; simpl; [constructor|].
  destruct (Re.keeps c) eqn:E; simpl; constructor; auto.
Qed.

Lemma sub_spaces_scan len : ∀ s, (length s ≤ len)%nat →
  Forall (λ c, Re.keeps c = true) s →
  ∀ prev q,
    q = InWord ∨ Re.holds Str.is_space (head s) = false →
    is_Some (scan q (Re.sub_go Re.spaces prev 0 s)).
Proof.
  induction len as [|len IH]; intros s Hlen Hk prev q Hq.
  { destruct s; [by eexists|simpl in Hlen; lia]. }
  destruct s as [|c r]; [by eexists|].
  apply Forall_cons in Hk as [Hc Hr].
  destruct (Re.spaces prev (c :: r)) as [[repl n]|] eqn:E.
  - unfold Re.spaces in E.
    destruct (Re.span Str.is_space (c :: r)) as [ws rest] eqn:Esp.
    destruct (Re.nonempty ws) eqn:Hne; [|done]. injection E as <- <-.
    assert (Str.is_space c = true) as Hsp.
    { simpl in Esp. destruct (Str.is_space c); [done|].
      injection Esp as <- <-. done. }
    destruct Hq as [->|Hq]; [|simpl in Hq; congruence].
    destruct (sub_go_match Re.spaces prev c r [" "%char] (length ws)) as [prev' ->].
    { unfold Re.spaces. by rewrite Esp, Hne. }
    { destruct ws; [done|simpl; lia]. }
    pose proof (span_app _ _ _ _ Esp) as Happ. rewrite Happ.
    rewrite drop_app_length. simpl.
    apply IH.
    + apply (f_equal length) in Happ. rewrite length_app in Happ.
      destruct ws; [done|]. simpl in *. lia.
    + assert (Forall (λ c, Re.keeps c = true) (ws ++ rest)) as HF.
      { rewrite <- Happ. by constructor. }
      by apply Forall_app in HF as [_ ?].
    + right. destruct rest as [|x rest]; [done|]. simpl.
      by eapply (span_rest _ _ _ _ x Esp).
  - assert (Str.is_space c = false) as Hsp.
    { unfold Re.spaces in E. simpl in E. destruct (Str.is_space c); [|done].
      by destruct (Re.span Str.is_space r). }
    simpl. unfold Re.spaces at 1. simpl. rewrite Hsp. simpl.
    rewrite (scan_step_visible q c Hc Hsp).
    apply IH; [simpl in Hlen; lia|done|by left].
Qed.

Lemma scan_step_any q c q' q2 :
  scan_step q c = Some q' → Str.is_space c = false →
  scan_step q2 c = Some InWord.
Proof.
  destruct c as [[] [] [] [] [] [] [] []]; destruct q, q2; vm_compute;
    congruence.
Qed.

Lemma scan_restart s qf :
  scan AfterSpace s = Some qf → ∃ qf', scan AtStart s = Some qf'.
Proof.
  destruct s as [|c s]; simpl; [by eexists|].
  destruct (scan_step AfterSpace c) as [q'|] eqn:E; [|done].
  pose proof E as E'.
  apply scan_step_cases in E' as [(_ & ? & _)|(Hsp & -> & Hc)]; [done|].
  intros Hs. exists qf. by rewrite (scan_step_any _ _ _ AtStart E Hsp).
Qed.

Lemma lstrip_scan s qf :
  scan InWord s = Some qf → ∃ qf', scan AtStart (Str.lstrip s) = Some qf'.
Proof.
  destruct s as [|c s]; simpl; [by eexists|].
  destruct (scan_step InWord c) as [q'|] eqn:E; [|done].
  pose proof E as E'.
  apply scan_step_cases in E' as [(-> & _ & ->)|(Hsp & -> & Hc)].
  - intros Hs. simpl.
    assert (Str.lstrip s = s) as ->; [|by eapply scan_restart].
    destruct s as [|x s]; [done|]. simpl in *.
    destruct (scan_step AfterSpace x) as [q'|] eqn:E2; [|done].
    apply scan_step_cases in E2 as [(_ & ? & _)|(-> & _)]; done.
  - rewrite Hsp. intros Hs. exists qf. simpl.
    by rewrite (scan_step_any _ _ _ AtStart E Hsp).
Qed.

Lemma rstrip_scan s : ∀ q qf, scan q s = Some qf →
  ∃ qf', scan q (Str.rstrip s) = Some qf'
         ∧ ((Str.rstrip s = [] ∧ qf' = q) ∨ qf' = InWord).
Proof.
  induction s as [|c s IH]; intros q qf; simpl; [eauto|].
  destruct (scan_step q c) as [q'|] eqn:E; [|done]. intros Hs.
  destruct (IH _ _ Hs) as (qf' & Hr & Hcase).
  destruct (Str.rstrip s) as [|y r'] eqn:Er.
  - destruct (Str.is_space c) eqn:Hsp; [simpl; eauto|].
    simpl. rewrite E. exists q'. split; [done|]. right.
    apply scan_step_cases in E as [(-> & _)|(_ & -> & _)]; [|done].
    vm_compute in Hsp. done.
  - simpl. rewrite E. exists qf'. split; [done|].
    destruct Hcase as [[? _]| ->]; [done|by right].
Qed.

Lemma strip_tidy s : is_Some (scan InWord s) → tidy (Str.strip s).
Proof.
  intros [qf Hs]. apply lstrip_scan in Hs as [qf' Hs].
  apply rstrip_scan in Hs as (q & Hq & [[_ ->]| ->]); [by left|by right].
Qed.

(** The common tail of both clean-up functions. *)
Lemma cleanup_tidy (s : list ascii) :
  tidy (Str.strip (Re.sub Re.spaces (Re.sub Re.foreign_char s))).
Proof.
  apply strip_tidy.
  apply (sub_spaces_scan (length (Re.sub Re.foreign_char s))); [done| |by left].
  apply sub_foreign_char_keeps.
Qed.

(** C10: [process_label_ccap] and [process_label_clear] return the empty
    string for a null or empty input, and in every case a string made of
    ASCII letters, digits, [%] and single spaces only, with no whitespace at
    either end and no two consecutive spaces. *)
Theorem process_label_clean (unicode_nfd : list N → list N)
    (label : option (list N)) :
  (is_na_or_empty label = true →
     process_label_ccap unicode_nfd label = ""
     ∧ process_label_clear unicode_nfd label = "")
  ∧ clean_label (process_label_ccap unicode_nfd label)
  ∧ clean_label (process_label_clear unicode_nfd label).
Proof.
  unfold process_label_ccap, process_label_clear.
  destruct (is_na_or_empty label) eqn:E.
  - repeat split; try done; apply (tidy_clean_label []); by left.
  - split; [done|]. split; apply tidy_clean_label.
    + apply cleanup_tidy.
    + apply sub_tidy; [apply X_l_solid|].
      apply sub_tidy; [apply X_mX_solid|]. apply cleanup_tidy.
Qed.

(** * Facts about the list helpers *)

Section first_occurrences_facts.
Context {A K : Type} `{EqDecision K} (key : A → K).

Lemma elem_of_first_occurrences x seen l :
  x ∈ first_occurrences key seen l → x ∈ l ∧ key x ∉ seen.
Proof.
  revert seen. induction l as [|y l IH]; intros seen; simpl.
  - by intros ?%elem_of_nil.
  - destruct (decide (key y ∈ seen)).
    + intros [? ?]%IH. split; [by right|done].
    + intros [->|[? Hs]%IH]%elem_of_cons; [split; [by left|done]|].
      split; [by right|]. intros ?. apply Hs. by right.
Qed.

Lemma first_occurrences_keys k seen l :
  k ∈ key <$> l → k ∉ seen → k ∈ key <$> first_occurrences key seen l.
Proof.
  revert seen. induction l as [|y l IH]; intros seen; simpl; [done|].
  intros Hk Hs. destruct (decide (key y ∈ seen)) as [Hy|Hy].
  - apply IH; [|done]. apply elem_of_cons in Hk as [->|?]; done.
  - destruct (decide (k = key y)) as [->|Hne]; [by left|].
    right. apply IH.
    + apply elem_of_cons in Hk as [?|?]; done.
    + by intros [?|?]%elem_of_cons.
Qed.

Lemma first_occurrences_NoDup seen l :
  NoDup (key <$> first_occurrences key seen l).
Proof.
  revert seen. induction l as [|y l IH]; intros seen; simpl; [constructor|].
  destruct (decide (key y ∈ seen)); [apply IH|].
  simpl. constructor; [|apply IH].
  intros (z & Hz & [_ Hs]%elem_of_first_occurrences)%list_elem_of_fmap.
  apply Hs. rewrite Hz. by left.
Qed.

Lemma first_occurrences_id seen l :
  NoDup (key <$> l) → (∀ x, x ∈ l → key x ∉ seen) →
  first_occurrences key seen l = l.
Proof.
  revert seen. induction l as [|y l IH]; intros seen; simpl; [done|].
  intros [Hy Hl]%NoDup_cons Hs.
  destruct (decide (key y ∈ seen)) as [Hin|_].
  { destruct (Hs y); [by left|done]. }
  f_equal. apply IH; [done|].
  intros x Hx [Heq|?]%elem_of_cons.
  - apply Hy. rewrite <- Heq. by apply list_elem_of_fmap_2.
  - apply (Hs x); [by right|done].
Qed.

End first_occurrences_facts.

Section combinations2_facts.
Context {A : Type}.
Implicit Types l : list A.

Lemma elem_of_combinations2 l x y :
  (x, y) ∈ combinations2 l ↔ before l x y.
Proof.
  induction l as [|z l IH]; simpl.
  - split; [by intros ?%elem_of_nil|]. by intros (i & j & _ & ? & _).
  - rewrite elem_of_app, IH, list_elem_of_fmap. split.
    + intros [(y' & [= -> ->] & Hy)|(i & j & Hij & Hi & Hj)].
      * apply list_elem_of_lookup in Hy as [j Hj].
        exists 0%nat, (S j). repeat split; [lia|done..].
      * exists (S i), (S j). repeat split; [lia|done..].
    + intros (i & j & Hij & Hi & Hj).
      destruct j as [|j]; [lia|]. simpl in Hj.
      destruct i as [|i]; simpl in Hi.
      * left. injection Hi as ->. exists y. split; [done|].
        by eapply list_elem_of_lookup_2.
      * right. exists i, j. repeat split; [lia|done..].
Qed.

Lemma combinations2_elem_of l x y :
  (x, y) ∈ combinations2 l → x ∈ l ∧ y ∈ l.
Proof.
  intros (i & j & _ & Hi & Hj)%elem_of_combinations2.
  split; by eapply list_elem_of_lookup_2.
Qed.

Lemma combinations2_total l x y :
  x ∈ l → y ∈ l → x ≠ y → (x, y) ∈ combinations2 l ∨ (y, x) ∈ combinations2 l.
Proof.
  intros [i Hi]%list_elem_of_lookup [j Hj]%list_elem_of_lookup Hne.
  rewrite !elem_of_combinations2.
  destruct (lt_eq_lt_dec i j) as [[?| ->]|?].
  - left. by exists i, j.
  - congruence.
  - right. by exists j, i.
Qed.

Lemma combinations2_NoDup_ne l x y :
  NoDup l → (x, y) ∈ combinations2 l → x ≠ y.
Proof.
  intros Hnd (i & j & Hij & Hi & Hj)%elem_of_combinations2 ->.
  pose proof (NoDup_lookup _ _ _ _ Hnd Hi Hj). lia.
Qed.

Lemma combinations2_NoDup_once l x y :
  NoDup l → (x, y) ∈ combinations2 l → (y, x) ∉ combinations2 l.
Proof.
  intros Hnd (i & j & Hij & Hi & Hj)%elem_of_combinations2
    (i' & j' & Hij' & Hi' & Hj')%elem_of_combinations2.
  pose proof (NoDup_lookup _ _ _ _ Hnd Hi Hj').
  pose proof (NoDup_lookup _ _ _ _ Hnd Hj Hi'). lia.
Qed.

(** There are [n (n - 1) / 2] pairs. *)
Lemma combinations2_length l :
  (2 * length (combinations2 l) = length l * (length l - 1))%nat.
Proof.
  induction l as [|z l IH]; simpl; [done|].
  rewrite length_app, length_fmap. nia.
Qed.

Lemma combinations2_nil l : combinations2 l = [] ↔ (length l < 2)%nat.
Proof.
  destruct l as [|x [|y l]]; simpl; split; try done; try lia.
Qed.

End combinations2_facts.

Section py_dict_facts.
Context {K V : Type} `{Countable K}.
Implicit Types l : list (K * V).

Lemma py_dict_snoc l k v : py_dict (l ++ [(k, v)]) = <[k := v]> (py_dict l).
Proof. unfold py_dict. by rewrite foldl_app. Qed.

Lemma py_dict_lookup_Some l k v : py_dict l !! k = Some v → (k, v) ∈ l.
Proof.
  induction l as [|[k' v'] l IH] using rev_ind; [done|].
  rewrite py_dict_snoc, elem_of_app, list_elem_of_singleton.
  destruct (decide (k' = k)) as [->|Hne].
  - rewrite lookup_insert_eq. intros [= ->]. by right.
  - rewrite lookup_insert_ne by done. auto.
Qed.

Lemma py_dict_lookup_is_Some l k : k ∈ l.*1 → is_Some (py_dict l !! k).
Proof.
  induction l as [|[k' v'] l IH] using rev_ind; [by intros ?%elem_of_nil|].
  rewrite py_dict_snoc, fmap_app, elem_of_app. simpl.
  destruct (decide (k' = k)) as [->|Hne].
  - rewrite lookup_insert_eq. eauto.
  - rewrite lookup_insert_ne by done.
    intros [?|?%list_elem_of_singleton]; [auto|congruence].
Qed.

(** When equal keys carry equal values, the dictionary is the list. *)
Lemma py_dict_lookup_functional l k v :
  (∀ v1 v2, (k, v1) ∈ l → (k, v2) ∈ l → v1 = v2) →
  (k, v) ∈ l → py_dict l !! k = Some v.
Proof.
  intros Hfun Hin.
  destruct (py_dict_lookup_is_Some l k) as [v' Hv'].
  { apply list_elem_of_fmap. by exists (k, v). }
  rewrite Hv'. f_equal. apply Hfun; [|done]. by apply py_dict_lookup_Some.
Qed.

End py_dict_facts.

Lemma zip_fmap_r {A B} (f : A → B) (l : list A) :
  zip l (f <$> l) = (λ x, (x, f x)) <$> l.
Proof. induction l as [|x l IH]; simpl; [done|]. f_equal. apply IH. Qed.

Lemma zip_with_fmap_r {A B C} (g : A → B → C) (f : A → B) (l : list A) :
  zip_with g l (f <$> l) = (λ x, g x (f x)) <$> l.
Proof. induction l as [|x l IH]; simpl; [done|]. f_equal. apply IH. Qed.

Lemma filter_fmap_pair {A B} (f : A → B) (P : B → Prop) `{∀ y, Decision (P y)}
    (l : list A) :
  filter (λ ps : A * B, P ps.2) ((λ x, (x, f x)) <$> l)
  = (λ x, (x, f x)) <$> filter (λ x, P (f x)) l.
Proof.
  induction l as [|x l IH]; [done|].
  rewrite fmap_cons, !filter_cons. simpl.
  destruct (decide (P (f x))); rewrite IH; done.
Qed.

Lemma elem_of_concat {A} (x : A) (ls : list (list A)) :
  x ∈ concat ls ↔ ∃ l, x ∈ l ∧ l ∈ ls.
Proof.
  induction ls as [|l ls IH]; simpl.
  - split; [by intros ?%elem_of_nil|]. by intros (? & _ & ?%elem_of_nil).
  - rewrite elem_of_app, IH. split.
    + intros [?|(l' & ? & ?)]; [exists l; split; [done|by left]|].
      exists l'. split; [done|by right].
    + intros (l' & ? & [->|?]%elem_of_cons); [by left|]. right. by exists l'.
Qed.

(** * Facts about [compute_similarity_matrix sim] *)

Lemma mapM_M_cons {A B} (f : A → M B) x l w :
  mapM f (x :: l) w
  = match f x w with
    | (Ok y, w1) =>
        match mapM f l w1 with
        | (Ok k, w2) => (Ok (y :: k), w2)
        | (Raise e, w2) => (Raise e, w2)
        end
    | (Raise e, w1) => (Raise e, w1)
    end.
Proof.
  simpl. unfold mbind, M_bind. destruct (f x w) as [[y|e] w1]; [|done].
  by destruct (mapM f l w1) as [[k|e] w2].
Qed.

Lemma M_bind_run {A B} (m : M A) (f : A → M B) w :
  (m ≫= f) w
  = match m w with
    | (Ok a, w') => f a w'
    | (Raise e, w') => (Raise e, w')
    end.
Proof. reflexivity. Qed.

Lemma py_max_cons_bounds x xs :
  ∃ m, py_max (x :: xs) = Ok m ∧ m ∈ x :: xs ∧ ∀ y, y ∈ x :: xs → (y <= m)%Q.
Proof.
  simpl. eexists; split; [done|]. revert x.
  induction xs as [|z xs IH]; intros x; simpl.
  - split; [by left|]. intros y ->%list_elem_of_singleton. apply Qle_refl.
  - destruct (decide (z <= x)%Q) as [Hle|Hnle].
    + destruct (IH x) as [Hin Hmax]. split.
      * apply elem_of_cons in Hin as [->|?]; [by left|by do 2 right].
      * intros y [->|[->|?]%elem_of_cons]%elem_of_cons.
        -- apply Hmax. by left.
        -- eapply Qle_trans; [exact Hle|]. apply Hmax. by left.
        -- apply Hmax. by right.
    + destruct (IH z) as [Hin Hmax]. split.
      * by right.
      * intros y [->|Hy]%elem_of_cons; [|by apply Hmax].
        eapply Qle_trans; [|apply Hmax; by left].
        apply Qlt_le_weak. by apply Qnot_le_lt.
Qed.

Section similarity_facts.

Variable sim : MatchingAlgorithm → string → string → Q.


(** The score sim is the greatest of the similarities the algorithms give. *)
Lemma score_max algs a b :
  algs ≠ [] →
  (∃ f, f ∈ algs ∧ score sim algs a b = sim f a b)
  ∧ ∀ f, f ∈ algs → (sim f a b <= score sim algs a b)%Q.
Proof.
  intros Hne. destruct algs as [|f0 algs]; [done|]. unfold score.
  rewrite fmap_cons.
  destruct (py_max_cons_bounds (sim f0 a b)
              ((λ f, sim f a b) <$> algs)) as (m & -> & Hin & Hmax).
  split.
  - change (m ∈ (λ f, sim f a b) <$> (f0 :: algs)) in Hin.
    apply list_elem_of_fmap in Hin as (f & -> & Hf). eauto.
  - intros f Hf. apply Hmax.
    by apply (list_elem_of_fmap_2 (λ f, sim f a b) (f0 :: algs)).
Qed.

(** Similarities in [0, 1] give scores in [0, 1]. *)
Lemma score_range algs a b :
  algs ≠ [] →
  (∀ f x y, 0 <= sim f x y ∧ sim f x y <= 1)%Q →
  (0 <= score sim algs a b ∧ score sim algs a b <= 1)%Q.
Proof.
  intros Hne Hr. destruct (score_max algs a b Hne) as [(f & _ & ->) _]. apply Hr.
Qed.

Lemma score_sym algs a b :
  (∀ f x y, sim f x y = sim f y x) →
  score sim algs a b = score sim algs b a.
Proof.
  intros Hsym. unfold score.
  replace ((λ f, sim f b a) <$> algs)
    with ((λ f, sim f a b) <$> algs); [done|].
  apply list_fmap_ext. intros _ f _. apply Hsym.
Qed.

Lemma call_all_algorithms algs a b w :
  mapM (λ f, call_similarity sim f a b) (Some <$> algs) w
  = (Ok ((λ f, sim f a b) <$> algs),
     World (draws w) (scored w ++ ((λ f, (f, a, b)) <$> algs))).
Proof.
  revert w. induction algs as [|f algs IH]; intros w.
  - simpl. unfold mret, M_ret. destruct w. simpl. by rewrite app_nil_r.
  - rewrite fmap_cons, mapM_M_cons. simpl. rewrite IH. simpl.
    by rewrite <- app_assoc.
Qed.

Lemma score_pair algs p w :
  algs ≠ [] →
  (let '(label1, label2) := p in
   sims ← mapM (λ f, call_similarity sim f label1 label2)
               (Some <$> algs);
   lift (py_max sims)) w
  = (Ok (score sim algs p.1 p.2),
     World (draws w) (scored w ++ all_calls algs [p])).
Proof.
  intros Hne. destruct p as [a b]. unfold mbind, M_bind.
  rewrite call_all_algorithms. unfold lift, score, all_calls. simpl.
  rewrite app_nil_r. destruct algs as [|f algs]; [done|]. done.
Qed.

Lemma score_pair_empty p w :
  (let '(label1, label2) := p in
   sims ← mapM (λ f, call_similarity sim f label1 label2) [];
   lift (py_max sims)) w
  = (Raise (ValueError "max() arg is an empty sequence"), w).
Proof. by destruct p. Qed.

Lemma score_all_pairs algs pairs w :
  algs ≠ [] →
  mapM (λ '(label1, label2),
          sims ← mapM (λ f, call_similarity sim f label1 label2)
                      (Some <$> algs);
          lift (py_max sims)) pairs w
  = (Ok ((λ p, score sim algs p.1 p.2) <$> pairs),
     World (draws w) (scored w ++ all_calls algs pairs)).
Proof.
  intros Hne. revert w. induction pairs as [|p pairs IH]; intros w.
  - simpl. unfold mret, M_ret. destruct w. simpl. by rewrite app_nil_r.
  - rewrite mapM_M_cons.
    pose proof (score_pair algs p w Hne) as Hp. destruct p as [a b].
    rewrite Hp, IH. simpl. unfold all_calls. simpl.
    by rewrite app_nil_r, <- app_assoc.
Qed.

Lemma mapping_members (algs : list MatchingAlgorithm) :
  algorithm_mapping_get <$> (Member <$> algs) = Some <$> algs.
Proof. rewrite <- list_fmap_compose. by apply list_fmap_ext. Qed.

Lemma mapping_None (algos : list algorithm_id) :
  None ∈ algorithm_mapping_get <$> algos ↔ ∃ repr, Foreign repr ∈ algos.
Proof.
  rewrite list_elem_of_fmap. split.
  - intros ([a|repr] & Ha & Hin); [done|eauto].
  - intros [repr Hin]. by exists (Foreign repr).
Qed.

(** Every list of identifiers holds a foreign object or lists members. *)
Lemma algorithm_ids_cases (algos : list algorithm_id) :
  (∃ repr, Foreign repr ∈ algos) ∨ ∃ algs, algos = Member <$> algs.
Proof.
  induction algos as [|[a|repr] algos IH].
  - right. by exists [].
  - destruct IH as [[repr Hin]|[algs ->]].
    + left. exists repr. by right.
    + right. by exists (a :: algs).
  - left. exists repr. by left.
Qed.

(** With members only, an algorithm at least and two labels at least, the
    function returns the qualifying pairs, after scoring every pair with
    every algorithm. *)
Lemma compute_similarity_matrix_ok df t algs w :
  algs ≠ [] → label_pairs df ≠ [] →
  compute_similarity_matrix sim df t (Member <$> algs) w
  = (Ok (pair_row sim algs <$> qualifying_pairs sim df algs t),
     World (draws w) (scored w ++ all_calls algs (label_pairs df))).
Proof.
  intros Halgs Hpairs. unfold compute_similarity_matrix.
  rewrite mapping_members.
  destruct (decide (None ∈ Some <$> algs)) as [Hin|_].
  { by apply list_elem_of_fmap in Hin as (? & ? & _). }
  fold (unique_labels df). fold (label_pairs df).
  destruct (label_pairs df) as [|p0 pairs] eqn:E; [done|].
  rewrite M_bind_run, (score_all_pairs algs (p0 :: pairs) w Halgs).
  unfold mret, M_ret. f_equal. f_equal.
  rewrite zip_fmap_r.
  rewrite (filter_fmap_pair (λ p, score sim algs p.1 p.2) (λ s, (t <= s)%Q)).
  unfold qualifying_pairs. rewrite E, <- list_fmap_compose.
  apply list_fmap_ext. by intros _ [a b] _.
Qed.

(** A foreign object in the list is refused before any other work. *)
Lemma compute_similarity_matrix_foreign df t algos w :
  (∃ repr, Foreign repr ∈ algos) →
  compute_similarity_matrix sim df t algos w
  = (Raise (ValueError "One or more of the specified algorithms are not known or not implemented yet!"), w).
Proof.
  intros Hf%mapping_None. unfold compute_similarity_matrix.
  by destruct (decide (None ∈ algorithm_mapping_get <$> algos)).
Qed.

(** Fewer than two labels: the empty list of pairs cannot be unpacked. *)
Lemma compute_similarity_matrix_unpack df t algs w :
  label_pairs df = [] →
  compute_similarity_matrix sim df t (Member <$> algs) w
  = (Raise (ValueError "not enough values to unpack (expected 2, got 0)"), w).
Proof.
  intros Hpairs. unfold compute_similarity_matrix. rewrite mapping_members.
  destruct (decide (None ∈ Some <$> algs)) as [Hin|_].
  { by apply list_elem_of_fmap in Hin as (? & ? & _). }
  unfold label_pairs, unique_labels in Hpairs. by rewrite Hpairs.
Qed.

(** No algorithm: [max] fails on the first pair, before any library call. *)
Lemma compute_similarity_matrix_no_algorithm df t w :
  label_pairs df ≠ [] →
  compute_similarity_matrix sim df t [] w
  = (Raise (ValueError "max() arg is an empty sequence"), w).
Proof.
  intros Hpairs. unfold compute_similarity_matrix.
  rewrite fmap_nil.
  destruct (decide (None ∈ [])) as [Hin|_]; [by apply elem_of_nil in Hin|].
  unfold label_pairs, unique_labels in Hpairs.
  destruct (combinations2 _) as [|[a b] pairs]; [done|].
  by rewrite M_bind_run, mapM_M_cons.
Qed.

(** The function never returns without an algorithm, with a foreign
    object or with fewer than two labels. *)
Lemma compute_similarity_matrix_cases df t algos w :
  (∃ e, compute_similarity_matrix sim df t algos w = (Raise e, w))
  ∨ (∃ algs, algos = Member <$> algs ∧ algs ≠ [] ∧ label_pairs df ≠ []).
Proof.
  destruct (algorithm_ids_cases algos) as [Hf|[algs ->]].
  { left. eexists. by apply compute_similarity_matrix_foreign. }
  destruct (label_pairs df) as [|p pairs] eqn:E.
  { left. eexists. by apply compute_similarity_matrix_unpack. }
  destruct algs as [|f algs].
  { left. eexists. apply compute_similarity_matrix_no_algorithm. congruence. }
  right. exists (f :: algs). done.
Qed.

Lemma elem_of_qualifying_pairs df algs t a b :
  (a, b) ∈ qualifying_pairs sim df algs t
  ↔ before (unique_labels df) a b ∧ (t <= score sim algs a b)%Q.
Proof.
  unfold qualifying_pairs, label_pairs.
  rewrite list_elem_of_filter, elem_of_combinations2. unfold qualifies.
  simpl. tauto.
Qed.

(** Raising the threshold only removes qualifying pairs. *)
Lemma qualifying_pairs_mono df algs t1 t2 :
  (t1 <= t2)%Q →
  qualifying_pairs sim df algs t2 = filter (qualifies sim algs t2) (qualifying_pairs sim df algs t1).
Proof.
  intros Ht. unfold qualifying_pairs. rewrite list_filter_filter.
  apply list_filter_iff. intros p. unfold qualifies. split; [|tauto].
  intros H2. split; [done|]. by eapply Qle_trans.
Qed.

End similarity_facts.

(** * Facts about [id_generator] and [create_matched_dataframe] *)

Lemma mapM_M_app {A B} (f : A → M B) l1 l2 w :
  mapM f (l1 ++ l2) w
  = match mapM f l1 w with
    | (Ok k1, w1) =>
        match mapM f l2 w1 with
        | (Ok k2, w2) => (Ok (k1 ++ k2), w2)
        | (Raise e, w2) => (Raise e, w2)
        end
    | (Raise e, w1) => (Raise e, w1)
    end.
Proof.
  revert w. induction l1 as [|x l1 IH]; intros w.
  - change (mapM f [] w) with (@Ok (list B) [], w). cbv iota. simpl.
    by destruct (mapM f l2 w) as [[k2|e] w2].
  - rewrite <- app_comm_cons, !mapM_M_cons.
    destruct (f x w) as [[y|e] w1]; [|done]. rewrite IH.
    destruct (mapM f l1 w1) as [[k1|e] w2]; [|done].
    by destruct (mapM f l2 w2) as [[k2|e] w3].
Qed.

Lemma string_of_list_ascii_length cs :
  String.length (string_of_list_ascii cs) = length cs.
Proof. induction cs as [|c cs IH]; simpl; [done|]. by rewrite IH. Qed.

Section identifier_facts.

Variable rnd : nat → nat.

Lemma random_choice_run chars w :
  (0 < String.length chars)%nat →
  random_choice rnd chars w
  = (Ok (chosen chars (rnd (draws w))), World (S (draws w)) (scored w)).
Proof.
  intros Hlen. unfold random_choice, chosen.
  assert (rnd (draws w) mod String.length chars
          < length (list_ascii_of_string chars))%nat as Hlt.
  { rewrite <- (string_of_list_ascii_of_string chars) at 1.
    rewrite string_of_list_ascii_length. apply Nat.mod_upper_bound.
    rewrite <- (string_of_list_ascii_of_string chars) in Hlen.
    rewrite string_of_list_ascii_length in Hlen. lia. }
  apply lookup_lt_is_Some in Hlt as [c Hc]. rewrite Hc.
  by rewrite (nth_lookup_Some _ _ _ _ Hc).
Qed.

Lemma random_choices_run chars (l : list nat) w :
  (0 < String.length chars)%nat →
  mapM (λ _, random_choice rnd chars) l w
  = (Ok ((λ j, chosen chars (rnd (draws w + j))) <$> seq 0 (length l)),
     World (draws w + length l) (scored w)).
Proof.
  intros Hlen. revert w. induction l as [|x l IH]; intros w.
  - simpl. unfold mret, M_ret. destruct w. simpl. by rewrite Nat.add_0_r.
  - rewrite mapM_M_cons, random_choice_run, IH by done. simpl.
    rewrite Nat.add_0_r. f_equal; [|f_equal; lia]. do 2 f_equal.
    rewrite <- fmap_S_seq, <- list_fmap_compose.
    apply list_fmap_ext. intros _ j _. simpl. do 2 f_equal. lia.
Qed.

Lemma id_generator_chars w :
  id_generator rnd 6 w
  = (Ok (string_of_list_ascii
           ((λ j, chosen (ascii_lowercase +:+ ascii_uppercase +:+ digits)
                         (rnd (draws w + j))) <$> seq 0 6)),
     World (draws w + 6) (scored w)).
Proof.
  unfold id_generator. rewrite M_bind_run, random_choices_run; [done|].
  vm_compute. lia.
Qed.

Lemma id_generator_run w :
  id_generator rnd 6 w = (Ok (id_at rnd (draws w)), World (draws w + 6) (scored w)).
Proof.
  unfold id_at. by rewrite !id_generator_chars.
Qed.

(** An identifier has six characters: it is never the empty string. *)
Lemma id_at_length d : String.length (id_at rnd d) = 6%nat.
Proof.
  unfold id_at. rewrite id_generator_chars.
  by rewrite string_of_list_ascii_length, length_fmap, length_seq.
Qed.

Lemma id_at_nonempty d : id_at rnd d ≠ "".
Proof. intros H. pose proof (id_at_length d) as Hl. by rewrite H in Hl. Qed.

End identifier_facts.

Section matched_frame_facts.

Variable sim : MatchingAlgorithm → string → string → Q.
Variable rnd : nat → nat.

Lemma blocks_run working_df (matched_labels : list (list string)) w :
  mapM (λ labels,
          cid ← id_generator rnd 6;
          mret (with_cluster_id cid <$> rows_isin working_df labels))
       matched_labels w
  = (Ok (blocks_from rnd working_df (draws w) matched_labels),
     World (draws w + 6 * length matched_labels) (scored w)).
Proof.
  revert w. induction matched_labels as [|labels rest IH]; intros w.
  - simpl. unfold mret, M_ret. destruct w. simpl. by rewrite Nat.add_0_r.
  - rewrite mapM_M_cons, M_bind_run, id_generator_run.
    unfold mret at 1, M_ret at 1. rewrite IH. simpl.
    do 2 f_equal. lia.
Qed.

Lemma relabel_fresh (rows : list working_row) w :
  mapM (λ r,
          if decide (c_cluster_id r = "") then
            cid ← id_generator rnd 6;
            mret (ClusteredRow (c_key r) (c_label r) cid)
          else mret r)
       (with_cluster_id "" <$> rows) w
  = (Ok (fresh_rows rnd (draws w) rows),
     World (draws w + 6 * length rows) (scored w)).
Proof.
  revert w. induction rows as [|r rows IH]; intros w.
  - simpl. unfold mret, M_ret. destruct w. simpl. by rewrite Nat.add_0_r.
  - rewrite fmap_cons, mapM_M_cons. simpl.
    rewrite M_bind_run, id_generator_run.
    unfold mret at 1, M_ret at 1. rewrite IH. simpl.
    do 2 f_equal. lia.
Qed.

Lemma relabel_kept (rows : list clustered_row) w :
  Forall (λ r, c_cluster_id r ≠ "") rows →
  mapM (λ r,
          if decide (c_cluster_id r = "") then
            cid ← id_generator rnd 6;
            mret (ClusteredRow (c_key r) (c_label r) cid)
          else mret r)
       rows w
  = (Ok rows, w).
Proof.
  induction 1 as [|r rows Hr _ IH]; [done|].
  rewrite mapM_M_cons. destruct (decide (c_cluster_id r = "")); [done|].
  unfold mret at 1, M_ret at 1. by rewrite IH.
Qed.

Lemma blocks_from_ids working_df d matched_labels :
  Forall (λ r, c_cluster_id r ≠ "")
         (concat (blocks_from rnd working_df d matched_labels)).
Proof.
  revert d. induction matched_labels as [|labels rest IH]; intros d; simpl.
  - constructor.
  - apply Forall_app. split; [|apply IH].
    apply Forall_fmap, Forall_forall. intros r _. simpl. apply id_at_nonempty.
Qed.

Lemma blocks_from_length working_df d matched_labels :
  length (blocks_from rnd working_df d matched_labels) = length matched_labels.
Proof.
  revert d. induction matched_labels as [|labels rest IH]; intros d; simpl;
    [done|]. by rewrite IH.
Qed.

Lemma combinations_pair_rows algs (pairs : list (string * string)) :
  Combinations <$> (pair_row sim algs <$> pairs) = matched_labels_of pairs.
Proof. unfold matched_labels_of. by rewrite <- list_fmap_compose. Qed.

(** With at least one qualifying pair the function returns
    [result_frame]; the draws are one per pair and one per unmatched row. *)
Lemma create_matched_dataframe_ok df t algs w :
  algs ≠ [] →
  let working_df := working_frame df in
  let pairs := qualifying_pairs sim working_df algs t in
  pairs ≠ [] →
  create_matched_dataframe sim rnd df t (Member <$> algs) w
  = (Ok (result_frame rnd working_df pairs (draws w)),
     World (draws w + 6 * (length pairs + length (unmatched_rows working_df pairs)))
           (scored w ++ all_calls algs (label_pairs working_df))).
Proof.
  intros Halgs working_df pairs Hpairs. unfold create_matched_dataframe.
  fold (working_frame df). fold working_df.
  assert (label_pairs working_df ≠ []) as Hlp.
  { intros Hnil. apply Hpairs. unfold pairs, qualifying_pairs. by rewrite Hnil. }
  rewrite M_bind_run, (compute_similarity_matrix_ok sim _ t algs w Halgs Hlp).
  fold pairs. rewrite !combinations_pair_rows.
  destruct (pair_row sim algs <$> pairs) as [|row rows] eqn:E.
  { by apply fmap_nil_inv in E. }
  rewrite M_bind_run, blocks_run.
  rewrite mapM_M_app. fold (unmatched_rows working_df pairs).
  rewrite relabel_fresh, relabel_kept by apply blocks_from_ids.
  unfold result_frame, matched_labels_of. simpl.
  rewrite !length_fmap. do 2 f_equal. lia.
Qed.

(** With no qualifying pair, every pair having been scored, the function
    raises. *)
Lemma create_matched_dataframe_no_match df t algs w :
  algs ≠ [] →
  let working_df := working_frame df in
  label_pairs working_df ≠ [] →
  qualifying_pairs sim working_df algs t = [] →
  create_matched_dataframe sim rnd df t (Member <$> algs) w
  = (Raise (ValueError "No match was found"),
     World (draws w) (scored w ++ all_calls algs (label_pairs working_df))).
Proof.
  intros Halgs working_df Hlp Hnone. unfold create_matched_dataframe.
  fold (working_frame df). fold working_df.
  rewrite M_bind_run, (compute_similarity_matrix_ok sim _ t algs w Halgs Hlp).
  by rewrite Hnone.
Qed.

(** An exception of [compute_similarity_matrix] goes through. *)
Lemma create_matched_dataframe_raise df t algos w e w' :
  compute_similarity_matrix sim (working_frame df) t algos w = (Raise e, w') →
  create_matched_dataframe sim rnd df t algos w = (Raise e, w').
Proof.
  intros Hc. unfold create_matched_dataframe.
  fold (working_frame df). by rewrite M_bind_run, Hc.
Qed.

End matched_frame_facts.

(** * The pairwise matcher: claims C2, C5, C8 and C9 *)

Lemma cluster_data_raise sim rnd df t algos w e w' :
  create_matched_dataframe sim rnd df t algos w = (Raise e, w') →
  cluster_data sim rnd df t algos w = (Raise e, w').
Proof. intros Hc. unfold cluster_data. by rewrite M_bind_run, Hc. Qed.

Lemma elem_of_pair_rows sim algs (pairs : list (string * string)) a b s :
  SimilarityRow s [a; b] ∈ pair_row sim algs <$> pairs
  ↔ (a, b) ∈ pairs ∧ s = score sim algs a b.
Proof.
  rewrite list_elem_of_fmap. split.
  - intros ([a' b'] & [= -> -> ->] & Hin). done.
  - intros [Hin ->]. by exists (a, b).
Qed.

Lemma before_NoDup_asym {A} (l : list A) a b :
  NoDup l → before l a b → ¬ before l b a.
Proof.
  intros Hnd (i & j & Hij & Hi & Hj) (i' & j' & Hij' & Hi' & Hj').
  pose proof (NoDup_lookup _ _ _ _ Hnd Hi Hj').
  pose proof (NoDup_lookup _ _ _ _ Hnd Hj Hi'). lia.
Qed.

Lemma unique_labels_NoDup df : NoDup (unique_labels df).
Proof.
  unfold unique_labels.
  pose proof (first_occurrences_NoDup (@id string) [] (w_label <$> df)) as Hnd.
  by rewrite list_fmap_id in Hnd.
Qed.

(** C2 (amended): for a frame with at least two distinct labels and a
    non-empty list of algorithms, [compute_similarity_matrix] returns
    exactly the pairs of distinct labels, the earlier label first, whose
    score reaches the threshold; every unordered pair of distinct labels is
    a candidate exactly once, there are [n (n - 1) / 2] candidates, and each
    is scored with every algorithm; the score is the greatest of the
    similarities the algorithms give, and lies in [0, 1] when they do. *)
Theorem compute_similarity_matrix_exhaustive
    (sim : MatchingAlgorithm → string → string → Q)
    (df : list working_row) (t : Q) (algs : list MatchingAlgorithm) (w : world) :
  algs ≠ [] → (2 ≤ length (unique_labels df))%nat →
  ∃ rows w',
    compute_similarity_matrix sim df t (Member <$> algs) w = (Ok rows, w')
    ∧ (∀ a b s, SimilarityRow s [a; b] ∈ rows
         ↔ before (unique_labels df) a b ∧ s = score sim algs a b ∧ (t <= s)%Q)
    ∧ (∀ a b, a ∈ unique_labels df → b ∈ unique_labels df → a ≠ b →
         (before (unique_labels df) a b ∧ ¬ before (unique_labels df) b a)
         ∨ (before (unique_labels df) b a ∧ ¬ before (unique_labels df) a b))
    ∧ (2 * length (label_pairs df)
       = length (unique_labels df) * (length (unique_labels df) - 1))%nat
    ∧ scored w' = scored w ++ all_calls algs (label_pairs df)
    ∧ (∀ a b, (∃ f, f ∈ algs ∧ score sim algs a b = sim f a b)
              ∧ ∀ f, f ∈ algs → (sim f a b <= score sim algs a b)%Q)
    ∧ ((∀ f x y, 0 <= sim f x y ∧ sim f x y <= 1)%Q →
       ∀ a b, (0 <= score sim algs a b ∧ score sim algs a b <= 1)%Q).
Proof.
  intros Halgs Hn.
  assert (label_pairs df ≠ []) as Hlp.
  { unfold label_pairs. rewrite combinations2_nil. lia. }
  eexists _, _. split_and!.
  - by apply compute_similarity_matrix_ok.
  - intros a b s. rewrite elem_of_pair_rows, elem_of_qualifying_pairs.
    split; [by intros [[? ?] ->]|by intros (? & -> & ?)].
  - intros a b Ha Hb Hne. pose proof (unique_labels_NoDup df) as Hnd.
    destruct (combinations2_total _ _ _ Ha Hb Hne) as [H|H];
      apply elem_of_combinations2 in H; [left|right];
      (split; [done|by apply before_NoDup_asym]).
  - apply combinations2_length.
  - done.
  - intros a b. by apply score_max.
  - intros Hr a b. by apply score_range.
Qed.

(** C5 (amended): with a foreign object in the list of algorithms, or with
    an empty list, the pipeline raises before any similarity is evaluated
    and before any identifier is drawn: the world is left as it was.  The
    threshold is not validated. *)
Theorem configuration_errors_raise_first
    (sim : MatchingAlgorithm → string → string → Q) (rnd : nat → nat)
    (df : list main_row) (t : Q) (algos : list algorithm_id) (w : world) :
  algos = [] ∨ (∃ repr, Foreign repr ∈ algos) →
  ∃ e, cluster_data sim rnd df t algos w = (Raise e, w).
Proof.
  intros Hcfg.
  destruct (compute_similarity_matrix_cases sim (working_frame df) t algos w)
    as [[e He]|(algs & -> & Halgs & _)].
  - exists e. by apply cluster_data_raise, create_matched_dataframe_raise.
  - destruct Hcfg as [Hnil|[repr Hin]].
    + by apply fmap_nil_inv in Hnil.
    + by apply list_elem_of_fmap in Hin as (? & ? & _).
Qed.

(** C8: when no pair reaches the threshold, [create_matched_dataframe]
    raises, without drawing any identifier; after a complete scoring the
    exception is the [ValueError] "No match was found". *)
Theorem create_matched_dataframe_no_pair_raises
    (sim : MatchingAlgorithm → string → string → Q) (rnd : nat → nat)
    (df : list main_row) (t : Q) (algos : list algorithm_id) (w : world) :
  (∀ algs, algos = Member <$> algs → algs ≠ [] →
     qualifying_pairs sim (working_frame df) algs t = []) →
  ∃ e w',
    create_matched_dataframe sim rnd df t algos w = (Raise e, w')
    ∧ draws w' = draws w
    ∧ (∀ algs, algos = Member <$> algs → algs ≠ [] →
         label_pairs (working_frame df) ≠ [] →
         e = ValueError "No match was found").
Proof.
  intros Hnone.
  destruct (compute_similarity_matrix_cases sim (working_frame df) t algos w)
    as [[e He]|(algs & -> & Halgs & Hlp)].
  - exists e, w. split; [by apply create_matched_dataframe_raise|].
    split; [done|]. intros algs -> Halgs Hlp.
    rewrite (compute_similarity_matrix_ok sim _ t algs w Halgs Hlp) in He. done.
  - eexists _, _. split.
    + apply create_matched_dataframe_no_match; [done..|]. by apply Hnone.
    + split; [done|]. done.
Qed.

(** C9: on a frame with fewer than two distinct labels
    [compute_similarity_matrix] raises and leaves the world as it was; when
    the algorithms are members of the enumeration the exception is the
    failed unpacking of the empty list of pairs. *)
Theorem compute_similarity_matrix_needs_two_labels
    (sim : MatchingAlgorithm → string → string → Q)
    (df : list working_row) (t : Q) (algos : list algorithm_id) (w : world) :
  (length (unique_labels df) < 2)%nat →
  (∃ e, compute_similarity_matrix sim df t algos w = (Raise e, w))
  ∧ (∀ algs, algos = Member <$> algs →
       compute_similarity_matrix sim df t algos w
       = (Raise (ValueError "not enough values to unpack (expected 2, got 0)"), w)).
Proof.
  intros Hn.
  assert (label_pairs df = []) as Hlp.
  { unfold label_pairs. by rewrite combinations2_nil. }
  split.
  - destruct (compute_similarity_matrix_cases sim df t algos w)
      as [?|(algs & _ & _ & ?)]; done.
  - intros algs ->. by apply compute_similarity_matrix_unpack.
Qed.

(** * Facts about the graph and its components *)

Lemma rtsc_subrel {A} (R S : relation A) x y :
  (∀ a b, R a b → rtsc S a b) → rtsc R x y → rtsc S x y.
Proof.
  intros HRS. induction 1 as [|a b c [Hab|Hba] _ IH]; [done| |].
  - etrans; [by apply HRS|done].
  - etrans; [symmetry; by apply HRS|done].
Qed.

Lemma rtsc_kernel {A B} (f : A → B) (R : relation A) x y :
  (∀ a b, R a b → f a = f b) → rtsc R x y → f x = f y.
Proof.
  intros HR. induction 1 as [|a b c [Hab|Hba] _ IH]; [done| |].
  - by rewrite (HR _ _ Hab).
  - by rewrite <- (HR _ _ Hba).
Qed.

Section graph_facts.
Implicit Types g : graph.

Lemma add_node_nodes g k x : x ∈ nodes (add_node g k) ↔ x ∈ nodes g ∨ x = k.
Proof.
  unfold add_node. destruct (decide (k ∈ nodes g)); simpl.
  - split; [auto|]. by intros [?| ->].
  - by rewrite elem_of_app, list_elem_of_singleton.
Qed.

Lemma add_node_edges g k : edges (add_node g k) = edges g.
Proof. unfold add_node. by destruct (decide (k ∈ nodes g)). Qed.

Lemma add_nodes_from_nodes ks : ∀ g x,
  x ∈ nodes (add_nodes_from g ks) ↔ x ∈ nodes g ∨ x ∈ ks.
Proof.
  induction ks as [|k ks IH]; intros g x; simpl.
  - rewrite elem_of_nil. tauto.
  - unfold add_nodes_from in IH. rewrite IH, add_node_nodes, elem_of_cons. tauto.
Qed.

Lemma add_nodes_from_edges ks : ∀ g, edges (add_nodes_from g ks) = edges g.
Proof.
  induction ks as [|k ks IH]; intros g; simpl; [done|].
  unfold add_nodes_from in IH. by rewrite IH, add_node_edges.
Qed.

Lemma add_edge_nodes g e x :
  x ∈ nodes (add_edge g e) ↔ x ∈ nodes g ∨ x = e.1 ∨ x = e.2.
Proof. unfold add_edge. simpl. rewrite !add_node_nodes. tauto. Qed.

Lemma add_edge_edges g e : edges (add_edge g e) = edges g ++ [e].
Proof. unfold add_edge. simpl. by rewrite !add_node_edges. Qed.

Lemma add_edges_from_nodes es : ∀ g x,
  x ∈ nodes (add_edges_from g es)
  ↔ x ∈ nodes g ∨ ∃ e, e ∈ es ∧ (x = e.1 ∨ x = e.2).
Proof.
  induction es as [|e es IH]; intros g x; simpl.
  - split; [auto|]. intros [?|(e & ?%elem_of_nil & _)]; done.
  - unfold add_edges_from in IH. rewrite IH, add_edge_nodes. split.
    + intros [[?|?]|(e' & ? & ?)]; [by left|..].
      * right. exists e. split; [by left|done].
      * right. exists e'. split; [by right|done].
    + intros [?|(e' & [->|?]%elem_of_cons & ?)]; [by do 2 left|by left; right|].
      right. by exists e'.
Qed.

Lemma add_edges_from_edges es : ∀ g, edges (add_edges_from g es) = edges g ++ es.
Proof.
  induction es as [|e es IH]; intros g; simpl; [by rewrite app_nil_r|].
  unfold add_edges_from in IH. by rewrite IH, add_edge_edges, <- app_assoc.
Qed.

Lemma add_set_nodes g (ks : gset nat) x :
  x ∈ nodes (add_set g ks) ↔ x ∈ nodes g ∨ x ∈ ks.
Proof.
  unfold add_set. rewrite add_edges_from_nodes, add_nodes_from_nodes, elem_of_elements.
  split; [|tauto].
  intros [?|([a b] & [Ha Hb]%combinations2_elem_of & Hx)]; [done|].
  right. apply elem_of_elements. by destruct Hx as [->| ->].
Qed.

Lemma add_set_edges g (ks : gset nat) :
  edges (add_set g ks) = edges g ++ combinations2 (elements ks).
Proof. unfold add_set. by rewrite add_edges_from_edges, add_nodes_from_edges. Qed.

Lemma foldl_add_set_nodes (sets : list (gset nat)) : ∀ g x,
  x ∈ nodes (foldl add_set g sets) ↔ x ∈ nodes g ∨ ∃ ks, ks ∈ sets ∧ x ∈ ks.
Proof.
  induction sets as [|ks sets IH]; intros g x; simpl.
  - split; [auto|]. intros [?|(? & ?%elem_of_nil & _)]; done.
  - rewrite IH, add_set_nodes. split.
    + intros [[?|?]|(ks' & ? & ?)]; [by left|..].
      * right. exists ks. split; [by left|done].
      * right. exists ks'. split; [by right|done].
    + intros [?|(ks' & [->|?]%elem_of_cons & ?)]; [by do 2 left|by left; right|].
      right. by exists ks'.
Qed.

Lemma foldl_add_set_edges (sets : list (gset nat)) : ∀ g e,
  e ∈ edges (foldl add_set g sets)
  ↔ e ∈ edges g ∨ ∃ ks, ks ∈ sets ∧ e ∈ combinations2 (elements ks).
Proof.
  induction sets as [|ks sets IH]; intros g e; simpl.
  - split; [auto|]. intros [?|(? & ?%elem_of_nil & _)]; done.
  - rewrite IH, add_set_edges, elem_of_app. split.
    + intros [[?|?]|(ks' & ? & ?)]; [by left|..].
      * right. exists ks. split; [by left|done].
      * right. exists ks'. split; [by right|done].
    + intros [?|(ks' & [->|?]%elem_of_cons & ?)]; [by do 2 left|by left; right|].
      right. by exists ks'.
Qed.

Lemma graph_of_nodes (sets : list (gset nat)) x :
  x ∈ nodes (graph_of sets) ↔ ∃ ks, ks ∈ sets ∧ x ∈ ks.
Proof.
  unfold graph_of. rewrite foldl_add_set_nodes. simpl. rewrite elem_of_nil. tauto.
Qed.

Lemma graph_of_edges (sets : list (gset nat)) e :
  e ∈ edges (graph_of sets) ↔ ∃ ks, ks ∈ sets ∧ e ∈ combinations2 (elements ks).
Proof.
  unfold graph_of. rewrite foldl_add_set_edges. simpl. rewrite elem_of_nil. tauto.
Qed.

Lemma build_graph_sets (sets : list (gset nat)) :
  build_graph (Some <$> sets) = Ok (graph_of sets).
Proof.
  unfold build_graph, graph_of. generalize empty_graph.
  induction sets as [|ks sets IH]; intros g; simpl; [done|]. apply IH.
Qed.

(** *** Leaders *)

Lemma union_classes_same leader e x y :
  leader x = leader y → union_classes leader e x = union_classes leader e y.
Proof. unfold union_classes. by intros ->. Qed.

Lemma union_classes_edge leader e :
  union_classes leader e e.1 = union_classes leader e e.2.
Proof.
  unfold union_classes. destruct (decide (leader e.2 = leader e.2)); [|done].
  by destruct (decide (leader e.1 = leader e.2)).
Qed.

Lemma union_classes_inv leader e x y :
  union_classes leader e x = union_classes leader e y →
  rtsc (λ a b, leader a = leader b ∨ (a, b) = e) x y.
Proof.
  unfold union_classes. destruct e as [u v]. simpl.
  assert (rtsc (λ a b, leader a = leader b ∨ (a, b) = (u, v)) u v) as Huv.
  { apply rtsc_lr. by right. }
  assert (∀ a b, leader a = leader b →
            rtsc (λ a b, leader a = leader b ∨ (a, b) = (u, v)) a b) as Hk.
  { intros a b ?. apply rtsc_lr. by left. }
  destruct (decide (leader x = leader v)) as [Hx|Hx],
           (decide (leader y = leader v)) as [Hy|Hy]; intros Heq.
  - apply Hk. congruence.
  - etrans; [by apply Hk|]. etrans; [symmetry; exact Huv|]. by apply Hk.
  - etrans; [apply Hk; exact Heq|]. etrans; [exact Huv|]. by apply Hk.
  - by apply Hk.
Qed.

Lemma foldl_union_classes es : ∀ leader x y,
  foldl union_classes leader es x = foldl union_classes leader es y
  ↔ rtsc (λ a b, leader a = leader b ∨ (a, b) ∈ es) x y.
Proof.
  induction es as [|e es IH]; intros leader x y; simpl.
  - split.
    + intros ?. apply rtsc_lr. by left.
    + apply rtsc_kernel. by intros a b [?|?%elem_of_nil].
  - rewrite IH. split; apply rtsc_subrel.
    + intros a b [Hab|Hin].
      * eapply rtsc_subrel; [|by apply union_classes_inv].
        intros a' b' [?| <-]; apply rtsc_lr; [by left|right; by left].
      * apply rtsc_lr. right. by right.
    + intros a b [Hab|[<-|Hin]%elem_of_cons]; apply rtsc_lr.
      * left. by apply union_classes_same.
      * left. apply (union_classes_edge leader (a, b)).
      * by right.
Qed.

(** Two nodes have the same leader exactly when a chain of edges joins
    them. *)
Lemma leader_of_connected g x y :
  leader_of g x = leader_of g y ↔ connected g x y.
Proof.
  unfold leader_of, connected. rewrite foldl_union_classes.
  split; apply rtsc_subrel.
  - intros a b [Heq|?]; [|by apply rtsc_lr]. unfold id in Heq. by subst.
  - intros a b ?. apply rtsc_lr. by right.
Qed.

End graph_facts.

(** * Facts about the components and the dictionaries *)

Section components_facts.

Variable leader : nat → nat.
Variable all : list nat.

Lemma closed_app_class seen v :
  closed leader all seen → closed leader all (seen ++ filter (λ u, leader u = leader v) all).
Proof.
  intros Hc u u' [Hu|Hu]%elem_of_app Hu' Hl; apply elem_of_app.
  - left. by eapply Hc.
  - right. apply list_elem_of_filter in Hu as [Hu _].
    apply list_elem_of_filter. split; [congruence|done].
Qed.

(** Every listed component is the class of a node of [todo] outside
    [seen], and misses [seen]. *)
Lemma components_from_class todo : ∀ seen i c,
  closed leader all seen → todo ⊆ all →
  components_from leader all todo seen !! i = Some c →
  (∃ v, v ∈ todo ∧ c = filter (λ u, leader u = leader v) all)
  ∧ ∀ u, u ∈ c → u ∉ seen.
Proof.
  induction todo as [|v todo IH]; intros seen i c Hc Hsub; simpl; [done|].
  assert (todo ⊆ all) as Hsub'.
  { intros z Hz. apply Hsub. by right. }
  destruct (decide (v ∈ seen)) as [Hv|Hv].
  - intros Hi. destruct (IH _ _ _ Hc Hsub' Hi) as [(v' & ? & ?) ?].
    split; [|done]. exists v'. split; [by right|done].
  - destruct i as [|i]; simpl.
    + intros [= <-]. split; [exists v; split; [by left|done]|].
      intros u [Hl Hu]%list_elem_of_filter Hin. apply Hv.
      eapply (Hc u v); [done| |done]. apply Hsub. by left.
    + intros Hi.
      destruct (IH _ _ _ (closed_app_class seen v Hc) Hsub' Hi)
        as [(v' & ? & ?) Hout].
      split; [exists v'; split; [by right|done]|].
      intros u Hu Hin. apply (Hout u Hu). apply elem_of_app. by left.
Qed.

(** Two nodes with the same leader are in the same component. *)
Lemma components_from_disjoint todo : ∀ seen i j ci cj u v,
  closed leader all seen → todo ⊆ all →
  components_from leader all todo seen !! i = Some ci →
  components_from leader all todo seen !! j = Some cj →
  u ∈ ci → v ∈ cj → leader u = leader v → i = j.
Proof.
  induction todo as [|x todo IH]; intros seen i j ci cj u v Hc Hsub; simpl;
    [done|].
  assert (todo ⊆ all) as Hsub'.
  { intros z Hz. apply Hsub. by right. }
  destruct (decide (x ∈ seen)) as [Hx|Hx]; [by apply IH|].
  pose proof (closed_app_class seen x Hc) as Hc'.
  assert (∀ k c a b,
            components_from leader all todo
              (seen ++ filter (λ u, leader u = leader x) all) !! k = Some c →
            a ∈ filter (λ u, leader u = leader x) all → b ∈ c →
            leader a = leader b → False) as Hsep.
  { intros k c a b Hk [Ha _]%list_elem_of_filter Hb Hl.
    destruct (components_from_class _ _ _ _ Hc' Hsub' Hk) as [(v' & _ & ->) Hout].
    apply (Hout b Hb). apply elem_of_app. right.
    apply list_elem_of_filter in Hb as [_ Hb].
    apply list_elem_of_filter. split; [congruence|done]. }
  destruct i as [|i], j as [|j]; simpl; try done.
  - intros [= <-] Hj Hu Hv Hl. destruct (Hsep _ _ _ _ Hj Hu Hv Hl).
  - intros Hi [= <-] Hu Hv Hl. destruct (Hsep _ _ _ _ Hi Hv Hu). done.
  - intros Hi Hj Hu Hv Hl. f_equal. by eapply (IH _ i j ci cj u v Hc' Hsub').
Qed.

(** Every node of [todo] outside [seen] is in a component. *)
Lemma components_from_cover todo : ∀ seen u,
  closed leader all seen → todo ⊆ all → u ∈ todo → u ∉ seen →
  ∃ i c, components_from leader all todo seen !! i = Some c ∧ u ∈ c.
Proof.
  induction todo as [|x todo IH]; intros seen u Hc Hsub Hu Hout; simpl.
  { by apply elem_of_nil in Hu. }
  assert (todo ⊆ all) as Hsub'.
  { intros z Hz. apply Hsub. by right. }
  destruct (decide (x ∈ seen)) as [Hx|Hx].
  - apply IH; [done..| |done].
    apply elem_of_cons in Hu as [->|?]; done.
  - destruct (decide (leader u = leader x)) as [Hl|Hl].
    + exists 0%nat, (filter (λ u, leader u = leader x) all). split; [done|].
      apply list_elem_of_filter. split; [done|]. by apply Hsub.
    + destruct (IH (seen ++ filter (λ u, leader u = leader x) all) u)
        as (i & c & Hi & Hin).
      * by apply closed_app_class.
      * done.
      * apply elem_of_cons in Hu as [->|?]; done.
      * intros [?|[? _]%list_elem_of_filter]%elem_of_app; done.
      * by exists (S i), c.
Qed.

End components_facts.

Lemma cluster_name_inj i j : cluster_name i = cluster_name j → i = j.
Proof. unfold cluster_name. simpl. intros [= H]. by apply (inj pretty). Qed.

Lemma elem_of_key_to_cluster_id_pairs (comps : list (list nat)) k n :
  (k, n) ∈ ('(i, cluster) ← enumerate comps; key ← cluster; [(key, cluster_name i)])
  ↔ ∃ i c, comps !! i = Some c ∧ k ∈ c ∧ n = cluster_name i.
Proof.
  rewrite list_elem_of_bind. unfold enumerate. split.
  - intros ([i c] & Hin & (j & c' & [= -> ->] & Hj)%elem_of_lookup_imap).
    apply list_elem_of_bind in Hin as (k' & [= -> ->]%list_elem_of_singleton & Hk).
    by exists j, c'.
  - intros (i & c & Hi & Hk & ->). exists (i, c). split.
    + apply list_elem_of_bind. exists k. split; [by left|done].
    + apply elem_of_lookup_imap. by exists i, c.
Qed.

Section component_ids.

Variable g : graph.

Local Abbreviation comps := (connected_components g).

Lemma connected_components_cover u :
  u ∈ nodes g → ∃ i c, comps !! i = Some c ∧ u ∈ c.
Proof.
  intros Hu. apply components_from_cover; [|done..|by intros ?%elem_of_nil].
  by intros ? ? ?%elem_of_nil.
Qed.

Lemma connected_components_same i j ci cj u v :
  comps !! i = Some ci → comps !! j = Some cj → u ∈ ci → v ∈ cj →
  (i = j ↔ connected g u v).
Proof.
  intros Hi Hj Hu Hv. rewrite <- leader_of_connected.
  assert (closed (leader_of g) (nodes g) []) as Hc.
  { by intros ? ? ?%elem_of_nil. }
  split.
  - intros <-. assert (ci = cj) as <- by congruence.
    destruct (components_from_class _ _ _ _ _ _ Hc (reflexivity _) Hi)
      as [(v0 & _ & ->) _].
    apply list_elem_of_filter in Hu as [-> _].
    by apply list_elem_of_filter in Hv as [-> _].
  - by eapply (components_from_disjoint (leader_of g) (nodes g)).
Qed.

Lemma connected_components_nodes i c u :
  comps !! i = Some c → u ∈ c → u ∈ nodes g.
Proof.
  intros Hi Hu.
  assert (closed (leader_of g) (nodes g) []) as Hc.
  { by intros ? ? ?%elem_of_nil. }
  destruct (components_from_class _ _ _ _ _ _ Hc (reflexivity _) Hi)
    as [(v0 & _ & ->) _].
  by apply list_elem_of_filter in Hu as [_ ?].
Qed.

(** A node is mapped to the name of its component. *)
Lemma key_to_cluster_id_lookup i c u :
  comps !! i = Some c → u ∈ c →
  key_to_cluster_id comps !! u = Some (cluster_name i).
Proof.
  intros Hi Hu. unfold key_to_cluster_id.
  apply py_dict_lookup_functional.
  - intros n1 n2 (i1 & c1 & Hi1 & Hu1 & ->)%elem_of_key_to_cluster_id_pairs
      (i2 & c2 & Hi2 & Hu2 & ->)%elem_of_key_to_cluster_id_pairs.
    f_equal. by apply (connected_components_same i1 i2 c1 c2 u u).
  - apply elem_of_key_to_cluster_id_pairs. by exists i, c.
Qed.

Lemma key_to_cluster_id_nodes u :
  u ∈ nodes g → ∃ i, key_to_cluster_id comps !! u = Some (cluster_name i).
Proof.
  intros (i & c & Hi & Hu)%connected_components_cover.
  exists i. by eapply key_to_cluster_id_lookup.
Qed.

(** Two nodes get the same name exactly when they are connected. *)
Lemma key_to_cluster_id_connected u v :
  u ∈ nodes g → v ∈ nodes g →
  key_to_cluster_id comps !! u = key_to_cluster_id comps !! v ↔ connected g u v.
Proof.
  intros (i & ci & Hi & Hu)%connected_components_cover
         (j & cj & Hj & Hv)%connected_components_cover.
  rewrite (key_to_cluster_id_lookup _ _ _ Hi Hu),
          (key_to_cluster_id_lookup _ _ _ Hj Hv).
  rewrite <- (connected_components_same i j ci cj u v Hi Hj Hu Hv).
  split; [|by intros ->]. intros Heq%(inj Some). by apply cluster_name_inj.
Qed.

End component_ids.

(** * Facts about [process_clusters] *)

Section process_clusters_facts.
Implicit Types R : list clustered_row.

Lemma elem_of_cluster_keys R c k :
  k ∈ cluster_keys R c ↔ ∃ r, r ∈ R ∧ c_cluster_id r = c ∧ c_key r = k.
Proof.
  unfold cluster_keys. rewrite elem_of_list_to_set, list_elem_of_fmap. split.
  - intros (r & -> & [? ?]%list_elem_of_filter). by exists r.
  - intros (r & ? & ? & <-). exists r. split; [done|].
    by apply list_elem_of_filter.
Qed.

Lemma groupby_keys_lookup R c :
  groupby_keys R !! c
  = if decide (c ∈ c_cluster_id <$> R) then Some (cluster_keys R c) else None.
Proof.
  induction R as [|r R IH].
  { rewrite decide_False; [done|]. by intros ?%elem_of_nil. }
  cbn [groupby_keys foldr]. fold (groupby_keys R). rewrite fmap_cons.
  destruct (decide (c_cluster_id r = c)) as [<-|Hne].
  - rewrite lookup_insert_eq, IH.
    rewrite (decide_True (P := c_cluster_id r ∈ c_cluster_id r :: _)) by (by left).
    f_equal. apply set_eq. intros k.
    rewrite elem_of_union, elem_of_singleton, elem_of_cluster_keys. split.
    + intros [->|Hk].
      * exists r. split; [by left|done].
      * destruct (decide (c_cluster_id r ∈ c_cluster_id <$> R)); simpl in Hk.
        -- apply elem_of_cluster_keys in Hk as (r' & ? & ? & ?).
           exists r'. split; [by right|done].
        -- by apply elem_of_empty in Hk.
    + intros (r' & [->|Hin]%elem_of_cons & Hc & <-); [by left|right].
      rewrite (decide_True (P := c_cluster_id r ∈ c_cluster_id <$> R)).
      * simpl. apply elem_of_cluster_keys. by exists r'.
      * rewrite <- Hc. by apply list_elem_of_fmap_2.
  - rewrite lookup_insert_ne, IH by done.
    destruct (decide (c ∈ c_cluster_id <$> R)) as [Hin|Hin].
    + rewrite (decide_True (P := c ∈ c_cluster_id r :: _)) by (by right).
      f_equal. apply set_eq. intros k. rewrite !elem_of_cluster_keys. split.
      * intros (r' & ? & ? & ?). exists r'. split; [by right|done].
      * intros (r' & [->|?]%elem_of_cons & ? & ?); [done|]. by exists r'.
    + rewrite decide_False; [done|]. by intros [?|?]%elem_of_cons.
Qed.

Lemma unicity_key_lists_sets R : unicity_key_lists R = Some <$> key_sets R.
Proof.
  unfold unicity_key_lists, key_sets. rewrite <- list_fmap_compose.
  apply list_fmap_ext. intros _ r Hr%list_elem_of_lookup_2. simpl.
  rewrite groupby_keys_lookup.
  destruct (decide (c_cluster_id r ∈ c_cluster_id <$> R)) as [|Hn]; [done|].
  destruct Hn. by apply list_elem_of_fmap_2.
Qed.

(** [process_clusters] never raises: it returns the annotated frame. *)
Lemma process_clusters_annotate R main_df :
  process_clusters R main_df = Ok (annotate R main_df).
Proof.
  unfold process_clusters. rewrite unicity_key_lists_sets, build_graph_sets.
  simpl. f_equal. unfold map_labels. by rewrite zip_with_fmap_r.
Qed.

Lemma cluster_graph_nodes R x :
  x ∈ nodes (cluster_graph R) ↔ ∃ r, r ∈ R ∧ c_key r = x.
Proof.
  unfold cluster_graph. rewrite graph_of_nodes. unfold key_sets. split.
  - intros (ks & (r0 & -> & _)%list_elem_of_fmap & Hx).
    apply elem_of_cluster_keys in Hx as (r & ? & _ & ?). by exists r.
  - intros (r & Hr & <-). exists (cluster_keys R (c_cluster_id r)). split.
    + by apply (list_elem_of_fmap_2 (λ r, cluster_keys R (c_cluster_id r))).
    + apply elem_of_cluster_keys. by exists r.
Qed.

(** An edge joins the keys of two rows with the same identifier. *)
Lemma cluster_graph_edge R x y :
  (x, y) ∈ edges (cluster_graph R) →
  ∃ r1 r2, r1 ∈ R ∧ r2 ∈ R ∧ c_cluster_id r1 = c_cluster_id r2
           ∧ c_key r1 = x ∧ c_key r2 = y.
Proof.
  unfold cluster_graph. rewrite graph_of_edges. unfold key_sets.
  intros (ks & (r0 & -> & _)%list_elem_of_fmap & Hxy).
  apply combinations2_elem_of in Hxy as [Hx Hy].
  apply elem_of_elements, elem_of_cluster_keys in Hx as (r1 & ? & ? & ?).
  apply elem_of_elements, elem_of_cluster_keys in Hy as (r2 & ? & ? & ?).
  exists r1, r2. repeat split; [done..|congruence|done|done].
Qed.

(** Two rows with the same identifier have connected keys. *)
Lemma cluster_graph_share R r1 r2 :
  r1 ∈ R → r2 ∈ R → c_cluster_id r1 = c_cluster_id r2 →
  connected (cluster_graph R) (c_key r1) (c_key r2).
Proof.
  intros H1 H2 Hc. destruct (decide (c_key r1 = c_key r2)) as [->|Hne]; [done|].
  assert (c_key r1 ∈ elements (cluster_keys R (c_cluster_id r1))) as Hk1.
  { apply elem_of_elements, elem_of_cluster_keys. by exists r1. }
  assert (c_key r2 ∈ elements (cluster_keys R (c_cluster_id r1))) as Hk2.
  { apply elem_of_elements, elem_of_cluster_keys. by exists r2. }
  assert (cluster_keys R (c_cluster_id r1) ∈ key_sets R) as Hs.
  { by apply (list_elem_of_fmap_2 (λ r, cluster_keys R (c_cluster_id r))). }
  destruct (combinations2_total _ _ _ Hk1 Hk2 Hne) as [He|He];
    [apply rtsc_lr|apply rtsc_rl]; apply graph_of_edges; eauto.
Qed.

Lemma label_to_cluster_id_pairs R (k2c : gmap nat string) :
  zip (c_label <$> R) ((λ r, k2c !! c_key r) <$> R)
  = (λ r, (c_label r, k2c !! c_key r)) <$> R.
Proof. induction R as [|r R IH]; simpl; [done|]. f_equal. apply IH. Qed.

(** The identifier of a label is the name of the component of its key. *)
Lemma assigned_key R r :
  label_functional R → r ∈ R →
  assigned R (c_label r)
  = key_to_cluster_id (connected_components (cluster_graph R)) !! c_key r.
Proof.
  intros Hfun Hr. unfold assigned, label_to_cluster_id.
  rewrite label_to_cluster_id_pairs.
  set (k2c := key_to_cluster_id _).
  rewrite (py_dict_lookup_functional _ (c_label r) (k2c !! c_key r)); [done| |].
  - intros v1 v2 (r1 & [= Hl1 ->] & Hr1)%list_elem_of_fmap
      (r2 & [= Hl2 ->] & Hr2)%list_elem_of_fmap.
    f_equal. apply Hfun; [done..|congruence].
  - apply list_elem_of_fmap. by exists r.
Qed.

Lemma assigned_None R l : l ∉ c_label <$> R → assigned R l = None.
Proof.
  intros Hl. unfold assigned, label_to_cluster_id.
  rewrite label_to_cluster_id_pairs.
  destruct (py_dict _ !! l) as [v|] eqn:E; [|done].
  apply py_dict_lookup_Some, list_elem_of_fmap in E as (r & [= -> _] & Hr).
  destruct Hl. by apply list_elem_of_fmap_2.
Qed.

(** Every label of the frame gets a cluster name, and two labels get the
    same name exactly when their keys are connected. *)
Lemma assigned_spec R r1 r2 :
  label_functional R → r1 ∈ R → r2 ∈ R →
  (∃ i, assigned R (c_label r1) = Some (cluster_name i))
  ∧ (assigned R (c_label r1) = assigned R (c_label r2)
     ↔ connected (cluster_graph R) (c_key r1) (c_key r2)).
Proof.
  intros Hfun H1 H2. rewrite !assigned_key by done.
  assert (c_key r1 ∈ nodes (cluster_graph R)) as Hn1.
  { apply cluster_graph_nodes. by exists r1. }
  assert (c_key r2 ∈ nodes (cluster_graph R)) as Hn2.
  { apply cluster_graph_nodes. by exists r2. }
  split.
  - by apply key_to_cluster_id_nodes.
  - by apply key_to_cluster_id_connected.
Qed.

End process_clusters_facts.

(** * Facts about the working frame and the matched frame *)

Lemma NoDup_fmap_elem_inj {A B} (f : A → B) (l : list A) x y :
  NoDup (f <$> l) → x ∈ l → y ∈ l → f x = f y → x = y.
Proof.
  intros Hnd [i Hi]%list_elem_of_lookup [j Hj]%list_elem_of_lookup Hf.
  assert (i = j) as ->; [|congruence].
  eapply (NoDup_lookup (f <$> l)); [done|..].
  - by rewrite list_lookup_fmap, Hi.
  - by rewrite list_lookup_fmap, Hj, Hf.
Qed.

Lemma first_occurrences_sublist {A K} `{EqDecision K} (key : A → K) l :
  ∀ seen, first_occurrences key seen l `sublist_of` l.
Proof.
  induction l as [|x l IH]; intros seen; simpl; [done|].
  destruct (decide (key x ∈ seen)).
  - by apply sublist_cons.
  - by apply sublist_skip.
Qed.

Lemma rtsc_transfer {A B} (R : relation A) (S : relation B) (T : A → B → Prop)
    x y kx ky :
  (∀ a b ka, R a b ∨ R b a → T a ka → ∃ kb, T b kb ∧ rtsc S ka kb) →
  (∀ a k1 k2, T a k1 → T a k2 → rtsc S k1 k2) →
  rtsc R x y → T x kx → T y ky → rtsc S kx ky.
Proof.
  intros Hstep Hfun Hxy. revert kx.
  induction Hxy as [x|x z y Hxz _ IH]; intros kx Hx Hy.
  - by eapply Hfun.
  - destruct (Hstep x z kx Hxz Hx) as (kz & Hz & Hk).
    etrans; [exact Hk|]. by apply IH.
Qed.

Section working_frame_facts.
Implicit Types df : list main_row.

Lemma elem_of_dropna df w :
  w ∈ dropna df ↔ ∃ r, r ∈ df ∧ label r = Some (w_label w) ∧ unicity_key r = w_key w.
Proof.
  unfold dropna. rewrite list_elem_of_omap. split.
  - intros (r & Hr & Hw). destruct (label r) as [l|] eqn:E; [|done].
    injection Hw as <-. by exists r.
  - intros (r & Hr & Hl & Hk). exists r. split; [done|].
    rewrite Hl. simpl. destruct w. simpl in *. by subst.
Qed.

Lemma working_frame_elem df w :
  w ∈ working_frame df →
  ∃ r, r ∈ df ∧ label r = Some (w_label w) ∧ unicity_key r = w_key w.
Proof.
  unfold working_frame, drop_duplicates.
  intros [Hw _]%elem_of_first_occurrences. by apply elem_of_dropna.
Qed.

(** Every label present in the frame is a label of the working frame. *)
Lemma working_frame_label df r l :
  r ∈ df → label r = Some l → l ∈ w_label <$> working_frame df.
Proof.
  intros Hr Hl. unfold working_frame, drop_duplicates.
  apply first_occurrences_keys; [|by intros ?%elem_of_nil].
  apply list_elem_of_fmap. exists (WorkingRow (unicity_key r) l). split; [done|].
  apply elem_of_dropna. by exists r.
Qed.

Lemma working_frame_labels_NoDup df : NoDup (w_label <$> working_frame df).
Proof. apply first_occurrences_NoDup. Qed.

Lemma dropna_keys_sublist df : w_key <$> dropna df `sublist_of` unicity_key <$> df.
Proof.
  induction df as [|[k [l|]] df IH]; simpl; [done|..].
  - by apply sublist_skip.
  - by apply sublist_cons.
Qed.

Lemma working_frame_keys_NoDup df :
  NoDup (unicity_key <$> df) → NoDup (w_key <$> working_frame df).
Proof.
  intros Hnd. eapply sublist_NoDup; [exact Hnd|].
  etrans; [|apply dropna_keys_sublist].
  apply fmap_sublist, first_occurrences_sublist.
Qed.

Lemma working_frame_unique_labels df :
  unique_labels (working_frame df) = w_label <$> working_frame df.
Proof.
  unfold unique_labels. apply first_occurrences_id.
  - rewrite list_fmap_id. apply working_frame_labels_NoDup.
  - by intros ? _ ?%elem_of_nil.
Qed.

(** A null label does not change the working frame. *)
Lemma working_frame_null df1 df2 r :
  label r = None → working_frame (df1 ++ r :: df2) = working_frame (df1 ++ df2).
Proof.
  intros Hr. unfold working_frame, dropna. f_equal.
  rewrite !omap_app. f_equal. simpl. by rewrite Hr.
Qed.

End working_frame_facts.

(** * Facts about the rows of the matched frame *)

Section result_frame_facts.

Variable rnd : nat → nat.
Variable W : list working_row.
Variable pairs : list (string * string).
Variable d : nat.

Lemma elem_of_fresh_rows (U : list working_row) : ∀ d0 r,
  r ∈ fresh_rows rnd d0 U
  ↔ ∃ j u, U !! j = Some u ∧ r = with_cluster_id (id_at rnd (d0 + 6 * j)) u.
Proof.
  induction U as [|u U IH]; intros d0 r; simpl.
  - split; [by intros ?%elem_of_nil|]. by intros (j & ? & ? & _).
  - rewrite elem_of_cons, IH. split.
    + intros [->|(j & u' & Hj & ->)].
      * exists 0%nat, u. split; [done|]. do 2 f_equal. lia.
      * exists (S j), u'. split; [done|]. do 2 f_equal. lia.
    + intros ([|j] & u' & Hj & ->); simpl in Hj.
      * left. injection Hj as ->. do 2 f_equal. lia.
      * right. exists j, u'. split; [done|]. do 2 f_equal. lia.
Qed.

Lemma elem_of_blocks_from (ml : list (list string)) : ∀ d0 r,
  r ∈ concat (blocks_from rnd W d0 ml)
  ↔ ∃ i labels w, ml !! i = Some labels ∧ w ∈ rows_isin W labels
                  ∧ r = with_cluster_id (id_at rnd (d0 + 6 * i)) w.
Proof.
  induction ml as [|labels ml IH]; intros d0 r; simpl.
  - split; [by intros ?%elem_of_nil|]. by intros (i & ? & ? & ? & _).
  - rewrite elem_of_app, IH, list_elem_of_fmap. split.
    + intros [(w & -> & Hw)|(i & labels' & w & Hi & Hw & ->)].
      * exists 0%nat, labels, w. split; [done|]. split; [done|].
        do 2 f_equal. lia.
      * exists (S i), labels', w. split; [done|]. split; [done|].
        do 2 f_equal. lia.
    + intros ([|i] & labels' & w & Hi & Hw & ->); simpl in Hi.
      * left. injection Hi as ->. exists w. split; [|done].
        do 2 f_equal. lia.
      * right. exists i, labels', w. split; [done|]. split; [done|].
        do 2 f_equal. lia.
Qed.

Local Abbreviation R := (result_frame rnd W pairs d).
Local Abbreviation U := (unmatched_rows W pairs).

(** The position of a row's identifier among the identifiers drawn: a
    block comes from the pair at that position, an unmatched row comes
    after all pairs. *)
Lemma result_frame_index r :
  r ∈ R →
  ∃ k, c_cluster_id r = id_at rnd (d + 6 * k)
       ∧ WorkingRow (c_key r) (c_label r) ∈ W
       ∧ ((∃ p, pairs !! k = Some p ∧ c_label r ∈ [p.1; p.2])
          ∨ (∃ j, k = (length pairs + j)%nat
                  ∧ U !! j = Some (WorkingRow (c_key r) (c_label r)))).
Proof.
  unfold result_frame. rewrite elem_of_app, elem_of_fresh_rows, elem_of_blocks_from.
  intros [(j & [k l] & Hj & ->)|(i & labels & [k l] & Hi & Hw & ->)]; simpl.
  - exists (length pairs + j)%nat. split; [f_equal; lia|]. split.
    + apply list_elem_of_lookup_2 in Hj. by apply list_elem_of_filter in Hj as [_ ?].
    + right. by exists j.
  - exists i. split; [done|].
    apply list_elem_of_filter in Hw as [Hl Hw]. split; [done|]. left.
    unfold matched_labels_of in Hi. rewrite list_lookup_fmap in Hi.
    destruct (pairs !! i) as [p|]; [|done]. injection Hi as <-. by exists p.
Qed.

Lemma result_frame_working r : r ∈ R → WorkingRow (c_key r) (c_label r) ∈ W.
Proof. by intros (k & _ & ? & _)%result_frame_index. Qed.

(** The rows of a qualifying pair share one identifier. *)
Lemma result_frame_pair a b wa wb :
  (a, b) ∈ pairs → wa ∈ W → wb ∈ W → w_label wa = a → w_label wb = b →
  ∃ cid, with_cluster_id cid wa ∈ R ∧ with_cluster_id cid wb ∈ R.
Proof.
  intros [i Hi]%list_elem_of_lookup Ha Hb Hla Hlb.
  exists (id_at rnd (d + 6 * i)).
  split; apply elem_of_app; right; apply elem_of_blocks_from;
    [exists i, [a; b], wa|exists i, [a; b], wb];
    (split; [unfold matched_labels_of; by rewrite list_lookup_fmap, Hi|]);
    (split; [|done]); apply list_elem_of_filter; (split; [|done]).
  - rewrite Hla. by left.
  - rewrite Hlb. right. by left.
Qed.

(** Every row of the working frame is in the matched frame. *)
Lemma result_frame_total w : w ∈ W → ∃ cid, with_cluster_id cid w ∈ R.
Proof.
  intros Hw. destruct (decide (w_label w ∈ concat (matched_labels_of pairs)))
    as [Hin|Hout].
  - apply elem_of_concat in Hin as (labels & Hl & [i Hi]%list_elem_of_lookup).
    exists (id_at rnd (d + 6 * i)). apply elem_of_app. right.
    apply elem_of_blocks_from. exists i, labels, w.
    split; [done|]. split; [|done]. by apply list_elem_of_filter.
  - assert (w ∈ U) as [j Hj]%list_elem_of_lookup by by apply list_elem_of_filter.
    eexists. apply elem_of_app. left. apply elem_of_fresh_rows. by exists j, w.
Qed.

Lemma result_frame_index_bound r k :
  r ∈ R →
  (∃ p, pairs !! k = Some p) ∨ (∃ j u, k = (length pairs + j)%nat ∧ U !! j = Some u) →
  (k < length pairs + length U)%nat.
Proof.
  intros _ [[p Hp%lookup_lt_Some]|(j & u & -> & Hj%lookup_lt_Some)]; lia.
Qed.

(** With distinct identifiers, two rows with the same identifier are the
    same working row or carry the two labels of one pair. *)
Lemma result_frame_share r1 r2 :
  NoDup ((λ k, id_at rnd (d + 6 * k)) <$> seq 0 (length pairs + length U)) →
  r1 ∈ R → r2 ∈ R → c_cluster_id r1 = c_cluster_id r2 →
  (c_key r1 = c_key r2 ∧ c_label r1 = c_label r2)
  ∨ ∃ p, p ∈ pairs ∧ c_label r1 ∈ [p.1; p.2] ∧ c_label r2 ∈ [p.1; p.2].
Proof.
  intros Hnd (k1 & Hc1 & _ & Hk1)%result_frame_index
    (k2 & Hc2 & _ & Hk2)%result_frame_index Hc.
  assert (∀ k, (k < length pairs + length U)%nat →
            ((λ k, id_at rnd (d + 6 * k)) <$> seq 0 (length pairs + length U)) !! k
            = Some (id_at rnd (d + 6 * k))) as Hlook.
  { intros k Hk. by rewrite list_lookup_fmap, lookup_seq_lt. }
  assert (k1 < length pairs + length U)%nat as Hb1.
  { destruct Hk1 as [(p & Hp%lookup_lt_Some & _)|(j & -> & Hj%lookup_lt_Some)]; lia. }
  assert (k2 < length pairs + length U)%nat as Hb2.
  { destruct Hk2 as [(p & Hp%lookup_lt_Some & _)|(j & -> & Hj%lookup_lt_Some)]; lia. }
  assert (k1 = k2) as <-.
  { eapply NoDup_lookup; [exact Hnd|by apply Hlook|].
    rewrite Hlook by done. congruence. }
  destruct Hk1 as [(p & Hp & Hl1)|(j & -> & Hj)],
           Hk2 as [(p' & Hp' & Hl2)|(j' & Hjj & Hj')].
  - right. exists p. split; [by eapply list_elem_of_lookup_2|].
    split; [done|congruence].
  - apply lookup_lt_Some in Hp. lia.
  - apply lookup_lt_Some in Hp'. lia.
  - left. assert (j = j') as <- by lia.
    rewrite Hj in Hj'. by injection Hj'.
Qed.

End result_frame_facts.

(** * Clusters are the components of the qualifying pairs *)

Section clustering_facts.

Variable sim : MatchingAlgorithm → string → string → Q.
Variable rnd : nat → nat.
Variable df : list main_row.
Variable algs : list MatchingAlgorithm.
Variable t : Q.
Variable d : nat.

Local Abbreviation W := (working_frame df).
Local Abbreviation pairs := (qualifying_pairs sim (working_frame df) algs t).
Local Abbreviation R :=
  (result_frame rnd (working_frame df)
     (qualifying_pairs sim (working_frame df) algs t) d).

Lemma qualifying_pairs_labels a b :
  (a, b) ∈ pairs → a ∈ w_label <$> W ∧ b ∈ w_label <$> W.
Proof.
  unfold qualifying_pairs, label_pairs.
  intros [_ Hin]%list_elem_of_filter.
  rewrite working_frame_unique_labels in Hin.
  by apply combinations2_elem_of.
Qed.

Lemma result_frame_label_functional : label_functional R.
Proof.
  intros r1 r2 H1%result_frame_working H2%result_frame_working Hl.
  pose proof (NoDup_fmap_elem_inj w_label _ _ _
                (working_frame_labels_NoDup df) H1 H2 Hl) as Heq.
  by injection Heq.
Qed.

(** The row of [R] for a row of the working frame. *)
Lemma result_frame_row wr :
  wr ∈ W → ∃ r, r ∈ R ∧ c_key r = w_key wr ∧ c_label r = w_label wr.
Proof.
  intros (cid & Hr)%(result_frame_total rnd _ pairs d). eauto.
Qed.

Lemma working_row_of_label a :
  a ∈ w_label <$> W → ∃ k, WorkingRow k a ∈ W.
Proof.
  intros ([k l] & -> & Hw)%list_elem_of_fmap. by exists k.
Qed.

(** Linked labels have connected keys. *)
Lemma linked_connected a b ka kb :
  linked pairs a b → WorkingRow ka a ∈ W → WorkingRow kb b ∈ W →
  connected (cluster_graph R) ka kb.
Proof.
  apply (rtsc_transfer _ _ (λ l k, WorkingRow k l ∈ W)).
  - intros x y kx Hxy Hx.
    assert (y ∈ w_label <$> W) as [ky Hy]%working_row_of_label.
    { destruct Hxy as [H|H]; by apply qualifying_pairs_labels in H as [? ?]. }
    exists ky. split; [done|].
    assert (∃ cid, with_cluster_id cid (WorkingRow kx x) ∈ R
                   ∧ with_cluster_id cid (WorkingRow ky y) ∈ R) as (cid & H1 & H2).
    { destruct Hxy as [H|H].
      - by eapply (result_frame_pair rnd W pairs d x y).
      - destruct (result_frame_pair rnd W pairs d y x _ _ H Hy Hx) as (cid & ? & ?);
          [done..|]. by exists cid. }
    by apply (cluster_graph_share R _ _ H1 H2).
  - intros l k1 k2 H1 H2.
    pose proof (NoDup_fmap_elem_inj w_label _ _ _
                  (working_frame_labels_NoDup df) H1 H2 eq_refl) as Heq.
    injection Heq as ->. done.
Qed.

(** With distinct identifiers and distinct keys, connected keys carry
    linked labels. *)
Lemma connected_linked a b ka kb :
  NoDup (w_key <$> W) →
  NoDup ((λ k, id_at rnd (d + 6 * k))
           <$> seq 0 (length pairs + length (unmatched_rows W pairs))) →
  connected (cluster_graph R) ka kb →
  WorkingRow ka a ∈ W → WorkingRow kb b ∈ W →
  linked pairs a b.
Proof.
  intros Hkeys Hids.
  assert (∀ k l1 l2, WorkingRow k l1 ∈ W → WorkingRow k l2 ∈ W → l1 = l2) as Hfun.
  { intros k l1 l2 H1 H2.
    pose proof (NoDup_fmap_elem_inj w_key _ _ _ Hkeys H1 H2 eq_refl) as Heq.
    by injection Heq. }
  apply (rtsc_transfer _ _ (λ k l, WorkingRow k l ∈ W)).
  - intros x y lx Hxy Hx.
    assert (∃ r1 r2, r1 ∈ R ∧ r2 ∈ R ∧ c_cluster_id r1 = c_cluster_id r2
                     ∧ c_key r1 = x ∧ c_key r2 = y) as (r1 & r2 & H1 & H2 & Hc & <- & <-).
    { destruct Hxy as [H|H]; apply cluster_graph_edge in H
        as (r1 & r2 & ? & ? & ? & ? & ?); [by exists r1, r2|by exists r2, r1]. }
    pose proof (result_frame_working _ _ _ _ _ H1) as Hw1.
    pose proof (result_frame_working _ _ _ _ _ H2) as Hw2.
    assert (c_label r1 = lx) as <- by by eapply Hfun.
    exists (c_label r2). split; [done|].
    destruct (result_frame_share rnd W pairs d r1 r2 Hids H1 H2 Hc)
      as [[_ ->]|([p1 p2] & Hp & Hl1 & Hl2)]; [done|].
    simpl in Hl1, Hl2.
    apply elem_of_cons in Hl1 as [Hl1|Hl1%list_elem_of_singleton];
      apply elem_of_cons in Hl2 as [Hl2|Hl2%list_elem_of_singleton];
      rewrite Hl1, Hl2; [done|by apply rtsc_lr|by apply rtsc_rl|done].
  - intros k l1 l2 H1 H2. by rewrite (Hfun k l1 l2 H1 H2).
Qed.

(** Every label of the working frame gets a cluster name. *)
Lemma assigned_label a :
  a ∈ w_label <$> W → ∃ i, assigned R a = Some (cluster_name i).
Proof.
  intros [k Hw]%working_row_of_label.
  destruct (result_frame_row _ Hw) as (r & Hr & _ & Hl). simpl in Hl.
  rewrite <- Hl. by apply (assigned_spec R r r result_frame_label_functional).
Qed.

(** Two labels are in the same cluster when they are linked... *)
Lemma linked_assigned a b :
  a ∈ w_label <$> W → b ∈ w_label <$> W →
  linked pairs a b → assigned R a = assigned R b.
Proof.
  intros [ka Ha]%working_row_of_label [kb Hb]%working_row_of_label Hl.
  destruct (result_frame_row _ Ha) as (ra & Hra & Hka & Hla).
  destruct (result_frame_row _ Hb) as (rb & Hrb & Hkb & Hlb).
  simpl in *. rewrite <- Hla, <- Hlb.
  apply (assigned_spec R ra rb result_frame_label_functional Hra Hrb).
  rewrite Hka, Hkb. by eapply linked_connected.
Qed.

(** ... and, identifiers and keys being distinct, only then. *)
Lemma assigned_linked a b :
  NoDup (w_key <$> W) →
  NoDup ((λ k, id_at rnd (d + 6 * k))
           <$> seq 0 (length pairs + length (unmatched_rows W pairs))) →
  a ∈ w_label <$> W → b ∈ w_label <$> W →
  assigned R a = assigned R b → linked pairs a b.
Proof.
  intros Hkeys Hids [ka Ha]%working_row_of_label [kb Hb]%working_row_of_label.
  destruct (result_frame_row _ Ha) as (ra & Hra & Hka & Hla).
  destruct (result_frame_row _ Hb) as (rb & Hrb & Hkb & Hlb).
  simpl in *. rewrite <- Hla, <- Hlb. intros Heq.
  apply (assigned_spec R ra rb result_frame_label_functional Hra Hrb) in Heq.
  rewrite Hka, Hkb in Heq. rewrite Hla, Hlb. by eapply connected_linked.
Qed.

End clustering_facts.

(** * Facts about the annotated frame *)

Lemma filter_fmap_length {A B} (f : A → B) (P : B → Prop) `{∀ y, Decision (P y)}
    (l : list A) :
  length (filter P (f <$> l)) = length (filter (λ x, P (f x)) l).
Proof.
  induction l as [|x l IH]; [done|].
  rewrite fmap_cons, !filter_cons. destruct (decide (P (f x))); simpl; by rewrite IH.
Qed.

Lemma filter_split_length {A} (P : A → Prop) `{∀ x, Decision (P x)} (l : list A) :
  (length (filter P l) + length (filter (λ x, ¬ P x) l) = length l)%nat.
Proof.
  induction l as [|x l IH]; [done|].
  rewrite !filter_cons. destruct (decide (P x)), (decide (¬ P x)); simpl; try lia; done.
Qed.

(** Counting the members of every key once counts the whole list. *)
Lemma sum_counts {K} `{EqDecision K} (ks : list K) : ∀ l : list K,
  NoDup ks → (∀ x, x ∈ l → x ∈ ks) →
  sum_list ((λ c, length (filter (λ x, x = c) l)) <$> ks) = length l.
Proof.
  induction ks as [|k ks IH]; intros l Hnd Hin.
  - destruct l as [|x l]; [done|].
    assert (x ∈ @nil K) as ?%elem_of_nil by (apply Hin; by left). done.
  - apply NoDup_cons in Hnd as [Hk Hnd]. rewrite fmap_cons. simpl.
    rewrite <- (filter_split_length (λ x, x = k) l). f_equal.
    rewrite <- (IH (filter (λ x, ¬ x = k) l) Hnd).
    + f_equal. apply list_fmap_ext. intros _ c Hc%list_elem_of_lookup_2.
      rewrite list_filter_filter. f_equal. apply list_filter_iff.
      intros x. split; [|tauto]. intros ->. split; [done|]. by intros ->.
    + intros x [Hx Hl]%list_elem_of_filter.
      apply Hin in Hl. apply elem_of_cons in Hl as [?|?]; done.
Qed.

Lemma omap_fmap_id {A B} (f : A → option B) (l : list A) :
  omap id (f <$> l) = omap f l.
Proof.
  induction l as [|x l IH]; [done|].
  rewrite fmap_cons. cbn [omap list_omap]. unfold id at 1.
  destruct (f x); by f_equal.
Qed.

Section annotate_facts.

Variable R : list clustered_row.
Variable df : list main_row.

Lemma annotate_lookup i o :
  annotate R df !! i = Some o
  ↔ ∃ r, df !! i = Some r
         ∧ o = OutputRow (unicity_key r) (label r) (row_cluster R r)
                 (cluster_size (row_cluster R <$> df) (row_cluster R r)).
Proof.
  unfold annotate. rewrite list_lookup_fmap. destruct (df !! i) as [r|]; simpl.
  - split; [intros [= <-]; eauto|]. by intros (r' & [= <-] & ->).
  - split; [done|]. by intros (? & ? & _).
Qed.

Lemma elem_of_annotate o :
  o ∈ annotate R df →
  ∃ r, r ∈ df ∧ o_key o = unicity_key r ∧ o_label o = label r
       ∧ o_cluster_id o = row_cluster R r
       ∧ o_cluster_size o = cluster_size (row_cluster R <$> df) (row_cluster R r).
Proof.
  intros [i (r & Hr & ->)%annotate_lookup]%list_elem_of_lookup.
  exists r. split; [by eapply list_elem_of_lookup_2|done].
Qed.

Lemma annotate_keys : o_key <$> annotate R df = unicity_key <$> df.
Proof. unfold annotate. rewrite <- list_fmap_compose. by apply list_fmap_ext. Qed.

Lemma annotate_labels : o_label <$> annotate R df = label <$> df.
Proof. unfold annotate. rewrite <- list_fmap_compose. by apply list_fmap_ext. Qed.

Lemma annotate_cluster_ids : o_cluster_id <$> annotate R df = row_cluster R <$> df.
Proof. unfold annotate. rewrite <- list_fmap_compose. by apply list_fmap_ext. Qed.

(** [_cluster_size] is the number of rows of the cluster. *)
Lemma annotate_cluster_size c :
  cluster_size (row_cluster R <$> df) (Some c)
  = Some (length (members (annotate R df) c)).
Proof.
  unfold cluster_size, members. f_equal.
  rewrite <- annotate_cluster_ids.
  by rewrite (filter_fmap_length o_cluster_id (λ x, x = Some c)).
Qed.

Lemma members_count (out : list output_row) c :
  length (members out c) = length (filter (λ x, x = c) (clustered_ids out)).
Proof.
  unfold members, clustered_ids. induction out as [|o out IH]; [done|].
  rewrite filter_cons. simpl. destruct (o_cluster_id o) as [c'|] eqn:E.
  - rewrite filter_cons. destruct (decide (Some c' = Some c)) as [[= ->]|Hne].
    + rewrite decide_True by done. simpl. by rewrite IH.
    + rewrite decide_False by congruence. done.
  - rewrite decide_False by done. done.
Qed.

(** The sizes of the clusters add up to the number of clustered rows. *)
Lemma members_sum (out : list output_row) :
  sum_list ((λ c, length (members out c)) <$> remove_dups (clustered_ids out))
  = length (clustered_ids out).
Proof.
  rewrite <- (sum_counts (remove_dups (clustered_ids out)) (clustered_ids out)).
  - f_equal. apply list_fmap_ext. intros _ c _. apply members_count.
  - apply NoDup_remove_dups.
  - intros x. by rewrite elem_of_remove_dups.
Qed.

Lemma clustered_ids_annotate :
  clustered_ids (annotate R df) = omap (row_cluster R) df.
Proof.
  unfold clustered_ids.
  by rewrite <- (omap_fmap_id o_cluster_id), annotate_cluster_ids, omap_fmap_id.
Qed.

End annotate_facts.

Lemma omap_cons_Some {A B} (f : A → option B) x c (l : list A) :
  f x = Some c → omap f (x :: l) = c :: omap f l.
Proof. intros E. cbn [omap list_omap]. by rewrite E. Qed.

Lemma omap_cons_None {A B} (f : A → option B) x (l : list A) :
  f x = None → omap f (x :: l) = omap f l.
Proof. intros E. cbn [omap list_omap]. by rewrite E. Qed.

Lemma remove_dups_cons_length {A} `{EqDecision A} (c : A) (l : list A) :
  length (remove_dups (c :: l))
  = if decide (c ∈ l) then length (remove_dups l) else S (length (remove_dups l)).
Proof.
  cbn [remove_dups]. unfold decide_rel, decide. by destruct (list_elem_of_dec c l).
Qed.

(** A finer labelling of the rows has at least as many classes. *)
Lemma refinement_count {A} (f1 f2 : A → option string) (l : list A) :
  (∀ x y, x ∈ l → y ∈ l → f2 x = f2 y → f1 x = f1 y) →
  (∀ x, x ∈ l → f2 x = None → f1 x = None) →
  (∀ x, x ∈ l → f1 x = None → f2 x = None) →
  (length (remove_dups (omap f1 l)) ≤ length (remove_dups (omap f2 l)))%nat.
Proof.
  induction l as [|x l IH]; intros Href H21 H12; [done|].
  assert (length (remove_dups (omap f1 l)) ≤ length (remove_dups (omap f2 l)))%nat
    as IH'.
  { apply IH.
    - intros a b Ha Hb. apply Href; by right.
    - intros a Ha. apply H21. by right.
    - intros a Ha. apply H12. by right. }
  destruct (f2 x) as [c2|] eqn:E2, (f1 x) as [c1|] eqn:E1.
  - rewrite (omap_cons_Some f1 x c1), (omap_cons_Some f2 x c2) by done.
    rewrite !remove_dups_cons_length.
    destruct (decide (c2 ∈ omap f2 l)) as [Hin|Hout].
    + apply list_elem_of_omap in Hin as (y & Hy & Hfy).
      assert (f1 y = Some c1) as Hf1.
      { rewrite <- E1. symmetry. apply Href; [by left|by right|congruence]. }
      rewrite decide_True; [exact IH'|].
      apply list_elem_of_omap. by exists y.
    + destruct (decide (c1 ∈ omap f1 l)); lia.
  - rewrite (H12 x) in E2; [done|by left|done].
  - rewrite (H21 x) in E1; [done|by left|done].
  - by rewrite !omap_cons_None.
Qed.

(** * Clustering: claims C1, C3, C4 and C7 *)

Lemma filter_length_mono {A} (P Q : A → Prop) `{∀ x, Decision (P x)}
    `{∀ x, Decision (Q x)} (l : list A) :
  (∀ x, x ∈ l → P x → Q x) →
  (length (filter P l) ≤ length (filter Q l))%nat.
Proof.
  induction l as [|x l IH]; intros HPQ; [done|].
  assert (length (filter P l) ≤ length (filter Q l))%nat as IH'.
  { apply IH. intros y Hy. apply HPQ. by right. }
  rewrite !filter_cons. destruct (decide (P x)) as [HP|HP].
  - rewrite decide_True by (apply HPQ; [by left|done]). simpl. lia.
  - destruct (decide (Q x)); simpl; lia.
Qed.

Lemma omap_length_filter {A B} (f : A → option B) (l : list A) :
  length (omap f l) = length (filter (λ x, is_Some (f x)) l).
Proof.
  induction l as [|x l IH]; [done|].
  rewrite filter_cons. destruct (f x) as [y|] eqn:E.
  - rewrite (omap_cons_Some f x y) by done.
    rewrite decide_True by eauto. simpl. by rewrite IH.
  - rewrite (omap_cons_None f x) by done.
    rewrite decide_False; [done|]. by intros [? ?].
Qed.

Lemma ids_drawn_run rnd w n s :
  ids_drawn rnd w (World (draws w + 6 * n) s)
  = (λ k, id_at rnd (draws w + 6 * k)) <$> seq 0 n.
Proof.
  unfold ids_drawn. cbn [draws].
  replace (draws w + 6 * n - draws w)%nat with (n * 6)%nat by lia.
  by rewrite Nat.div_mul.
Qed.

Lemma filter_length_fmap_iff {A B} (F : A → B) (P : A → Prop) (Q : B → Prop)
    `{∀ x, Decision (P x)} `{∀ y, Decision (Q y)} (l : list A) :
  (∀ x, P x ↔ Q (F x)) →
  length (filter Q (F <$> l)) = length (filter P l).
Proof.
  intros HPQ. induction l as [|x l IH]; [done|].
  rewrite fmap_cons, !filter_cons.
  destruct (decide (Q (F x))) as [HQ|HQ], (decide (P x)) as [HP|HP]; simpl;
    rewrite ?IH; try done; exfalso.
  - by apply HP, HPQ.
  - by apply HQ, HPQ.
Qed.

Section clustering_claims.

Variable sim : MatchingAlgorithm → string → string → Q.

Lemma cluster_data_ok rnd df t algs w :
  algs ≠ [] →
  let W := working_frame df in
  let pairs := qualifying_pairs sim W algs t in
  pairs ≠ [] →
  cluster_data sim rnd df t (Member <$> algs) w
  = (Ok (annotate (result_frame rnd W pairs (draws w)) df),
     World (draws w + 6 * (length pairs + length (unmatched_rows W pairs)))
           (scored w ++ all_calls algs (label_pairs W))).
Proof.
  intros Halgs W pairs Hpairs. unfold cluster_data.
  rewrite M_bind_run, (create_matched_dataframe_ok sim rnd df t algs w Halgs Hpairs).
  unfold lift. by rewrite process_clusters_annotate.
Qed.

(** The pipeline returns only with members of the enumeration, at least
    one of them, and at least one qualifying pair. *)
Lemma cluster_data_inv rnd df t algos w out w' :
  cluster_data sim rnd df t algos w = (Ok out, w') →
  ∃ algs, algos = Member <$> algs ∧ algs ≠ []
          ∧ qualifying_pairs sim (working_frame df) algs t ≠ [].
Proof.
  intros Hrun.
  destruct (compute_similarity_matrix_cases sim (working_frame df) t algos w)
    as [[e He]|(algs & -> & Halgs & Hlp)].
  - apply (create_matched_dataframe_raise sim rnd) in He.
    apply cluster_data_raise in He. congruence.
  - exists algs. split; [done|]. split; [done|]. intros Hnone.
    pose proof (create_matched_dataframe_no_match sim rnd df t algs w Halgs Hlp Hnone)
      as He.
    apply cluster_data_raise in He. congruence.
Qed.

(** The cluster of a row is null exactly when its label is. *)
Lemma row_cluster_Some rnd df t algs d r :
  r ∈ df →
  let R := result_frame rnd (working_frame df)
             (qualifying_pairs sim (working_frame df) algs t) d in
  match label r with
  | Some _ => ∃ i, row_cluster R r = Some (cluster_name i)
  | None => row_cluster R r = None
  end.
Proof.
  intros Hr R. unfold row_cluster. destruct (label r) as [l|] eqn:E; [|done].
  simpl. apply assigned_label. by eapply working_frame_label.
Qed.

(** C1 (amended): when clustering returns (an algorithm at least, a
    qualifying pair at least), every record is kept, in order; every record
    with a label carries exactly one cluster identifier, a name
    [cluster_i], and its [_cluster_size] is the number of records of that
    cluster; records with equal labels are in the same cluster; a record
    whose label is null carries a null identifier and a null size; and the
    sizes of the clusters add up to the number of records with a label. *)
Theorem partition_of_labelled_records (rnd : nat → nat) (df : list main_row)
    (t : Q) (algs : list MatchingAlgorithm) (w : world) :
  algs ≠ [] → qualifying_pairs sim (working_frame df) algs t ≠ [] →
  ∃ out w',
    cluster_data sim rnd df t (Member <$> algs) w = (Ok out, w')
    ∧ o_key <$> out = unicity_key <$> df
    ∧ o_label <$> out = label <$> df
    ∧ (∀ o, o ∈ out →
         match o_label o with
         | Some _ =>
             ∃ i, o_cluster_id o = Some (cluster_name i)
                  ∧ o_cluster_size o = Some (length (members out (cluster_name i)))
         | None => o_cluster_id o = None ∧ o_cluster_size o = None
         end)
    ∧ (∀ o o', o ∈ out → o' ∈ out → o_label o = o_label o' →
         o_cluster_id o = o_cluster_id o')
    ∧ sum_list ((λ c, length (members out c)) <$> remove_dups (clustered_ids out))
      = length (filter (λ r, is_Some (label r)) df).
Proof.
  intros Halgs Hpairs. eexists _, _. split_and!.
  - by apply cluster_data_ok.
  - apply annotate_keys.
  - apply annotate_labels.
  - intros o (r & Hr & _ & -> & -> & ->)%elem_of_annotate.
    pose proof (row_cluster_Some rnd df t algs (draws w) r Hr) as Hc.
    destruct (label r) as [l|].
    + destruct Hc as [i Hi]. exists i. split; [done|].
      rewrite Hi. apply annotate_cluster_size.
    + by rewrite Hc.
  - intros o o' (r & _ & _ & Hl & -> & _)%elem_of_annotate
      (r' & _ & _ & Hl' & -> & _)%elem_of_annotate Heq.
    unfold row_cluster. by rewrite <- Hl, <- Hl', Heq.
  - rewrite members_sum, clustered_ids_annotate, omap_length_filter.
    apply Nat.le_antisymm; apply filter_length_mono; intros r Hr;
      pose proof (row_cluster_Some rnd df t algs (draws w) r Hr) as Hc;
      destruct (label r) as [l|]; simpl in Hc.
    + eauto.
    + rewrite Hc. by intros [? ?].
    + destruct Hc as [i ->]. eauto.
    + by intros [? ?].
Qed.

Lemma label_of_frame (df : list main_row) a :
  Some a ∈ label <$> df → a ∈ w_label <$> working_frame df.
Proof.
  intros (r & Hl & Hr)%list_elem_of_fmap. by eapply working_frame_label.
Qed.

(** Two distinct labels whose score reaches the threshold are linked. *)
Lemma qualifying_linked df t algs a b :
  (∀ f x y, sim f x y = sim f y x) →
  a ∈ w_label <$> working_frame df → b ∈ w_label <$> working_frame df →
  a ≠ b → (t <= score sim algs a b)%Q →
  linked (qualifying_pairs sim (working_frame df) algs t) a b.
Proof.
  intros Hsym Ha Hb Hne Ht.
  rewrite <- working_frame_unique_labels in Ha, Hb.
  destruct (combinations2_total _ _ _ Ha Hb Hne) as [Hin|Hin];
    [apply rtsc_lr|apply rtsc_rl]; apply list_elem_of_filter; (split; [|done]).
  - done.
  - unfold qualifies. simpl. by rewrite (score_sym sim algs b a Hsym).
Qed.

Lemma linked_nonempty (ps : list (string * string)) a b :
  linked ps a b → a ≠ b → ps ≠ [].
Proof.
  intros Hl Hne ->. apply Hne. revert Hl. apply rtsc_kernel with (f := id).
  by intros ? ? ?%elem_of_nil.
Qed.

(** C3: three labels [A], [B], [C] of the frame with [score A B] and
    [score B C] at or above the threshold (whatever [score A C] is) are in
    one cluster: clustering returns, the frame it returns holds the records
    of the frame it was given, in order, with their keys and labels, and
    every record carrying [A], [B] or [C] has there the same identifier.  In
    general, the identifiers drawn and the record keys being distinct, two
    labelled records of the frame get the same identifier exactly when a
    chain of qualifying pairs links their labels: clusters are the
    connected components of the qualifying pairs.  The similarity is taken
    symmetric, as the specification has it. *)
Theorem transitive_closure_clusters (rnd : nat → nat) (df : list main_row)
    (t : Q) (algs : list MatchingAlgorithm) (w : world) (A B C : string) :
  algs ≠ [] →
  (∀ f x y, sim f x y = sim f y x) →
  Some A ∈ label <$> df → Some B ∈ label <$> df → Some C ∈ label <$> df →
  A ≠ B → B ≠ C →
  (t <= score sim algs A B)%Q → (t <= score sim algs B C)%Q →
  ∃ out w',
    cluster_data sim rnd df t (Member <$> algs) w = (Ok out, w')
    ∧ o_key <$> out = unicity_key <$> df
    ∧ o_label <$> out = label <$> df
    ∧ (∃ c,
         (∀ i r, df !! i = Some r → label r ∈ [Some A; Some B; Some C] →
            ∃ o, out !! i = Some o ∧ o_key o = unicity_key r
                 ∧ o_label o = label r ∧ o_cluster_id o = Some c)
         ∧ ∀ o, o ∈ out → o_label o ∈ [Some A; Some B; Some C] →
             o_cluster_id o = Some c)
    ∧ (NoDup (unicity_key <$> df) → NoDup (ids_drawn rnd w w') →
       (∀ i j r1 r2 a b,
          df !! i = Some r1 → df !! j = Some r2 →
          label r1 = Some a → label r2 = Some b →
          ∃ o1 o2, out !! i = Some o1 ∧ out !! j = Some o2
                   ∧ (o_cluster_id o1 = o_cluster_id o2
                      ↔ linked (qualifying_pairs sim (working_frame df) algs t) a b))
       ∧ ∀ o1 o2 a b, o1 ∈ out → o2 ∈ out →
           o_label o1 = Some a → o_label o2 = Some b →
           (o_cluster_id o1 = o_cluster_id o2
            ↔ linked (qualifying_pairs sim (working_frame df) algs t) a b)).
Proof.
  intros Halgs Hsym HA%label_of_frame HB%label_of_frame HC%label_of_frame
    HAB HBC HtAB HtBC.
  pose proof (qualifying_linked df t algs A B Hsym HA HB HAB HtAB) as HlAB.
  pose proof (qualifying_linked df t algs B C Hsym HB HC HBC HtBC) as HlBC.
  pose proof (linked_nonempty _ _ _ HlAB HAB) as Hpairs.
  set (pairs := qualifying_pairs sim (working_frame df) algs t) in *.
  set (R := result_frame rnd (working_frame df) pairs (draws w)).
  eexists _, _. split; [by apply cluster_data_ok|]. fold pairs. fold R.
  split; [apply annotate_keys|]. split; [apply annotate_labels|]. split.
  - destruct (assigned_label sim rnd df algs t (draws w) A HA) as [i Hi].
    fold pairs in Hi. fold R in Hi.
    exists (cluster_name i).
    assert (∀ r, label r ∈ [Some A; Some B; Some C] →
              row_cluster R r = Some (cluster_name i)) as Hrow.
    { intros r Ho. unfold row_cluster.
      assert (linked pairs A B) as H1 by done.
      assert (linked pairs A C) as H2 by (by etrans).
      apply elem_of_cons in Ho as [->|Ho]; [done|].
      apply elem_of_cons in Ho as [->|Ho].
      { simpl. rewrite <- Hi. symmetry. by apply linked_assigned. }
      apply list_elem_of_singleton in Ho as ->.
      simpl. rewrite <- Hi. symmetry. by apply linked_assigned. }
    split.
    + intros j r Hj Hr. eexists. split.
      { apply annotate_lookup. exists r. split; [exact Hj|reflexivity]. }
      simpl. split; [done|]. split; [done|]. by apply Hrow.
    + intros o (r & _ & _ & Hl & -> & _)%elem_of_annotate Ho.
      apply Hrow. by rewrite <- Hl.
  - intros Hkeys%working_frame_keys_NoDup Hids. rewrite ids_drawn_run in Hids.
    assert (∀ r1 r2 a b, r1 ∈ df → r2 ∈ df → label r1 = Some a → label r2 = Some b →
              row_cluster R r1 = row_cluster R r2 ↔ linked pairs a b) as Hrows.
    { intros r1 r2 a b Hr1 Hr2 Ha Hb.
      pose proof (working_frame_label df r1 a Hr1 Ha) as Hwa.
      pose proof (working_frame_label df r2 b Hr2 Hb) as Hwb.
      unfold row_cluster. rewrite Ha, Hb. simpl. split.
      + by apply assigned_linked.
      + by apply linked_assigned. }
    split.
    + intros i j r1 r2 a b Hi Hj Ha Hb. eexists _, _. split.
      { apply annotate_lookup. exists r1. split; [exact Hi|reflexivity]. }
      split.
      { apply annotate_lookup. exists r2. split; [exact Hj|reflexivity]. }
      simpl. apply Hrows; [by eapply list_elem_of_lookup_2..|done|done].
    + intros o1 o2 a b (r1 & Hr1 & _ & Hl1 & -> & _)%elem_of_annotate
        (r2 & Hr2 & _ & Hl2 & -> & _)%elem_of_annotate Ha Hb.
      rewrite Hl1 in Ha. rewrite Hl2 in Hb. by apply Hrows.
Qed.

(** C4 (amended): a record whose label is null plays no part in the
    matched frame and never makes clustering fail, but it gets no cluster:
    its identifier and its size are null.  A record whose label is the empty
    string is clustered as any label is, in whatever frame it stands (with
    or without null labels beside it): when clustering returns, the frame
    returned holds the records of the frame given, in order, and all the
    records with the empty label carry there one identifier [cluster_i] and
    one [_cluster_size], which counts at least all of them. *)
Theorem null_and_empty_labels (rnd : nat → nat) (t : Q)
    (algos : list algorithm_id) (w : world) :
  (∀ (df1 df2 : list main_row) (r : main_row),
     label r = None →
     create_matched_dataframe sim rnd (df1 ++ r :: df2) t algos w
     = create_matched_dataframe sim rnd (df1 ++ df2) t algos w
     ∧ is_ok (cluster_data sim rnd (df1 ++ r :: df2) t algos w).1
       = is_ok (cluster_data sim rnd (df1 ++ df2) t algos w).1
     ∧ ∀ out w', cluster_data sim rnd (df1 ++ r :: df2) t algos w = (Ok out, w') →
         out !! length df1 = Some (OutputRow (unicity_key r) None None None))
  ∧ (∀ (df : list main_row) out w',
       cluster_data sim rnd df t algos w = (Ok out, w') →
       o_key <$> out = unicity_key <$> df
       ∧ o_label <$> out = label <$> df
       ∧ (∀ j r, df !! j = Some r → label r = Some "" →
            ∃ i n,
              out !! j = Some (OutputRow (unicity_key r) (Some "")
                                 (Some (cluster_name i)) (Some n))
              ∧ (length (filter (λ r', label r' = Some "") df) ≤ n)%nat
              ∧ ∀ j' r', df !! j' = Some r' → label r' = Some "" →
                  out !! j' = Some (OutputRow (unicity_key r') (Some "")
                                      (Some (cluster_name i)) (Some n)))
       ∧ ∀ o, o ∈ out → o_label o = Some "" →
           ∃ i n, o_cluster_id o = Some (cluster_name i)
                  ∧ o_cluster_size o = Some n
                  ∧ (length (filter (λ o', o_label o' = Some "") out) ≤ n)%nat
                  ∧ ∀ o', o' ∈ out → o_label o' = Some "" →
                      o_cluster_id o' = Some (cluster_name i)).
Proof.
  split.
  - intros df1 df2 r Hr.
    assert (create_matched_dataframe sim rnd (df1 ++ r :: df2) t algos w
            = create_matched_dataframe sim rnd (df1 ++ df2) t algos w) as Hsame.
    { unfold create_matched_dataframe.
      fold (working_frame (df1 ++ r :: df2)). fold (working_frame (df1 ++ df2)).
      by rewrite (working_frame_null df1 df2 r Hr). }
    split; [exact Hsame|]. split.
    + unfold cluster_data. rewrite !M_bind_run, Hsame.
      destruct (create_matched_dataframe sim rnd (df1 ++ df2) t algos w)
        as [[R|e] w1]; [|done].
      unfold lift. by rewrite !process_clusters_annotate.
    + intros out w' Hrun.
      destruct (cluster_data_inv rnd _ t algos w out w' Hrun)
        as (algs & -> & Halgs & Hpairs).
      rewrite (cluster_data_ok rnd _ t algs w Halgs Hpairs) in Hrun.
      injection Hrun as <- <-.
      apply annotate_lookup. exists r. split; [apply list_lookup_middle; done|].
      unfold row_cluster. by rewrite Hr.
  - intros df out w' Hrun.
    destruct (cluster_data_inv rnd _ t algos w out w' Hrun)
      as (algs & -> & Halgs & Hpairs).
    rewrite (cluster_data_ok rnd _ t algs w Halgs Hpairs) in Hrun.
    injection Hrun as <- <-.
    set (R := result_frame rnd (working_frame df)
                (qualifying_pairs sim (working_frame df) algs t) (draws w)).
    split; [apply annotate_keys|]. split; [apply annotate_labels|].
    assert (∀ r0, r0 ∈ df → label r0 = Some "" →
              ∃ i, (∀ r', label r' = Some "" → row_cluster R r' = Some (cluster_name i))
                   ∧ (length (filter (λ o', o_label o' = Some "") (annotate R df))
                      ≤ length (members (annotate R df) (cluster_name i)))%nat)
      as Hempty.
    { intros r0 Hr0 Hl0.
      pose proof (row_cluster_Some rnd _ t algs (draws w) r0 Hr0) as Hi.
      rewrite Hl0 in Hi. destruct Hi as [i Hi]. fold R in Hi.
      assert (∀ r', label r' = Some "" → row_cluster R r' = Some (cluster_name i))
        as Hall.
      { intros r' Hl'. rewrite <- Hi. unfold row_cluster. by rewrite Hl', Hl0. }
      exists i. split; [exact Hall|].
      unfold members. apply filter_length_mono.
      intros o' (r' & _ & _ & Hl' & -> & _)%elem_of_annotate Hempty'.
      apply Hall. by rewrite <- Hl'. }
    split.
    + intros j r Hj Hl.
      destruct (Hempty r (list_elem_of_lookup_2 _ _ _ Hj) Hl) as (i & Hall & Hlen).
      exists i, (length (members (annotate R df) (cluster_name i))).
      assert (∀ j' r', df !! j' = Some r' → label r' = Some "" →
                annotate R df !! j'
                = Some (OutputRow (unicity_key r') (Some "") (Some (cluster_name i))
                          (Some (length (members (annotate R df) (cluster_name i))))))
        as Hrows.
      { intros j' r' Hj' Hl'. apply annotate_lookup. exists r'. split; [done|].
        by rewrite Hl', (Hall r' Hl'), annotate_cluster_size. }
      split; [by apply Hrows|]. split; [|exact Hrows].
      etrans; [|exact Hlen]. apply Nat.eq_le_incl. symmetry.
      by apply filter_length_fmap_iff.
    + intros o Ho Hl.
      pose proof Ho as (r0 & Hr0 & _ & Hl0 & Hc0 & Hs0)%elem_of_annotate.
      rewrite Hl in Hl0. symmetry in Hl0.
      destruct (Hempty r0 Hr0 Hl0) as (i & Hall & Hlen).
      eexists i, _. split; [by rewrite Hc0, (Hall r0 Hl0)|]. split.
      { rewrite Hs0, (Hall r0 Hl0). apply annotate_cluster_size. }
      split; [exact Hlen|].
      intros o' (r' & _ & _ & Hl' & -> & _)%elem_of_annotate Hempty'.
      apply Hall. by rewrite <- Hl'.
Qed.

(** C7: for thresholds [t1 <= t2], whatever [compute_similarity_matrix]
    returns at [t2] is a sublist of what it returns at [t1], on the same
    frame and after the same library calls.  Hence, when clustering returns
    at [t2] (the identifiers drawn there and the record keys being
    distinct), it returns at [t1] too, two records in one cluster at [t2]
    are in one cluster at [t1], and there are at least as many clusters at
    [t2] as at [t1]. *)
Theorem threshold_monotone (rnd1 rnd2 : nat → nat) (df : list main_row)
    (algos : list algorithm_id) (t1 t2 : Q) (w1 w2 : world) :
  (t1 <= t2)%Q →
  (∀ wdf rows2 w', compute_similarity_matrix sim wdf t2 algos w1 = (Ok rows2, w') →
     ∃ rows1, compute_similarity_matrix sim wdf t1 algos w1 = (Ok rows1, w')
              ∧ rows2 `sublist_of` rows1)
  ∧ (∀ out2 w2', cluster_data sim rnd2 df t2 algos w2 = (Ok out2, w2') →
     NoDup (unicity_key <$> df) → NoDup (ids_drawn rnd2 w2 w2') →
     ∃ out1 w1',
       cluster_data sim rnd1 df t1 algos w1 = (Ok out1, w1')
       ∧ (∀ i j a b a' b',
            out2 !! i = Some a → out2 !! j = Some b →
            out1 !! i = Some a' → out1 !! j = Some b' →
            o_cluster_id a = o_cluster_id b → o_cluster_id a' = o_cluster_id b')
       ∧ (cluster_count out1 ≤ cluster_count out2)%nat).
Proof.
  intros Ht. split.
  - intros wdf rows2 w' Hrun.
    destruct (compute_similarity_matrix_cases sim wdf t2 algos w1)
      as [[e He]|(algs & -> & Halgs & Hlp)]; [congruence|].
    rewrite (compute_similarity_matrix_ok sim wdf t2 algs w1 Halgs Hlp) in Hrun.
    injection Hrun as <- <-.
    eexists. split; [by apply compute_similarity_matrix_ok|].
    apply fmap_sublist. rewrite (qualifying_pairs_mono sim wdf algs t1 t2 Ht).
    apply sublist_filter.
  - intros out2 w2' Hrun Hkeys Hids.
    destruct (cluster_data_inv rnd2 df t2 algos w2 out2 w2' Hrun)
      as (algs & -> & Halgs & Hpairs2).
    set (W := working_frame df) in *.
    set (pairs1 := qualifying_pairs sim W algs t1).
    set (pairs2 := qualifying_pairs sim W algs t2) in *.
    assert (∀ p, p ∈ pairs2 → p ∈ pairs1) as Hsub.
    { intros p. unfold pairs2. rewrite (qualifying_pairs_mono sim W algs t1 t2 Ht).
      by intros [_ ?]%list_elem_of_filter. }
    assert (pairs1 ≠ []) as Hpairs1.
    { destruct pairs2 as [|p ps] eqn:E; [done|]. intros Hnil.
      specialize (Hsub p (list_elem_of_here p ps)). rewrite Hnil in Hsub.
      by apply elem_of_nil in Hsub. }
    rewrite (cluster_data_ok rnd2 df t2 algs w2 Halgs Hpairs2) in Hrun.
    apply pair_equal_spec in Hrun as [Hout Hw]. injection Hout as Hout.
    subst out2 w2'.
    rewrite ids_drawn_run in Hids.
    apply working_frame_keys_NoDup in Hkeys.
    set (R1 := result_frame rnd1 W pairs1 (draws w1)).
    set (R2 := result_frame rnd2 W pairs2 (draws w2)).
    assert (∀ r r', r ∈ df → r' ∈ df →
              row_cluster R2 r = row_cluster R2 r' →
              row_cluster R1 r = row_cluster R1 r') as Href.
    { intros r r' Hr Hr' Heq.
      pose proof (row_cluster_Some rnd2 df t2 algs (draws w2) r Hr) as H2.
      pose proof (row_cluster_Some rnd2 df t2 algs (draws w2) r' Hr') as H2'.
      fold W in H2, H2'. fold pairs2 in H2, H2'. fold R2 in H2, H2'.
      unfold row_cluster in *.
      destruct (label r) as [a|] eqn:Ea, (label r') as [b|] eqn:Eb; simpl in *.
      - pose proof (working_frame_label df r a Hr Ea) as Ha.
        pose proof (working_frame_label df r' b Hr' Eb) as Hb.
        apply linked_assigned; [done..|].
        eapply rtsc_subrel; [|by apply (assigned_linked sim rnd2 df algs t2 (draws w2))].
        intros x y Hxy. apply rtsc_lr. by apply Hsub.
      - destruct H2 as [i H2]. congruence.
      - destruct H2' as [i H2']. congruence.
      - done. }
    eexists _, _. split; [by apply cluster_data_ok|].
    fold W. fold pairs1. fold R1. split.
    + intros i j a b a' b' (r & Hr & ->)%annotate_lookup (r' & Hr' & ->)%annotate_lookup
        (r0 & Hr0 & ->)%annotate_lookup (r0' & Hr0' & ->)%annotate_lookup. simpl.
      assert (r0 = r) as -> by congruence. assert (r0' = r') as -> by congruence.
      apply Href; by eapply list_elem_of_lookup_2.
    + unfold cluster_count. rewrite !clustered_ids_annotate.
      apply refinement_count; [done|..]; intros r Hr Hnone;
        pose proof (row_cluster_Some rnd1 df t1 algs (draws w1) r Hr) as H1;
        pose proof (row_cluster_Some rnd2 df t2 algs (draws w2) r Hr) as H2;
        destruct (label r) as [a|] eqn:Ea; try done;
        cbv zeta in H1, H2; subst R1 R2 pairs1 pairs2 W.
      * destruct H2 as [i H2]. congruence.
      * destruct H1 as [i H1]. congruence.
Qed.

End clustering_claims.

(** * Examples: the theorems at concrete frames *)

Lemma sample_similarity_sym f x y :
  sample_similarity f x y = sample_similarity f y x.
Proof.
  unfold sample_similarity.
  by rewrite (Nat.max_comm (length (list_ascii_of_string x))),
             (Nat.min_comm (edit_distance (list_ascii_of_string x) _)).
Qed.

(** The empty pair list of a single label cannot be unpacked. *)
Lemma single_label_raises :
  compute_similarity_matrix sample_similarity [WorkingRow 0 "ab"] (1 # 2)
    [Member LEVENSHTEIN] start
  = (Raise (ValueError "not enough values to unpack (expected 2, got 0)"), start).
Proof. reflexivity. Qed.

Lemma compute_similarity_matrix_exhaustive_witness :
  ∃ rows w',
    compute_similarity_matrix sample_similarity (working_frame chain_frame) (1 # 2)
      (Member <$> [LEVENSHTEIN; JACCARD]) start = (Ok rows, w')
    ∧ (∀ a b s, SimilarityRow s [a; b] ∈ rows
         ↔ before (unique_labels (working_frame chain_frame)) a b
           ∧ s = score sample_similarity [LEVENSHTEIN; JACCARD] a b ∧ (1 # 2 <= s)%Q)
    ∧ (∀ a b, a ∈ unique_labels (working_frame chain_frame) →
         b ∈ unique_labels (working_frame chain_frame) → a ≠ b →
         (before (unique_labels (working_frame chain_frame)) a b
          ∧ ¬ before (unique_labels (working_frame chain_frame)) b a)
         ∨ (before (unique_labels (working_frame chain_frame)) b a
            ∧ ¬ before (unique_labels (working_frame chain_frame)) a b))
    ∧ (2 * length (label_pairs (working_frame chain_frame))
       = length (unique_labels (working_frame chain_frame))
         * (length (unique_labels (working_frame chain_frame)) - 1))%nat
    ∧ scored w' = scored start
                  ++ all_calls [LEVENSHTEIN; JACCARD] (label_pairs (working_frame chain_frame))
    ∧ (∀ a b, (∃ f, f ∈ [LEVENSHTEIN; JACCARD]
                    ∧ score sample_similarity [LEVENSHTEIN; JACCARD] a b
                      = sample_similarity f a b)
              ∧ ∀ f, f ∈ [LEVENSHTEIN; JACCARD] →
                  (sample_similarity f a b
                   <= score sample_similarity [LEVENSHTEIN; JACCARD] a b)%Q)
    ∧ ((∀ f x y, 0 <= sample_similarity f x y ∧ sample_similarity f x y <= 1)%Q →
       ∀ a b, (0 <= score sample_similarity [LEVENSHTEIN; JACCARD] a b
               ∧ score sample_similarity [LEVENSHTEIN; JACCARD] a b <= 1)%Q).
Proof.
  apply (compute_similarity_matrix_exhaustive sample_similarity
           (working_frame chain_frame) (1 # 2) [LEVENSHTEIN; JACCARD] start).
  - done.
  - vm_compute. lia.
Defined.

(** A threshold outside [0, 1] is not refused: above 1 the pipeline fails
    only after scoring, below 0 it does not fail. *)
Lemma threshold_not_validated :
  cluster_data sample_similarity sample_draws two_labels (3 # 2)
    [Member LEVENSHTEIN] start
  = (Raise (ValueError "No match was found"), World 0 [(LEVENSHTEIN, "ab", "cd")])
  ∧ is_ok (cluster_data sample_similarity sample_draws two_labels (-1 # 1)
             [Member LEVENSHTEIN] start).1 = true.
Proof. split; vm_compute; reflexivity. Qed.

Lemma configuration_errors_raise_first_witness :
  ∃ e, cluster_data sample_similarity sample_draws chain_frame (1 # 2)
         [Member LEVENSHTEIN; Foreign "soundex"] start = (Raise e, start).
Proof.
  apply (configuration_errors_raise_first sample_similarity sample_draws chain_frame
           (1 # 2) [Member LEVENSHTEIN; Foreign "soundex"] start).
  right. exists "soundex". in_list.
Defined.

Lemma create_matched_dataframe_no_pair_raises_witness :
  ∃ e w',
    create_matched_dataframe sample_similarity sample_draws two_labels (9 # 10)
      [Member LEVENSHTEIN] start = (Raise e, w')
    ∧ draws w' = draws start
    ∧ (∀ algs, [Member LEVENSHTEIN] = Member <$> algs → algs ≠ [] →
         label_pairs (working_frame two_labels) ≠ [] →
         e = ValueError "No match was found").
Proof.
  apply (create_matched_dataframe_no_pair_raises sample_similarity sample_draws
           two_labels (9 # 10) [Member LEVENSHTEIN] start).
  intros [|a [|b algs]] Heq _; try discriminate Heq.
  injection Heq as <-. reflexivity.
Defined.

Lemma compute_similarity_matrix_needs_two_labels_witness :
  (∃ e, compute_similarity_matrix sample_similarity
          [WorkingRow 0 "ab"; WorkingRow 1 "ab"] (1 # 2) [Member LEVENSHTEIN] start
        = (Raise e, start))
  ∧ (∀ algs, [Member LEVENSHTEIN] = Member <$> algs →
       compute_similarity_matrix sample_similarity
         [WorkingRow 0 "ab"; WorkingRow 1 "ab"] (1 # 2) [Member LEVENSHTEIN] start
       = (Raise (ValueError "not enough values to unpack (expected 2, got 0)"), start)).
Proof.
  apply (compute_similarity_matrix_needs_two_labels sample_similarity
           [WorkingRow 0 "ab"; WorkingRow 1 "ab"] (1 # 2) [Member LEVENSHTEIN] start).
  vm_compute. lia.
Defined.

(** A record without a label gets no cluster, and the two records with the
    empty label share one cluster. *)
Lemma null_label_gets_no_cluster :
  (cluster_data sample_similarity sample_draws gaps_frame (1 # 2)
     [Member LEVENSHTEIN] start).1
  = Ok [OutputRow 0 (Some "aaa") (Some "cluster_1") (Some 2);
        OutputRow 1 (Some "aab") (Some "cluster_1") (Some 2);
        OutputRow 2 None None None;
        OutputRow 3 (Some "") (Some "cluster_0") (Some 2);
        OutputRow 4 (Some "") (Some "cluster_0") (Some 2)].
Proof. vm_compute. reflexivity. Qed.

Lemma partition_of_labelled_records_witness :
  ∃ out w',
    cluster_data sample_similarity sample_draws gaps_frame (1 # 2)
      (Member <$> [LEVENSHTEIN]) start = (Ok out, w')
    ∧ o_key <$> out = unicity_key <$> gaps_frame
    ∧ o_label <$> out = label <$> gaps_frame
    ∧ (∀ o, o ∈ out →
         match o_label o with
         | Some _ =>
             ∃ i, o_cluster_id o = Some (cluster_name i)
                  ∧ o_cluster_size o = Some (length (members out (cluster_name i)))
         | None => o_cluster_id o = None ∧ o_cluster_size o = None
         end)
    ∧ (∀ o o', o ∈ out → o' ∈ out → o_label o = o_label o' →
         o_cluster_id o = o_cluster_id o')
    ∧ sum_list ((λ c, length (members out c)) <$> remove_dups (clustered_ids out))
      = length (filter (λ r, is_Some (label r)) gaps_frame).
Proof.
  apply (partition_of_labelled_records sample_similarity sample_draws gaps_frame
           (1 # 2) [LEVENSHTEIN] start).
  - done.
  - vm_compute. discriminate.
Defined.

(** The empty label is a label like any other: its records form one
    cluster of size two, not two singletons. *)
Lemma empty_labels_share_a_cluster :
  o_cluster_size
    <$> (filter (λ o, o_label o = Some "")
           (match (cluster_data sample_similarity sample_draws gaps_frame (1 # 2)
                     [Member LEVENSHTEIN] start).1 with
            | Ok out => out
            | Raise _ => []
            end))
  = [Some 2%nat; Some 2%nat].
Proof. vm_compute. reflexivity. Qed.

Lemma null_and_empty_labels_witness :
  (create_matched_dataframe sample_similarity sample_draws
     ([MainRow 0 (Some "aaa"); MainRow 1 (Some "aab")]
        ++ MainRow 2 None :: [MainRow 3 (Some ""); MainRow 4 (Some "")])
     (1 # 2) [Member LEVENSHTEIN] start
   = create_matched_dataframe sample_similarity sample_draws
       ([MainRow 0 (Some "aaa"); MainRow 1 (Some "aab")]
          ++ [MainRow 3 (Some ""); MainRow 4 (Some "")])
       (1 # 2) [Member LEVENSHTEIN] start
   ∧ is_ok (cluster_data sample_similarity sample_draws
              ([MainRow 0 (Some "aaa"); MainRow 1 (Some "aab")]
                 ++ MainRow 2 None :: [MainRow 3 (Some ""); MainRow 4 (Some "")])
              (1 # 2) [Member LEVENSHTEIN] start).1
     = is_ok (cluster_data sample_similarity sample_draws
                ([MainRow 0 (Some "aaa"); MainRow 1 (Some "aab")]
                   ++ [MainRow 3 (Some ""); MainRow 4 (Some "")])
                (1 # 2) [Member LEVENSHTEIN] start).1
   ∧ ∀ out w',
       cluster_data sample_similarity sample_draws
         ([MainRow 0 (Some "aaa"); MainRow 1 (Some "aab")]
            ++ MainRow 2 None :: [MainRow 3 (Some ""); MainRow 4 (Some "")])
         (1 # 2) [Member LEVENSHTEIN] start = (Ok out, w') →
       out !! length [MainRow 0 (Some "aaa"); MainRow 1 (Some "aab")]
       = Some (OutputRow (unicity_key (MainRow 2 None)) None None None))
  ∧ ∃ out w',
      cluster_data sample_similarity sample_draws empties_frame (1 # 2)
        [Member LEVENSHTEIN] start = (Ok out, w')
      ∧ o_key <$> out = unicity_key <$> empties_frame
      ∧ o_label <$> out = label <$> empties_frame
      ∧ (∀ j r, empties_frame !! j = Some r → label r = Some "" →
           ∃ i n,
             out !! j = Some (OutputRow (unicity_key r) (Some "")
                                (Some (cluster_name i)) (Some n))
             ∧ (length (filter (λ r', label r' = Some "") empties_frame) ≤ n)%nat
             ∧ ∀ j' r', empties_frame !! j' = Some r' → label r' = Some "" →
                 out !! j' = Some (OutputRow (unicity_key r') (Some "")
                                     (Some (cluster_name i)) (Some n)))
      ∧ ∀ o, o ∈ out → o_label o = Some "" →
          ∃ i n, o_cluster_id o = Some (cluster_name i)
                 ∧ o_cluster_size o = Some n
                 ∧ (length (filter (λ o', o_label o' = Some "") out) ≤ n)%nat
                 ∧ ∀ o', o' ∈ out → o_label o' = Some "" →
                     o_cluster_id o' = Some (cluster_name i).
Proof.
  split.
  - apply (proj1 (null_and_empty_labels sample_similarity sample_draws (1 # 2)
                    [Member LEVENSHTEIN] start)
             [MainRow 0 (Some "aaa"); MainRow 1 (Some "aab")]
             [MainRow 3 (Some ""); MainRow 4 (Some "")] (MainRow 2 None)).
    reflexivity.
  - eexists _, _. split; [vm_compute; reflexivity|].
    eapply (proj2 (null_and_empty_labels sample_similarity sample_draws (1 # 2)
                     [Member LEVENSHTEIN] start) empties_frame).
    vm_compute. reflexivity.
Defined.

Lemma transitive_closure_clusters_witness :
  (score sample_similarity [LEVENSHTEIN] "aaa" "abb" < 1 # 2)%Q
  ∧ ∃ out w',
      cluster_data sample_similarity sample_draws chain_frame (1 # 2)
        (Member <$> [LEVENSHTEIN]) start = (Ok out, w')
      ∧ o_key <$> out = unicity_key <$> chain_frame
      ∧ o_label <$> out = label <$> chain_frame
      ∧ (∃ c,
           (∀ i r, chain_frame !! i = Some r →
              label r ∈ [Some "aaa"; Some "aab"; Some "abb"] →
              ∃ o, out !! i = Some o ∧ o_key o = unicity_key r
                   ∧ o_label o = label r ∧ o_cluster_id o = Some c)
           ∧ ∀ o, o ∈ out → o_label o ∈ [Some "aaa"; Some "aab"; Some "abb"] →
               o_cluster_id o = Some c)
      ∧ (NoDup (unicity_key <$> chain_frame) →
         NoDup (ids_drawn sample_draws start w') →
         (∀ i j r1 r2 a b,
            chain_frame !! i = Some r1 → chain_frame !! j = Some r2 →
            label r1 = Some a → label r2 = Some b →
            ∃ o1 o2, out !! i = Some o1 ∧ out !! j = Some o2
                     ∧ (o_cluster_id o1 = o_cluster_id o2
                        ↔ linked (qualifying_pairs sample_similarity
                                    (working_frame chain_frame)
                                    [LEVENSHTEIN] (1 # 2)) a b))
         ∧ ∀ o1 o2 a b, o1 ∈ out → o2 ∈ out →
             o_label o1 = Some a → o_label o2 = Some b →
             (o_cluster_id o1 = o_cluster_id o2
              ↔ linked (qualifying_pairs sample_similarity (working_frame chain_frame)
                          [LEVENSHTEIN] (1 # 2)) a b)).
Proof.
  split; [by vm_compute|].
  apply (transitive_closure_clusters sample_similarity sample_draws chain_frame
           (1 # 2) [LEVENSHTEIN] start "aaa" "aab" "abb").
  - done.
  - apply sample_similarity_sym.
  - in_list.
  - in_list.
  - in_list.
  - done.
  - done.
  - vm_compute. discriminate.
  - vm_compute. discriminate.
Defined.

Lemma threshold_monotone_witness :
  (∀ wdf rows2 w',
     compute_similarity_matrix sample_similarity wdf (7 # 10) [Member LEVENSHTEIN] start
     = (Ok rows2, w') →
     ∃ rows1,
       compute_similarity_matrix sample_similarity wdf (3 # 5) [Member LEVENSHTEIN] start
       = (Ok rows1, w')
       ∧ rows2 `sublist_of` rows1)
  ∧ (∀ out2 w2',
       cluster_data sample_similarity sample_draws tiers_frame (7 # 10)
         [Member LEVENSHTEIN] start = (Ok out2, w2') →
       NoDup (unicity_key <$> tiers_frame) →
       NoDup (ids_drawn sample_draws start w2') →
       ∃ out1 w1',
         cluster_data sample_similarity sample_draws tiers_frame (3 # 5)
           [Member LEVENSHTEIN] start = (Ok out1, w1')
         ∧ (∀ i j a b a' b',
              out2 !! i = Some a → out2 !! j = Some b →
              out1 !! i = Some a' → out1 !! j = Some b' →
              o_cluster_id a = o_cluster_id b → o_cluster_id a' = o_cluster_id b')
         ∧ (cluster_count out1 ≤ cluster_count out2)%nat).
Proof.
  apply (threshold_monotone sample_similarity sample_draws sample_draws tiers_frame
           [Member LEVENSHTEIN] (3 # 5) (7 # 10) start start).
  vm_compute. discriminate.
Defined.

(** The two runs of the last example: four clusters above, three below. *)
Example tiers_clusters :
  cluster_count
    (match (cluster_data sample_similarity sample_draws tiers_frame (7 # 10)
              [Member LEVENSHTEIN] start).1 with Ok out => out | Raise _ => [] end)
  = 4%nat
  ∧ cluster_count
      (match (cluster_data sample_similarity sample_draws tiers_frame (3 # 5)
                [Member LEVENSHTEIN] start).1 with Ok out => out | Raise _ => [] end)
    = 3%nat.
Proof. split; vm_compute; reflexivity. Qed.

(** The text functions on sample labels (the labels are ASCII, on which
    the canonical decomposition changes nothing). *)
Example process_label_clear_sample :
  process_label_clear (λ l, l) (Some (codes "Benne 10 m3, 1 000 L")) = "Benne xmx X L"
  ∧ process_label_ccap (λ l, l) (Some (codes "Benne 10 m3, 1 000 L")) = "Benne X mX X L"
  ∧ process_label_clear (λ l, l) (Some (codes "  Bac 1,5 T (K12) - 30 l  "))
    = "Bac X T K1X xL"
  ∧ process_label_clear (λ l, l) (Some (codes "---")) = ""
  ∧ process_label_clear (λ l, l) None = "".
Proof. repeat split; vm_compute; reflexivity. Qed.

Example find_common_words_sample :
  find_common_words_with_order ["Rotation Benne 10m3"; "Rotation Benne 10 m3"]
  = Ok "Rotation Benne"
  ∧ find_common_words_with_order ["Collecte OM"; "transport benne"] = Ok ""
  ∧ is_ok (find_common_words_with_order []) = false.
Proof. repeat split; vm_compute; reflexivity. Qed.

(** * More on scoring and on the matched frame *)

Lemma all_calls_length (algs : list MatchingAlgorithm) (pairs : list (string * string)) :
  length (all_calls algs pairs) = (length pairs * length algs)%nat.
Proof.
  unfold all_calls. induction pairs as [|p pairs IH]; [done|].
  rewrite bind_cons, length_app, length_fmap, IH. simpl. lia.
Qed.

(** X1: whatever the threshold, and whether a pair qualifies or not, a frame
    with [n >= 2] distinct labels costs [n (n - 1) / 2] calls of every
    algorithm: the scoring is exhaustive before anything is filtered, it is
    done also when the run ends in "No match was found", and it draws no
    random number of its own (six draws per identifier follow it). *)
Theorem scoring_cost (sim : MatchingAlgorithm → string → string → Q)
    (rnd : nat → nat) (df : list main_row) (t : Q)
    (algs : list MatchingAlgorithm) (w : world) :
  algs ≠ [] → (2 ≤ length (unique_labels (working_frame df)))%nat →
  ∃ r w',
    create_matched_dataframe sim rnd df t (Member <$> algs) w = (r, w')
    ∧ (2 * length (scored w')
       = 2 * length (scored w)
         + length algs * (length (unique_labels (working_frame df))
                          * (length (unique_labels (working_frame df)) - 1)))%nat
    ∧ (is_ok r = false → draws w' = draws w)
    ∧ (is_ok r = true ↔ qualifying_pairs sim (working_frame df) algs t ≠ []).
Proof.
  intros Halgs Hn.
  assert (label_pairs (working_frame df) ≠ []) as Hlp.
  { unfold label_pairs. rewrite combinations2_nil. lia. }
  pose proof (combinations2_length (unique_labels (working_frame df))) as Hlen.
  fold (label_pairs (working_frame df)) in Hlen.
  destruct (decide (qualifying_pairs sim (working_frame df) algs t = [])) as [Hq|Hq].
  - eexists _, _. split.
    { by apply create_matched_dataframe_no_match. }
    cbn [scored draws is_ok]. rewrite length_app, all_calls_length.
    split_and!; [nia|done|]. split; [done|]. intros H. by destruct H.
  - eexists _, _. split.
    { by apply create_matched_dataframe_ok. }
    cbn [scored draws is_ok]. rewrite length_app, all_calls_length.
    split_and!; [nia|done|done].
Qed.

(** ** The rows of the matched frame, label by label *)

Lemma filter_concat_length {A} (P : A → Prop) `{∀ x, Decision (P x)}
    (ls : list (list A)) :
  length (filter P (concat ls)) = sum_list ((λ l, length (filter P l)) <$> ls).
Proof.
  induction ls as [|l ls IH]; [done|].
  simpl. by rewrite filter_app, length_app, IH.
Qed.

Lemma filter_filter_length {A} (P Q : A → Prop) `{∀ x, Decision (P x)}
    `{∀ x, Decision (Q x)} (l : list A) :
  length (filter P (filter Q l)) = length (filter (λ x, P x ∧ Q x) l).
Proof.
  induction l as [|x l IH]; [done|].
  rewrite (filter_cons Q), (filter_cons (λ x, P x ∧ Q x)).
  destruct (decide (Q x)) as [HQ|HQ].
  - rewrite filter_cons. destruct (decide (P x)) as [HP|HP].
    + rewrite decide_True by done. simpl. by rewrite IH.
    + rewrite decide_False by (by intros [? ?]). done.
  - rewrite decide_False by (by intros [? ?]). done.
Qed.

Lemma filter_length_ext {A} (P Q : A → Prop) `{∀ x, Decision (P x)}
    `{∀ x, Decision (Q x)} (l : list A) :
  (∀ x, x ∈ l → P x ↔ Q x) → length (filter P l) = length (filter Q l).
Proof.
  intros HPQ. apply Nat.le_antisymm; apply filter_length_mono; intros x Hx;
    by apply HPQ.
Qed.

Lemma count_label_absent (W : list working_row) l :
  l ∉ w_label <$> W → length (filter (λ w, w_label w = l) W) = 0%nat.
Proof.
  induction W as [|x W IH]; [done|].
  rewrite fmap_cons, not_elem_of_cons. intros [Hne Hl].
  rewrite filter_cons, decide_False by done. by apply IH.
Qed.

Lemma count_label_NoDup (W : list working_row) l :
  NoDup (w_label <$> W) → l ∈ w_label <$> W →
  length (filter (λ w, w_label w = l) W) = 1%nat.
Proof.
  induction W as [|x W IH]; [by intros _ ?%elem_of_nil|].
  rewrite fmap_cons. intros [Hx HW]%NoDup_cons Hl. rewrite filter_cons.
  destruct (decide (w_label x = l)) as [<-|Hne].
  - simpl. f_equal. by apply count_label_absent.
  - apply IH; [done|]. by apply elem_of_cons in Hl as [->|Hl].
Qed.

Lemma count_labels_two (W : list working_row) a b :
  a ≠ b →
  length (filter (λ w, w_label w ∈ [a; b]) W)
  = (length (filter (λ w, w_label w = a) W)
     + length (filter (λ w, w_label w = b) W))%nat.
Proof.
  intros Hab. induction W as [|x W IH]; [done|].
  rewrite !filter_cons.
  destruct (decide (w_label x = a)) as [Ha|Ha].
  - rewrite decide_True by (rewrite Ha; by left).
    rewrite (decide_False (P := w_label x = b)) by congruence.
    simpl. by rewrite IH.
  - destruct (decide (w_label x = b)) as [Hb|Hb].
    + rewrite decide_True by (rewrite Hb; right; by left).
      simpl. rewrite IH. lia.
    + rewrite decide_False; [done|].
      intros [?|[?|?%elem_of_nil]%elem_of_cons]%elem_of_cons; done.
Qed.

Section matched_rows.

Variable rnd : nat → nat.
Variable W : list working_row.
Hypothesis W_labels : NoDup (w_label <$> W).

Lemma rows_of_label_fresh (U : list working_row) l : ∀ d,
  length (rows_of_label (fresh_rows rnd d U) l)
  = length (filter (λ w, w_label w = l) U).
Proof.
  unfold rows_of_label. induction U as [|u U IH]; intros d; [done|].
  simpl. rewrite !filter_cons. simpl.
  destruct (decide (w_label u = l)); simpl; by rewrite IH.
Qed.

Lemma rows_of_label_block cid (labels : list string) l :
  length (rows_of_label (with_cluster_id cid <$> rows_isin W labels) l)
  = length (filter (λ w, w_label w = l ∧ w_label w ∈ labels) W).
Proof.
  unfold rows_of_label, rows_isin.
  rewrite (filter_fmap_length (with_cluster_id cid) (λ r, c_label r = l)).
  simpl. apply filter_filter_length.
Qed.

Lemma rows_of_label_blocks (ps : list (string * string)) l : ∀ d,
  l ∈ w_label <$> W →
  length (rows_of_label (concat (blocks_from rnd W d (matched_labels_of ps))) l)
  = length (pairs_of_label ps l).
Proof.
  intros d Hl. revert d. unfold pairs_of_label.
  induction ps as [|p ps IH]; intros d; [done|].
  simpl. unfold rows_of_label in *. rewrite filter_app, length_app, IH.
  fold (rows_of_label (with_cluster_id (id_at rnd d) <$> rows_isin W [p.1; p.2]) l).
  rewrite rows_of_label_block, filter_cons.
  destruct (decide (l = p.1 ∨ l = p.2)) as [Hp|Hp].
  - assert (length (filter (λ w, w_label w = l ∧ w_label w ∈ [p.1; p.2]) W) = 1%nat)
      as ->; [|done].
    rewrite <- (count_label_NoDup W l W_labels Hl).
    apply filter_length_ext. intros w _. split; [by intros [? _]|].
    intros Hw. split; [done|]. rewrite Hw.
    destruct Hp as [->| ->]; [by left|right; by left].
  - assert (length (filter (λ w, w_label w = l ∧ w_label w ∈ [p.1; p.2]) W) = 0%nat)
      as ->; [|done].
    rewrite (filter_length_ext _ (λ _, False)).
    + rewrite filter_none; [done|]. by intros ? ?.
    + intros w _. split; [|done]. intros [<- Hin]. apply Hp.
      apply elem_of_cons in Hin as [?|Hin]; [by left|].
      apply elem_of_cons in Hin as [?|?%elem_of_nil]; [by right|done].
Qed.

Lemma blocks_length (ps : list (string * string)) : ∀ d,
  (∀ p, p ∈ ps → p.1 ∈ w_label <$> W ∧ p.2 ∈ w_label <$> W ∧ p.1 ≠ p.2) →
  length (concat (blocks_from rnd W d (matched_labels_of ps))) = (2 * length ps)%nat.
Proof.
  induction ps as [|p ps IH]; intros d Hps; [done|].
  simpl. rewrite length_app, length_fmap, IH.
  - destruct (Hps p) as (H1 & H2 & Hne); [by left|].
    unfold rows_isin. rewrite count_labels_two by done.
    rewrite !count_label_NoDup by done. lia.
  - intros q Hq. apply Hps. by right.
Qed.

Lemma fresh_rows_length (U : list working_row) : ∀ d,
  length (fresh_rows rnd d U) = length U.
Proof. induction U as [|u U IH]; intros d; simpl; [done|]. by rewrite IH. Qed.

End matched_rows.

Lemma elem_of_matched_labels (ps : list (string * string)) l :
  l ∈ concat (matched_labels_of ps) ↔ pairs_of_label ps l ≠ [].
Proof.
  unfold pairs_of_label, matched_labels_of.
  induction ps as [|p ps IH]; simpl.
  - split; [by intros ?%elem_of_nil|done].
  - rewrite filter_cons, !elem_of_cons, IH.
    destruct (decide (l = p.1 ∨ l = p.2)) as [Hp|Hp].
    + split; [done|]. intros _. destruct Hp; auto.
    + split; [|by auto]. intros [?|[?|?]]; [by destruct Hp; auto..|done].
Qed.

(** X2: when at least one pair qualifies, the matched frame holds one row
    for every label that is in no qualifying pair and, for every other
    label, one row per qualifying pair the label belongs to; hence two rows
    per pair, and as many identifiers drawn (six draws each) as there are
    pairs and unmatched labels.  No other label enters the frame. *)
Theorem matched_frame_rows (sim : MatchingAlgorithm → string → string → Q)
    (rnd : nat → nat) (df : list main_row) (t : Q)
    (algs : list MatchingAlgorithm) (w : world) :
  algs ≠ [] → qualifying_pairs sim (working_frame df) algs t ≠ [] →
  ∃ R w',
    create_matched_dataframe sim rnd df t (Member <$> algs) w = (Ok R, w')
    ∧ length R
      = (2 * length (qualifying_pairs sim (working_frame df) algs t)
         + length (unmatched_rows (working_frame df)
                     (qualifying_pairs sim (working_frame df) algs t)))%nat
    ∧ draws w'
      = (draws w
         + 6 * (length (qualifying_pairs sim (working_frame df) algs t)
                + length (unmatched_rows (working_frame df)
                            (qualifying_pairs sim (working_frame df) algs t))))%nat
    ∧ (∀ l, Some l ∈ label <$> df →
         length (rows_of_label R l)
         = Nat.max 1 (length (pairs_of_label
                                (qualifying_pairs sim (working_frame df) algs t) l)))
    ∧ (∀ r, r ∈ R → Some (c_label r) ∈ label <$> df).
Proof.
  intros Halgs Hpairs.
  pose proof (working_frame_labels_NoDup df) as HW.
  eexists _, _. split; [by apply create_matched_dataframe_ok|].
  cbn [draws]. split_and!; [|done|..].
  - unfold result_frame. rewrite length_app, fresh_rows_length.
    rewrite (blocks_length rnd _ HW); [lia|].
    intros [a b] Hp. pose proof Hp as [Ha Hb]%qualifying_pairs_labels.
    split; [done|]. split; [done|]. simpl.
    apply list_elem_of_filter in Hp as [_ Hp].
    apply (combinations2_NoDup_ne _ _ _ (unique_labels_NoDup _) Hp).
  - intros l Hl%label_of_frame. unfold result_frame, rows_of_label.
    rewrite filter_app, length_app.
    fold (rows_of_label (fresh_rows rnd
            (draws w + 6 * length (qualifying_pairs sim (working_frame df) algs t))
            (unmatched_rows (working_frame df)
               (qualifying_pairs sim (working_frame df) algs t))) l).
    fold (rows_of_label (concat (blocks_from rnd (working_frame df) (draws w)
            (matched_labels_of (qualifying_pairs sim (working_frame df) algs t)))) l).
    rewrite rows_of_label_fresh, (rows_of_label_blocks rnd _ HW) by done.
    unfold unmatched_rows. rewrite filter_filter_length.
    destruct (pairs_of_label (qualifying_pairs sim (working_frame df) algs t) l)
      as [|p ps] eqn:E.
    + rewrite (filter_length_ext _ (λ x, w_label x = l)).
      * by rewrite count_label_NoDup.
      * intros x _. split; [by intros [? _]|]. intros <-. split; [done|].
        rewrite elem_of_matched_labels, E. intros H. by apply H.
    + rewrite (filter_length_ext _ (λ _, False)).
      * rewrite filter_none; [simpl; lia|]. by intros ? ?.
      * intros x _. split; [|done]. intros [<- Hx]. apply Hx.
        by rewrite elem_of_matched_labels, E.
  - intros r Hr%result_frame_working.
    apply working_frame_elem in Hr as (r0 & Hr0 & Hl & _). simpl in Hl.
    rewrite <- Hl. by apply list_elem_of_fmap_2.
Qed.

(** ** Which record stands for a label, and what an identifier looks like *)

Lemma working_frame_first (df : list main_row) : ∀ seen x,
  x ∈ first_occurrences w_label seen (dropna df) →
  ∃ i, first_record df i (w_key x) (w_label x).
Proof.
  unfold dropna.
  induction df as [|r df IH]; intros seen x Hx; [by apply elem_of_nil in Hx|].
  destruct (label r) as [l|] eqn:E.
  - rewrite (omap_cons_Some _ r (WorkingRow (unicity_key r) l)) in Hx
      by (by rewrite E).
    simpl in Hx. destruct (decide (l ∈ seen)) as [Hl|Hl].
    + pose proof Hx as [_ Hseen]%elem_of_first_occurrences.
      destruct (IH _ _ Hx) as (i & Hi & Hbefore).
      exists (S i). split; [done|]. intros [|j] r' Hj Hr'; simpl in Hr'.
      * injection Hr' as <-. rewrite E. intros [= ->]. done.
      * apply (Hbefore j); [lia|done].
    + apply elem_of_cons in Hx as [->|Hx].
      * exists 0%nat. split; [|intros; lia]. simpl. destruct r. simpl in *.
        by rewrite E.
      * pose proof Hx as [_ Hseen]%elem_of_first_occurrences.
        destruct (IH _ _ Hx) as (i & Hi & Hbefore).
        exists (S i). split; [done|]. intros [|j] r' Hj Hr'; simpl in Hr'.
        -- injection Hr' as <-. rewrite E. intros [= ->].
           apply Hseen. by left.
        -- apply (Hbefore j); [lia|done].
  - rewrite (omap_cons_None _ r) in Hx by (by rewrite E).
    destruct (IH _ _ Hx) as (i & Hi & Hbefore).
    exists (S i). split; [done|]. intros [|j] r' Hj Hr'; simpl in Hr'.
    + injection Hr' as <-. by rewrite E.
    + apply (Hbefore j); [lia|done].
Qed.

Lemma chosen_alnum k :
  Str.is_alnum (chosen (ascii_lowercase +:+ ascii_uppercase +:+ digits) k) = true.
Proof.
  unfold chosen.
  assert (forallb Str.is_alnum
            (list_ascii_of_string (ascii_lowercase +:+ ascii_uppercase +:+ digits))
          = true) as Hall by (by vm_compute).
  rewrite forallb_forall in Hall. apply Hall, nth_In.
  change (String.length (ascii_lowercase +:+ ascii_uppercase +:+ digits)) with 62%nat.
  change (length (list_ascii_of_string
                    (ascii_lowercase +:+ ascii_uppercase +:+ digits))) with 62%nat.
  apply Nat.mod_upper_bound. lia.
Qed.

Lemma id_at_chars (rnd : nat → nat) d :
  list_ascii_of_string (id_at rnd d)
  = (λ j, chosen (ascii_lowercase +:+ ascii_uppercase +:+ digits) (rnd (d + j)))
      <$> seq 0 6.
Proof.
  unfold id_at. rewrite id_generator_chars. cbn [draws].
  apply list_ascii_of_string_of_list_ascii.
Qed.

Lemma id_at_alnum (rnd : nat → nat) d :
  Forall (λ c, Str.is_alnum c = true) (list_ascii_of_string (id_at rnd d)).
Proof.
  rewrite id_at_chars. apply Forall_fmap, Forall_forall. intros j _.
  apply chosen_alnum.
Qed.

(** A run of [create_matched_dataframe] that returns had members of the
    enumeration, one at least, and a qualifying pair at least; it returned
    the frame described by [result_frame]. *)
Lemma create_matched_dataframe_inv (sim : MatchingAlgorithm → string → string → Q)
    (rnd : nat → nat) df t algos w R w' :
  create_matched_dataframe sim rnd df t algos w = (Ok R, w') →
  ∃ algs, algos = Member <$> algs ∧ algs ≠ []
          ∧ qualifying_pairs sim (working_frame df) algs t ≠ []
          ∧ R = result_frame rnd (working_frame df)
                  (qualifying_pairs sim (working_frame df) algs t) (draws w).
Proof.
  intros Hrun.
  destruct (compute_similarity_matrix_cases sim (working_frame df) t algos w)
    as [[e He]|(algs & -> & Halgs & Hlp)].
  - apply (create_matched_dataframe_raise sim rnd) in He. congruence.
  - exists algs. split; [done|]. split; [done|].
    destruct (decide (qualifying_pairs sim (working_frame df) algs t = []))
      as [Hnone|Hsome].
    + pose proof (create_matched_dataframe_no_match sim rnd df t algs w Halgs Hlp Hnone).
      congruence.
    + split; [done|].
      pose proof (create_matched_dataframe_ok sim rnd df t algs w Halgs Hsome).
      congruence.
Qed.

(** X3: every row of the matched frame stands for the first record of the
    input that carries its label (later records with the same label, and
    records without a label, leave no trace in it), and its identifier is
    six characters long, all of them ASCII letters or digits. *)
Theorem matched_frame_first_records
    (sim : MatchingAlgorithm → string → string → Q) (rnd : nat → nat)
    (df : list main_row) (t : Q) (algos : list algorithm_id) (w w' : world)
    (R : list clustered_row) :
  create_matched_dataframe sim rnd df t algos w = (Ok R, w') →
  Forall (λ r, (∃ i, first_record df i (c_key r) (c_label r))
               ∧ String.length (c_cluster_id r) = 6%nat
               ∧ Forall (λ c, Str.is_alnum c = true)
                        (list_ascii_of_string (c_cluster_id r))) R.
Proof.
  intros (algs & -> & Halgs & Hpairs & ->)%create_matched_dataframe_inv.
  apply Forall_forall. intros r Hr.
  destruct (result_frame_index rnd _ _ _ r Hr) as (k & Hid & Hw & _).
  split_and!.
  - by apply (working_frame_first df [] (WorkingRow (c_key r) (c_label r))).
  - rewrite Hid. apply id_at_length.
  - rewrite Hid. apply id_at_alnum.
Qed.

(** X4: [id_generator] never fails; it returns as many characters as asked
    for, the [i]-th being the character of the 62-letter alphabet (lower
    case, upper case, digits) that the [i]-th draw selects; it consumes
    exactly that many draws and calls no similarity. *)
Theorem id_generator_spec (rnd : nat → nat) (size : nat) (w : world) :
  ∃ s,
    id_generator rnd size w = (Ok s, World (draws w + size) (scored w))
    ∧ String.length s = size
    ∧ Forall (λ c, Str.is_alnum c = true) (list_ascii_of_string s)
    ∧ ∀ i, (i < size)%nat →
        list_ascii_of_string s !! i
        = Some (chosen (ascii_lowercase +:+ ascii_uppercase +:+ digits)
                       (rnd (draws w + i))).
Proof.
  eexists. split_and!.
  - unfold id_generator. rewrite M_bind_run, random_choices_run.
    + rewrite length_seq. reflexivity.
    + vm_compute. lia.
  - by rewrite string_of_list_ascii_length, length_fmap, length_seq.
  - rewrite list_ascii_of_string_of_list_ascii.
    apply Forall_fmap, Forall_forall. intros j _. apply chosen_alnum.
  - intros i Hi. rewrite list_ascii_of_string_of_list_ascii.
    rewrite list_lookup_fmap, lookup_seq_lt by done. done.
Qed.

(** * More on the clusters *)

Lemma remove_dups_const {A} `{EqDecision A} (c : A) (l : list A) :
  l ≠ [] → (∀ x, x ∈ l → x = c) → length (remove_dups l) = 1%nat.
Proof.
  induction l as [|x l IH]; [done|]. intros _ Hall.
  rewrite remove_dups_cons_length. destruct l as [|y l].
  - by rewrite decide_False by (by intros ?%elem_of_nil).
  - rewrite decide_True.
    + apply IH; [done|]. intros z Hz. apply Hall. by right.
    + rewrite (Hall x) by (by left). rewrite <- (Hall y) by (right; by left). by left.
Qed.

Lemma linked_isolated (ps : list (string * string)) a b :
  pairs_of_label ps a = [] → linked ps a b → a = b.
Proof.
  intros Hnone Hl. apply rtc_inv in Hl as [->|(y & Hstep & _)]; [done|].
  exfalso. assert (∃ p, p ∈ pairs_of_label ps a) as [p Hp].
  { destruct Hstep as [H|H]; eexists; apply list_elem_of_filter; (split; [|exact H]);
      simpl; auto. }
  rewrite Hnone in Hp. by apply elem_of_nil in Hp.
Qed.

Global Instance Member_inj : Inj (=) (=) Member.
Proof. by intros ? ? [=]. Qed.

Section clusters_more.

Variable sim : MatchingAlgorithm → string → string → Q.
Variable rnd : nat → nat.

(** The size written beside a cluster identifier counts the records of the
    frame that are given this identifier. *)
Lemma annotate_size (R : list clustered_row) (df : list main_row) (c : string) :
  cluster_size (row_cluster R <$> df) (Some c)
  = Some (length (filter (λ r, row_cluster R r = Some c) df)).
Proof.
  unfold cluster_size. f_equal.
  rewrite (filter_fmap_length (row_cluster R) (λ x, x = Some c)).
  by apply filter_length_ext.
Qed.

(** X5: a threshold that no score falls below puts every record that has a
    label into one and the same cluster (two distinct labels at least being
    present): the run returns, all labelled records carry one identifier,
    their [_cluster_size] is the number of labelled records, and the frame
    counts one cluster. *)
Theorem low_threshold_single_cluster (df : list main_row) (t : Q)
    (algs : list MatchingAlgorithm) (w : world) :
  algs ≠ [] → (2 ≤ length (unique_labels (working_frame df)))%nat →
  (∀ a b, (t <= score sim algs a b)%Q) →
  ∃ out w' c,
    cluster_data sim rnd df t (Member <$> algs) w = (Ok out, w')
    ∧ (∀ o, o ∈ out →
         match o_label o with
         | Some _ => o_cluster_id o = Some c
                     ∧ o_cluster_size o = Some (length (labelled df))
         | None => o_cluster_id o = None
         end)
    ∧ cluster_count out = 1%nat.
Proof.
  intros Halgs Hn Hall.
  set (W := working_frame df). set (pairs := qualifying_pairs sim W algs t).
  assert (∀ a b, a ∈ w_label <$> W → b ∈ w_label <$> W → linked pairs a b) as Hlinked.
  { intros a b Ha Hb. destruct (decide (a = b)) as [->|Hne]; [done|].
    unfold W in Ha, Hb. rewrite <- working_frame_unique_labels in Ha, Hb.
    destruct (combinations2_total _ _ _ Ha Hb Hne) as [Hin|Hin];
      [apply rtsc_lr|apply rtsc_rl]; apply list_elem_of_filter;
      (split; [apply Hall|done]). }
  assert (∃ a0 a1, a0 ∈ w_label <$> W ∧ a1 ∈ w_label <$> W ∧ a0 ≠ a1)
    as (a0 & a1 & Ha0 & Ha1 & Hne).
  { unfold W. rewrite <- working_frame_unique_labels.
    pose proof (unique_labels_NoDup (working_frame df)) as Hnd. revert Hn Hnd.
    destruct (unique_labels (working_frame df)) as [|a0 [|a1 ls]];
      [simpl; lia..|].
    intros _ [Hnotin _]%NoDup_cons. exists a0, a1.
    split; [by left|]. split; [right; by left|].
    intros ->. apply Hnotin. by left. }
  assert (pairs ≠ []) as Hpairs by (by apply (linked_nonempty _ a0 a1); [apply Hlinked|]).
  destruct (assigned_label sim rnd df algs t (draws w) a0 Ha0) as [i Hi].
  set (R := result_frame rnd W pairs (draws w)) in *.
  assert (∀ r, r ∈ df →
            row_cluster R r
            = match label r with Some _ => Some (cluster_name i) | None => None end)
    as Hrow.
  { intros r Hr. unfold row_cluster. destruct (label r) as [l|] eqn:E; [|done].
    simpl. rewrite <- Hi. symmetry.
    apply (linked_assigned sim rnd df algs t (draws w)); [done| |].
    - by eapply working_frame_label.
    - apply Hlinked; [done|]. by eapply working_frame_label. }
  eexists (annotate R df), _, (cluster_name i). split_and!.
  - by apply cluster_data_ok.
  - intros o (r & Hr & _ & -> & -> & ->)%elem_of_annotate.
    rewrite (Hrow r Hr). destruct (label r) as [l|] eqn:E; [|done].
    split; [done|]. rewrite annotate_size. f_equal. unfold labelled.
    apply filter_length_ext. intros r' Hr'. rewrite (Hrow r' Hr').
    destruct (label r'); [by eauto|]. split; [done|]. by intros [? ?].
  - unfold cluster_count. rewrite clustered_ids_annotate.
    apply (remove_dups_const (cluster_name i)).
    + apply list_elem_of_fmap in Ha0 as (x & -> & Hx).
      apply working_frame_elem in Hx as (r & Hr & Hl & _).
      intros Hnil. assert (cluster_name i ∈ omap (row_cluster R) df) as Hin.
      { apply list_elem_of_omap. exists r. split; [done|].
        rewrite (Hrow r Hr). by rewrite Hl. }
      rewrite Hnil in Hin. by apply elem_of_nil in Hin.
    + intros x (r & Hr & Hx)%list_elem_of_omap. rewrite (Hrow r Hr) in Hx.
      destruct (label r); congruence.
Qed.

(** X6: a label that belongs to no qualifying pair keeps a cluster of its
    own (the identifiers drawn and the record keys being distinct): a record
    is in the cluster of such a label exactly when it carries that label,
    and the [_cluster_size] written beside it is the number of records that
    carry the label. *)
Theorem unmatched_label_own_cluster (df : list main_row) (t : Q)
    (algs : list MatchingAlgorithm) (w w' : world) (out : list output_row)
    (a : string) :
  cluster_data sim rnd df t (Member <$> algs) w = (Ok out, w') →
  NoDup (unicity_key <$> df) → NoDup (ids_drawn rnd w w') →
  pairs_of_label (qualifying_pairs sim (working_frame df) algs t) a = [] →
  Forall (λ o1, o_label o1 = Some a →
            o_cluster_size o1
            = Some (length (filter (λ r, label r = Some a) df))
            ∧ Forall (λ o2, o_cluster_id o1 = o_cluster_id o2 ↔ o_label o2 = Some a)
                     out) out.
Proof.
  intros Hrun Hkeys%working_frame_keys_NoDup Hids Hnone.
  pose proof Hrun as (algs' & Heq%(inj (fmap Member)) & Halgs & Hpairs)%cluster_data_inv.
  subst algs'.
  rewrite (cluster_data_ok sim rnd df t algs w Halgs Hpairs) in Hrun.
  apply pair_equal_spec in Hrun as [Hout Hw]. injection Hout as Hout.
  subst out w'. rewrite ids_drawn_run in Hids.
  set (R := result_frame rnd (working_frame df)
              (qualifying_pairs sim (working_frame df) algs t) (draws w)).
  apply Forall_forall. intros o1 (r1 & Hr1 & _ & Hl1 & Hc1 & Hs1)%elem_of_annotate Hlab.
  rewrite Hl1 in Hlab.
  pose proof (working_frame_label df r1 a Hr1 Hlab) as Hin.
  destruct (assigned_label sim rnd df algs t (draws w) a Hin) as [i Hi].
  fold R in Hi.
  assert (∀ r, r ∈ df → row_cluster R r = Some (cluster_name i) ↔ label r = Some a)
    as Hrow.
  { intros r Hr. unfold row_cluster. destruct (label r) as [b|] eqn:E; simpl; [|done].
    pose proof (working_frame_label df r b Hr E) as Hb. rewrite <- Hi. split.
    - intros Heq. f_equal. symmetry. apply (linked_isolated _ _ _ Hnone).
      symmetry in Heq. by apply assigned_linked in Heq.
    - by intros [= ->]. }
  pose proof (proj2 (Hrow r1 Hr1) Hlab) as Hid1. split.
  - rewrite Hs1, Hid1, annotate_size. f_equal.
    apply filter_length_ext. intros r Hr. by rewrite Hrow.
  - apply Forall_forall. intros o2 (r2 & Hr2 & _ & Hl2 & Hc2 & _)%elem_of_annotate.
    rewrite Hc1, Hc2, Hl2, Hid1. rewrite <- (Hrow r2 Hr2). split; congruence.
Qed.

End clusters_more.

(** ** [process_clusters] on any clustered frame *)

Lemma rtsc_map {A B} (f : A → B) (R : relation A) (S : relation B) x y :
  (∀ a b, R a b → rtsc S (f a) (f b)) → rtsc R x y → rtsc S (f x) (f y).
Proof.
  intros HRS. induction 1 as [|a b c Hab _ IH]; [done|].
  etrans; [|exact IH]. destruct Hab as [Hab|Hba]; [by apply HRS|].
  symmetry. by apply HRS.
Qed.

Section process_clusters_more.

Variable R : list clustered_row.

Lemma tied_connected r1 r2 :
  tied R r1 r2 → connected (cluster_graph R) (c_key r1) (c_key r2).
Proof.
  apply rtsc_map. intros a b (Ha & Hb & [Hid|Hkey]).
  - by apply cluster_graph_share.
  - by rewrite Hkey.
Qed.

Lemma connected_tied r1 r2 :
  r1 ∈ R → r2 ∈ R →
  connected (cluster_graph R) (c_key r1) (c_key r2) → tied R r1 r2.
Proof.
  intros H1 H2 Hc.
  apply (rtsc_transfer _ (λ a b, a ∈ R ∧ b ∈ R
                                 ∧ (c_cluster_id a = c_cluster_id b ∨ c_key a = c_key b))
           (λ k r, r ∈ R ∧ c_key r = k) _ _ r1 r2 ) in Hc; [done| | |done|done].
  - intros a b ra Hedge [Hra Hka].
    assert (∃ x y, x ∈ R ∧ y ∈ R ∧ c_cluster_id x = c_cluster_id y
                   ∧ c_key x = a ∧ c_key y = b) as (x & y & Hx & Hy & Hid & Hkx & Hky).
    { destruct Hedge as [He|He]; apply cluster_graph_edge in He
        as (x & y & Hx & Hy & Hid & Hkx & Hky); [by exists x, y|by exists y, x]. }
    exists y. split; [done|]. etrans.
    + apply rtsc_lr. split; [exact Hra|]. split; [exact Hx|]. right. congruence.
    + apply rtsc_lr. by split_and!; [..|left].
  - intros k x y [Hx Hkx] [Hy Hky]. apply rtsc_lr. split_and!; [done..|].
    right. congruence.
Qed.

Lemma assigned_name l c :
  assigned R l = Some c →
  ∃ i, c = cluster_name i
       ∧ (i < length (connected_components (cluster_graph R)))%nat.
Proof.
  unfold assigned, label_to_cluster_id.
  destruct (py_dict _ !! l) as [[c'|]|] eqn:E; simpl; [|done..].
  intros [= ->]. apply py_dict_lookup_Some in E.
  rewrite label_to_cluster_id_pairs in E.
  apply list_elem_of_fmap in E as (r & [= _ Hk] & _). symmetry in Hk.
  apply py_dict_lookup_Some, elem_of_key_to_cluster_id_pairs in Hk
    as (i & comp & Hi & _ & ->).
  exists i. split; [done|]. by eapply lookup_lt_Some.
Qed.

(** X7: [process_clusters] never fails and never loses or reorders a
    record.  A record whose label is on no row of the clustered frame gets
    a null identifier and a null size.  Every identifier it writes is a name
    [cluster_i] with [i] below the number of connected components of the key
    graph, and the size beside it is the number of records of the returned
    frame that carry this identifier. *)
Theorem process_clusters_frame (main_df : list main_row) :
  ∃ out,
    process_clusters R main_df = Ok out
    ∧ o_key <$> out = unicity_key <$> main_df
    ∧ o_label <$> out = label <$> main_df
    ∧ (∀ o, o ∈ out → (∀ r, r ∈ R → o_label o ≠ Some (c_label r)) →
         o_cluster_id o = None ∧ o_cluster_size o = None)
    ∧ (∀ o c, o ∈ out → o_cluster_id o = Some c →
         ∃ i, c = cluster_name i
              ∧ (i < length (connected_components (cluster_graph R)))%nat
              ∧ o_cluster_size o = Some (length (members out c))).
Proof.
  exists (annotate R main_df). split_and!.
  - apply process_clusters_annotate.
  - apply annotate_keys.
  - apply annotate_labels.
  - intros o (r & Hr & _ & Hl & -> & ->)%elem_of_annotate Hnone.
    assert (row_cluster R r = None) as ->; [|done].
    unfold row_cluster. destruct (label r) as [l|] eqn:E; [|done]. simpl.
    apply assigned_None. intros (x & -> & Hx)%list_elem_of_fmap.
    by apply (Hnone x Hx).
  - intros o c (r & Hr & _ & Hl & -> & ->)%elem_of_annotate Hc.
    rewrite Hc, annotate_cluster_size.
    unfold row_cluster in Hc. destruct (label r) as [l|]; [|done]. simpl in Hc.
    apply assigned_name in Hc as (i & -> & Hi). by exists i.
Qed.

(** X8: on a clustered frame whose equal labels carry equal keys (as the
    frame [create_matched_dataframe] returns does), two records get the same
    final identifier exactly when a chain of rows joins their rows, two
    neighbours of the chain sharing their provisional [_cluster_id] or their
    [_unicity_key]. *)
Theorem process_clusters_ties (main_df : list main_row) :
  label_functional R →
  ∃ out,
    process_clusters R main_df = Ok out
    ∧ ∀ o1 o2 r1 r2, o1 ∈ out → o2 ∈ out → r1 ∈ R → r2 ∈ R →
        o_label o1 = Some (c_label r1) → o_label o2 = Some (c_label r2) →
        (o_cluster_id o1 = o_cluster_id o2 ↔ tied R r1 r2).
Proof.
  intros Hfun. exists (annotate R main_df). split; [apply process_clusters_annotate|].
  intros o1 o2 r1 r2 (x1 & _ & _ & Hl1 & -> & _)%elem_of_annotate
    (x2 & _ & _ & Hl2 & -> & _)%elem_of_annotate Hr1 Hr2 Ho1 Ho2.
  unfold row_cluster. rewrite <- Hl1, <- Hl2, Ho1, Ho2. simpl.
  destruct (assigned_spec R r1 r2 Hfun Hr1 Hr2) as [_ ->]. split.
  - by apply connected_tied.
  - apply tied_connected.
Qed.

End process_clusters_more.

(** * More on the text functions *)

(** ** Splitting and joining words *)

Lemma list_ascii_of_string_app s1 s2 :
  list_ascii_of_string (s1 +:+ s2) = list_ascii_of_string s1 ++ list_ascii_of_string s2.
Proof. induction s1 as [|c s1 IH]; simpl; [done|]. by rewrite IH. Qed.

Lemma string_app_cons c s1 s2 : String c s1 +:+ s2 = String c (s1 +:+ s2).
Proof. reflexivity. Qed.

Lemma string_app_nil_r s : s +:+ "" = s.
Proof. induction s as [|c s IH]; [done|]. by rewrite string_app_cons, IH. Qed.

Lemma string_app_assoc s1 s2 s3 : (s1 +:+ s2) +:+ s3 = s1 +:+ (s2 +:+ s3).
Proof. induction s1 as [|c s1 IH]; [done|]. by rewrite !string_app_cons, IH. Qed.

Lemma flush_token w :
  Forall (λ c, Str.is_space c = false) (list_ascii_of_string w) →
  Forall token (Str.flush w).
Proof.
  intros Hw. destruct w as [|c w]; [constructor|].
  constructor; [|constructor]. by split.
Qed.

Lemma split_go_tokens s : ∀ w,
  Forall (λ c, Str.is_space c = false) (list_ascii_of_string w) →
  Forall token (Str.split_go w s).
Proof.
  induction s as [|c s IH]; intros w Hw; simpl.
  - by apply flush_token.
  - destruct (Str.is_space c) eqn:E.
    + apply Forall_app. split; [by apply flush_token|]. apply IH. constructor.
    + apply IH. rewrite list_ascii_of_string_app. apply Forall_app.
      split; [done|]. simpl. by repeat constructor.
Qed.

(** [s.split()] yields words only. *)
Lemma split_tokens s : Forall token (Str.split s).
Proof. apply split_go_tokens. constructor. Qed.

Lemma split_go_word x : ∀ w s,
  Forall (λ c, Str.is_space c = false) (list_ascii_of_string x) →
  Str.split_go w (x +:+ s) = Str.split_go (w +:+ x) s.
Proof.
  induction x as [|c x IH]; intros w s Hx; simpl.
  - by rewrite string_app_nil_r.
  - apply Forall_cons in Hx as [Hc Hx]. rewrite Hc, IH by done.
    by rewrite string_app_assoc.
Qed.

(** Joining words with single spaces and splitting again gives the words
    back. *)
Lemma split_join ws : Forall token ws → Str.split (Str.join " " ws) = ws.
Proof.
  unfold Str.split, Str.join. induction ws as [|w1 ws IH]; [done|].
  intros [[Hne Hw1] Hws]%Forall_cons. destruct ws as [|w2 ws].
  - pose proof (split_go_word w1 "" "" Hw1) as Hgo.
    rewrite string_app_nil_r in Hgo. simpl in *. rewrite Hgo. by destruct w1.
  - change (String.concat " " (w1 :: w2 :: ws))
      with (w1 +:+ " " +:+ String.concat " " (w2 :: ws)).
    rewrite split_go_word by done.
    change (Str.split_go ("" +:+ w1) (" " +:+ String.concat " " (w2 :: ws)))
      with (Str.flush w1 ++ Str.split_go "" (String.concat " " (w2 :: ws))).
    rewrite IH by done. by destruct w1.
Qed.

(** ** The label of a cluster *)

Lemma find_common_words_filter (l1 : string) (others : list string) :
  find_common_words_with_order (l1 :: others)
  = Ok (Str.join " " (filter (in_all_members (l1 :: others)) (Str.split l1))).
Proof.
  unfold find_common_words_with_order. simpl.
  do 2 f_equal. apply list_filter_iff. intros w.
  rewrite elem_of_foldl_intersection, elem_of_list_to_set, split_lower.
  unfold in_all_members. rewrite Forall_cons, Forall_fmap, Forall_fmap.
  apply and_iff_compat_l, Forall_iff. intros l. simpl.
  by rewrite elem_of_list_to_set, split_lower.
Qed.


Lemma filter_all {A} (P : A → Prop) `{∀ x, Decision (P x)} (l : list A) :
  (∀ x, x ∈ l → P x) → filter P l = l.
Proof.
  induction l as [|x l IH]; intros HP; [done|].
  rewrite filter_cons_True by (apply HP; by left).
  f_equal. apply IH. intros y Hy. apply HP. by right.
Qed.

Lemma filter_split_tokens (P : string → Prop) `{∀ x, Decision (P x)} s :
  Forall token (filter P (Str.split s)).
Proof.
  apply Forall_forall. intros w [_ Hw]%list_elem_of_filter.
  by apply (proj1 (Forall_forall _ _) (split_tokens s)).
Qed.

(** X9: the label [find_common_words_with_order] gives to a non-empty
    cluster is made of words of the first member, in their order, joined by
    single spaces; splitting it gives these words back, and it is its own
    common-word label (a cluster with that single label is named by it).
    The empty list of members raises. *)
Theorem common_words_round_trip (l1 : string) (others : list string) :
  ∃ words,
    find_common_words_with_order (l1 :: others) = Ok (Str.join " " words)
    ∧ words `sublist_of` Str.split l1
    ∧ Str.split (Str.join " " words) = words
    ∧ find_common_words_with_order [Str.join " " words] = Ok (Str.join " " words)
    ∧ is_ok (find_common_words_with_order []) = false.
Proof.
  exists (filter (in_all_members (l1 :: others)) (Str.split l1)).
  pose proof (filter_split_tokens (in_all_members (l1 :: others)) l1) as Htok.
  split_and!.
  - apply find_common_words_filter.
  - apply sublist_filter.
  - by apply split_join.
  - rewrite find_common_words_filter, split_join by done.
    do 2 f_equal. apply filter_all. intros w Hw.
    unfold in_all_members. constructor; [|constructor].
    unfold lowercase_words. rewrite split_join by done.
    by apply list_elem_of_fmap_2.
  - done.
Qed.

(** X10: the label of a cluster depends on the members other than the
    first one only as a set (their order and their repetitions do not
    matter), and adding members can only remove words from it. *)
Theorem common_words_members (l1 : string) (others others' : list string) :
  (∀ l, l ∈ others → l ∈ others') →
  ∃ words words',
    find_common_words_with_order (l1 :: others) = Ok (Str.join " " words)
    ∧ find_common_words_with_order (l1 :: others') = Ok (Str.join " " words')
    ∧ Str.split (Str.join " " words) = words
    ∧ Str.split (Str.join " " words') = words'
    ∧ words' `sublist_of` words
    ∧ ((∀ l, l ∈ others' → l ∈ l1 :: others) → words' = words).
Proof.
  intros Hsub.
  exists (filter (in_all_members (l1 :: others)) (Str.split l1)),
         (filter (in_all_members (l1 :: others')) (Str.split l1)).
  assert (∀ w, in_all_members (l1 :: others') w → in_all_members (l1 :: others) w)
    as Hmono.
  { intros w. unfold in_all_members. rewrite !Forall_forall.
    intros Hall l [->|Hl]%elem_of_cons; apply Hall; [by left|].
    right. by apply Hsub. }
  split_and!.
  - apply find_common_words_filter.
  - apply find_common_words_filter.
  - apply split_join, filter_split_tokens.
  - apply split_join, filter_split_tokens.
  - rewrite <- (list_filter_filter_l _ (in_all_members (l1 :: others))) by done.
    apply sublist_filter.
  - intros Hsup. apply list_filter_iff. intros w. split; [apply Hmono|].
    unfold in_all_members. rewrite !Forall_forall.
    intros Hall l [->|Hl]%elem_of_cons; apply Hall; [by left|].
    by apply Hsup.
Qed.

(** ** Normalisation to ASCII *)

Lemma encode_ascii_ignore_seven_bit text :
  Forall (λ c, seven_bit (N_of_ascii c)) (encode_ascii_ignore text).
Proof.
  unfold encode_ascii_ignore. apply Forall_fmap, Forall_forall.
  intros cp [Hcp _]%list_elem_of_filter. simpl. unfold seven_bit in *.
  rewrite N_ascii_embedding; lia.
Qed.

Lemma encode_ascii_ignore_codes (cs : list ascii) :
  Forall (λ c, seven_bit (N_of_ascii c)) cs →
  encode_ascii_ignore (N_of_ascii <$> cs) = cs.
Proof.
  intros Hcs. unfold encode_ascii_ignore. rewrite filter_all.
  - rewrite <- list_fmap_compose. rewrite <- (list_fmap_id cs) at 2.
    apply list_fmap_ext. intros _ c _. simpl. apply ascii_N_embedding.
  - intros cp (c & -> & Hc)%list_elem_of_fmap.
    by apply (proj1 (Forall_forall _ _) Hcs).
Qed.

Lemma normalize_text_seven_bit nfd text :
  Forall (λ c, seven_bit (N_of_ascii c)) (normalize_text nfd text).
Proof.
  unfold normalize_text. destruct text as [[|cp text]|]; try constructor.
  apply encode_ascii_ignore_seven_bit.
Qed.

Lemma normalize_text_codes nfd (cs : list ascii) :
  (∀ l, Forall seven_bit l → nfd l = l) →
  Forall (λ c, seven_bit (N_of_ascii c)) cs →
  normalize_text nfd (Some (N_of_ascii <$> cs)) = cs.
Proof.
  intros Hnfd Hcs. unfold normalize_text. destruct cs as [|c cs]; [done|].
  rewrite fmap_cons, <- fmap_cons, Hnfd.
  - by apply encode_ascii_ignore_codes.
  - by apply Forall_fmap.
Qed.

(** X11: [normalize_text] returns 7-bit characters only.  Since the
    canonical decomposition leaves 7-bit text as it is, normalising is
    idempotent, and a text that is 7-bit already comes back unchanged. *)
Theorem normalize_text_idempotent (nfd : list N → list N) (text : option (list N)) :
  (∀ l, Forall seven_bit l → nfd l = l) →
  Forall (λ c, seven_bit (N_of_ascii c)) (normalize_text nfd text)
  ∧ normalize_text nfd (Some (N_of_ascii <$> normalize_text nfd text))
    = normalize_text nfd text
  ∧ (Forall seven_bit (default [] text) →
     normalize_text nfd text = ascii_of_N <$> default [] text).
Proof.
  intros Hnfd. split; [apply normalize_text_seven_bit|]. split.
  - apply normalize_text_codes; [done|apply normalize_text_seven_bit].
  - intros H7. unfold normalize_text. destruct text as [[|cp text]|]; [done| |done].
    simpl in H7. rewrite Hnfd by done. unfold encode_ascii_ignore.
    rewrite filter_all; [done|]. intros x Hx.
    by apply (proj1 (Forall_forall _ _) H7).
Qed.

(** ** Digits after the clean-up *)

Lemma last_or_cons prev c a : last_or prev (c :: a) = last_or (Some c) a.
Proof. unfold last_or. rewrite last_cons. by destruct (last a). Qed.

Lemma last_or_app prev a b : last_or prev (a ++ b) = last_or (last_or prev a) b.
Proof.
  revert prev. induction a as [|c a IH]; intros prev; [done|].
  by rewrite <- app_comm_cons, !last_or_cons, IH.
Qed.

Lemma sub_go_skip_last m s : ∀ prev k,
  Re.sub_go m prev k s = Re.sub_go m (last_or prev (take k s)) 0 (drop k s).
Proof.
  induction s as [|c s IH]; intros prev k.
  - rewrite take_nil, drop_nil. by destruct k.
  - destruct k as [|k]; [done|]. simpl. by rewrite IH, last_or_cons.
Qed.

Lemma sub_go_match_last m prev c r repl n :
  m prev (c :: r) = Some (repl, n) → (1 ≤ n)%nat →
  Re.sub_go m prev 0 (c :: r)
  = repl ++ Re.sub_go m (last_or prev (take n (c :: r))) 0 (drop n (c :: r)).
Proof.
  intros Hm Hn. simpl. rewrite Hm. destruct n as [|n]; [lia|].
  simpl. by rewrite sub_go_skip_last, last_or_cons.
Qed.

Lemma sub_go_no_match m prev c r :
  m prev (c :: r) = None →
  Re.sub_go m prev 0 (c :: r) = c :: Re.sub_go m (Some c) 0 r.
Proof. intros Hm. simpl. by rewrite Hm. Qed.

Lemma after_K_app prev a b :
  after_K prev (a ++ b) ↔ after_K prev a ∧ after_K (last_or prev a) b.
Proof.
  revert prev. induction a as [|c a IH]; intros prev.
  - simpl. unfold last_or. simpl. tauto.
  - rewrite <- app_comm_cons, last_or_cons. simpl. rewrite IH. tauto.
Qed.

Lemma after_K_no_digit prev s :
  Forall (λ c, Str.is_digit c = false) s → after_K prev s.
Proof.
  revert prev. induction s as [|c s IH]; intros prev; [done|].
  intros [Hc Hs]%Forall_cons. simpl. split; [congruence|by apply IH].
Qed.

Lemma after_K_lookup s : ∀ prev i c,
  after_K prev s → s !! i = Some c → Str.is_digit c = true →
  (i = 0%nat ∧ prev = Some "K"%char) ∨ ∃ j, i = S j ∧ s !! j = Some "K"%char.
Proof.
  induction s as [|x s IH]; intros prev i c; [done|].
  simpl. intros [Hx Hs]. destruct i as [|i]; simpl.
  - intros [= ->] Hd. left. auto.
  - intros Hi Hd. right. exists i. split; [done|].
    destruct (IH _ _ _ Hs Hi Hd) as [[-> [= ->]]|(j & -> & Hj)]; [done|].
    by simpl.
Qed.

Lemma span_digit_head c r d rest :
  Re.span Str.is_digit (c :: r) = (d, rest) →
  Re.nonempty d = Str.is_digit c.
Proof.
  simpl. destruct (Str.is_digit c).
  - destruct (Re.span Str.is_digit r). by intros [= <- <-].
  - by intros [= <- <-].
Qed.

Lemma span_take_drop p s a b :
  Re.span p s = (a, b) → take (length a) s = a ∧ drop (length a) s = b.
Proof.
  intros ->%span_app. by rewrite take_app_length, drop_app_length.
Qed.

(** The mask [(?<!K)\d+] leaves a digit only right after a [K]. *)
Lemma sub_digits_after_K : ∀ len s, (length s ≤ len)%nat → ∀ prev pout,
  (Re.holds Str.is_digit (head s) = true → prev = Some "K"%char →
   pout = Some "K"%char) →
  after_K pout (Re.sub_go Re.digits_not_after_K prev 0 s).
Proof.
  induction len as [|len IH]; intros s Hlen prev pout Hp.
  { destruct s; [done|simpl in Hlen; lia]. }
  destruct s as [|c r]; [done|].
  destruct (Re.digits_not_after_K prev (c :: r)) as [[repl n]|] eqn:E.
  - unfold Re.digits_not_after_K in E.
    destruct (Re.span Str.is_digit (c :: r)) as [d rest] eqn:Esp.
    destruct (_ && _) eqn:Hc; [|done]. injection E as <- <-.
    apply andb_prop in Hc as [Hne HK].
    assert (1 ≤ length d)%nat as Hd by (destruct d; [done|simpl; lia]).
    rewrite (sub_go_match_last _ prev c r ["X"%char] (length d));
      [|by unfold Re.digits_not_after_K; rewrite Esp, Hne, HK|done].
    destruct (span_take_drop _ _ _ _ Esp) as [-> ->].
    simpl. split; [done|]. apply IH.
    + apply span_app in Esp. apply (f_equal length) in Esp.
      rewrite length_app in Esp. simpl in *. lia.
    + destruct rest as [|x rest]; [done|]. simpl.
      by rewrite (span_rest _ _ _ _ x Esp).
  - rewrite sub_go_no_match by done. simpl. split.
    + intros Hd. apply Hp; [done|].
      unfold Re.digits_not_after_K in E.
      destruct (Re.span Str.is_digit (c :: r)) as [d rest] eqn:Esp.
      rewrite (span_digit_head _ _ _ _ Esp), Hd in E.
      destruct prev as [x|]; [|by cbn in E]. unfold Re.holds in E.
      destruct (Ascii.eqb "K" x) eqn:Ex; [|by cbn in E].
      apply Ascii.eqb_eq in Ex. by subst.
    + apply IH; [simpl in Hlen; lia|done].
Qed.

(** A gentle pattern keeps the digits where they are. *)
Lemma sub_go_gentle m : gentle m → ∀ len s, (length s ≤ len)%nat →
  ∀ prev pout,
    after_K prev s → (prev = Some "K"%char → pout = Some "K"%char) →
    after_K pout (Re.sub_go m prev 0 s).
Proof.
  intros Hm len. induction len as [|len IH]; intros s Hlen prev pout Hs Hp.
  { destruct s; [done|simpl in Hlen; lia]. }
  destruct s as [|c r]; [done|].
  destruct (m prev (c :: r)) as [[repl n]|] eqn:E.
  - destruct (Hm _ _ _ _ E) as (Hn & Htake & Hrepl).
    rewrite (sub_go_match_last _ _ _ _ _ _ E Hn).
    rewrite <- (take_drop n (c :: r)) in Hs. apply after_K_app in Hs as [_ Hs].
    apply after_K_app. split; [by apply after_K_no_digit|].
    apply IH; [rewrite length_drop; simpl in *; lia|done|].
    destruct n as [|n]; [lia|]. simpl. rewrite last_or_cons.
    unfold last_or. simpl in Htake. apply Forall_cons in Htake as [[_ Hc] Htake].
    destruct (last (take n r)) as [x|] eqn:El.
    + intros [= ->]. apply last_Some_elem_of in El.
      by apply (proj1 (Forall_forall _ _) Htake) in El as [_ ?].
    + by intros [= ->].
  - rewrite sub_go_no_match by done. simpl in *. destruct Hs as [Hc Hs].
    split; [auto|]. by apply IH; [lia|..].
Qed.

Lemma sub_gentle m s : gentle m → after_K None s → after_K None (Re.sub m s).
Proof. intros Hm Hs. by apply (sub_go_gentle m Hm (length s)). Qed.

Lemma space_not_digit_K c :
  Str.is_space c = true → Str.is_digit c = false ∧ c ≠ "K"%char.
Proof.
  destruct c as [[] [] [] [] [] [] [] []]; vm_compute; intros; split; congruence.
Qed.

Lemma foreign_not_digit_K c :
  Re.keeps c = false → Str.is_digit c = false ∧ c ≠ "K"%char.
Proof.
  destruct c as [[] [] [] [] [] [] [] []]; vm_compute; intros; split; congruence.
Qed.

Lemma foreign_char_gentle : gentle Re.foreign_char.
Proof.
  intros prev s repl n. unfold Re.foreign_char. destruct s as [|c s]; [done|].
  destruct (Re.keeps c) eqn:E; [done|]. intros [= <- <-].
  split; [lia|]. split; [|by repeat constructor].
  simpl. rewrite take_0. constructor; [by apply foreign_not_digit_K|constructor].
Qed.

Lemma spaces_gentle : gentle Re.spaces.
Proof.
  intros prev s repl n. unfold Re.spaces.
  destruct (Re.span Str.is_space s) as [ws rest] eqn:Esp.
  destruct (Re.nonempty ws) eqn:Hne; [|done]. intros [= <- <-].
  split; [destruct ws; [done|simpl; lia]|]. split; [|by repeat constructor].
  destruct (span_take_drop _ _ _ _ Esp) as [-> _].
  eapply Forall_impl; [by eapply span_Forall|]. apply space_not_digit_K.
Qed.

Lemma unit_after_X_gentle tail repl :
  Forall (λ c, Str.is_digit c = false ∧ c ≠ "K"%char) tail →
  Forall (λ c, Str.is_digit c = false) repl →
  gentle (Re.unit_after_X tail repl).
Proof.
  intros Htail Hrepl prev s repl' n. unfold Re.unit_after_X.
  destruct s as [|c s1]; [done|].
  destruct (Re.span Str.is_space s1) as [ws s2] eqn:Esp.
  destruct (_ && _) eqn:Hc; [|done]. intros [= <- <-].
  repeat (apply andb_prop in Hc as [Hc ?]).
  split; [lia|]. split; [|done].
  apply bool_decide_eq_true in H0. apply Ascii.eqb_eq in Hc as ->.
  pose proof (span_Forall _ _ _ _ Esp) as Hws.
  apply span_app in Esp as ->.
  simpl. constructor; [by split|].
  rewrite take_app_add' by done. apply Forall_app. split.
  - eapply Forall_impl; [exact Hws|]. apply space_not_digit_K.
  - by rewrite H0.
Qed.

Lemma X_mX_gentle : gentle Re.X_mX.
Proof. apply unit_after_X_gentle; by repeat constructor. Qed.

Lemma X_l_gentle : gentle Re.X_l.
Proof. apply unit_after_X_gentle; by repeat constructor. Qed.

Lemma lstrip_after_K s : ∀ prev,
  after_K prev s → prev ≠ Some "K"%char → after_K None (Str.lstrip s).
Proof.
  induction s as [|c s IH]; intros prev; [done|].
  simpl. intros [Hc Hs] Hp. destruct (Str.is_space c) eqn:E.
  - apply (IH (Some c)); [done|]. intros [= ->]. by vm_compute in E.
  - simpl. split; [|done]. intros Hd. by apply Hc in Hd.
Qed.

Lemma rstrip_prefix s : ∃ ws, s = Str.rstrip s ++ ws.
Proof.
  induction s as [|c s [ws Hws]]; [by exists []|]. simpl.
  destruct (Str.rstrip s) as [|x l] eqn:E.
  - destruct (Str.is_space c); [by exists (c :: s)|].
    exists ws. simpl in *. by rewrite Hws at 1.
  - exists ws. rewrite Hws at 1. done.
Qed.

Lemma rstrip_after_K prev s : after_K prev s → after_K prev (Str.rstrip s).
Proof.
  destruct (rstrip_prefix s) as [ws Hws]. rewrite Hws at 1.
  by intros [? _]%after_K_app.
Qed.

Lemma strip_after_K s : after_K None s → after_K None (Str.strip s).
Proof.
  intros Hs. apply rstrip_after_K. by eapply lstrip_after_K.
Qed.

(** The digits of a label after the steps the two clean-up functions
    share. *)
Lemma cleanup_after_K (s : list ascii) :
  after_K None
    (Str.strip (Re.sub Re.spaces (Re.sub Re.foreign_char
       (Re.sub Re.digits_not_after_K s)))).
Proof.
  apply strip_after_K.
  apply sub_gentle; [apply spaces_gentle|].
  apply sub_gentle; [apply foreign_char_gentle|].
  by apply (sub_digits_after_K (length s)).
Qed.

(** X12: the clean-up masks the numbers: in the label either function
    returns, a digit is found only right after the letter [K] (so there are
    never two digits in a row, and never a digit at the start). *)
Theorem process_label_masks_digits (unicode_nfd : list N → list N)
    (label : option (list N)) (i : nat) (c : ascii) :
  (list_ascii_of_string (process_label_ccap unicode_nfd label) !! i = Some c →
   Str.is_digit c = true →
   ∃ j, i = S j
        ∧ list_ascii_of_string (process_label_ccap unicode_nfd label) !! j
          = Some "K"%char)
  ∧ (list_ascii_of_string (process_label_clear unicode_nfd label) !! i = Some c →
     Str.is_digit c = true →
     ∃ j, i = S j
          ∧ list_ascii_of_string (process_label_clear unicode_nfd label) !! j
            = Some "K"%char).
Proof.
  unfold process_label_ccap, process_label_clear.
  destruct (is_na_or_empty label); [by split|].
  rewrite !list_ascii_of_string_of_list_ascii. split; intros Hi Hd.
  - destruct (after_K_lookup _ None i c (cleanup_after_K _) Hi Hd)
      as [[_ ?]|?]; done.
  - eapply (after_K_lookup _ None i c) in Hi as [[_ ?]|?]; [done|done| |done].
    apply sub_gentle; [apply X_l_gentle|].
    apply sub_gentle; [apply X_mX_gentle|]. apply cleanup_after_K.
Qed.

(** ** Cleaning a cleaned label *)

(** A pattern that matches nowhere leaves the text as it is. *)
Lemma sub_go_id m (I : option ascii → list ascii → Prop) :
  (∀ prev c r, I prev (c :: r) → m prev (c :: r) = None ∧ I (Some c) r) →
  ∀ s prev, I prev s → Re.sub_go m prev 0 s = s.
Proof.
  intros HI. induction s as [|c r IH]; intros prev Hs; [done|].
  destruct (HI _ _ _ Hs) as [Hm Hr].
  rewrite sub_go_no_match by done. f_equal. by apply IH.
Qed.

Lemma allowed_char_cases c :
  allowed_char c →
  Re.is_sep c = false ∧ Re.keeps c = true ∧ seven_bit (N_of_ascii c).
Proof.
  unfold allowed_char, seven_bit.
  destruct c as [[] [] [] [] [] [] [] []]; vm_compute;
    intros [?|[?|?]]; repeat split; congruence.
Qed.

Lemma sub_decimal_separator_id s :
  Forall allowed_char s → Re.sub Re.decimal_separator s = s.
Proof.
  apply (sub_go_id _ (λ _ s, Forall allowed_char s)).
  intros prev c r [Hc Hr]%Forall_cons. split; [|done].
  unfold Re.decimal_separator.
  by destruct (allowed_char_cases c Hc) as [-> _].
Qed.

Lemma sub_foreign_char_id s :
  Forall allowed_char s → Re.sub Re.foreign_char s = s.
Proof.
  apply (sub_go_id _ (λ _ s, Forall allowed_char s)).
  intros prev c r [Hc Hr]%Forall_cons. split; [|done].
  unfold Re.foreign_char.
  by destruct (allowed_char_cases c Hc) as (_ & -> & _).
Qed.

Lemma sub_digits_not_after_K_id s :
  after_K None s → Re.sub Re.digits_not_after_K s = s.
Proof.
  apply (sub_go_id _ after_K). intros prev c r [Hc Hr]. split; [|done].
  unfold Re.digits_not_after_K.
  destruct (Re.span Str.is_digit (c :: r)) as [d rest] eqn:Esp.
  rewrite (span_digit_head _ _ _ _ Esp).
  destruct (Str.is_digit c); [|done]. rewrite Hc by done. done.
Qed.

Lemma sub_digit_groups_id s :
  after_K None s → Re.sub Re.digit_groups s = s.
Proof.
  apply (sub_go_id _ after_K). intros prev c r Hs. split; [|by destruct Hs].
  unfold Re.digit_groups.
  destruct (Re.span Str.is_digit (c :: r)) as [d1 s1] eqn:E1.
  destruct (Re.span Str.is_space s1) as [ws s2] eqn:E2.
  destruct (Re.span Str.is_digit s2) as [d2 s3] eqn:E3.
  destruct (_ && _) eqn:Hc; [|done]. exfalso.
  repeat (apply andb_prop in Hc as [Hc ?]).
  pose proof (span_Forall _ _ _ _ E2) as Hws.
  pose proof (span_Forall _ _ _ _ E3) as Hd2.
  apply span_app in E1, E2, E3. subst s1 s2. rewrite E1 in Hs.
  rewrite app_assoc in Hs. apply after_K_app in Hs as [_ Hs].
  destruct d2 as [|x d2]; [done|]. simpl in Hs. destruct Hs as [Hx _].
  apply Forall_cons in Hd2 as [Hdx _]. specialize (Hx Hdx).
  rewrite last_or_app in Hx. unfold last_or at 1 in Hx.
  destruct (last ws) as [y|] eqn:El.
  - injection Hx as ->. apply last_Some_elem_of in El.
    apply (proj1 (Forall_forall _ _) Hws) in El. by vm_compute in El.
  - apply last_None in El. by subst ws.
Qed.

Lemma sub_spaces_id s : ∀ q qf prev,
  scan q s = Some qf → Re.sub_go Re.spaces prev 0 s = s.
Proof.
  induction s as [|c r IH]; intros q qf prev; [done|]. simpl scan.
  destruct (scan_step q c) as [q'|] eqn:E; [|done]. intros Hs.
  apply scan_step_cases in E as [(-> & _ & ->)|(Hsp & _)].
  - assert (Re.span Str.is_space r = ([], r)) as Hr.
    { destruct r as [|x r]; [done|]. simpl in *.
      destruct (scan_step AfterSpace x) as [q'|] eqn:E; [|done].
      apply scan_step_cases in E as [(_ & ? & _)|(-> & _)]; done. }
    simpl. unfold Re.spaces at 1. simpl. rewrite Hr. simpl.
    f_equal. by eapply IH.
  - simpl. unfold Re.spaces at 1. simpl. rewrite Hsp. simpl.
    f_equal. by eapply IH.
Qed.

Lemma rstrip_id s :
  (∀ c, last s = Some c → Str.is_space c = false) → Str.rstrip s = s.
Proof.
  induction s as [|c s IH]; [done|]. intros Hlast. simpl.
  destruct s as [|x s].
  - simpl. by rewrite (Hlast c).
  - rewrite IH; [done|]. intros y Hy. apply Hlast. by rewrite last_cons, Hy.
Qed.

Lemma tidy_strip s : tidy s → Str.strip s = s.
Proof.
  intros Ht.
  assert (∃ qf, scan AtStart s = Some qf ∧ qf ≠ AfterSpace) as (qf & Hs & Hqf).
  { destruct Ht as [->| ->]; eauto. }
  unfold Str.strip.
  assert (Str.lstrip s = s) as ->.
  { destruct s as [|c s]; [done|]. simpl in *.
    destruct (scan_step AtStart c) as [q'|] eqn:E; [|done].
    apply scan_step_cases in E as [(_ & ? & _)|(-> & _)]; done. }
  apply rstrip_id. intros c. by eapply scan_last.
Qed.

Lemma tidy_allowed s : tidy s → Forall allowed_char s.
Proof. intros [Hs|Hs]; by eapply scan_allowed. Qed.

(** On a tidy text whose digits follow a [K], the steps the two clean-up
    functions share change nothing. *)
Lemma cleanup_id (nfd : list N → list N) (cs : list ascii) :
  (∀ l, Forall seven_bit l → nfd l = l) →
  tidy cs → after_K None cs →
  Str.strip (Re.sub Re.spaces (Re.sub Re.foreign_char
    (Re.sub Re.digits_not_after_K (Re.sub Re.digit_groups
      (Re.sub Re.decimal_separator
        (normalize_text nfd (Some (N_of_ascii <$> cs))))))))
  = cs.
Proof.
  intros Hnfd Ht HK. pose proof (tidy_allowed cs Ht) as Hall.
  rewrite normalize_text_codes; [|done|].
  - rewrite sub_decimal_separator_id, sub_digit_groups_id,
      sub_digits_not_after_K_id, sub_foreign_char_id by done.
    assert (Re.sub Re.spaces cs = cs) as ->; [|by apply tidy_strip].
    destruct Ht as [Hs|Hs]; by eapply sub_spaces_id.
  - eapply Forall_impl; [exact Hall|]. intros c Hc.
    by destruct (allowed_char_cases c Hc) as (_ & _ & ?).
Qed.

Lemma is_na_or_empty_codes (cs : list ascii) :
  is_na_or_empty (Some (N_of_ascii <$> cs)) = match cs with [] => true | _ => false end.
Proof. by destruct cs. Qed.

(** X13: [process_label_ccap] is idempotent: cleaning a label that it
    returned gives the same label back (the canonical decomposition leaving
    7-bit text as it is). *)
Theorem process_label_ccap_idempotent (nfd : list N → list N)
    (label : option (list N)) :
  (∀ l, Forall seven_bit l → nfd l = l) →
  process_label_ccap nfd (Some (codes (process_label_ccap nfd label)))
  = process_label_ccap nfd label.
Proof.
  intros Hnfd.
  assert (∃ cs, process_label_ccap nfd label = string_of_list_ascii cs
                ∧ tidy cs ∧ after_K None cs) as (cs & -> & Ht & HK).
  { unfold process_label_ccap. destruct (is_na_or_empty label).
    - exists []. split; [done|]. split; [by left|done].
    - eexists. split; [done|]. split; [apply cleanup_tidy|apply cleanup_after_K]. }
  unfold codes. rewrite list_ascii_of_string_of_list_ascii.
  unfold process_label_ccap. rewrite is_na_or_empty_codes.
  destruct cs as [|c cs]; [done|]. by rewrite cleanup_id.
Qed.

(** * Cleaning a label cleaned by [process_label_clear] *)

Lemma free_id m s : free m None s → Re.sub m s = s.
Proof.
  apply (sub_go_id m (free m)). by intros prev c r [? ?].
Qed.

Lemma yields_refl m s : ∀ prev, yields m m prev s.
Proof. induction s as [|c r IH]; intros prev; simpl; auto. Qed.

Lemma free_yields m1 m2 s : ∀ prev, free m2 prev s → yields m1 m2 prev s.
Proof.
  induction s as [|c r IH]; intros prev; [done|]. simpl.
  intros [Hm Hr]. split; [done|by apply IH].
Qed.

Lemma yields_app m1 m2 a b : ∀ prev,
  yields m1 m2 prev (a ++ b) → yields m1 m2 (last_or prev a) b.
Proof.
  induction a as [|c a IH]; intros prev; [done|].
  rewrite <- app_comm_cons, last_or_cons. simpl. intros [_ H]. by apply IH.
Qed.

Lemma span_spec p s a b :
  Re.span p s = (a, b)
  ↔ s = a ++ b ∧ Forall (λ c, p c = true) a ∧ Re.holds p (head b) = false.
Proof.
  split.
  - intros Hsp. split; [by eapply span_app|]. split; [by eapply span_Forall|].
    destruct b as [|x b]; [done|]. simpl. by eapply span_rest.
  - intros (-> & Ha & Hb). induction a as [|c a IH]; simpl.
    + destruct b as [|x b]; [done|]. simpl in *. by rewrite Hb.
    + apply Forall_cons in Ha as [Hc Ha]. simpl. by rewrite Hc, IH.
Qed.

Lemma word_boundary_class p q after :
  same_class p q → Re.word_boundary p after = Re.word_boundary q after.
Proof. unfold Re.word_boundary, same_class. by intros ->. Qed.

Lemma word_boundary_class_r before p q :
  same_class p q → Re.word_boundary before p = Re.word_boundary before q.
Proof. unfold Re.word_boundary, same_class. by intros ->. Qed.

Lemma unit_after_X_cons tail repl prev c s1 :
  Re.unit_after_X tail repl prev (c :: s1)
  = let '(ws, s2) := Re.span Str.is_space s1 in
    if Ascii.eqb c "X"%char && Re.word_boundary prev (Some c) && Re.nonempty ws
       && bool_decide (take (length tail) s2 = tail)
       && Re.word_boundary (last tail) (head (drop (length tail) s2))
    then Some (repl, (1 + length ws + length tail)%nat) else None.
Proof. reflexivity. Qed.

Section unit_patterns.

(** The substitution that is made: [\bX\s+t1\b] by [x0 :: r1]. *)
Variable t1 r1 : list ascii.
Variable x0 : ascii.
Hypothesis x0_word : Str.is_word x0 = true.
Hypothesis x0_visible : Str.is_space x0 = false.

Local Abbreviation m1 := (Re.unit_after_X t1 (x0 :: r1)).

Lemma unit_after_X_match tail repl prev s repl' n :
  Re.unit_after_X tail repl prev s = Some (repl', n) →
  repl' = repl ∧ head s = Some "X"%char ∧ (1 ≤ n)%nat.
Proof.
  unfold Re.unit_after_X. destruct s as [|c s1]; [done|].
  destruct (Re.span Str.is_space s1) as [ws s2].
  destruct (_ && _) eqn:Hc; [|done]. intros [= <- <-].
  repeat (apply andb_prop in Hc as [Hc ?]).
  apply Ascii.eqb_eq in Hc as ->. split; [done|]. split; [done|lia].
Qed.

Lemma unit_after_X_take tail repl prev s repl' n :
  Re.unit_after_X tail repl prev s = Some (repl', n) →
  ∃ ws, take n s = "X"%char :: ws ++ tail.
Proof.
  unfold Re.unit_after_X. destruct s as [|c s1]; [done|].
  destruct (Re.span Str.is_space s1) as [ws s2] eqn:Esp.
  destruct (_ && _) eqn:Hc; [|done]. intros [= <- <-].
  repeat (apply andb_prop in Hc as [Hc ?]).
  apply bool_decide_eq_true in H0. apply Ascii.eqb_eq in Hc as ->.
  apply span_app in Esp as ->. exists ws. simpl. f_equal.
  rewrite take_app_add' by done. by rewrite H0.
Qed.

(** What the output starts with, when the first character of a
    replacement is not in it, was copied from the input. *)
Lemma sub_go_copy (t : list ascii) : x0 ∉ t → ∀ p r,
  take (length t) (Re.sub_go m1 p 0 r) = t →
  take (length t) r = t
  ∧ drop (length t) (Re.sub_go m1 p 0 r)
    = Re.sub_go m1 (last_or p t) 0 (drop (length t) r).
Proof.
  induction t as [|a t IH]; intros Hx0 p r; [done|].
  apply not_elem_of_cons in Hx0 as [Hne Hx0].
  destruct r as [|c r]; [done|].
  destruct (m1 p (c :: r)) as [[repl n]|] eqn:E.
  - pose proof (unit_after_X_match _ _ _ _ _ _ E) as (-> & _ & Hn).
    rewrite (sub_go_match_last _ _ _ _ _ _ E Hn). simpl. by intros [= ? _].
  - rewrite sub_go_no_match by done. simpl. intros [= -> Ht].
    destruct (IH Hx0 (Some a) r Ht) as [-> ->]. by rewrite last_or_cons.
Qed.

(** The output starts with a word character exactly when the input does. *)
Lemma sub_go_head_class p r :
  same_class (head (Re.sub_go m1 p 0 r)) (head r).
Proof.
  destruct r as [|c r]; [done|].
  destruct (m1 p (c :: r)) as [[repl n]|] eqn:E.
  - pose proof (unit_after_X_match _ _ _ _ _ _ E) as (-> & [= ->] & Hn).
    rewrite (sub_go_match_last _ _ _ _ _ _ E Hn). unfold same_class. simpl.
    by rewrite x0_word.
  - by rewrite sub_go_no_match.
Qed.

(** The pattern that is looked for in the output: [\bX\s+t2\b]. *)
Variable t2 r2 : list ascii.
Variable a0 : ascii.
Variable t2' : list ascii.
Hypothesis t2_eq : t2 = a0 :: t2'.
Hypothesis a0_visible : Str.is_space a0 = false.
Hypothesis x0_fresh : x0 ∉ t2.

Local Abbreviation m2 := (Re.unit_after_X t2 r2).

(** A match in the output, at a character that was copied, is a match in
    the input. *)
Lemma unit_match_reflect prev pout c r :
  same_class prev pout →
  m2 pout (c :: Re.sub_go m1 (Some c) 0 r) ≠ None → m2 prev (c :: r) ≠ None.
Proof.
  intros Hclass. rewrite !(unit_after_X_cons t2).
  destruct (Re.span Str.is_space (Re.sub_go m1 (Some c) 0 r)) as [wsv v2] eqn:Ev.
  destruct (_ && _) eqn:Hc; [|done]. intros _.
  repeat (apply andb_prop in Hc as [Hc ?]).
  rename H into Hafter, H0 into Htail, H1 into Hws, H2 into Hbefore.
  apply bool_decide_eq_true in Htail.
  apply span_spec in Ev as (Hv & Hwsv & Hv2).
  assert (x0 ∉ wsv) as Hx0ws.
  { intros Hin. apply (proj1 (Forall_forall _ _) Hwsv) in Hin. congruence. }
  destruct (sub_go_copy wsv Hx0ws (Some c) r) as [Hr1 Hd1].
  { by rewrite Hv, take_app_length. }
  rewrite Hv, drop_app_length in Hd1.
  destruct (sub_go_copy t2 x0_fresh (last_or (Some c) wsv) (drop (length wsv) r))
    as [Hr2 Hd2].
  { by rewrite <- Hd1. }
  assert (Re.span Str.is_space r = (wsv, drop (length wsv) r)) as ->.
  { apply span_spec. split; [by rewrite <- Hr1 at 1; rewrite take_drop|].
    split; [done|].
    rewrite t2_eq in Hr2. destruct (drop (length wsv) r) as [|y l]; [done|].
    simpl in *. injection Hr2 as -> _. done. }
  rewrite Hc, Hws, (bool_decide_eq_true_2 _ Hr2). simpl.
  rewrite <- (word_boundary_class _ _ _ Hclass) in Hbefore. rewrite Hbefore.
  rewrite Hd1, Hd2 in Hafter.
  rewrite (word_boundary_class_r _ _ _ (sub_go_head_class _ _)) in Hafter.
  by rewrite Hafter.
Qed.

Lemma unit_class tail repl p q s :
  same_class p q → Re.unit_after_X tail repl p s = Re.unit_after_X tail repl q s.
Proof.
  intros Hclass. unfold Re.unit_after_X. destruct s as [|c s1]; [done|].
  destruct (Re.span Str.is_space s1) as [ws s2].
  by rewrite (word_boundary_class _ _ _ Hclass).
Qed.

Lemma free_class tail repl s p q :
  same_class p q →
  free (Re.unit_after_X tail repl) p s → free (Re.unit_after_X tail repl) q s.
Proof.
  destruct s as [|c s]; [done|]. cbn [free]. intros Hclass.
  by rewrite (unit_class _ _ _ _ _ Hclass).
Qed.

Lemma free_no_X tail repl (a b : list ascii) : ∀ p,
  "X"%char ∉ a →
  free (Re.unit_after_X tail repl) (last_or p a) b →
  free (Re.unit_after_X tail repl) p (a ++ b).
Proof.
  induction a as [|c a IH]; intros p; [done|].
  intros [Hne Ha]%not_elem_of_cons. rewrite last_or_cons. intros Hb.
  rewrite <- app_comm_cons. cbn [free]. split; [|by apply IH].
  destruct (Re.unit_after_X tail repl p (c :: a ++ b)) as [[repl' n]|] eqn:E;
    [|done].
  by apply unit_after_X_match in E as (_ & [= ->] & _).
Qed.

Hypothesis r1_no_X : "X"%char ∉ x0 :: r1.
Hypothesis r1_last_word : Re.holds Str.is_word (last (x0 :: r1)) = true.
Hypothesis t1_last_word : ∀ p, Re.holds Str.is_word (last_or p t1) = true.

(** After the substitution of the first pattern, the second pattern
    matches nowhere, if it matched in the input only where the first one
    did. *)
Lemma sub_go_free : ∀ len s, (length s ≤ len)%nat → ∀ prev pout,
  same_class prev pout → yields m1 m2 prev s →
  free m2 pout (Re.sub_go m1 prev 0 s).
Proof.
  induction len as [|len IH]; intros s Hlen prev pout Hclass Hy.
  { destruct s; [done|simpl in Hlen; lia]. }
  destruct s as [|c r]; [done|].
  destruct (m1 prev (c :: r)) as [[repl n]|] eqn:E.
  - pose proof E as (-> & _ & Hn)%unit_after_X_match.
    rewrite (sub_go_match_last _ _ _ _ _ _ E Hn).
    apply free_no_X; [done|]. apply IH.
    + rewrite length_drop. simpl in *. lia.
    + destruct (unit_after_X_take _ _ _ _ _ _ E) as [ws ->].
      unfold same_class. rewrite last_or_cons, last_or_app, t1_last_word.
      unfold last_or. destruct (last (x0 :: r1)); [done|].
      simpl in r1_last_word. done.
    + rewrite <- (take_drop n (c :: r)) in Hy. by apply yields_app in Hy.
  - rewrite sub_go_no_match by done. simpl in Hy. destruct Hy as [Hm Hy].
    simpl. split; [|by apply IH; [simpl in Hlen; lia|..]].
    destruct (m2 pout (c :: Re.sub_go m1 (Some c) 0 r)) eqn:E2; [|done].
    exfalso. apply (unit_match_reflect prev pout c r Hclass); [by rewrite E2|].
    by apply Hm.
Qed.

End unit_patterns.

Lemma sub_X_mX_free s : free Re.X_mX None (Re.sub Re.X_mX s).
Proof.
  apply (sub_go_free ["m"; "X"]%char ["m"; "x"]%char "x"%char eq_refl eq_refl
           ["m"; "X"]%char (list_ascii_of_string "xmx") "m"%char ["X"%char]
           eq_refl eq_refl) with (len := length s); try done.
  - not_in_list.
  - not_in_list.
  - apply yields_refl.
Qed.

Lemma sub_X_l_free s : free Re.X_l None (Re.sub Re.X_l s).
Proof.
  apply (sub_go_free ["l"]%char ["L"]%char "x"%char eq_refl eq_refl
           ["l"]%char (list_ascii_of_string "xL") "l"%char []
           eq_refl eq_refl) with (len := length s); try done.
  - not_in_list.
  - not_in_list.
  - apply yields_refl.
Qed.

Lemma sub_X_l_keeps_free s : free Re.X_mX None s → free Re.X_mX None (Re.sub Re.X_l s).
Proof.
  intros Hs.
  apply (sub_go_free ["l"]%char ["L"]%char "x"%char eq_refl eq_refl
           ["m"; "X"]%char (list_ascii_of_string "xmx") "m"%char ["X"%char]
           eq_refl eq_refl) with (len := length s); try done.
  - not_in_list.
  - not_in_list.
  - by apply free_yields.
Qed.

(** X14: [process_label_clear] is idempotent as well: the unit tokens it
    writes ([xmx], [xL]) and the text around them give no new match to any
    of its patterns. *)
Theorem process_label_clear_idempotent (nfd : list N → list N)
    (label : option (list N)) :
  (∀ l, Forall seven_bit l → nfd l = l) →
  process_label_clear nfd (Some (codes (process_label_clear nfd label)))
  = process_label_clear nfd label.
Proof.
  intros Hnfd.
  assert (∃ cs, process_label_clear nfd label = string_of_list_ascii cs
                ∧ tidy cs ∧ after_K None cs
                ∧ free Re.X_mX None cs ∧ free Re.X_l None cs)
    as (cs & -> & Ht & HK & Hf1 & Hf2).
  { unfold process_label_clear. destruct (is_na_or_empty label).
    - exists []. split; [done|]. split; [by left|done].
    - eexists. split; [done|]. split_and!.
      + apply sub_tidy; [apply X_l_solid|].
        apply sub_tidy; [apply X_mX_solid|]. apply cleanup_tidy.
      + apply sub_gentle; [apply X_l_gentle|].
        apply sub_gentle; [apply X_mX_gentle|]. apply cleanup_after_K.
      + apply sub_X_l_keeps_free, sub_X_mX_free.
      + apply sub_X_l_free. }
  unfold codes. rewrite list_ascii_of_string_of_list_ascii.
  unfold process_label_clear. rewrite is_na_or_empty_codes.
  destruct cs as [|c cs]; [done|].
  rewrite cleanup_id by done.
  rewrite (free_id Re.X_mX (c :: cs)) by done. by rewrite free_id.
Qed.

(** * Patterns and final labels *)

Lemma sub_go_char_class p x s : ∀ prev,
  Re.sub_go (Rx.char_class p x) prev 0 s = (λ c, if p c then x else c) <$> s.
Proof.
  induction s as [|c r IH]; intros prev; [done|].
  simpl. unfold Rx.char_class at 1. destruct (p c); simpl; by rewrite IH.
Qed.

Lemma pattern_char_steps c :
  (if Str.is_digit
        (if Str.is_upper
              (if Str.is_lower (Str.lower_char c) then "x"%char
               else Str.lower_char c)
         then "X"%char
         else if Str.is_lower (Str.lower_char c) then "x"%char
              else Str.lower_char c)
   then "9"%char
   else if Str.is_upper
             (if Str.is_lower (Str.lower_char c) then "x"%char
              else Str.lower_char c)
        then "X"%char
        else if Str.is_lower (Str.lower_char c) then "x"%char
             else Str.lower_char c)
  = pattern_char c.
Proof. destruct c as [[] [] [] [] [] [] [] []]; reflexivity. Qed.

Lemma pattern_char_facts c :
  Str.is_upper (pattern_char c) = false
  ∧ pattern_char (pattern_char c) = pattern_char c
  ∧ (seven_bit (N_of_ascii c) → seven_bit (N_of_ascii (pattern_char c))).
Proof.
  unfold seven_bit.
  destruct c as [[] [] [] [] [] [] [] []]; vm_compute; repeat split; congruence.
Qed.

Lemma generate_pattern_map nfd text :
  generate_pattern nfd text
  = string_of_list_ascii (pattern_char <$> normalize_text nfd text).
Proof.
  unfold generate_pattern. destruct (normalize_text nfd text) as [|c cs]; [done|].
  f_equal. unfold pattern_tokens. cbn [foldl]. unfold Re.sub.
  rewrite !sub_go_char_class, <- !list_fmap_compose.
  apply list_fmap_ext. intros _ x _. simpl. apply pattern_char_steps.
Qed.

(** X15: [generate_pattern] rewrites the normalised text character by
    character: every letter, upper or lower case, becomes [x], every digit
    [9], and any other character is kept; so the pattern is as long as the
    normalised text and never holds an upper-case letter (the text being
    lowered first, the token [X] is never written).  Taking the pattern of a
    pattern changes nothing. *)
Theorem generate_pattern_spec (nfd : list N → list N) (text : option (list N)) :
  generate_pattern nfd text
  = string_of_list_ascii (pattern_char <$> normalize_text nfd text)
  ∧ String.length (generate_pattern nfd text) = length (normalize_text nfd text)
  ∧ Forall (λ c, Str.is_upper c = false)
           (list_ascii_of_string (generate_pattern nfd text))
  ∧ ((∀ l, Forall seven_bit l → nfd l = l) →
     generate_pattern nfd (Some (codes (generate_pattern nfd text)))
     = generate_pattern nfd text).
Proof.
  rewrite !generate_pattern_map. split; [done|]. split_and!.
  - by rewrite string_of_list_ascii_length, length_fmap.
  - rewrite list_ascii_of_string_of_list_ascii. apply Forall_fmap, Forall_forall.
    intros c _. apply pattern_char_facts.
  - intros Hnfd. unfold codes. rewrite list_ascii_of_string_of_list_ascii.
    rewrite normalize_text_codes; [|done|].
    + f_equal. rewrite <- list_fmap_compose. apply list_fmap_ext.
      intros _ c _. apply pattern_char_facts.
    + apply Forall_fmap. eapply Forall_impl; [apply normalize_text_seven_bit|].
      intros c. apply pattern_char_facts.
Qed.

(** ** The final label *)

Lemma sub_go_length m : shrinking m → ∀ s prev k,
  (length (Re.sub_go m prev k s) ≤ length s - k)%nat.
Proof.
  intros Hm. induction s as [|c r IH]; intros prev k; [simpl; lia|].
  destruct k as [|k]; simpl.
  - destruct (m prev (c :: r)) as [[repl n]|] eqn:E.
    + destruct (Hm _ _ _ _ E) as (Hn & Hrepl & Hlen).
      rewrite length_app. specialize (IH (Some c) (pred n)). simpl in Hlen. lia.
    + simpl. specialize (IH (Some c) 0%nat). lia.
  - apply IH.
Qed.

Lemma sub_length m s : shrinking m → (length (Re.sub m s) ≤ length s)%nat.
Proof. intros Hm. pose proof (sub_go_length m Hm s None 0). unfold Re.sub. lia. Qed.

Lemma starts_with_length lit : ∀ s,
  Rx.starts_with lit s = true → (length lit ≤ length s)%nat.
Proof.
  induction lit as [|a lit IH]; intros s; simpl; [lia|].
  destruct s as [|c s]; [done|]. intros [_ H]%andb_prop. apply IH in H.
  simpl. lia.
Qed.

Lemma unit_ci_shrinking tail repl :
  (length repl ≤ 1 + length tail)%nat → shrinking (Rx.unit_ci tail repl).
Proof.
  intros Hrepl prev s repl' n. unfold Rx.unit_ci. destruct s as [|c s1]; [done|].
  destruct (Re.span Str.is_space s1) as [ws s2] eqn:Esp.
  destruct (_ && _) eqn:Hc; [|done]. intros [= <- <-].
  repeat (apply andb_prop in Hc as [Hc ?]).
  apply starts_with_length in H0. apply span_app in Esp as ->.
  simpl. rewrite length_app. lia.
Qed.

Lemma litre_shrinking : shrinking Rx.litre.
Proof.
  intros prev s repl n. unfold Rx.litre.
  set (k := match s with
            | c :: r => if Str.is_space c && Rx.starts_with _ r then 1%nat else 0%nat
            | [] => 0%nat
            end).
  destruct (Rx.starts_with _ (drop k s)) eqn:Hw; [|done]. intros [= <- <-].
  apply starts_with_length in Hw. rewrite length_drop in Hw. simpl in Hw.
  assert (length (drop (k + 5) s) = length s - (k + 5))%nat as Hd
    by apply length_drop.
  destruct (drop (k + 5) s) as [|c r]; simpl in *.
  - lia.
  - destruct (Rx.same_letter "s" c); lia.
Qed.

Lemma ZX_shrinking : shrinking Rx.ZX.
Proof.
  intros prev s repl n. unfold Rx.ZX. destruct s as [|c1 [|c2 r]]; [done..|].
  destruct (_ && _); [|done]. intros [= <- <-]. simpl. lia.
Qed.

Lemma lstrip_suffix s : ∃ ws, s = ws ++ Str.lstrip s.
Proof.
  induction s as [|c s [ws Hws]]; [by exists []|]. simpl.
  destruct (Str.is_space c); [|by exists []].
  exists (c :: ws). simpl. by rewrite Hws at 1.
Qed.

Lemma strip_length s : (length (Str.strip s) ≤ length s)%nat.
Proof.
  unfold Str.strip.
  destruct (lstrip_suffix s) as [ws1 H1].
  destruct (rstrip_prefix (Str.lstrip s)) as [ws2 H2].
  rewrite H1 at 2. rewrite H2 at 2. rewrite !length_app. lia.
Qed.

Lemma lstrip_head s c : head (Str.lstrip s) = Some c → Str.is_space c = false.
Proof.
  induction s as [|x s IH]; [done|]. simpl.
  destruct (Str.is_space x) eqn:E; [done|]. simpl. by intros [= <-].
Qed.

Lemma rstrip_head s c : head (Str.rstrip s) = Some c → head s = Some c.
Proof.
  destruct (rstrip_prefix s) as [ws Hws]. rewrite Hws at 2.
  by destruct (Str.rstrip s).
Qed.

Lemma rstrip_last s c : last (Str.rstrip s) = Some c → Str.is_space c = false.
Proof.
  induction s as [|x s IH]; [done|]. simpl.
  destruct (Str.rstrip s) as [|y l] eqn:E.
  - destruct (Str.is_space x) eqn:Ex; [done|]. simpl. by intros [= <-].
  - rewrite last_cons. destruct (last (y :: l)) eqn:El; [|by apply last_None in El].
    intros [= <-]. by apply IH.
Qed.

(** X16: [postprocess_final_label] gives the empty string for a null or
    empty label; otherwise its result has no whitespace at either end and is
    never longer than the label it was given: each of its four rewrites
    replaces a text by one that is not longer. *)
Theorem postprocess_final_label_shape (label : option string) :
  (label = None ∨ label = Some "" → postprocess_final_label label = "")
  ∧ (String.length (postprocess_final_label label)
     ≤ String.length (default "" label))%nat
  ∧ (∀ c, head (list_ascii_of_string (postprocess_final_label label)) = Some c →
          Str.is_space c = false)
  ∧ (∀ c, last (list_ascii_of_string (postprocess_final_label label)) = Some c →
          Str.is_space c = false).
Proof.
  split; [by intros [->| ->]|].
  destruct label as [[|a label]|]; [by repeat split; simpl; try lia..| |
    by repeat split; simpl; try lia].
  unfold postprocess_final_label.
  rewrite list_ascii_of_string_of_list_ascii, string_of_list_ascii_length.
  split_and!.
  - etrans; [apply strip_length|].
    etrans; [apply sub_length, ZX_shrinking|].
    etrans; [apply sub_length, unit_ci_shrinking; simpl; lia|].
    etrans; [apply sub_length, litre_shrinking|].
    etrans; [apply sub_length, unit_ci_shrinking; simpl; lia|].
    simpl. by rewrite <- (string_of_list_ascii_length (list_ascii_of_string label)),
      string_of_list_ascii_of_string.
  - intros c Hc. apply rstrip_head in Hc. by apply lstrip_head in Hc.
  - intros c. apply rstrip_last.
Qed.

(** * Completeness and uniqueness columns *)

Section frame_facts.

Context {V : Type} `{EqDecision V}.

Implicit Types (cols : list (string * list (cell V))) (df : frame V).

Lemma lookup_assign_eq cols name col :
  lookup_column (assign_column cols name col) name = Some col.
Proof.
  induction cols as [|[n c] cols IH]; simpl.
  - by rewrite decide_True.
  - destruct (decide (n = name)) as [->|Hne]; simpl.
    + by rewrite decide_True.
    + by rewrite decide_False.
Qed.

Lemma lookup_assign_ne cols name col other :
  name ≠ other →
  lookup_column (assign_column cols name col) other = lookup_column cols other.
Proof.
  intros Hne. induction cols as [|[n c] cols IH]; simpl.
  - by rewrite decide_False.
  - destruct (decide (n = name)) as [->|Hn]; simpl.
    + by rewrite !decide_False.
    + destruct (decide (n = other)); [done|apply IH].
Qed.

Lemma assign_same cols name col :
  lookup_column cols name = Some col → assign_column cols name col = cols.
Proof.
  induction cols as [|[n c] cols IH]; simpl; [done|].
  destruct (decide (n = name)) as [->|Hn]; [by intros [= ->]|].
  intros Hl. by rewrite IH.
Qed.

Lemma assign_assign cols name col1 col2 :
  assign_column (assign_column cols name col1) name col2
  = assign_column cols name col2.
Proof.
  induction cols as [|[n c] cols IH]; simpl.
  - by rewrite decide_True.
  - destruct (decide (n = name)) as [->|Hn]; simpl.
    + by rewrite decide_True.
    + by rewrite decide_False, IH.
Qed.

Lemma lookup_column_Some cols name col :
  lookup_column cols name = Some col → (name, col) ∈ cols.
Proof.
  induction cols as [|[n c] cols IH]; simpl; [done|].
  destruct (decide (n = name)) as [->|Hn].
  - intros [= ->]. by left.
  - intros Hl. right. by apply IH.
Qed.

Lemma lookup_column_None cols name :
  lookup_column cols name = None ↔ name ∉ cols.*1.
Proof.
  induction cols as [|[n c] cols IH]; simpl.
  - split; [intros _ ?%elem_of_nil; done|done].
  - rewrite not_elem_of_cons. destruct (decide (n = name)) as [->|Hn].
    + split; [done|]. by intros [? _].
    + rewrite IH. split; [by split|by intros [_ ?]].
Qed.

Lemma assign_names cols name col :
  (assign_column cols name col).*1
  = if decide (name ∈ cols.*1) then cols.*1 else cols.*1 ++ [name].
Proof.
  induction cols as [|[n c] cols IH]; [done|].
  cbn [assign_column]. rewrite (fmap_cons fst (n, c) cols). cbn [fst].
  destruct (decide (n = name)) as [->|Hn].
  - rewrite decide_True by (by left). by rewrite fmap_cons.
  - rewrite fmap_cons, IH. cbn [fst].
    destruct (decide (name ∈ cols.*1)) as [Hin|Hnotin].
    + by rewrite decide_True by (by right).
    + rewrite decide_False; [done|].
      by intros [?|?]%elem_of_cons.
Qed.

Lemma get_set_eq df name col : get_column (set_column df name col) name = Some col.
Proof. apply lookup_assign_eq. Qed.

Lemma get_set_ne df name col other :
  name ≠ other → get_column (set_column df name col) other = get_column df other.
Proof. apply lookup_assign_ne. Qed.

Lemma set_same df name col :
  get_column df name = Some col → set_column df name col = df.
Proof.
  intros Hg. destruct df as [n cols]. unfold set_column. simpl.
  f_equal. by apply assign_same.
Qed.

Lemma set_set df name col1 col2 :
  set_column (set_column df name col1) name col2 = set_column df name col2.
Proof. unfold set_column. simpl. by rewrite assign_assign. Qed.

Lemma assign_column_elem cols name col kv :
  kv ∈ assign_column cols name col → kv ∈ cols ∨ kv = (name, col).
Proof.
  induction cols as [|[n c] cols IH]; simpl.
  - intros ->%list_elem_of_singleton. by right.
  - destruct (decide (n = name)) as [->|Hn].
    + intros [->|Hin]%elem_of_cons; [by right|]. left. by right.
    + intros [->|Hin]%elem_of_cons; [left; by left|].
      destruct (IH Hin) as [?|?]; [left; by right|by right].
Qed.

Lemma set_column_well_formed df name col :
  well_formed df → length col = n_rows df → well_formed (set_column df name col).
Proof.
  intros [Hnd Hlen] Hcol. split.
  - unfold column_names, set_column. simpl. rewrite assign_names.
    destruct (decide _); [done|]. apply NoDup_app. split; [done|].
    split; [|apply NoDup_singleton].
    intros x Hx ->%list_elem_of_singleton. done.
  - apply Forall_forall. intros kv [Hin| ->]%assign_column_elem; [|done].
    by apply (proj1 (Forall_forall _ _) Hlen).
Qed.

Lemma get_column_length df name col :
  well_formed df → get_column df name = Some col → length col = n_rows df.
Proof.
  intros [_ Hlen] Hg%lookup_column_Some.
  by apply (proj1 (Forall_forall _ _) Hlen) in Hg.
Qed.

Lemma default_columns_set df name col :
  String.prefix "_" name = true →
  default_columns (set_column df name col) = default_columns df.
Proof.
  intros Hname. unfold default_columns, column_names, set_column. simpl.
  rewrite assign_names. destruct (decide _); [done|].
  rewrite filter_app, filter_cons_False, filter_nil, app_nil_r; [done|].
  by rewrite Hname.
Qed.

Lemma get_column_names df name :
  is_Some (get_column df name) ↔ name ∈ column_names df.
Proof.
  unfold get_column, column_names. rewrite <- not_eq_None_Some, lookup_column_None.
  split; [apply dec_stable|by intros ? ?].
Qed.

(** A loop that gives every column [c] of a list a derived column
    [dname c], computed by [f] from the column [c]. *)
Section derived_columns.

Variable body : frame V → string → frame V * option key_error.
Variable dname : string → string.
Variable f : list (cell V) → list (cell V).

Hypothesis dname_under : ∀ c, String.prefix "_" (dname c) = true.
Hypothesis dname_inj : ∀ c c', dname c = dname c' → c = c'.
Hypothesis f_length : ∀ col, length (f col) = length col.
Hypothesis body_spec : ∀ df c col,
  get_column df c = Some col → length col = n_rows df →
  body df c = (set_column df (dname c) (f col), None).

Lemma for_columns_derived (cs : list string) : ∀ df,
  well_formed df →
  Forall (λ c, is_Some (get_column df c) ∧ String.prefix "_" c = false) cs →
  ∃ df',
    for_columns body df cs = (df', None)
    ∧ well_formed df' ∧ n_rows df' = n_rows df
    ∧ (∀ name, name ∉ dname <$> cs → get_column df' name = get_column df name)
    ∧ (∀ c col, c ∈ cs → get_column df c = Some col →
         get_column df' (dname c) = Some (f col)).
Proof.
  induction cs as [|c cs IH]; intros df Hwf Hcs.
  { exists df. split_and!; try done. by intros c col ?%elem_of_nil. }
  apply Forall_cons in Hcs as [[[col Hcol] Hc] Hcs].
  pose proof (get_column_length df c col Hwf Hcol) as Hlen.
  simpl. rewrite (body_spec df c col Hcol Hlen).
  set (df1 := set_column df (dname c) (f col)).
  assert (∀ c', String.prefix "_" c' = false → get_column df1 c' = get_column df c')
    as Hdata.
  { intros c' Hc'. apply get_set_ne. intros Heq. rewrite <- Heq in Hc'.
    by rewrite dname_under in Hc'. }
  destruct (IH df1) as (df' & Hrun & Hwf' & Hn & Hother & Hderived).
  { apply set_column_well_formed; [done|by rewrite f_length]. }
  { eapply Forall_impl; [exact Hcs|]. intros c' [Hsome Hc']. by rewrite Hdata. }
  exists df'. split_and!; [done..| |].
  - intros name [Hne Hname]%not_elem_of_cons. rewrite Hother by done.
    by apply get_set_ne.
  - intros c0 col0 Hc0 Hcol0. destruct (decide (c0 ∈ cs)) as [Hin|Hnotin].
    + apply Hderived; [done|].
      rewrite Hdata; [done|]. by apply (proj1 (Forall_forall _ _) Hcs) in Hin as [_ ?].
    + apply elem_of_cons in Hc0 as [->|?]; [|done].
      rewrite Hother.
      * unfold df1. rewrite get_set_eq. congruence.
      * intros (c' & Heq%dname_inj & Hc')%list_elem_of_fmap. by subst.
Qed.

(** The loop adds no column to those taken by default. *)
Lemma for_columns_names (cs : list string) : ∀ df df',
  well_formed df →
  Forall (λ c, is_Some (get_column df c) ∧ String.prefix "_" c = false) cs →
  for_columns body df cs = (df', None) →
  default_columns df' = default_columns df.
Proof.
  induction cs as [|c cs IH]; intros df df' Hwf Hcs; [by intros [= ->]|].
  apply Forall_cons in Hcs as [[[col Hcol] Hc] Hcs].
  pose proof (get_column_length df c col Hwf Hcol) as Hlen.
  simpl. rewrite (body_spec df c col Hcol Hlen). intros Hrun.
  apply IH in Hrun as ->.
  - by apply default_columns_set.
  - apply set_column_well_formed; [done|by rewrite f_length].
  - eapply Forall_impl; [exact Hcs|]. intros c' [Hsome Hc'].
    rewrite get_set_ne; [done|]. intros Heq. rewrite <- Heq in Hc'.
    by rewrite dname_under in Hc'.
Qed.

(** Run on a frame that holds the derived columns already, the loop
    changes nothing. *)
Lemma for_columns_fixed (cs : list string) df :
  (∀ c, c ∈ cs → ∃ col, get_column df c = Some col ∧ length col = n_rows df
                        ∧ get_column df (dname c) = Some (f col)) →
  for_columns body df cs = (df, None).
Proof.
  induction cs as [|c cs IH]; intros Hcs; [done|].
  destruct (Hcs c) as (col & Hcol & Hlen & Hd); [by left|].
  simpl. rewrite (body_spec df c col Hcol Hlen), (set_same _ _ _ Hd).
  apply IH. intros c' Hc'. apply Hcs. by right.
Qed.

Lemma default_columns_spec df c :
  c ∈ default_columns df ↔ c ∈ column_names df ∧ String.prefix "_" c = false.
Proof. unfold default_columns. rewrite list_elem_of_filter. tauto. Qed.

(** With the default choice of columns the loop never raises, and running
    it a second time changes nothing. *)
Lemma for_columns_default df :
  well_formed df →
  ∃ df',
    for_columns body df (default_columns df) = (df', None)
    ∧ well_formed df' ∧ n_rows df' = n_rows df
    ∧ default_columns df' = default_columns df
    ∧ (∀ name, String.prefix "_" name = false →
         get_column df' name = get_column df name)
    ∧ for_columns body df' (default_columns df) = (df', None).
Proof.
  intros Hwf.
  assert (Forall (λ c, is_Some (get_column df c) ∧ String.prefix "_" c = false)
            (default_columns df)) as Hcs.
  { apply Forall_forall. intros c [Hc Hp]%default_columns_spec.
    by rewrite get_column_names. }
  destruct (for_columns_derived (default_columns df) df Hwf Hcs)
    as (df' & Hrun & Hwf' & Hn & Hother & Hderived).
  pose proof (for_columns_names _ _ _ Hwf Hcs Hrun) as Hnames.
  assert (∀ name, String.prefix "_" name = false →
            get_column df' name = get_column df name) as Hdata.
  { intros name Hname. apply Hother.
    intros (c & -> & _)%list_elem_of_fmap. by rewrite dname_under in Hname. }
  exists df'. split_and!; [done..|].
  apply for_columns_fixed. intros c Hc.
  pose proof Hc as [[col Hcol]%get_column_names Hp]%default_columns_spec.
  exists col. rewrite Hdata by done. split; [done|]. split.
  - rewrite Hn. by eapply get_column_length.
  - by apply Hderived.
Qed.

End derived_columns.

End frame_facts.

(** ** The names of the derived columns *)

Lemma list_ascii_of_string_inj s1 s2 :
  list_ascii_of_string s1 = list_ascii_of_string s2 → s1 = s2.
Proof.
  intros Heq. rewrite <- (string_of_list_ascii_of_string s1),
    <- (string_of_list_ascii_of_string s2). by rewrite Heq.
Qed.

Lemma derived_name_inj (suffix c c' : string) :
  "_" +:+ c +:+ suffix = "_" +:+ c' +:+ suffix → c = c'.
Proof.
  intros Heq. apply (f_equal list_ascii_of_string) in Heq.
  rewrite !list_ascii_of_string_app in Heq. simpl in Heq.
  injection Heq as Heq. apply app_inv_tail in Heq.
  by apply list_ascii_of_string_inj.
Qed.

Lemma derived_name_ne (suffix c : string) :
  suffix ≠ "" → "_" +:+ c +:+ suffix ≠ c.
Proof.
  intros Hs Heq. apply (f_equal (λ s, length (list_ascii_of_string s))) in Heq.
  rewrite !list_ascii_of_string_app, !length_app in Heq. simpl in Heq. lia.
Qed.

Lemma derived_name_under (suffix c : string) :
  String.prefix "_" ("_" +:+ c +:+ suffix) = true.
Proof.
  change ("_" +:+ c +:+ suffix) with (String "_" (c +:+ suffix)).
  cbn. by destruct (c +:+ suffix).
Qed.

Section dq_columns.

Context {V : Type} `{EqDecision V}.
Variable str : string → V.

Implicit Types (df : frame V) (col : list (cell V)).

Lemma zip_with_mask col (v w : V) :
  zip_with (λ (m : bool) o, if m then Some v else o) (is_missing str <$> col)
           (replicate (length col) (Some w))
  = (λ x, if is_missing str x then Some v else Some w) <$> col.
Proof.
  induction col as [|x col IH]; [done|].
  rewrite !fmap_cons. cbn [length replicate zip_with]. by rewrite IH.
Qed.

Lemma completeness_body df c col :
  get_column df c = Some col → length col = n_rows df →
  completeness_step str df c
  = (set_column df (completeness_name c) (completeness_flags str col), None).
Proof.
  intros Hcol Hlen. unfold completeness_step. cbv zeta. unfold set_scalar.
  rewrite get_set_ne, Hcol by (by apply derived_name_ne).
  unfold loc_assign. rewrite get_set_eq, set_set. simpl.
  rewrite <- Hlen, zip_with_mask. do 2 f_equal.
  apply list_fmap_ext. intros _ x _. by destruct (is_missing str x).
Qed.

Lemma uniqueness_body df c col :
  get_column df c = Some col → length col = n_rows df →
  uniqueness_step str df c
  = (set_column df (uniqueness_name c) (uniqueness_flag str col <$> col), None).
Proof. unfold uniqueness_step. by intros -> _. Qed.

(** What the two loops need of their bodies. *)
Lemma completeness_loop (cs : list string) df :
  well_formed df →
  Forall (λ c, is_Some (get_column df c) ∧ String.prefix "_" c = false) cs →
  ∃ df',
    for_columns (completeness_step str) df cs = (df', None)
    ∧ well_formed df' ∧ n_rows df' = n_rows df
    ∧ (∀ name, name ∉ completeness_name <$> cs →
         get_column df' name = get_column df name)
    ∧ (∀ c col, c ∈ cs → get_column df c = Some col →
         get_column df' (completeness_name c) = Some (completeness_flags str col)).
Proof.
  apply (for_columns_derived _ completeness_name (completeness_flags str)).
  - intros c. apply derived_name_under.
  - intros c c'. apply derived_name_inj.
  - intros col. apply length_fmap.
  - intros df0 c col. apply completeness_body.
Qed.

Lemma uniqueness_loop (cs : list string) df :
  well_formed df →
  Forall (λ c, is_Some (get_column df c) ∧ String.prefix "_" c = false) cs →
  ∃ df',
    for_columns (uniqueness_step str) df cs = (df', None)
    ∧ well_formed df' ∧ n_rows df' = n_rows df
    ∧ (∀ name, name ∉ uniqueness_name <$> cs →
         get_column df' name = get_column df name)
    ∧ (∀ c col, c ∈ cs → get_column df c = Some col →
         get_column df' (uniqueness_name c)
         = Some (uniqueness_flag str col <$> col)).
Proof.
  apply (for_columns_derived _ uniqueness_name
           (λ col, uniqueness_flag str col <$> col)).
  - intros c. apply derived_name_under.
  - intros c c'. apply derived_name_inj.
  - intros col. apply length_fmap.
  - intros df0 c col. apply uniqueness_body.
Qed.

Lemma completeness_default df :
  well_formed df →
  ∃ df',
    for_columns (completeness_step str) df (default_columns df) = (df', None)
    ∧ well_formed df' ∧ n_rows df' = n_rows df
    ∧ default_columns df' = default_columns df
    ∧ (∀ name, String.prefix "_" name = false →
         get_column df' name = get_column df name)
    ∧ for_columns (completeness_step str) df' (default_columns df) = (df', None).
Proof.
  apply (for_columns_default _ completeness_name (completeness_flags str)).
  - intros c. apply derived_name_under.
  - intros c c'. apply derived_name_inj.
  - intros col. apply length_fmap.
  - intros df0 c col. apply completeness_body.
Qed.

Lemma uniqueness_default df :
  well_formed df →
  ∃ df',
    for_columns (uniqueness_step str) df (default_columns df) = (df', None)
    ∧ well_formed df' ∧ n_rows df' = n_rows df
    ∧ default_columns df' = default_columns df
    ∧ (∀ name, String.prefix "_" name = false →
         get_column df' name = get_column df name)
    ∧ for_columns (uniqueness_step str) df' (default_columns df) = (df', None).
Proof.
  apply (for_columns_default _ uniqueness_name
           (λ col, uniqueness_flag str col <$> col)).
  - intros c. apply derived_name_under.
  - intros c c'. apply derived_name_inj.
  - intros col. apply length_fmap.
  - intros df0 c col. apply uniqueness_body.
Qed.

End dq_columns.

Section dq_theorems.

Context {V : Type} `{EqDecision V}.
Variable str : string → V.

Implicit Types (df : frame V) (col : list (cell V)).

Lemma for_columns_app (body : frame V → string → frame V * option key_error)
    (cs1 cs2 : list string) : ∀ df,
  for_columns body df (cs1 ++ cs2)
  = match for_columns body df cs1 with
    | (df', None) => for_columns body df' cs2
    | (df', Some e) => (df', Some e)
    end.
Proof.
  induction cs1 as [|c cs1 IH]; intros df; [done|].
  simpl. destruct (body df c) as [df1 [e|]]; [done|apply IH].
Qed.

Lemma value_count_zero col (v : V) : Some v ∉ col → value_count col v = 0%nat.
Proof.
  unfold value_count. induction col as [|x col IH]; [done|].
  intros [Hne Hnotin]%not_elem_of_cons.
  rewrite filter_cons, decide_False by done. by apply IH.
Qed.

Lemma value_count_pos col (v : V) : Some v ∈ col → (1 ≤ value_count col v)%nat.
Proof.
  unfold value_count. induction col as [|x col IH]; [by intros ?%elem_of_nil|].
  rewrite filter_cons. case_decide; [simpl; lia|].
  intros [?|?]%elem_of_cons; [done|by apply IH].
Qed.

(** A value is counted once exactly when it stands in one row only. *)
Lemma value_count_one col : ∀ i (v : V),
  col !! i = Some (Some v) →
  value_count col v = 1%nat ↔ ∀ j, col !! j = Some (Some v) → j = i.
Proof.
  induction col as [|x col IH]; intros i v; [done|].
  assert (value_count (x :: col) v
          = if decide (x = Some v) then S (value_count col v)
            else value_count col v) as ->.
  { unfold value_count. rewrite filter_cons. by repeat case_decide. }
  destruct i as [|i]; simpl.
  - intros [= ->]. rewrite decide_True by done. split.
    + intros Hc [|j]; [done|]. simpl. intros Hj%list_elem_of_lookup_2.
      apply value_count_pos in Hj. lia.
    + intros Huniq. f_equal. apply value_count_zero.
      intros (j & Hj)%list_elem_of_lookup_1. by specialize (Huniq (S j) Hj).
  - intros Hi. destruct (decide (x = Some v)) as [->|Hne].
    + split.
      * pose proof (value_count_pos col v (list_elem_of_lookup_2 _ _ _ Hi)). lia.
      * intros Huniq. by specialize (Huniq 0%nat eq_refl).
    + rewrite (IH i v Hi). split.
      * intros Huniq [|j]; simpl; [by intros [= ?]|]. intros Hj. f_equal. eauto.
      * intros Huniq j Hj. specialize (Huniq (S j) Hj). lia.
Qed.

(** X17: [calculate_completeness] on columns that are in the frame (and
    are not themselves derived columns, whose names start with an
    underscore) never raises; it gives each of them the column
    [_<name>_completeness], which reads [Missing] in the rows where the
    value is NaN or the empty string and [Completed] in the others, and it
    changes no other column. *)
Theorem calculate_completeness_flags (df : frame V) (cs : list string) :
  well_formed df →
  Forall (λ c, is_Some (get_column df c) ∧ String.prefix "_" c = false) cs →
  ∃ df',
    calculate_completeness str df (Some cs) = (df', None)
    ∧ well_formed df' ∧ n_rows df' = n_rows df
    ∧ (∀ name, name ∉ completeness_name <$> cs →
         get_column df' name = get_column df name)
    ∧ (∀ c col, c ∈ cs → get_column df c = Some col →
         get_column df' (completeness_name c)
         = Some ((λ x, Some (str (if is_missing str x then "Missing"
                                  else "Completed"))) <$> col)).
Proof.
  intros Hwf Hcs. unfold calculate_completeness. simpl.
  by apply completeness_loop.
Qed.

(** X18: [calculate_uniqueness] on such columns never raises either; in the
    column [_<name>_uniqueness] a row reads [Unique] exactly when its value
    is not NaN and stands in no other row of the column, and [Duplicates]
    otherwise: a row without value is always flagged [Duplicates]. *)
Theorem calculate_uniqueness_flags (df : frame V) (cs : list string) :
  well_formed df →
  Forall (λ c, is_Some (get_column df c) ∧ String.prefix "_" c = false) cs →
  str "Unique" ≠ str "Duplicates" →
  ∃ df',
    calculate_uniqueness str df (Some cs) = (df', None)
    ∧ well_formed df' ∧ n_rows df' = n_rows df
    ∧ (∀ name, name ∉ uniqueness_name <$> cs →
         get_column df' name = get_column df name)
    ∧ (∀ c col, c ∈ cs → get_column df c = Some col →
         ∃ flags,
           get_column df' (uniqueness_name c) = Some flags
           ∧ length flags = length col
           ∧ ∀ i x, col !! i = Some x →
               (flags !! i = Some (Some (str "Unique"))
                ∨ flags !! i = Some (Some (str "Duplicates")))
               ∧ (flags !! i = Some (Some (str "Unique"))
                  ↔ ∃ v, x = Some v ∧ ∀ j, col !! j = Some (Some v) → j = i)).
Proof.
  intros Hwf Hcs Hstr. unfold calculate_uniqueness. simpl.
  destruct (uniqueness_loop str cs df Hwf Hcs)
    as (df' & Hrun & Hwf' & Hn & Hother & Hderived).
  exists df'. split_and!; [done..|].
  intros c col Hc Hcol. exists (uniqueness_flag str col <$> col).
  split; [by apply Hderived|]. split; [apply length_fmap|].
  intros i x Hi. unfold cell in *. rewrite list_lookup_fmap, Hi. simpl.
  destruct x as [v|]; simpl.
  - destruct (decide (value_count col v = 1%nat)) as [Hone|Hmany].
    + split; [by left|]. split; [|done]. intros _. exists v. split; [done|].
      by apply value_count_one.
    + split; [by right|]. split; [by intros [= ?]|].
      intros (v' & [= <-] & Huniq). by apply value_count_one in Huniq.
  - split; [by right|]. split; [by intros [= ?]|]. by intros (v & ? & _).
Qed.

(** X19: called without a list of columns, [calculate_completeness] and
    [calculate_uniqueness] work on the columns whose name does not start
    with an underscore and never raise; each leaves every such column as it
    was, adds none to them (so that the columns one of them derives are
    skipped by the other), and changes nothing when it is run a second
    time on its own result. *)
Theorem dq_default_columns (df : frame V) :
  well_formed df →
  (∃ df',
     calculate_completeness str df None = (df', None)
     ∧ well_formed df'
     ∧ default_columns df' = default_columns df
     ∧ (∀ name, String.prefix "_" name = false →
          get_column df' name = get_column df name)
     ∧ calculate_completeness str df' None = (df', None))
  ∧ (∃ df',
       calculate_uniqueness str df None = (df', None)
       ∧ well_formed df'
       ∧ default_columns df' = default_columns df
       ∧ (∀ name, String.prefix "_" name = false →
            get_column df' name = get_column df name)
       ∧ calculate_uniqueness str df' None = (df', None)).
Proof.
  intros Hwf. split.
  - destruct (completeness_default str df Hwf)
      as (df' & Hrun & Hwf' & _ & Hnames & Hdata & Hagain).
    exists df'. unfold calculate_completeness. simpl.
    rewrite Hnames. by split_and!.
  - destruct (uniqueness_default str df Hwf)
      as (df' & Hrun & Hwf' & _ & Hnames & Hdata & Hagain).
    exists df'. unfold calculate_uniqueness. simpl.
    rewrite Hnames. by split_and!.
Qed.

(** X20: a column that is not in the frame makes both functions raise
    [KeyError] with its name, once the columns listed before it are done
    and with those listed after it left alone.  The frame they were given
    is changed by then: [calculate_completeness] has moreover written the
    column [_<name>_completeness] of the missing column, [Completed] in
    every row, while [calculate_uniqueness] has written nothing for it. *)
Theorem dq_missing_column (df : frame V) (cs1 cs2 : list string) (c : string) :
  well_formed df →
  Forall (λ c, is_Some (get_column df c) ∧ String.prefix "_" c = false) cs1 →
  get_column df c = None →
  String.prefix "_" c = false →
  (∃ df',
     calculate_completeness str df (Some (cs1 ++ c :: cs2))
       = (df', Some (KeyError c))
     ∧ get_column df' (completeness_name c)
       = Some (replicate (n_rows df) (Some (str "Completed")))
     ∧ (∀ c1 col, c1 ∈ cs1 → get_column df c1 = Some col →
          get_column df' (completeness_name c1)
          = Some (completeness_flags str col))
     ∧ (∀ name, name ∉ completeness_name <$> (cs1 ++ [c]) →
          get_column df' name = get_column df name))
  ∧ (∃ df',
       calculate_uniqueness str df (Some (cs1 ++ c :: cs2))
         = (df', Some (KeyError c))
       ∧ (∀ c1 col, c1 ∈ cs1 → get_column df c1 = Some col →
            get_column df' (uniqueness_name c1)
            = Some (uniqueness_flag str col <$> col))
       ∧ (∀ name, name ∉ uniqueness_name <$> cs1 →
            get_column df' name = get_column df name)).
Proof.
  intros Hwf Hcs Hc Hp.
  assert (c ∉ cs1) as Hfresh.
  { intros Hin. apply (proj1 (Forall_forall _ _) Hcs) in Hin as [[? Hsome] _].
    congruence. }
  split.
  - destruct (completeness_loop str cs1 df Hwf Hcs)
      as (df1 & Hrun & Hwf1 & Hn & Hother & Hderived).
    exists (set_scalar df1 (completeness_name c) (str "Completed")).
    assert (get_column df1 c = None) as Hc1.
    { rewrite Hother; [done|]. intros (c1 & -> & _)%list_elem_of_fmap.
      unfold completeness_name in Hp. by rewrite derived_name_under in Hp. }
    split_and!.
    + unfold calculate_completeness. simpl. rewrite for_columns_app, Hrun.
      simpl. unfold completeness_step. cbv zeta. unfold set_scalar.
      rewrite get_set_ne by (by apply derived_name_ne). by rewrite Hc1.
    + unfold set_scalar. by rewrite get_set_eq, Hn.
    + intros c1 col Hc1' Hcol. unfold set_scalar. rewrite get_set_ne.
      * by apply Hderived.
      * intros Heq%derived_name_inj. by subst.
    + intros name Hname. rewrite fmap_app, not_elem_of_app in Hname.
      destruct Hname as [Hname Hne]. unfold set_scalar.
      rewrite get_set_ne; [by apply Hother|].
      intros <-. apply Hne. by left.
  - destruct (uniqueness_loop str cs1 df Hwf Hcs)
      as (df1 & Hrun & Hwf1 & Hn & Hother & Hderived).
    exists df1. split_and!; [|done..].
    unfold calculate_uniqueness. simpl. rewrite for_columns_app, Hrun.
    simpl. unfold uniqueness_step. rewrite Hother; [by rewrite Hc|].
    intros (c1 & -> & _)%list_elem_of_fmap.
    unfold uniqueness_name in Hp. by rewrite derived_name_under in Hp.
Qed.

End dq_theorems.
(** * The driver: loading and cleansing *)

Lemma lower_char_idem c : Str.lower_char (Str.lower_char c) = Str.lower_char c.
Proof. by destruct c as [[] [] [] [] [] [] [] []]. Qed.

Lemma lower_char_not_upper c : Str.is_upper (Str.lower_char c) = false.
Proof. by destruct c as [[] [] [] [] [] [] [] []]. Qed.

Lemma list_ascii_of_lower s :
  list_ascii_of_string (Str.lower s) = Str.lower_char <$> list_ascii_of_string s.
Proof. induction s as [|c s IH]; [done|]. simpl. by rewrite IH. Qed.

Lemma starts_with_lower pat : ∀ s,
  Rx.starts_with pat (Str.lower_char <$> s) = Rx.starts_with pat s.
Proof.
  induction pat as [|a pat IH]; intros [|c s]; try done.
  simpl. unfold Rx.same_letter. by rewrite lower_char_idem, IH.
Qed.

Lemma contains_lower pat s :
  contains pat (Str.lower_char <$> s) = contains pat s.
Proof.
  induction s as [|c s IH].
  - done.
  - rewrite fmap_cons. cbn [contains]. rewrite <- fmap_cons.
    by rewrite starts_with_lower, IH.
Qed.

(** The search ignores the case, so it finds the same in the lowered label. *)
Lemma str_contains_lower pat s :
  str_contains pat (Str.lower s) = str_contains pat s.
Proof. unfold str_contains. by rewrite list_ascii_of_lower, contains_lower. Qed.

Lemma lower_idem s : Str.lower (Str.lower s) = Str.lower s.
Proof. induction s as [|c s IH]; [done|]. simpl. by rewrite lower_char_idem, IH. Qed.

Lemma lower_not_upper s :
  Forall (λ c, Str.is_upper c = false) (list_ascii_of_string (Str.lower s)).
Proof.
  induction s as [|c s IH]; simpl; constructor; [apply lower_char_not_upper|done].
Qed.

Lemma mapM_result_ok {A B} (f : A → result B) (g : A → B) (l : list A) :
  (∀ x, x ∈ l → f x = Ok (g x)) → mapM f l = Ok (g <$> l).
Proof.
  induction l as [|x l IH]; intros Hf; [done|].
  simpl. rewrite Hf by (by left). simpl.
  rewrite IH; [done|]. intros y Hy. apply Hf. by right.
Qed.

Lemma mapM_result_raise {A B} (f : A → result B) (g : A → B) (l1 l2 : list A) x e :
  (∀ y, y ∈ l1 → f y = Ok (g y)) → f x = Raise e →
  mapM f (l1 ++ x :: l2) = Raise e.
Proof.
  induction l1 as [|y l1 IH]; intros Hf Hx; simpl.
  - by rewrite Hx.
  - rewrite Hf by (by left). simpl. rewrite IH; [done| |done].
    intros z Hz. apply Hf. by right.
Qed.

Section driver.

Variable unicode_nfd : list N → list N.

Lemma imap_keys (g : source_row → option (list N)) (rows : list source_row) :
  ld_key <$> imap (λ i r, LoadedRow i (g r)) rows = seq 0 (length rows).
Proof.
  rewrite fmap_imap. rewrite (imap_ext _ (λ j _, id j)) by done.
  by rewrite (imap_seq_0 rows id), list_fmap_id.
Qed.

Lemma load_data_keys data_source read_function df :
  load_data data_source read_function = Ok df →
  df ≠ [] ∧ ld_key <$> df = seq 0 (length df).
Proof.
  unfold load_data, read_data.
  destruct read_function as [[|s rows]|e]; simpl; try done.
  intros [= <-]. split; [done|].
  change (LoadedRow 0 (fillna (LIBELLE_COMMERCIAL s) (LIBELLE_INTERNE s))
            :: imap ((λ i r, LoadedRow i
                               (fillna (LIBELLE_COMMERCIAL r) (LIBELLE_INTERNE r)))
                     ∘ S) rows)
    with (imap (λ i r, LoadedRow i (fillna (LIBELLE_COMMERCIAL r) (LIBELLE_INTERNE r)))
               (s :: rows)).
  by rewrite imap_keys, length_imap.
Qed.

(** X21: [load_data] returns exactly when the file is read and has a row
    at least; whatever the reader raises, and an empty file as well, comes
    out as a [ValueError].  The frame returned has the rows of the file in
    order, keyed 0, 1, 2, ... (so no two rows share their [_unicity_key]),
    and a row has no commercial label only if the file gave it neither a
    commercial nor an internal one. *)
Theorem load_data_spec (data_source : DataSource)
    (read_function : result (list source_row)) :
  match load_data data_source read_function with
  | Ok df =>
      ∃ rows, read_function = Ok rows ∧ rows ≠ []
        ∧ length df = length rows
        ∧ ld_key <$> df = seq 0 (length rows)
        ∧ NoDup (ld_key <$> df)
        ∧ ∀ i r, df !! i = Some r →
            ∃ s, rows !! i = Some s
              ∧ (∀ t, LIBELLE_COMMERCIAL s = Some t → ld_commercial r = Some t)
              ∧ (LIBELLE_COMMERCIAL s = None → ld_commercial r = LIBELLE_INTERNE s)
  | Raise e =>
      (∃ msg, e = ValueError msg)
      ∧ (read_function = Ok [] ∨ ∃ e', read_function = Raise e')
  end.
Proof.
  unfold load_data, read_data.
  destruct read_function as [[|s rows]|e]; simpl.
  - split; [by eexists|by left].
  - exists (s :: rows). split; [done|]. split; [done|].
    set (f := λ (i : nat) (r : source_row),
                LoadedRow i (fillna (LIBELLE_COMMERCIAL r) (LIBELLE_INTERNE r))).
    change (LoadedRow 0 (fillna (LIBELLE_COMMERCIAL s) (LIBELLE_INTERNE s))
              :: imap (f ∘ S) rows) with (imap f (s :: rows)).
    assert (ld_key <$> imap f (s :: rows) = seq 0 (length (s :: rows))) as Hkeys.
    { rewrite fmap_imap.
      rewrite (imap_ext _ (λ j _, id j)) by done.
      by rewrite (imap_seq_0 (s :: rows) id), list_fmap_id. }
    split; [by rewrite length_imap|]. split; [done|].
    split.
    { change (NoDup (ld_key <$> imap f (s :: rows))).
      rewrite Hkeys. apply NoDup_seq. }
    intros i r (s' & Hs' & ->)%list_lookup_imap_Some. exists s'.
    split; [done|]. unfold f. simpl. split.
    + by intros t ->.
    + by intros ->.
  - split; [by eexists|right; by eexists].
Qed.

Lemma reject_keys pat reason df :
  cs_key <$> reject pat reason df = cs_key <$> df.
Proof.
  unfold reject. rewrite <- list_fmap_compose. apply list_fmap_ext.
  intros _ r _. simpl. by destruct (str_contains pat (cs_label r)).
Qed.

Lemma reject_labels pat reason df :
  cs_label <$> reject pat reason df = cs_label <$> df.
Proof.
  unfold reject. rewrite <- list_fmap_compose. apply list_fmap_ext.
  intros _ r _. simpl. by destruct (str_contains pat (cs_label r)).
Qed.

Lemma elem_of_reject pat reason df r :
  r ∈ reject pat reason df →
  ∃ r0, r0 ∈ df ∧ cs_key r = cs_key r0 ∧ cs_label r = cs_label r0
        ∧ Raison_Rejet r = if str_contains pat (cs_label r0) then Some reason
                           else Raison_Rejet r0.
Proof.
  intros (r0 & -> & Hr0)%list_elem_of_fmap. exists r0. split; [done|].
  by destruct (str_contains pat (cs_label r0)).
Qed.

Lemma filter_ext_elem {A} (P Q : A → Prop) `{∀ x, Decision (P x)}
    `{∀ x, Decision (Q x)} (l : list A) :
  (∀ x, x ∈ l → P x ↔ Q x) → filter P l = filter Q l.
Proof.
  induction l as [|x l IH]; intros HPQ; [done|].
  rewrite !filter_cons, IH by (intros y Hy; apply HPQ; by right).
  destruct (decide (P x)) as [HP|HP].
  - rewrite decide_True; [done|]. apply HPQ; [by left|done].
  - rewrite decide_False; [done|]. intros HQ. apply HP, HPQ; [by left|done].
Qed.

(** The rows of the source CLEAR once the two reasons are written. *)
Lemma cleanse_data_clear (df : list loaded_row) :
  let D := reject "dryrun" "DRYRUN"
             (reject "ne plus utiliser" "NE PLUS UTILISER"
                ((λ r, CleansedRow (ld_key r)
                         (process_label_clear unicode_nfd (ld_commercial r)) None)
                   <$> df)) in
  let K := without "dryrun" (without "ne plus utiliser" D) in
  cleanse_data unicode_nfd CLEAR df
  = Cleansed
      ((λ r, CleansedRow (cs_key r) (Str.lower (cs_label r)) (Raison_Rejet r)) <$> K)
      (Some (filter (λ r, Raison_Rejet r = Some "NE PLUS UTILISER") D
             ++ filter (λ r, Raison_Rejet r = Some "DRYRUN") D))
      (py_dict ((λ r, (Str.lower (cs_label r), cs_label r)) <$> K)).
Proof. done. Qed.

Lemma elem_of_marked (df : list loaded_row) r :
  r ∈ reject "dryrun" "DRYRUN"
        (reject "ne plus utiliser" "NE PLUS UTILISER"
           ((λ r, CleansedRow (ld_key r)
                    (process_label_clear unicode_nfd (ld_commercial r)) None)
              <$> df)) ↔
  ∃ r0, r0 ∈ df
    ∧ r = CleansedRow (ld_key r0) (process_label_clear unicode_nfd (ld_commercial r0))
            (if str_contains "dryrun" (process_label_clear unicode_nfd (ld_commercial r0))
             then Some "DRYRUN"
             else if str_contains "ne plus utiliser"
                       (process_label_clear unicode_nfd (ld_commercial r0))
                  then Some "NE PLUS UTILISER" else None).
Proof.
  unfold reject. rewrite <- !list_fmap_compose, list_elem_of_fmap.
  split.
  - intros (r0 & -> & Hr0). exists r0. split; [done|]. simpl.
    destruct (str_contains "ne plus utiliser" _) eqn:E1; simpl;
      by destruct (str_contains "dryrun" _) eqn:E2.
  - intros (r0 & Hr0 & ->). exists r0. split; [|done]. simpl.
    destruct (str_contains "ne plus utiliser" _) eqn:E1; simpl;
      by destruct (str_contains "dryrun" _) eqn:E2.
Qed.

(** The two frames [cleanse_data] leaves for the source CLEAR. *)
Lemma cleanse_data_clear_split (df : list loaded_row) :
  ∃ rejected,
    rejected_data_df (cleanse_data unicode_nfd CLEAR df) = Some rejected
    ∧ (cs_key <$> df_processed (cleanse_data unicode_nfd CLEAR df))
        ++ (cs_key <$> rejected) ≡ₚ ld_key <$> df
    ∧ cs_key <$> df_processed (cleanse_data unicode_nfd CLEAR df)
        `sublist_of` ld_key <$> df
    ∧ Forall (λ r, Raison_Rejet r = None
                   ∧ str_contains "ne plus utiliser" (cs_label r) = false
                   ∧ str_contains "dryrun" (cs_label r) = false)
             (df_processed (cleanse_data unicode_nfd CLEAR df))
    ∧ Forall (λ r, if str_contains "dryrun" (cs_label r)
                   then Raison_Rejet r = Some "DRYRUN"
                   else str_contains "ne plus utiliser" (cs_label r) = true
                        ∧ Raison_Rejet r = Some "NE PLUS UTILISER")
             rejected
    ∧ ∀ r0, r0 ∈ df →
        let l := process_label_clear unicode_nfd (ld_commercial r0) in
        if str_contains "dryrun" l
        then CleansedRow (ld_key r0) l (Some "DRYRUN") ∈ rejected
        else if str_contains "ne plus utiliser" l
             then CleansedRow (ld_key r0) l (Some "NE PLUS UTILISER") ∈ rejected
             else CleansedRow (ld_key r0) (Str.lower l) None
                    ∈ df_processed (cleanse_data unicode_nfd CLEAR df).
Proof.
  rewrite cleanse_data_clear. cbv zeta. cbn [rejected_data_df df_processed].
  set (D := reject "dryrun" "DRYRUN" _).
  assert (∀ r, r ∈ D →
            Raison_Rejet r
            = if str_contains "dryrun" (cs_label r) then Some "DRYRUN"
              else if str_contains "ne plus utiliser" (cs_label r)
                   then Some "NE PLUS UTILISER" else None) as Hreason.
  { intros r (r0 & _ & ->)%elem_of_marked. done. }
  assert (cs_key <$> D = ld_key <$> df) as Hkeys.
  { unfold D. by rewrite !reject_keys, <- list_fmap_compose. }
  assert (without "dryrun" (without "ne plus utiliser" D)
          = filter (λ r, ¬ str_contains "dryrun" (cs_label r) = true)
              (filter (λ r, ¬ str_contains "ne plus utiliser" (cs_label r) = true) D))
    as HK.
  { unfold without.
    rewrite (list_filter_iff
               (λ r, str_contains "dryrun" (cs_label r) = false)
               (λ r, ¬ str_contains "dryrun" (cs_label r) = true))
      by (intros r; by destruct (str_contains _ _)).
    by rewrite (list_filter_iff
                  (λ r, str_contains "ne plus utiliser" (cs_label r) = false)
                  (λ r, ¬ str_contains "ne plus utiliser" (cs_label r) = true) D)
      by (intros r; by destruct (str_contains _ _)). }
  assert (filter (λ r, Raison_Rejet r = Some "DRYRUN") D
          = filter (λ r, str_contains "dryrun" (cs_label r) = true) D) as Hdry.
  { apply filter_ext_elem. intros r Hr. rewrite (Hreason r Hr).
    destruct (str_contains "dryrun" _); [done|].
    by destruct (str_contains "ne plus utiliser" _). }
  assert (filter (λ r, Raison_Rejet r = Some "NE PLUS UTILISER") D
          = filter (λ r, ¬ str_contains "dryrun" (cs_label r) = true)
              (filter (λ r, str_contains "ne plus utiliser" (cs_label r) = true) D))
    as Hnpu.
  { rewrite list_filter_filter. apply filter_ext_elem. intros r Hr.
    rewrite (Hreason r Hr).
    destruct (str_contains "dryrun" _); [by split; [|intros [? _]]|].
    destruct (str_contains "ne plus utiliser" _); [by split|].
    by split; [|intros [_ ?]]. }
  eexists. split; [done|]. split_and!.
  - rewrite <- list_fmap_compose. simpl.
    change (cs_key ∘ _) with cs_key.
    rewrite <- fmap_app, <- Hkeys. apply fmap_Permutation.
    rewrite HK, Hnpu, Hdry.
    set (dry := λ r, str_contains "dryrun" (cs_label r) = true).
    set (npu := λ r, str_contains "ne plus utiliser" (cs_label r) = true).
    assert (filter (λ r, ¬ dry r) D
            ≡ₚ filter (λ r, ¬ dry r) (filter npu D)
               ++ filter (λ r, ¬ dry r) (filter (λ r, ¬ npu r) D)) as Hsplit.
    { rewrite <- filter_app. apply filter_Permutation.
      symmetry. apply filter_app_complement. }
    etrans; [|apply (filter_app_complement dry D)].
    rewrite Hsplit.
    rewrite (Permutation_app_comm (filter dry D)).
    rewrite (Permutation_app_comm (filter (λ r, ¬ dry r) (filter npu D))
               (filter (λ r, ¬ dry r) (filter (λ r, ¬ npu r) D))).
    by rewrite (assoc (++)).
  - rewrite <- list_fmap_compose. simpl. change (cs_key ∘ _) with cs_key.
    rewrite <- Hkeys. apply fmap_sublist. unfold without.
    etrans; apply sublist_filter.
  - apply Forall_forall. intros r (r1 & -> & Hr1)%list_elem_of_fmap. simpl.
    rewrite !str_contains_lower.
    unfold without in Hr1.
    apply list_elem_of_filter in Hr1 as [Hd [Hn Hr1]%list_elem_of_filter].
    by rewrite (Hreason r1 Hr1), Hd, Hn.
  - apply Forall_forall. intros r Hr.
    assert (r ∈ D ∧ (Raison_Rejet r = Some "NE PLUS UTILISER"
                     ∨ Raison_Rejet r = Some "DRYRUN")) as [HD Hr'].
    { apply elem_of_app in Hr as [Hr|Hr];
        apply list_elem_of_filter in Hr as [? ?]; auto. }
    rewrite (Hreason r HD) in Hr' |- *.
    destruct (str_contains "dryrun" _); [done|].
    destruct (str_contains "ne plus utiliser" _); [done|]. by destruct Hr'.
  - intros r0 Hr0.
    set (l := process_label_clear unicode_nfd (ld_commercial r0)).
    assert (CleansedRow (ld_key r0) l
              (if str_contains "dryrun" l then Some "DRYRUN"
               else if str_contains "ne plus utiliser" l
                    then Some "NE PLUS UTILISER" else None) ∈ D) as HD.
    { apply elem_of_marked. by exists r0. }
    destruct (str_contains "dryrun" l) eqn:Ed.
    { apply elem_of_app. right. by apply list_elem_of_filter. }
    destruct (str_contains "ne plus utiliser" l) eqn:En.
    { apply elem_of_app. left. by apply list_elem_of_filter. }
    apply list_elem_of_fmap. eexists. split; [|unfold without;
      apply list_elem_of_filter; split; [|apply list_elem_of_filter; split;
        [|exact HD]]]; done.
Qed.

(** X22: for the source CLEAR, [cleanse_data] splits the records in two:
    every record goes either to [rejected_data_df] or to [df_processed],
    never to both, and those kept stay in order.  A record is rejected when
    its cleaned label holds [dryrun] or [ne plus utiliser], in any case of
    the letters; the reason written is [DRYRUN] whenever the label holds
    [dryrun], also when it holds both.  A rejected record keeps its label as
    cleaned, a record kept gets it in lower case. *)
Theorem cleanse_data_rejects (df : list loaded_row) :
  df ≠ [] →
  ∃ rejected,
    rejected_data_df (cleanse_data unicode_nfd CLEAR df) = Some rejected
    ∧ (cs_key <$> df_processed (cleanse_data unicode_nfd CLEAR df))
        ++ (cs_key <$> rejected) ≡ₚ ld_key <$> df
    ∧ cs_key <$> df_processed (cleanse_data unicode_nfd CLEAR df)
        `sublist_of` ld_key <$> df
    ∧ Forall (λ r, Raison_Rejet r = None
                   ∧ str_contains "ne plus utiliser" (cs_label r) = false
                   ∧ str_contains "dryrun" (cs_label r) = false)
             (df_processed (cleanse_data unicode_nfd CLEAR df))
    ∧ Forall (λ r, if str_contains "dryrun" (cs_label r)
                   then Raison_Rejet r = Some "DRYRUN"
                   else str_contains "ne plus utiliser" (cs_label r) = true
                        ∧ Raison_Rejet r = Some "NE PLUS UTILISER")
             rejected
    ∧ ∀ r0, r0 ∈ df →
        let l := process_label_clear unicode_nfd (ld_commercial r0) in
        if str_contains "dryrun" l
        then CleansedRow (ld_key r0) l (Some "DRYRUN") ∈ rejected
        else if str_contains "ne plus utiliser" l
             then CleansedRow (ld_key r0) l (Some "NE PLUS UTILISER") ∈ rejected
             else CleansedRow (ld_key r0) (Str.lower l) None
                    ∈ df_processed (cleanse_data unicode_nfd CLEAR df).
Proof.
  intros _.
  destruct (cleanse_data_clear_split df)
    as (rejected & Hrej & Hperm & Hsub & Hkept & Hreasons & Hwhere).
  exists rejected. by split_and!.
Qed.

(** What [cleanse_data] leaves for either source: rows taken from the
    frame, each with its label cleaned, the dictionary being read off the
    rows kept before their labels are lowered. *)
Lemma cleanse_data_shape (data_source : DataSource) (df : list loaded_row) :
  ∃ K,
    df_processed (cleanse_data unicode_nfd data_source df)
    = (λ r, CleansedRow (cs_key r) (Str.lower (cs_label r)) (Raison_Rejet r)) <$> K
    ∧ dict_label (cleanse_data unicode_nfd data_source df)
      = py_dict ((λ r, (Str.lower (cs_label r), cs_label r)) <$> K)
    ∧ cs_key <$> K `sublist_of` ld_key <$> df
    ∧ ∀ r, r ∈ K → ∃ r0, r0 ∈ df ∧ cs_key r = ld_key r0
        ∧ cs_label r = process_label unicode_nfd data_source (ld_commercial r0).
Proof.
  destruct data_source.
  - rewrite cleanse_data_clear. cbv zeta. eexists. split; [done|]. split; [done|].
    split.
    + etrans; [apply fmap_sublist; unfold without; etrans; apply sublist_filter|].
      by rewrite !reject_keys, <- list_fmap_compose.
    + intros r Hr. unfold without in Hr.
      apply list_elem_of_filter in Hr as [_ [_ Hr]%list_elem_of_filter].
      apply elem_of_marked in Hr as (r0 & Hr0 & ->). by exists r0.
  - eexists. split; [done|]. split; [done|]. split.
    + by rewrite <- list_fmap_compose.
    + intros r (r0 & -> & Hr0)%list_elem_of_fmap. by exists r0.
Qed.

Lemma dict_label_defined (data_source : DataSource) (df : list loaded_row) r :
  r ∈ df_processed (cleanse_data unicode_nfd data_source df) →
  is_Some (dict_label (cleanse_data unicode_nfd data_source df) !! cs_label r).
Proof.
  destruct (cleanse_data_shape data_source df) as (K & -> & -> & _ & _).
  intros (r1 & -> & Hr1)%list_elem_of_fmap. simpl.
  apply py_dict_lookup_is_Some.
  rewrite <- list_fmap_compose. apply list_elem_of_fmap. by exists r1.
Qed.

(** The keys of the records kept and of the records rejected. *)
Lemma cleanse_data_keys (data_source : DataSource) (df : list loaded_row) :
  (cs_key <$> df_processed (cleanse_data unicode_nfd data_source df))
    ++ (cs_key <$> default [] (rejected_data_df (cleanse_data unicode_nfd data_source df)))
  ≡ₚ ld_key <$> df.
Proof.
  destruct data_source.
  - destruct (cleanse_data_clear_split df) as (rejected & -> & Hperm & _). done.
  - simpl. by rewrite app_nil_r, <- !list_fmap_compose.
Qed.

Lemma cleanse_data_kept (data_source : DataSource) (df : list loaded_row) r :
  r ∈ df_processed (cleanse_data unicode_nfd data_source df) → Raison_Rejet r = None.
Proof.
  destruct data_source.
  - destruct (cleanse_data_clear_split df) as (rejected & _ & _ & _ & Hkept & _).
    intros Hr. by apply (proj1 (Forall_forall _ _) Hkept) in Hr as [? _].
  - simpl. rewrite <- list_fmap_compose.
    by intros (r0 & -> & _)%list_elem_of_fmap.
Qed.

Lemma cleanse_data_rejected (data_source : DataSource) (df : list loaded_row) :
  match rejected_data_df (cleanse_data unicode_nfd data_source df) with
  | Some rejected =>
      data_source = CLEAR
      ∧ Forall (λ r, Raison_Rejet r = Some "DRYRUN"
                     ∨ Raison_Rejet r = Some "NE PLUS UTILISER") rejected
  | None => data_source = CCAP
  end.
Proof.
  destruct data_source; [|done].
  destruct (cleanse_data_clear_split df) as (rejected & -> & _ & _ & _ & Hr & _).
  split; [done|]. eapply Forall_impl; [exact Hr|]. intros r. simpl.
  destruct (str_contains "dryrun" _); [by left|]. intros [_ ?]. by right.
Qed.

(** X23: the labels [cleanse_data] leaves in [df_processed] hold no
    upper-case letter, and [dict_label] gives for each of them a cleaned
    label of the source that it is the lower-case form of; conversely the
    keys of [dict_label] are the labels of [df_processed], each being the
    lower-case form of its value.  The key of a record is the key of a
    record of the source. *)
Theorem dict_label_round_trip (data_source : DataSource) (df : list loaded_row) :
  (∀ r, r ∈ df_processed (cleanse_data unicode_nfd data_source df) →
     Forall (λ ch, Str.is_upper ch = false) (list_ascii_of_string (cs_label r))
     ∧ cs_key r ∈ ld_key <$> df
     ∧ ∃ v, dict_label (cleanse_data unicode_nfd data_source df) !! cs_label r = Some v
            ∧ Str.lower v = cs_label r)
  ∧ (∀ k v, dict_label (cleanse_data unicode_nfd data_source df) !! k = Some v →
       Str.lower v = k
       ∧ (∃ r0, r0 ∈ df ∧ v = process_label unicode_nfd data_source (ld_commercial r0))
       ∧ ∃ r, r ∈ df_processed (cleanse_data unicode_nfd data_source df)
              ∧ cs_label r = k).
Proof.
  destruct (cleanse_data_shape data_source df) as (K & -> & -> & Hsub & HK). split.
  - intros r (r1 & -> & Hr1)%list_elem_of_fmap. simpl. split; [apply lower_not_upper|].
    split.
    { eapply elem_of_sublist; [|exact Hsub]. by apply (list_elem_of_fmap_2 cs_key). }
    destruct (py_dict_lookup_is_Some
                ((λ r, (Str.lower (cs_label r), cs_label r)) <$> K)
                (Str.lower (cs_label r1))) as [v Hv].
    { rewrite <- list_fmap_compose. apply list_elem_of_fmap. by exists r1. }
    exists v. split; [done|].
    apply py_dict_lookup_Some, list_elem_of_fmap in Hv as (r2 & [= Hl ->] & _).
    done.
  - intros k v (r1 & [= -> ->] & Hr1)%py_dict_lookup_Some%list_elem_of_fmap.
    split; [done|]. split.
    + destruct (HK r1 Hr1) as (r0 & Hr0 & _ & Hl). by exists r0.
    + eexists. split; [apply list_elem_of_fmap; by exists r1|done].
Qed.

End driver.
(** * The driver: renaming the clusters *)

(** ** The order of the cluster identifiers *)

Lemma ascii_compare_refl c : Ascii.compare c c = Eq.
Proof. apply N.compare_refl. Qed.

Lemma string_compare_trans s1 : ∀ s2 s3,
  String.compare s1 s2 ≠ Gt → String.compare s2 s3 ≠ Gt →
  String.compare s1 s3 ≠ Gt.
Proof.
  induction s1 as [|c1 s1 IH]; intros [|c2 s2] [|c3 s3]; simpl; try done.
  destruct (Ascii.compare c1 c2) eqn:E12; [| |done];
    destruct (Ascii.compare c2 c3) eqn:E23; try done.
  - apply Ascii.compare_eq_iff in E12 as ->.
    apply Ascii.compare_eq_iff in E23 as ->.
    rewrite ascii_compare_refl. apply IH.
  - apply Ascii.compare_eq_iff in E12 as ->. by rewrite E23.
  - apply Ascii.compare_eq_iff in E23 as <-. by rewrite E12.
  - unfold Ascii.compare in *. apply N.compare_lt_iff in E12, E23.
    assert ((N_of_ascii c1 ?= N_of_ascii c3)%N = Lt) as ->; [|done].
    apply N.compare_lt_iff. by etrans.
Qed.

Global Instance str_le_trans : Transitive str_le.
Proof.
  intros s1 s2 s3. unfold str_le, String.leb.
  pose proof (string_compare_trans s1 s2 s3) as Ht.
  destruct (String.compare s1 s2); try done;
    destruct (String.compare s2 s3); try done;
    destruct (String.compare s1 s3); try done;
    intros _ _; by destruct Ht.
Qed.

Global Instance str_le_total : Total str_le.
Proof. intros s1 s2. apply String.leb_total. Qed.

Global Instance str_le_refl : Reflexive str_le.
Proof. intros s. by destruct (String.leb_total s s). Qed.

(** ** Groups of rows *)

Lemma bind_concat {A B} (f : A → list B) (l : list A) :
  l ≫= f = concat (f <$> l).
Proof.
  induction l as [|x l IH]; [done|].
  change ((x :: l) ≫= f) with (f x ++ (l ≫= f)). by rewrite IH.
Qed.

Lemma filter_elem_of_cons {A} (cid : A → option string) (c : string)
    (ks : list string) (df : list A) :
  c ∉ ks →
  filter (λ r, cid r ∈ Some <$> c :: ks) df
  ≡ₚ filter (λ r, cid r = Some c) df ++ filter (λ r, cid r ∈ Some <$> ks) df.
Proof.
  intros Hc. induction df as [|r df IH]; [done|].
  rewrite !filter_cons.
  destruct (decide (cid r = Some c)) as [Heq|Hne].
  - rewrite decide_True by (rewrite Heq; left).
    rewrite decide_False.
    + simpl. by rewrite IH.
    + rewrite Heq. intros (c' & [= <-] & Hc')%list_elem_of_fmap. done.
  - destruct (decide (cid r ∈ Some <$> ks)) as [Hin|Hnotin].
    + rewrite decide_True by (rewrite fmap_cons; by right).
      rewrite IH. by rewrite Permutation_middle.
    + rewrite decide_False; [done|].
      rewrite fmap_cons. by intros [?|?]%elem_of_cons.
Qed.

(** The groups of [groupby], one after the other, hold every row that has
    an identifier once. *)
Lemma groups_Permutation {A} (cid : A → option string) (df : list A) :
  concat (group_rows cid df <$> group_keys cid df)
  ≡ₚ filter (λ r, is_Some (cid r)) df.
Proof.
  unfold group_keys. rewrite merge_sort_Permutation.
  assert (∀ ks, NoDup ks →
            concat (group_rows cid df <$> ks)
            ≡ₚ filter (λ r, cid r ∈ Some <$> ks) df) as Hks.
  { induction ks as [|c ks IH]; intros Hnd.
    - simpl. induction df as [|r df IHdf]; [done|].
      rewrite filter_cons, decide_False; [done|]. by intros ?%elem_of_nil.
    - apply NoDup_cons in Hnd as [Hc Hnd].
      rewrite fmap_cons, filter_elem_of_cons by done. simpl.
      by rewrite IH. }
  rewrite Hks by apply NoDup_remove_dups.
  erewrite filter_ext_elem; [done|]. intros r Hr. split.
  - intros (c & -> & _)%list_elem_of_fmap. by eexists.
  - intros [c Hc]. rewrite Hc. apply list_elem_of_fmap_2.
    apply elem_of_remove_dups, list_elem_of_omap. by exists r.
Qed.

Lemma group_keys_elem_of {A} (cid : A → option string) (df : list A) c :
  c ∈ group_keys cid df ↔ ∃ r, r ∈ df ∧ cid r = Some c.
Proof.
  unfold group_keys. rewrite merge_sort_Permutation, elem_of_remove_dups.
  apply list_elem_of_omap.
Qed.

Lemma group_keys_sorted {A} (cid : A → option string) (df : list A) :
  StronglySorted str_le (group_keys cid df).
Proof. apply (StronglySorted_merge_sort str_le). Qed.

Lemma group_keys_fmap {A B} (f : A → B) (cid : B → option string) (df : list A) :
  group_keys cid (f <$> df) = group_keys (cid ∘ f) df.
Proof.
  unfold group_keys. do 2 f_equal.
  induction df as [|r df IH]; [done|].
  rewrite fmap_cons.
  change (omap cid (f r :: (f <$> df)))
    with (match cid (f r) with
          | Some c => c :: omap cid (f <$> df)
          | None => omap cid (f <$> df)
          end).
  rewrite IH. done.
Qed.

Lemma group_rows_fmap {A B} (f : A → B) (cid : B → option string) (df : list A) c :
  group_rows cid (f <$> df) c = f <$> group_rows (cid ∘ f) df c.
Proof.
  unfold group_rows. induction df as [|r df IH]; [done|].
  rewrite fmap_cons, !filter_cons. simpl.
  destruct (decide (cid (f r) = Some c)); by rewrite IH.
Qed.

Lemma fmap_Some_omap {A B} (f : A → option B) (l : list A) :
  Forall (λ x, is_Some (f x)) l → f <$> l = Some <$> omap f l.
Proof.
  induction 1 as [|x l [y Hy] _ IH]; [done|].
  rewrite fmap_cons, IH.
  change (omap f (x :: l))
    with (match f x with Some y => y :: omap f l | None => omap f l end).
  by rewrite Hy.
Qed.

Lemma zip_fmap_fmap {A B C} (f : A → B) (g : A → C) (l : list A) :
  zip (f <$> l) (g <$> l) = (λ x, (f x, g x)) <$> l.
Proof. induction l as [|x l IH]; [done|]. rewrite !fmap_cons. simpl. by rewrite IH. Qed.

(** Blocks of equal keys, the keys being sorted. *)
Lemma blocks_sorted {A} (ks : list string) (block : string → list A) :
  StronglySorted str_le ks →
  StronglySorted str_le (concat ((λ c, (λ _, c) <$> block c) <$> ks)).
Proof.
  induction 1 as [|c ks Hks IH Hc]; [constructor|].
  rewrite fmap_cons. simpl. apply StronglySorted_app_2.
  - intros x1 x2 (_ & -> & _)%list_elem_of_fmap
      (l & Hx2 & (c' & -> & Hc')%list_elem_of_fmap)%elem_of_concat.
    apply list_elem_of_fmap in Hx2 as (_ & -> & _).
    by apply (proj1 (Forall_forall _ _) Hc).
  - induction (block c) as [|x l IHl]; [constructor|].
    rewrite fmap_cons. constructor; [done|].
    apply Forall_forall. by intros y (z & -> & Hz)%list_elem_of_fmap.
  - done.
Qed.

Lemma fmap_id_elem {A} (f : A → A) (l : list A) :
  (∀ x, x ∈ l → f x = x) → f <$> l = l.
Proof.
  induction l as [|x l IH]; intros Hf; [done|].
  rewrite fmap_cons, Hf, IH; [done| |by left]. intros y Hy. apply Hf. by right.
Qed.

Lemma filter_nil_elem {A} (P : A → Prop) `{∀ x, Decision (P x)} (l : list A) :
  (∀ x, x ∈ l → ¬ P x) → filter P l = [].
Proof.
  induction l as [|x l IH]; intros HP; [done|].
  rewrite filter_cons, decide_False by (apply HP; by left).
  apply IH. intros y Hy. apply HP. by right.
Qed.

Lemma group_keys_NoDup {A} (cid : A → option string) (df : list A) :
  NoDup (group_keys cid df).
Proof. unfold group_keys. rewrite merge_sort_Permutation. apply NoDup_remove_dups. Qed.

(** A group is found again among the groups put one after the other. *)
Lemma group_rows_concat {A} (cid : A → option string) (df : list A) (ks : list string) c :
  NoDup ks → (c ∉ ks → group_rows cid df c = []) →
  group_rows cid (concat (group_rows cid df <$> ks)) c = group_rows cid df c.
Proof.
  intros Hnd. induction ks as [|c' ks IH]; intros Hc.
  { by rewrite Hc by apply not_elem_of_nil. }
  apply NoDup_cons in Hnd as [Hc' Hnd].
  rewrite fmap_cons. simpl. unfold group_rows at 1. rewrite filter_app.
  fold (group_rows cid (group_rows cid df c') c).
  fold (group_rows cid (concat (group_rows cid df <$> ks)) c).
  destruct (decide (c = c')) as [->|Hne].
  - assert (group_rows cid (concat (group_rows cid df <$> ks)) c' = []) as ->.
    { apply (filter_nil_elem (λ r, cid r = Some c')).
      intros r (l & Hr & (k & -> & Hk)%list_elem_of_fmap)%elem_of_concat Heq.
      apply list_elem_of_filter in Hr as [Hr _]. congruence. }
    rewrite app_nil_r. unfold group_rows. by apply list_filter_filter_l.
  - assert (group_rows cid (group_rows cid df c') c = []) as ->.
    { apply (filter_nil_elem (λ r, cid r = Some c)).
      intros r [Hr _]%list_elem_of_filter Heq. congruence. }
    apply IH; [done|]. intros Hnotin. apply Hc.
    by intros [?|?]%elem_of_cons.
Qed.

(** ** [rename_clusters] *)

Lemma mapM_Some_strings (ss : list string) :
  mapM (λ x : option string,
          match x with
          | Some s => Ok s
          | None => Raise (AttributeError "'float' object has no attribute 'lower'")
          end) (Some <$> ss)
  = Ok ss.
Proof. induction ss as [|s ss IH]; [done|]. rewrite fmap_cons. simpl. by rewrite IH. Qed.

Lemma common_words_Some (ss : list string) :
  common_words (Some <$> ss) = find_common_words_with_order ss.
Proof. unfold common_words. by rewrite mapM_Some_strings. Qed.

Lemma mapM_None_strings (l : list (option string)) :
  None ∈ l →
  mapM (λ x : option string,
          match x with
          | Some s => Ok s
          | None => Raise (AttributeError "'float' object has no attribute 'lower'")
          end) l
  = Raise (AttributeError "'float' object has no attribute 'lower'").
Proof.
  induction l as [|[s|] l IH]; [by intros ?%elem_of_nil| |done].
  intros [?|Hin]%elem_of_cons; [done|]. simpl. by rewrite (IH Hin).
Qed.

Lemma common_words_None (l : list (option string)) :
  None ∈ l →
  common_words l = Raise (AttributeError "'float' object has no attribute 'lower'").
Proof. intros Hin. unfold common_words. by rewrite mapM_None_strings. Qed.

Lemma find_common_words_ok (ss : list string) :
  ss ≠ [] → ∃ w, find_common_words_with_order ss = Ok w.
Proof. destruct ss as [|s ss]; [done|]. intros _. by eexists. Qed.

Lemma mapM_result_first_raise {A B} (f : A → result B) (l : list A) e :
  (∀ x, x ∈ l → (∃ y, f x = Ok y) ∨ f x = Raise e) →
  (∃ x, x ∈ l ∧ f x = Raise e) →
  mapM f l = Raise e.
Proof.
  induction l as [|x l IH]; intros Hall (x0 & Hx0 & He).
  { by apply elem_of_nil in Hx0. }
  simpl. destruct (Hall x) as [[y Hy]| ->]; [by left| |done].
  rewrite Hy. simpl. rewrite IH; [done| |].
  - intros z Hz. apply Hall. by right.
  - apply elem_of_cons in Hx0 as [->|Hx0]; [congruence|]. by exists x0.
Qed.

Lemma option_list_cases {A} (l : list (option A)) :
  None ∈ l ∨ ∃ k, l = Some <$> k.
Proof.
  induction l as [|[x|] l [IH|[k ->]]].
  - right. by exists [].
  - left. by right.
  - right. by exists (x :: k).
  - left. by left.
  - left. by left.
Qed.

Section rename_clusters_facts.

Variable dict_label : gmap string string.

Implicit Types (df : list output_row) (c : string).

Lemma rename_clusters_merged data_source rejected df :
  (∀ r, r ∈ df → is_Some (o_cluster_id r) → is_Some (labelpro_of dict_label r)) →
  let word := λ c,
    match find_common_words_with_order (cluster_labels dict_label df c) with
    | Ok w => w
    | Raise _ => ""
    end in
  let merged :=
    concat ((λ c, (λ r, FinalRow (Some (postprocess_final_label (Some (word c))))
                          (Some c) (o_key r) (o_label r) (o_cluster_size r)
                          (Some (postprocess_final_label (labelpro_of dict_label r)))
                          None)
                    <$> group_rows o_cluster_id df c)
              <$> group_keys o_cluster_id df) in
  rename_clusters data_source dict_label rejected df
  = match data_source with
    | CCAP => Ok merged
    | CLEAR =>
        match rejected with
        | Some rejected => Ok (merged ++ (reinjected <$> rejected))
        | None =>
            Raise (AttributeError
                     "'DataProcessor' object has no attribute 'rejected_data_df'")
        end
    end.
Proof.
  intros Hlp word merged. unfold rename_clusters.
  rewrite group_keys_fmap.
  change (group_keys (_ ∘ _) df) with (group_keys o_cluster_id df).
  assert (∀ c, group_rows (λ rl : output_row * option string, o_cluster_id rl.1)
                 ((λ r, (r, labelpro_of dict_label r)) <$> df) c
               = (λ r, (r, labelpro_of dict_label r)) <$> group_rows o_cluster_id df c)
    as Hgroup.
  { intros c. by rewrite group_rows_fmap. }
  change ((λ r : output_row, (r, o_label r ≫= λ l : string, dict_label !! l)) <$> df)
    with ((λ r, (r, labelpro_of dict_label r)) <$> df).
  assert (∀ c, c ∈ group_keys o_cluster_id df →
            common_words
              (group_rows (λ rl : output_row * option string, o_cluster_id rl.1)
                 ((λ r, (r, labelpro_of dict_label r)) <$> df) c).*2
            = Ok (word c)) as Hwords.
  { intros c (r & Hr & Hc)%group_keys_elem_of.
    rewrite Hgroup, <- list_fmap_compose.
    rewrite (fmap_Some_omap (labelpro_of dict_label)).
    - rewrite common_words_Some. unfold word.
      fold (cluster_labels dict_label df c).
      destruct (find_common_words_ok (cluster_labels dict_label df c)) as [w Hw].
      { destruct (Hlp r Hr) as [lp Hlp']; [by rewrite Hc|].
        intros Hnil.
        assert (lp ∈ cluster_labels dict_label df c) as Hin.
        { apply list_elem_of_omap. exists r. split; [|done].
          by apply list_elem_of_filter. }
        rewrite Hnil in Hin. by apply elem_of_nil in Hin. }
      by rewrite Hw.
    - apply Forall_forall. intros r' [Hc' Hr']%list_elem_of_filter.
      apply Hlp; [done|]. by rewrite Hc'. }
  rewrite (mapM_result_ok _ (λ cl, word cl.1)).
  2: { intros cl (c & -> & Hc)%list_elem_of_fmap. by apply Hwords. }
  change (Ok ?x ≫= ?f) with (f x). cbv beta.
  rewrite <- !list_fmap_compose, zip_fmap_fmap, list_fmap_bind, bind_concat.
  assert (∀ A (l l' : list A), l = l' → ∀ k, l ++ k = l' ++ k) as Happ
    by (by intros A l l' ->).
  assert (concat
            ((λ '(c, final_label),
                (λ rl : output_row * option string,
                   FinalRow (Some final_label) (Some c) (o_key rl.1) (o_label rl.1)
                     (o_cluster_size rl.1) (Some (postprocess_final_label rl.2))
                     None)
                  <$> group_rows (λ rl : output_row * option string, o_cluster_id rl.1)
                        ((λ r, (r, labelpro_of dict_label r)) <$> df) c)
             ∘ (λ c, (c, postprocess_final_label (Some (word c))))
             <$> group_keys o_cluster_id df)
          = merged) as Hmerged.
  { unfold merged. f_equal. apply list_fmap_ext. intros _ c _. simpl.
    by rewrite Hgroup, <- list_fmap_compose. }
  destruct data_source; [destruct rejected|]; try done.
  - f_equal. by apply Happ.
  - by f_equal.
Qed.

Lemma merged_parts (F : string → output_row → final_row) (ks : list string) df :
  (∀ c r, clustered_part (F c r)
          = OutputRow (o_key r) (o_label r) (Some c) (o_cluster_size r)) →
  clustered_part <$> concat ((λ c, F c <$> group_rows o_cluster_id df c) <$> ks)
  = concat (group_rows o_cluster_id df <$> ks).
Proof.
  intros HF. induction ks as [|c ks IH]; [done|].
  rewrite !fmap_cons. simpl. rewrite fmap_app, IH. f_equal.
  rewrite <- list_fmap_compose. apply fmap_id_elem.
  intros [k l i n] [Hc _]%list_elem_of_filter. simpl in *.
  rewrite HF. simpl. by rewrite Hc.
Qed.

Lemma merged_ids (F : string → output_row → final_row) (ks : list string) df :
  (∀ c r, f_cluster_id (F c r) = Some c) →
  omap f_cluster_id (concat ((λ c, F c <$> group_rows o_cluster_id df c) <$> ks))
  = concat ((λ c, (λ _, c) <$> group_rows o_cluster_id df c) <$> ks).
Proof.
  intros HF. induction ks as [|c ks IH]; [done|].
  rewrite !fmap_cons. simpl. rewrite omap_app, IH. f_equal.
  induction (group_rows o_cluster_id df c) as [|r l IHl]; [done|].
  rewrite !fmap_cons.
  change (omap f_cluster_id (F c r :: (F c <$> l)))
    with (match f_cluster_id (F c r) with
          | Some y => y :: omap f_cluster_id (F c <$> l)
          | None => omap f_cluster_id (F c <$> l)
          end).
  by rewrite HF, IHl.
Qed.

(** A cluster of which every member has a label to show has a label. *)
Lemma cluster_word df c :
  (∀ r, r ∈ df → is_Some (o_cluster_id r) → is_Some (labelpro_of dict_label r)) →
  c ∈ group_keys o_cluster_id df →
  ∃ w, find_common_words_with_order (cluster_labels dict_label df c) = Ok w.
Proof.
  intros Hlp (r & Hr & Hc)%group_keys_elem_of.
  apply find_common_words_ok.
  destruct (Hlp r Hr) as [lp Hlp']; [by rewrite Hc|].
  intros Hnil.
  assert (lp ∈ cluster_labels dict_label df c) as Hin.
  { apply list_elem_of_omap. exists r. split; [|done].
    by apply list_elem_of_filter. }
  rewrite Hnil in Hin. by apply elem_of_nil in Hin.
Qed.

(** X24: on a frame in which some record has a cluster, and every record
    that has one has a label known to [dict_label], [rename_clusters]
    returns.  The frame it leaves holds the
    records that have a cluster, each once, and no other (but the rejected
    records of the source CLEAR, appended as they were set aside); they come
    cluster by cluster in the order of the identifiers as strings, in the
    order of the frame within a cluster.  Key, label, cluster and size of a
    record are unchanged; the records of a cluster share their
    [final_label], which is the common-word label of the members' labels as
    [dict_label] gives them, post-processed. *)
Theorem rename_clusters_spec (data_source : DataSource)
    (rejected : option (list cleansed_row)) (df : list output_row) :
  (∃ r, r ∈ df ∧ is_Some (o_cluster_id r)) →
  (∀ r, r ∈ df → is_Some (o_cluster_id r) → is_Some (labelpro_of dict_label r)) →
  (data_source = CLEAR → is_Some rejected) →
  ∃ merged,
    rename_clusters data_source dict_label rejected df
    = Ok (merged ++ match data_source with
                    | CLEAR => reinjected <$> default [] rejected
                    | CCAP => []
                    end)
    ∧ clustered_part <$> merged ≡ₚ filter (λ r, is_Some (o_cluster_id r)) df
    ∧ StronglySorted str_le (omap f_cluster_id merged)
    ∧ (∀ c, group_rows o_cluster_id (clustered_part <$> merged) c
            = group_rows o_cluster_id df c)
    ∧ Forall (λ f, ∃ c w,
                f_cluster_id f = Some c
                ∧ find_common_words_with_order (cluster_labels dict_label df c) = Ok w
                ∧ final_label f = Some (postprocess_final_label (Some w))
                ∧ labelpro f
                  = Some (postprocess_final_label
                            (labelpro_of dict_label (clustered_part f)))
                ∧ f_reject f = None)
             merged.
Proof.
  intros _ Hlp Hrej. rewrite rename_clusters_merged by done. cbv zeta.
  eexists. split_and!.
  - destruct data_source; [|by rewrite app_nil_r].
    by destruct Hrej as [rej ->].
  - rewrite merged_parts by done. apply groups_Permutation.
  - rewrite merged_ids by done. apply blocks_sorted, group_keys_sorted.
  - intros c. rewrite merged_parts by done.
    apply group_rows_concat; [apply group_keys_NoDup|].
    intros Hc. apply (filter_nil_elem (λ r, o_cluster_id r = Some c)).
    intros r Hr Heq. apply Hc, group_keys_elem_of. by exists r.
  - apply Forall_forall.
    intros f (l & Hf & (c & -> & Hc)%list_elem_of_fmap)%elem_of_concat.
    apply list_elem_of_fmap in Hf as (r & -> & Hr).
    destruct (cluster_word df c Hlp Hc) as [w Hw].
    exists c, w. rewrite Hw. by split_and!.
Qed.

(** X25: a record that has a cluster but whose label is null, or is no key
    of [dict_label], makes [rename_clusters] raise the [AttributeError] of
    [find_common_words_with_order] meeting a NaN, whatever the source. *)
Theorem rename_clusters_missing_label (data_source : DataSource)
    (rejected : option (list cleansed_row)) (df : list output_row) (r : output_row) :
  r ∈ df → is_Some (o_cluster_id r) → labelpro_of dict_label r = None →
  rename_clusters data_source dict_label rejected df
  = Raise (AttributeError "'float' object has no attribute 'lower'").
Proof.
  intros Hr [c Hc] Hlp. unfold rename_clusters.
  rewrite (mapM_result_first_raise _ _
             (AttributeError "'float' object has no attribute 'lower'")); [done| |].
  - intros cl (c' & -> & Hc')%list_elem_of_fmap. cbn [snd].
    destruct (option_list_cases
                (group_rows (λ rl : output_row * option string, o_cluster_id rl.1)
                   ((λ r, (r, o_label r ≫= λ l, dict_label !! l)) <$> df) c').*2)
      as [Hnone|[k Hk]].
    + right. by apply common_words_None.
    + left. rewrite Hk, common_words_Some. apply find_common_words_ok.
      intros ->. apply group_keys_elem_of in Hc' as (rl & Hrl & Hcid).
      assert (rl.2 ∈ (group_rows
                        (λ rl : output_row * option string, o_cluster_id rl.1)
                        ((λ r, (r, o_label r ≫= λ l, dict_label !! l)) <$> df) c').*2)
        as Hin.
      { apply list_elem_of_fmap_2. by apply list_elem_of_filter. }
      rewrite Hk in Hin. by apply elem_of_nil in Hin.
  - eexists (c, _). split.
    + apply list_elem_of_fmap. exists c. split; [done|].
      apply group_keys_elem_of. exists (r, labelpro_of dict_label r).
      split; [|done].
      by apply (list_elem_of_fmap_2 (λ r, (r, labelpro_of dict_label r))).
    + cbn [snd]. apply common_words_None.
      apply list_elem_of_fmap. exists (r, None). split; [done|].
      apply list_elem_of_filter. split; [done|].
      apply list_elem_of_fmap. exists r. split; [|done]. f_equal.
      symmetry. exact Hlp.
Qed.

End rename_clusters_facts.
(** * The driver: the whole of [process] *)

Section process_facts.

Variable unicode_nfd : list N → list N.
Variable sim : MatchingAlgorithm → string → string → Q.
Variable rnd : nat → nat.

(** The frame [cluster_data] works on has a label in every row. *)
Lemma elem_of_main_frame (K : list cleansed_row) r :
  r ∈ main_frame K ↔ ∃ k, k ∈ K ∧ r = MainRow (cs_key k) (Some (cs_label k)).
Proof.
  unfold main_frame. rewrite list_elem_of_fmap. split; intros (k & ? & ?); eauto.
Qed.

Lemma process_run data_source read_function df t algs w :
  load_data data_source read_function = Ok df → algs ≠ [] →
  let c := cleanse_data unicode_nfd data_source df in
  let W := working_frame (main_frame (df_processed c)) in
  let pairs := qualifying_pairs sim W algs t in
  pairs ≠ [] →
  process unicode_nfd sim rnd data_source read_function t (Member <$> algs) w
  = (rename_clusters data_source (dict_label c) (rejected_data_df c)
       (annotate (result_frame rnd W pairs (draws w)) (main_frame (df_processed c))),
     World (draws w + 6 * (length pairs + length (unmatched_rows W pairs)))
           (scored w ++ all_calls algs (label_pairs W))).
Proof.
  intros Hload Halgs c W pairs Hpairs. unfold process.
  rewrite M_bind_run. unfold lift at 1. rewrite Hload.
  rewrite M_bind_run. unfold pairs, W, c in *.
  by rewrite (cluster_data_ok sim rnd _ t algs w Halgs Hpairs).
Qed.

(** Every record [cluster_data] returns in the pipeline has a cluster, a
    size and a label that [dict_label] knows. *)
Lemma clustered_rows data_source df t algs d o :
  let c := cleanse_data unicode_nfd data_source df in
  let W := working_frame (main_frame (df_processed c)) in
  o ∈ annotate (result_frame rnd W (qualifying_pairs sim W algs t) d)
        (main_frame (df_processed c)) →
  (∃ i, o_cluster_id o = Some (cluster_name i))
  ∧ is_Some (o_cluster_size o)
  ∧ is_Some (labelpro_of (dict_label c) o).
Proof.
  intros c W (r & Hr & _ & Hl & Hc & Hs)%elem_of_annotate.
  pose proof (row_cluster_Some sim rnd _ t algs d r Hr) as Hcluster.
  apply elem_of_main_frame in Hr as (k & Hk & ->). simpl in *.
  destruct Hcluster as [i Hi]. fold c W in Hi.
  split; [exists i; by rewrite Hc|]. split.
  - rewrite Hs, Hi. by eexists.
  - unfold labelpro_of. rewrite Hl. simpl. by apply dict_label_defined.
Qed.

(** The frame [process] returns, written out. *)
Lemma process_merged data_source read_function df t algs w :
  load_data data_source read_function = Ok df → algs ≠ [] →
  let c := cleanse_data unicode_nfd data_source df in
  let W := working_frame (main_frame (df_processed c)) in
  let pairs := qualifying_pairs sim W algs t in
  let out := annotate (result_frame rnd W pairs (draws w))
               (main_frame (df_processed c)) in
  let word := λ c',
    match find_common_words_with_order (cluster_labels (dict_label c) out c') with
    | Ok w => w
    | Raise _ => ""
    end in
  pairs ≠ [] →
  process unicode_nfd sim rnd data_source read_function t (Member <$> algs) w
  = (Ok (concat
           ((λ c', (λ r, FinalRow (Some (postprocess_final_label (Some (word c'))))
                           (Some c') (o_key r) (o_label r) (o_cluster_size r)
                           (Some (postprocess_final_label
                                    (labelpro_of (dict_label c) r)))
                           None)
                     <$> group_rows o_cluster_id out c')
              <$> group_keys o_cluster_id out)
         ++ (reinjected <$> default [] (rejected_data_df c))),
     World (draws w + 6 * (length pairs + length (unmatched_rows W pairs)))
           (scored w ++ all_calls algs (label_pairs W))).
Proof.
  intros Hload Halgs c W pairs out word Hpairs.
  rewrite (process_run data_source read_function df t algs w Hload Halgs Hpairs).
  fold c W pairs out. f_equal.
  rewrite rename_clusters_merged.
  - cbv zeta. fold word.
    pose proof (cleanse_data_rejected unicode_nfd data_source df) as Hrej.
    fold c in Hrej. destruct (rejected_data_df c) as [rejected|].
    + by destruct Hrej as [-> _].
    + rewrite Hrej. simpl. by rewrite app_nil_r.
  - intros r Hr _. by apply (clustered_rows data_source df t algs (draws w)).
Qed.

Lemma elem_of_merged (F : string → output_row → final_row) (out : list output_row) f :
  f ∈ concat ((λ c, F c <$> group_rows o_cluster_id out c)
                <$> group_keys o_cluster_id out) →
  ∃ c r, r ∈ out ∧ o_cluster_id r = Some c ∧ f = F c r.
Proof.
  intros (l & Hf & (c & -> & _)%list_elem_of_fmap)%elem_of_concat.
  apply list_elem_of_fmap in Hf as (r & -> & [Hc Hr]%list_elem_of_filter).
  by exists c, r.
Qed.

(** X26: [process] returns exactly when the file is read and has a row at
    least, the algorithms are members of the enumeration, one at least, and
    at least one pair of distinct cleaned labels qualifies: once the
    clustering has returned, renaming the clusters cannot fail.  When the
    file cannot be loaded, the [ValueError] of [load_data] comes out and
    no label is scored and no identifier drawn. *)
Theorem process_returns (data_source : DataSource)
    (read_function : result (list source_row)) (t : Q)
    (algos : list algorithm_id) (w : world) :
  (is_ok (process unicode_nfd sim rnd data_source read_function t algos w).1 = true
   ↔ ∃ df algs,
       load_data data_source read_function = Ok df
       ∧ algos = Member <$> algs ∧ algs ≠ []
       ∧ qualifying_pairs sim
           (working_frame
              (main_frame (df_processed (cleanse_data unicode_nfd data_source df))))
           algs t ≠ [])
  ∧ (∀ e, load_data data_source read_function = Raise e →
       process unicode_nfd sim rnd data_source read_function t algos w = (Raise e, w)).
Proof.
  split.
  - split.
    + unfold process. rewrite M_bind_run. unfold lift at 1.
      destruct (load_data data_source read_function) as [df|e] eqn:Hload; [|done].
      rewrite M_bind_run.
      destruct (cluster_data sim rnd _ t algos w) as [[out|e] w'] eqn:Hrun; [|done].
      intros _.
      destruct (cluster_data_inv sim rnd _ t algos w out w' Hrun)
        as (algs & -> & Halgs & Hpairs).
      by exists df, algs.
    + intros (df & algs & Hload & -> & Halgs & Hpairs).
      by rewrite (process_merged data_source read_function df t algs w Hload Halgs
                    Hpairs).
  - intros e Hload. unfold process. rewrite M_bind_run. unfold lift at 1.
    by rewrite Hload.
Qed.

(** X27: when [process] returns, every record of the file is in the frame
    it leaves, once: the records kept by the cleansing, each with a
    cluster [cluster_i], its size, a [final_label] and a [labelpro], then
    (for the source CLEAR) the rejected records, with their reason and
    neither cluster nor final label.  Two records of the same cluster
    have the same [final_label]. *)
Theorem process_result (data_source : DataSource)
    (read_function : result (list source_row)) (df : list loaded_row) (t : Q)
    (algs : list MatchingAlgorithm) (w : world) :
  load_data data_source read_function = Ok df → algs ≠ [] →
  qualifying_pairs sim
    (working_frame
       (main_frame (df_processed (cleanse_data unicode_nfd data_source df))))
    algs t ≠ [] →
  ∃ out w',
    process unicode_nfd sim rnd data_source read_function t (Member <$> algs) w
    = (Ok out, w')
    ∧ f_key <$> out ≡ₚ seq 0 (length df)
    ∧ Forall (λ f, match f_reject f with
                   | None =>
                       (∃ i, f_cluster_id f = Some (cluster_name i))
                       ∧ is_Some (f_cluster_size f)
                       ∧ is_Some (final_label f) ∧ is_Some (labelpro f)
                   | Some reason =>
                       data_source = CLEAR
                       ∧ (reason = "DRYRUN" ∨ reason = "NE PLUS UTILISER")
                       ∧ f_cluster_id f = None ∧ final_label f = None
                   end) out
    ∧ (∀ f f', f ∈ out → f' ∈ out → is_Some (f_cluster_id f) →
         f_cluster_id f = f_cluster_id f' → final_label f = final_label f').
Proof.
  intros Hload Halgs Hpairs. eexists _, _.
  split; [by apply process_merged|].
  set (c := cleanse_data unicode_nfd data_source df).
  set (W := working_frame (main_frame (df_processed c))).
  set (out := annotate (result_frame rnd W (qualifying_pairs sim W algs t) (draws w))
                (main_frame (df_processed c))).
  set (word := λ c',
         match find_common_words_with_order (cluster_labels (dict_label c) out c') with
         | Ok w => w
         | Raise _ => ""
         end).
  set (F := λ c' r,
         FinalRow (Some (postprocess_final_label (Some (word c')))) (Some c')
           (o_key r) (o_label r) (o_cluster_size r)
           (Some (postprocess_final_label (labelpro_of (dict_label c) r))) None).
  assert (∀ o, o ∈ out →
            (∃ i, o_cluster_id o = Some (cluster_name i))
            ∧ is_Some (o_cluster_size o)
            ∧ is_Some (labelpro_of (dict_label c) o)) as Hout.
  { intros o. apply clustered_rows. }
  split_and!.
  - rewrite fmap_app, <- (proj2 (load_data_keys _ _ _ Hload)).
    rewrite <- (cleanse_data_keys unicode_nfd data_source df). fold c.
    apply Permutation_app.
    + change f_key with (o_key ∘ clustered_part).
      rewrite list_fmap_compose, merged_parts by done.
      rewrite groups_Permutation, filter_all.
      * unfold out. rewrite annotate_keys. unfold main_frame.
        by rewrite <- list_fmap_compose.
      * intros o [[i Hi] _]%Hout. by rewrite Hi.
    + by rewrite <- list_fmap_compose.
  - apply Forall_app. split.
    + apply Forall_forall. intros f (c' & r & Hr & Hc & ->)%elem_of_merged.
      simpl. destruct (Hout r Hr) as ([i Hi] & Hsize & _).
      split_and!; [|done|by eexists..]. exists i. congruence.
    + apply Forall_fmap, Forall_forall. intros r Hr. simpl.
      pose proof (cleanse_data_rejected unicode_nfd data_source df) as Hrej.
      fold c in Hrej. destruct (rejected_data_df c) as [rejected|]; simpl in Hr.
      * destruct Hrej as [-> Hrej].
        apply (proj1 (Forall_forall _ _) Hrej) in Hr as [-> | ->]; auto.
      * by apply elem_of_nil in Hr.
  - intros f f' Hf Hf' [c' Hc'] Heq.
    assert (∀ g, g ∈ concat ((λ c', F c' <$> group_rows o_cluster_id out c')
                               <$> group_keys o_cluster_id out)
                     ++ (reinjected <$> default [] (rejected_data_df c)) →
                 f_cluster_id g = Some c' → g = F c' (clustered_part g)) as Hg.
    { intros g [Hg|Hg]%elem_of_app Hc.
      - apply elem_of_merged in Hg as (c2 & r & _ & _ & ->). simpl in *.
        by injection Hc as ->.
      - by apply list_elem_of_fmap in Hg as (r & -> & _). }
    rewrite (Hg f Hf Hc'), (Hg f' Hf'); [done|]. by rewrite <- Heq.
Qed.

End process_facts.

(** * Examples for the further properties *)

Lemma scoring_cost_witness :
  ∃ r w',
    create_matched_dataframe sample_similarity sample_draws chain_frame (1 # 2)
      (Member <$> [LEVENSHTEIN; JACCARD]) start = (r, w')
    ∧ (2 * length (scored w')
       = 2 * length (scored start)
         + length [LEVENSHTEIN; JACCARD]
           * (length (unique_labels (working_frame chain_frame))
              * (length (unique_labels (working_frame chain_frame)) - 1)))%nat
    ∧ (is_ok r = false → draws w' = draws start)
    ∧ (is_ok r = true
       ↔ qualifying_pairs sample_similarity (working_frame chain_frame)
           [LEVENSHTEIN; JACCARD] (1 # 2) ≠ []).
Proof.
  apply (scoring_cost sample_similarity sample_draws chain_frame (1 # 2)
           [LEVENSHTEIN; JACCARD] start); [done|vm_compute; lia].
Defined.

Lemma matched_frame_rows_witness :
  ∃ R w',
    create_matched_dataframe sample_similarity sample_draws chain_frame (1 # 2)
      (Member <$> [LEVENSHTEIN]) start = (Ok R, w')
    ∧ length R
      = (2 * length (qualifying_pairs sample_similarity (working_frame chain_frame)
                       [LEVENSHTEIN] (1 # 2))
         + length (unmatched_rows (working_frame chain_frame)
                     (qualifying_pairs sample_similarity (working_frame chain_frame)
                        [LEVENSHTEIN] (1 # 2))))%nat
    ∧ draws w'
      = (draws start
         + 6 * (length (qualifying_pairs sample_similarity (working_frame chain_frame)
                          [LEVENSHTEIN] (1 # 2))
                + length (unmatched_rows (working_frame chain_frame)
                            (qualifying_pairs sample_similarity
                               (working_frame chain_frame) [LEVENSHTEIN] (1 # 2)))))%nat
    ∧ (∀ l, Some l ∈ label <$> chain_frame →
         length (rows_of_label R l)
         = Nat.max 1 (length (pairs_of_label
                                (qualifying_pairs sample_similarity
                                   (working_frame chain_frame) [LEVENSHTEIN] (1 # 2)) l)))
    ∧ (∀ r, r ∈ R → Some (c_label r) ∈ label <$> chain_frame).
Proof.
  apply (matched_frame_rows sample_similarity sample_draws chain_frame (1 # 2)
           [LEVENSHTEIN] start); [done|vm_compute; discriminate].
Defined.

Lemma matched_frame_first_records_witness :
  ∃ R w',
    create_matched_dataframe sample_similarity sample_draws chain_frame (1 # 2)
      [Member LEVENSHTEIN] start = (Ok R, w')
    ∧ Forall (λ r, (∃ i, first_record chain_frame i (c_key r) (c_label r))
                   ∧ String.length (c_cluster_id r) = 6%nat
                   ∧ Forall (λ c, Str.is_alnum c = true)
                            (list_ascii_of_string (c_cluster_id r))) R.
Proof.
  eexists _, _. split; [vm_compute; reflexivity|].
  eapply (matched_frame_first_records sample_similarity sample_draws chain_frame
            (1 # 2) [Member LEVENSHTEIN] start).
  vm_compute. reflexivity.
Defined.

Lemma low_threshold_single_cluster_witness :
  ∃ out w' c,
    cluster_data constant_similarity sample_draws chain_frame (1 # 2)
      (Member <$> [LEVENSHTEIN]) start = (Ok out, w')
    ∧ (∀ o, o ∈ out →
         match o_label o with
         | Some _ => o_cluster_id o = Some c
                     ∧ o_cluster_size o = Some (length (labelled chain_frame))
         | None => o_cluster_id o = None
         end)
    ∧ cluster_count out = 1%nat.
Proof.
  apply (low_threshold_single_cluster constant_similarity sample_draws chain_frame
           (1 # 2) [LEVENSHTEIN] start).
  - done.
  - vm_compute. lia.
  - intros a b. vm_compute. discriminate.
Defined.

Lemma unmatched_label_own_cluster_witness :
  ∃ out w',
    cluster_data sample_similarity sample_draws chain_frame (1 # 2)
      (Member <$> [LEVENSHTEIN]) start = (Ok out, w')
    ∧ Forall (λ o1, o_label o1 = Some "zzzz" →
                o_cluster_size o1
                = Some (length (filter (λ r, label r = Some "zzzz") chain_frame))
                ∧ Forall (λ o2, o_cluster_id o1 = o_cluster_id o2
                                ↔ o_label o2 = Some "zzzz") out) out.
Proof.
  eexists _, _. split; [vm_compute; reflexivity|].
  eapply (unmatched_label_own_cluster sample_similarity sample_draws chain_frame
            (1 # 2) [LEVENSHTEIN] start).
  - vm_compute. reflexivity.
  - by_decide.
  - by_decide.
  - vm_compute. reflexivity.
Defined.

Lemma process_clusters_ties_witness :
  ∃ out,
    process_clusters bridge_frame bridge_main = Ok out
    ∧ ∀ o1 o2 r1 r2, o1 ∈ out → o2 ∈ out → r1 ∈ bridge_frame → r2 ∈ bridge_frame →
        o_label o1 = Some (c_label r1) → o_label o2 = Some (c_label r2) →
        (o_cluster_id o1 = o_cluster_id o2 ↔ tied bridge_frame r1 r2).
Proof.
  apply (process_clusters_ties bridge_frame bridge_main).
  intros r1 r2 H1 H2.
  repeat (apply elem_of_cons in H1 as [->|H1]);
    try (by apply elem_of_nil in H1);
    repeat (apply elem_of_cons in H2 as [->|H2]);
    try (by apply elem_of_nil in H2); by vm_compute.
Defined.

(** The frame of the last example: the key 1 joins the two provisional
    clusters [p] and [q]; the label [e] is on no row of the clustered
    frame. *)
Example bridge_clusters :
  process_clusters bridge_frame bridge_main
  = Ok [OutputRow 0 (Some "a") (Some "cluster_0") (Some 3%nat);
        OutputRow 1 (Some "b") (Some "cluster_0") (Some 3%nat);
        OutputRow 2 (Some "c") (Some "cluster_0") (Some 3%nat);
        OutputRow 3 (Some "d") (Some "cluster_1") (Some 1%nat);
        OutputRow 4 (Some "e") None None;
        OutputRow 5 None None None].
Proof. vm_compute. reflexivity. Qed.

Lemma common_words_members_witness :
  ∃ words words',
    find_common_words_with_order ("Rotation Benne 10 m3" :: ["rotation benne 30 m3"])
    = Ok (Str.join " " words)
    ∧ find_common_words_with_order
        ("Rotation Benne 10 m3"
           :: ["BENNE m3"; "rotation benne 30 m3"; "BENNE m3"])
      = Ok (Str.join " " words')
    ∧ Str.split (Str.join " " words) = words
    ∧ Str.split (Str.join " " words') = words'
    ∧ words' `sublist_of` words
    ∧ ((∀ l, l ∈ ["BENNE m3"; "rotation benne 30 m3"; "BENNE m3"] →
             l ∈ "Rotation Benne 10 m3" :: ["rotation benne 30 m3"]) →
       words' = words).
Proof.
  apply (common_words_members "Rotation Benne 10 m3" ["rotation benne 30 m3"]
           ["BENNE m3"; "rotation benne 30 m3"; "BENNE m3"]).
  intros l Hl. apply list_elem_of_singleton in Hl as ->. in_list.
Defined.

Lemma normalize_text_idempotent_witness :
  Forall (λ c, seven_bit (N_of_ascii c))
         (normalize_text (λ l, l) (Some [66; 233; 110; 110; 101]%N))
  ∧ normalize_text (λ l, l)
      (Some (N_of_ascii <$> normalize_text (λ l, l) (Some [66; 233; 110; 110; 101]%N)))
    = normalize_text (λ l, l) (Some [66; 233; 110; 110; 101]%N)
  ∧ (Forall seven_bit (default [] (Some [66; 233; 110; 110; 101]%N)) →
     normalize_text (λ l, l) (Some [66; 233; 110; 110; 101]%N)
     = ascii_of_N <$> default [] (Some [66; 233; 110; 110; 101]%N)).
Proof.
  apply (normalize_text_idempotent (λ l, l) (Some [66; 233; 110; 110; 101]%N)).
  done.
Defined.

Lemma process_label_ccap_idempotent_witness :
  process_label_ccap (λ l, l)
    (Some (codes (process_label_ccap (λ l, l) (Some (codes "Bac 1,5 T (K12) - 30 l")))))
  = process_label_ccap (λ l, l) (Some (codes "Bac 1,5 T (K12) - 30 l")).
Proof.
  apply (process_label_ccap_idempotent (λ l, l) (Some (codes "Bac 1,5 T (K12) - 30 l"))).
  done.
Defined.

Lemma process_label_clear_idempotent_witness :
  process_label_clear (λ l, l)
    (Some (codes (process_label_clear (λ l, l) (Some (codes "Benne 10 m3, 30 l")))))
  = process_label_clear (λ l, l) (Some (codes "Benne 10 m3, 30 l")).
Proof.
  apply (process_label_clear_idempotent (λ l, l) (Some (codes "Benne 10 m3, 30 l"))).
  done.
Defined.

(** The labels of the last two examples, and their patterns. *)
Example clean_up_samples :
  process_label_ccap (λ l, l) (Some (codes "Bac 1,5 T (K12) - 30 l")) = "Bac X T K1X X l"
  ∧ process_label_clear (λ l, l) (Some (codes "Benne 10 m3, 30 l")) = "Benne xmx xL"
  ∧ generate_pattern (λ l, l) (Some (codes "Bac 1,5 T (K12)")) = "xxx 9,9 x (x99)"
  ∧ postprocess_final_label (Some "Benne xmx 30 Litres ZX") = "Benne Xm3 30 L".
Proof. repeat split; vm_compute; reflexivity. Qed.

Lemma dq_frame_well_formed : well_formed dq_frame.
Proof.
  split.
  - apply (@bool_decide_unpack _ (NoDup_dec _)). vm_compute. exact I.
  - repeat constructor.
Qed.

Lemma dq_frame_columns :
  Forall (λ c, is_Some (get_column dq_frame c) ∧ String.prefix "_" c = false)
         columns_to_analyze.
Proof. repeat (constructor; [split; [by eexists|done]|]). constructor. Qed.

Lemma calculate_completeness_flags_witness :
  ∃ df',
    calculate_completeness id dq_frame (Some columns_to_analyze) = (df', None)
    ∧ well_formed df' ∧ n_rows df' = n_rows dq_frame
    ∧ (∀ name, name ∉ completeness_name <$> columns_to_analyze →
         get_column df' name = get_column dq_frame name)
    ∧ (∀ c col, c ∈ columns_to_analyze → get_column dq_frame c = Some col →
         get_column df' (completeness_name c)
         = Some ((λ x, Some (id (if is_missing id x then "Missing"
                                 else "Completed"))) <$> col)).
Proof.
  apply (calculate_completeness_flags id dq_frame columns_to_analyze).
  - apply dq_frame_well_formed.
  - apply dq_frame_columns.
Defined.

Lemma calculate_uniqueness_flags_witness :
  ∃ df',
    calculate_uniqueness id dq_frame (Some columns_to_analyze) = (df', None)
    ∧ well_formed df' ∧ n_rows df' = n_rows dq_frame
    ∧ (∀ name, name ∉ uniqueness_name <$> columns_to_analyze →
         get_column df' name = get_column dq_frame name)
    ∧ (∀ c col, c ∈ columns_to_analyze → get_column dq_frame c = Some col →
         ∃ flags,
           get_column df' (uniqueness_name c) = Some flags
           ∧ length flags = length col
           ∧ ∀ i x, col !! i = Some x →
               (flags !! i = Some (Some (id "Unique"))
                ∨ flags !! i = Some (Some (id "Duplicates")))
               ∧ (flags !! i = Some (Some (id "Unique"))
                  ↔ ∃ v, x = Some v ∧ ∀ j, col !! j = Some (Some v) → j = i)).
Proof.
  apply (calculate_uniqueness_flags id dq_frame columns_to_analyze).
  - apply dq_frame_well_formed.
  - apply dq_frame_columns.
  - discriminate.
Defined.

Lemma dq_default_columns_witness :
  (∃ df',
     calculate_completeness id dq_frame None = (df', None)
     ∧ well_formed df'
     ∧ default_columns df' = default_columns dq_frame
     ∧ (∀ name, String.prefix "_" name = false →
          get_column df' name = get_column dq_frame name)
     ∧ calculate_completeness id df' None = (df', None))
  ∧ (∃ df',
       calculate_uniqueness id dq_frame None = (df', None)
       ∧ well_formed df'
       ∧ default_columns df' = default_columns dq_frame
       ∧ (∀ name, String.prefix "_" name = false →
            get_column df' name = get_column dq_frame name)
       ∧ calculate_uniqueness id df' None = (df', None)).
Proof. apply (dq_default_columns id dq_frame). apply dq_frame_well_formed. Defined.

Lemma dq_missing_column_witness :
  (∃ df',
     calculate_completeness id dq_frame (Some (["label"] ++ "code" :: ["LIBELLE COMMERCIAL"]))
       = (df', Some (KeyError "code"))
     ∧ get_column df' (completeness_name "code")
       = Some (replicate (n_rows dq_frame) (Some (id "Completed")))
     ∧ (∀ c1 col, c1 ∈ ["label"] → get_column dq_frame c1 = Some col →
          get_column df' (completeness_name c1)
          = Some (completeness_flags id col))
     ∧ (∀ name, name ∉ completeness_name <$> (["label"] ++ ["code"]) →
          get_column df' name = get_column dq_frame name))
  ∧ (∃ df',
       calculate_uniqueness id dq_frame (Some (["label"] ++ "code" :: ["LIBELLE COMMERCIAL"]))
         = (df', Some (KeyError "code"))
       ∧ (∀ c1 col, c1 ∈ ["label"] → get_column dq_frame c1 = Some col →
            get_column df' (uniqueness_name c1)
            = Some (uniqueness_flag id col <$> col))
       ∧ (∀ name, name ∉ uniqueness_name <$> ["label"] →
            get_column df' name = get_column dq_frame name)).
Proof.
  apply (dq_missing_column id dq_frame ["label"] ["LIBELLE COMMERCIAL"] "code").
  - apply dq_frame_well_formed.
  - repeat (constructor; [split; [by eexists|done]|]). constructor.
  - reflexivity.
  - reflexivity.
Defined.

(** The frame of the example after both analyses. *)
Example dq_frame_analysed :
  calculate_uniqueness id
    (calculate_completeness id dq_frame (Some columns_to_analyze)).1
    (Some columns_to_analyze)
  = (Frame 4
         [("LIBELLE COMMERCIAL", [Some "Eau 5 L"; Some ""; None; Some "Eau 5 L"]);
          ("label", [Some "eau X L"; Some "sel"; None; Some "eau X L"]);
          ("_LIBELLE COMMERCIAL_completeness",
           [Some "Completed"; Some "Missing"; Some "Missing"; Some "Completed"]);
          ("_label_completeness",
           [Some "Completed"; Some "Completed"; Some "Missing"; Some "Completed"]);
          ("_LIBELLE COMMERCIAL_uniqueness",
           [Some "Duplicates"; Some "Unique"; Some "Duplicates"; Some "Duplicates"]);
          ("_label_uniqueness",
           [Some "Duplicates"; Some "Unique"; Some "Duplicates"; Some "Duplicates"])],
     None).
Proof. reflexivity. Qed.

(** The driver on a file of six rows. *)

Lemma sample_file_loaded : load_data CLEAR (Ok sample_file) = Ok sample_loaded.
Proof. reflexivity. Qed.

Example process_sample :
  (process id sample_similarity sample_draws CLEAR (Ok sample_file) (1 # 2)
     [Member LEVENSHTEIN] start).1
  = Ok [FinalRow (Some "") (Some "cluster_0") 4 (Some "") (Some 1) (Some "") None;
        FinalRow (Some "BENNE") (Some "cluster_1") 0 (Some "benne x mx") (Some 3)
          (Some "BENNE Xm3") None;
        FinalRow (Some "BENNE") (Some "cluster_1") 1 (Some "benne xmx bis") (Some 3)
          (Some "benne Xm3 bis") None;
        FinalRow (Some "BENNE") (Some "cluster_1") 5 (Some "benne xmx") (Some 3)
          (Some "benne Xm3") None;
        FinalRow None None 3 (Some "Ne plus utiliser caisse") None None
          (Some "NE PLUS UTILISER");
        FinalRow None None 2 (Some "Sac X L DryRun") None None (Some "DRYRUN")].
Proof. vm_compute. reflexivity. Qed.

Example rename_clusters_sample :
  rename_clusters CCAP sample_dict None sample_clustered
  = Ok [FinalRow (Some "Eau XL") (Some "cluster_10") 0 (Some "eau x l") (Some 2)
          (Some "Eau XL") None;
        FinalRow (Some "Eau XL") (Some "cluster_10") 3 (Some "eau x l bis") (Some 2)
          (Some "eau XL bis") None;
        FinalRow (Some "SEL") (Some "cluster_2") 1 (Some "sel") (Some 1)
          (Some "SEL") None].
Proof. vm_compute. reflexivity. Qed.

Lemma cleanse_data_rejects_witness :
  ∃ rejected,
    rejected_data_df (cleanse_data id CLEAR sample_loaded) = Some rejected
    ∧ (cs_key <$> df_processed (cleanse_data id CLEAR sample_loaded))
        ++ (cs_key <$> rejected) ≡ₚ ld_key <$> sample_loaded
    ∧ cs_key <$> df_processed (cleanse_data id CLEAR sample_loaded)
        `sublist_of` ld_key <$> sample_loaded
    ∧ Forall (λ r, Raison_Rejet r = None
                   ∧ str_contains "ne plus utiliser" (cs_label r) = false
                   ∧ str_contains "dryrun" (cs_label r) = false)
             (df_processed (cleanse_data id CLEAR sample_loaded))
    ∧ Forall (λ r, if str_contains "dryrun" (cs_label r)
                   then Raison_Rejet r = Some "DRYRUN"
                   else str_contains "ne plus utiliser" (cs_label r) = true
                        ∧ Raison_Rejet r = Some "NE PLUS UTILISER")
             rejected
    ∧ ∀ r0, r0 ∈ sample_loaded →
        let l := process_label_clear id (ld_commercial r0) in
        if str_contains "dryrun" l
        then CleansedRow (ld_key r0) l (Some "DRYRUN") ∈ rejected
        else if str_contains "ne plus utiliser" l
             then CleansedRow (ld_key r0) l (Some "NE PLUS UTILISER") ∈ rejected
             else CleansedRow (ld_key r0) (Str.lower l) None
                    ∈ df_processed (cleanse_data id CLEAR sample_loaded).
Proof. apply (cleanse_data_rejects id sample_loaded). discriminate. Defined.

Lemma rename_clusters_spec_witness :
  ∃ merged,
    rename_clusters CCAP sample_dict None sample_clustered = Ok (merged ++ [])
    ∧ clustered_part <$> merged
      ≡ₚ filter (λ r, is_Some (o_cluster_id r)) sample_clustered
    ∧ StronglySorted str_le (omap f_cluster_id merged)
    ∧ (∀ c, group_rows o_cluster_id (clustered_part <$> merged) c
            = group_rows o_cluster_id sample_clustered c)
    ∧ Forall (λ f, ∃ c w,
                f_cluster_id f = Some c
                ∧ find_common_words_with_order
                    (cluster_labels sample_dict sample_clustered c) = Ok w
                ∧ final_label f = Some (postprocess_final_label (Some w))
                ∧ labelpro f
                  = Some (postprocess_final_label
                            (labelpro_of sample_dict (clustered_part f)))
                ∧ f_reject f = None)
             merged.
Proof.
  apply (rename_clusters_spec sample_dict CCAP None sample_clustered).
  - exists (OutputRow 1 (Some "sel") (Some "cluster_2") (Some 1)).
    split; [in_list|by eexists].
  - apply (proj1 (Forall_forall
                    (λ r, is_Some (o_cluster_id r)
                          → is_Some (labelpro_of sample_dict r))
                    sample_clustered)).
    by_decide.
  - discriminate.
Defined.

Lemma rename_clusters_missing_label_witness :
  rename_clusters CCAP sample_dict None
    (sample_clustered ++ [OutputRow 4 (Some "sable") (Some "cluster_2") (Some 2)])
  = Raise (AttributeError "'float' object has no attribute 'lower'").
Proof.
  apply (rename_clusters_missing_label sample_dict CCAP None _
           (OutputRow 4 (Some "sable") (Some "cluster_2") (Some 2))).
  - in_list.
  - by eexists.
  - reflexivity.
Defined.

Lemma process_result_witness :
  ∃ out w',
    process id sample_similarity sample_draws CLEAR (Ok sample_file) (1 # 2)
      (Member <$> [LEVENSHTEIN]) start
    = (Ok out, w')
    ∧ f_key <$> out ≡ₚ seq 0 (length sample_loaded)
    ∧ Forall (λ f, match f_reject f with
                   | None =>
                       (∃ i, f_cluster_id f = Some (cluster_name i))
                       ∧ is_Some (f_cluster_size f)
                       ∧ is_Some (final_label f) ∧ is_Some (labelpro f)
                   | Some reason =>
                       CLEAR = CLEAR
                       ∧ (reason = "DRYRUN" ∨ reason = "NE PLUS UTILISER")
                       ∧ f_cluster_id f = None ∧ final_label f = None
                   end) out
    ∧ (∀ f f', f ∈ out → f' ∈ out → is_Some (f_cluster_id f) →
         f_cluster_id f = f_cluster_id f' → final_label f = final_label f').
Proof.
  apply (process_result id sample_similarity sample_draws CLEAR (Ok sample_file)
           sample_loaded (1 # 2) [LEVENSHTEIN] start).
  - reflexivity.
  - discriminate.
  - vm_compute. discriminate.
Defined.
